(** * Orchestration core of the background-agents CLI

    A shallow embedding of the TypeScript sources under [packages/cli/src]:
    the graph engine ([orchestrator/dag.ts]), the output extractor
    ([util/json-extractor.ts]), the retry policy ([util/retry.ts]), the
    project store ([state/project.ts]), the planning and integration phase
    controllers and the execution scheduler, together with the properties
    the specification states about them.

    Conventions of the embedding.
    - JavaScript strings are [string]; a character stands for one code unit
      in the range 0..255.
    - JavaScript numbers that the code uses as counters or timestamps are
      integers ([Z] or [nat]); no floating point value is modelled.
    - A [Map], [Set] or memo table is a [gmap] or [gset]; an object whose
      enumeration order the code observes ([Object.values]) is an
      association list in enumeration order.
    - A function that can throw returns [result]; loops that the source
      writes as [for (;;)] or as unbounded recursion take fuel and the
      theorems show that the fuel supplied is enough. *)

From Stdlib Require Import ZArith Lia String Ascii List Permutation Sorted.
From Stdlib Require Import DecimalString DecimalZ DecimalPos DecimalN DecimalFacts.
From stdpp Require Import gmap strings list fin_maps.

Set Warnings "-register-all,-clear-no-such-hyp".

(** ** JavaScript values *)

Module JS.

(** The values that cross [JSON.parse], [JSON.stringify] and the event
    payloads ([event.data as Record<string, unknown>]). *)
Inductive value : Type :=
  | VUndefined
  | VNull
  | VBool (b : bool)
  | VNum (n : Z)
  | VNumLex (lexeme : string)
  | VStr (s : string)
  | VArr (items : list value)
  | VObj (fields : list (string * value)).

(** Property read [o.k] among the properties that the object holds
    itself: [undefined] when the property is absent or the receiver is
    a primitive value.  On [null] and [undefined] JavaScript throws
    instead: [get] is for receivers that are neither. *)
Fixpoint assoc (k : string) (fields : list (string * value)) : value :=
  match fields with
  | [] => VUndefined
  | (k', v) :: rest => if String.eqb k k' then v else assoc k rest
  end.

Definition get (o : value) (k : string) : value :=
  match o with
  | VObj fields => assoc k fields
  | _ => VUndefined
  end.

(** ToBoolean. *)
Definition truthy (v : value) : bool :=
  match v with
  | VUndefined | VNull => false
  | VBool b => b
  | VNum n => negb (n =? 0)%Z
  | VNumLex _ => true
  | VStr s => negb (String.eqb s EmptyString)
  | VArr _ | VObj _ => true
  end.

(** [typeof v === "string"]. *)
Definition isString (v : value) : bool :=
  match v with VStr _ => true | _ => false end.

(** Decimal rendering of an integer, as [String(n)] and [JSON.stringify]
    print it. *)
Definition showZ (n : Z) : string := NilZero.string_of_int (Z.to_int n).

Definition join (sep : string) (parts : list string) : string :=
  match parts with
  | [] => EmptyString
  | p :: ps => fold_left (fun acc q => acc +:+ sep +:+ q) ps p
  end.

(** [String(v)]. *)
Fixpoint toString (v : value) : string :=
  match v with
  | VUndefined => "undefined"
  | VNull => "null"
  | VBool true => "true"
  | VBool false => "false"
  | VNum n => showZ n
  | VNumLex s => s
  | VStr s => s
  | VArr items =>
      join "," (map (fun x => match x with
                              | VUndefined | VNull => EmptyString
                              | _ => toString x
                              end) items)
  | VObj _ => "[object Object]"
  end.

(** [v === false]. *)
Definition isFalse (v : value) : bool :=
  match v with VBool false => true | _ => false end.

End JS.

(** ** [JSON.parse] and [JSON.stringify] *)

Module JSON.
Import JS.

Definition dq : ascii := "034"%char.   (* the double quote *)
Definition bs : ascii := "092"%char.   (* the backslash *)
Definition nl : ascii := "010"%char.   (* line feed *)

(** *** Parsing *)

(** JSON white space: space, tab, line feed, carriage return. *)
Definition isWs (c : ascii) : bool :=
  (c =? " ")%char || (c =? "009")%char || (c =? "010")%char || (c =? "013")%char.

Fixpoint skipWs (s : string) : string :=
  match s with
  | String c r => if isWs c then skipWs r else s
  | EmptyString => s
  end.

Definition isDigit (c : ascii) : bool :=
  (48 <=? nat_of_ascii c) && (nat_of_ascii c <=? 57).

Fixpoint spanDigits (s : string) : string * string :=
  match s with
  | String c r =>
      if isDigit c then let '(ds, r') := spanDigits r in (String c ds, r')
      else (EmptyString, s)
  | EmptyString => (EmptyString, s)
  end.

Definition isEmpty (s : string) : bool :=
  match s with EmptyString => true | _ => false end.

(** [int = "0" | digit1-9 digits]. *)
Definition lexInt (s : string) : option (string * string) :=
  match s with
  | String c r =>
      if (c =? "0")%char then Some (String c EmptyString, r)
      else if isDigit c then let '(ds, r') := spanDigits r in Some (String c ds, r')
      else None
  | EmptyString => None
  end.

(** [frac = "." digits+], optional. *)
Definition lexFrac (s : string) : option (string * string) :=
  match s with
  | String c r =>
      if (c =? ".")%char then
        let '(ds, r') := spanDigits r in
        if isEmpty ds then None else Some (String c ds, r')
      else Some (EmptyString, s)
  | EmptyString => Some (EmptyString, s)
  end.

(** [exp = ("e" | "E") ("+" | "-")? digits+], optional. *)
Definition lexExp (s : string) : option (string * string) :=
  match s with
  | String c r =>
      if (c =? "e")%char || (c =? "E")%char then
        let '(sign, r1) :=
          match r with
          | String c1 r1 =>
              if (c1 =? "+")%char || (c1 =? "-")%char
              then (String c1 EmptyString, r1) else (EmptyString, r)
          | EmptyString => (EmptyString, r)
          end in
        let '(ds, r2) := spanDigits r1 in
        if isEmpty ds then None else Some (String c (sign +:+ ds), r2)
      else Some (EmptyString, s)
  | EmptyString => Some (EmptyString, s)
  end.

(** A number token.  An integer literal becomes [VNum]; a literal with a
    fraction or an exponent is kept as its lexeme. *)
Definition parseNumber (s : string) : option (value * string) :=
  let '(sign, s1) :=
    match s with
    | String c r => if (c =? "-")%char then (String c EmptyString, r)
                    else (EmptyString, s)
    | EmptyString => (EmptyString, s)
    end in
  match lexInt s1 with
  | None => None
  | Some (ip, s2) =>
      match lexFrac s2 with
      | None => None
      | Some (fp, s3) =>
          match lexExp s3 with
          | None => None
          | Some (ep, s4) =>
              if isEmpty fp && isEmpty ep then
                match NilZero.int_of_string (sign +:+ ip) with
                | Some d => Some (VNum (Z.of_int d), s4)
                | None => None
                end
              else Some (VNumLex (sign +:+ ip +:+ fp +:+ ep), s4)
          end
      end
  end.

Definition hexVal (c : ascii) : option nat :=
  let n := nat_of_ascii c in
  if (48 <=? n) && (n <=? 57) then Some (n - 48)
  else if (97 <=? n) && (n <=? 102) then Some (n - 87)
  else if (65 <=? n) && (n <=? 70) then Some (n - 55)
  else None.

(** [\uXXXX]; only code units up to 0x00FF have a character here. *)
Definition hex4 (h1 h2 h3 h4 : ascii) : option ascii :=
  match hexVal h1, hexVal h2, hexVal h3, hexVal h4 with
  | Some 0, Some 0, Some a, Some b => Some (ascii_of_nat (16 * a + b))
  | _, _, _, _ => None
  end.

Definition unescape (c : ascii) : option ascii :=
  if (c =? dq)%char then Some dq
  else if (c =? bs)%char then Some bs
  else if (c =? "/")%char then Some "/"%char
  else if (c =? "b")%char then Some "008"%char
  else if (c =? "f")%char then Some "012"%char
  else if (c =? "n")%char then Some "010"%char
  else if (c =? "r")%char then Some "013"%char
  else if (c =? "t")%char then Some "009"%char
  else None.

(** The characters of a string token after its opening quote: the decoded
    content and the input after the closing quote. *)
Fixpoint parseChars (s : string) : option (string * string) :=
  match s with
  | EmptyString => None
  | String c r =>
      if (c =? dq)%char then Some (EmptyString, r)
      else if (c =? bs)%char then
        match r with
        | String e r1 =>
            match unescape e with
            | Some ch =>
                match parseChars r1 with
                | Some (str, rest) => Some (String ch str, rest)
                | None => None
                end
            | None =>
                if (e =? "u")%char then
                  match r1 with
                  | String h1 (String h2 (String h3 (String h4 r2))) =>
                      match hex4 h1 h2 h3 h4 with
                      | Some ch =>
                          match parseChars r2 with
                          | Some (str, rest) => Some (String ch str, rest)
                          | None => None
                          end
                      | None => None
                      end
                  | _ => None
                  end
                else None
            end
        | EmptyString => None
        end
      else if nat_of_ascii c <? 32 then None
      else
        match parseChars r with
        | Some (str, rest) => Some (String c str, rest)
        | None => None
        end
  end.

(** [obj[k] = v] while an object literal is read: a repeated key keeps its
    place and takes the later value. *)
Fixpoint setField (k : string) (v : value) (fields : list (string * value))
  : list (string * value) :=
  match fields with
  | [] => [(k, v)]
  | (k', v') :: rest =>
      if String.eqb k k' then (k', v) :: rest
      else (k', v') :: setField k v rest
  end.

Definition stripPrefix (p s : string) : option string :=
  if String.prefix p s
  then Some (String.substring (String.length p) (String.length s - String.length p) s)
  else None.

Fixpoint parseValue (fuel : nat) (s : string) : option (value * string) :=
  match fuel with
  | O => None
  | S fuel' =>
      match skipWs s with
      | EmptyString => None
      | String c r =>
          if (c =? "{")%char then
            match skipWs r with
            | String c' r' =>
                if (c' =? "}")%char then Some (VObj [], r')
                else parseMembers fuel' r []
            | EmptyString => None
            end
          else if (c =? "[")%char then
            match skipWs r with
            | String c' r' =>
                if (c' =? "]")%char then Some (VArr [], r')
                else parseElements fuel' r []
            | EmptyString => None
            end
          else if (c =? dq)%char then
            match parseChars r with
            | Some (str, rest) => Some (VStr str, rest)
            | None => None
            end
          else
            match stripPrefix "true" (String c r) with
            | Some rest => Some (VBool true, rest)
            | None =>
            match stripPrefix "false" (String c r) with
            | Some rest => Some (VBool false, rest)
            | None =>
            match stripPrefix "null" (String c r) with
            | Some rest => Some (VNull, rest)
            | None => parseNumber (String c r)
            end end end
      end
  end
with parseElements (fuel : nat) (s : string) (acc : list value)
  : option (value * string) :=
  match fuel with
  | O => None
  | S fuel' =>
      match parseValue fuel' s with
      | Some (v, r) =>
          match skipWs r with
          | String c r' =>
              if (c =? ",")%char then parseElements fuel' r' (acc ++ [v])
              else if (c =? "]")%char then Some (VArr (acc ++ [v]), r')
              else None
          | EmptyString => None
          end
      | None => None
      end
  end
with parseMembers (fuel : nat) (s : string) (acc : list (string * value))
  : option (value * string) :=
  match fuel with
  | O => None
  | S fuel' =>
      match skipWs s with
      | String c r =>
          if (c =? dq)%char then
            match parseChars r with
            | Some (k, r1) =>
                match skipWs r1 with
                | String c1 r2 =>
                    if (c1 =? ":")%char then
                      match parseValue fuel' r2 with
                      | Some (v, r3) =>
                          match skipWs r3 with
                          | String c3 r4 =>
                              if (c3 =? ",")%char
                              then parseMembers fuel' r4 (setField k v acc)
                              else if (c3 =? "}")%char
                              then Some (VObj (setField k v acc), r4)
                              else None
                          | EmptyString => None
                          end
                      | None => None
                      end
                    else None
                | EmptyString => None
                end
            | None => None
            end
          else None
      | EmptyString => None
      end
  end.

(** [JSON.parse(text)]; [None] stands for the [SyntaxError].  The model
    covers the texts that the strings of this file can hold and the
    values that the program reads from them: an escape [\uXXXX] above
    [00FF] has no character here and is not accepted; a number that is
    not written as an integer keeps its lexeme ([VNumLex]) and an integer
    is exact whatever its size; the members of an object stay in the
    order of the text, also those whose key is an array index. *)
Definition parse (text : string) : option value :=
  match parseValue (S (2 * String.length text)) text with
  | Some (v, rest) => if isEmpty (skipWs rest) then Some v else None
  | None => None
  end.

(** *** Printing *)

Definition hexDigit (n : nat) : ascii :=
  if n <? 10 then ascii_of_nat (48 + n) else ascii_of_nat (87 + n).

(** QuoteJSONString, one code unit. *)
Definition escapeChar (c : ascii) : string :=
  let two (e : ascii) := String bs (String e EmptyString) in
  if (c =? dq)%char then two dq
  else if (c =? bs)%char then two bs
  else if (c =? "008")%char then two "b"%char
  else if (c =? "012")%char then two "f"%char
  else if (c =? "010")%char then two "n"%char
  else if (c =? "013")%char then two "r"%char
  else if (c =? "009")%char then two "t"%char
  else if nat_of_ascii c <? 32 then
    String bs (String "u" (String "0" (String "0"
      (String (hexDigit (nat_of_ascii c / 16))
         (String (hexDigit (nat_of_ascii c mod 16)) EmptyString)))))
  else String c EmptyString.

Fixpoint quoteBody (s : string) : string :=
  match s with
  | EmptyString => String dq EmptyString
  | String c r => escapeChar c +:+ quoteBody r
  end.

Definition quoteJSONString (s : string) : string := String dq (quoteBody s).

(** The separator [",\n" + indent] between the members of an array or
    object, and the closing [ "\n" + stepback ]. *)
Definition newline (indent : string) : string := String nl indent.

Definition wrap (opening closing : ascii) (stepback indent : string)
  (partial : list string) : string :=
  match partial with
  | [] => String opening (String closing EmptyString)
  | _ =>
      String opening
        (newline indent +:+ join (String "," (newline indent)) partial
         +:+ newline stepback +:+ String closing EmptyString)
  end.

(** SerializeJSONProperty with a two-space gap; [None] is [undefined]. *)
Fixpoint serialize (indent : string) (v : value) : option string :=
  match v with
  | VUndefined => None
  | VNull => Some "null"
  | VBool true => Some "true"
  | VBool false => Some "false"
  | VNum n => Some (showZ n)
  | VNumLex s => Some s
  | VStr s => Some (quoteJSONString s)
  | VArr items =>
      let inner := indent +:+ "  " in
      Some (wrap "[" "]" indent inner
              (map (fun x => default "null" (serialize inner x)) items))
  | VObj fields =>
      let inner := indent +:+ "  " in
      Some (wrap "{" "}" indent inner
              (flat_map (fun kv =>
                           match serialize inner (snd kv) with
                           | Some str => [quoteJSONString (fst kv) +:+ ": " +:+ str]
                           | None => []
                           end) fields))
  end.

(** [JSON.stringify(v, null, 2)] for a value that is not [undefined]. *)
Definition stringify (v : value) : string :=
  default "undefined" (serialize EmptyString v).

End JSON.

(** ** Outcomes of fallible code *)

(** A JavaScript [Error] is identified with its message. *)
Inductive result (A : Type) : Type :=
  | Ok (a : A)
  | Err (message : string).
Arguments Ok {A} a.
Arguments Err {A} message.

(** ** Data model ([state/types.ts]) *)

Inductive Complexity := small | medium | large.

Record TaskNode := {
  id : string;
  title : string;
  description : string;
  fileScope : list string;
  dependsOn : list string;
  complexity : Complexity
}.

Record Plan := {
  summary : string;
  tasks : list TaskNode
}.

Inductive TaskStatus := pending | running | completed | failed | skipped.

Inductive ProjectPhase :=
  | phase_planning | phase_approval | phase_executing
  | phase_integrating | phase_completed | phase_failed.

(** The four-valued status of the planning and integration sub-states. *)
Inductive StepStatus := st_pending | st_running | st_completed | st_failed.

#[global] Instance Complexity_eq_dec : EqDecision Complexity.
Proof. solve_decision. Defined.
#[global] Instance TaskStatus_eq_dec : EqDecision TaskStatus.
Proof. solve_decision. Defined.
#[global] Instance ProjectPhase_eq_dec : EqDecision ProjectPhase.
Proof. solve_decision. Defined.
#[global] Instance StepStatus_eq_dec : EqDecision StepStatus.
Proof. solve_decision. Defined.
#[global] Instance TaskNode_eq_dec : EqDecision TaskNode.
Proof. solve_decision. Defined.

Record TaskExecution := {
  taskId : string;
  status : TaskStatus;
  sessionId : option string;
  branchName : option string;
  startedAt : option Z;
  completedAt : option Z;
  exec_summary : option string;
  error : option string;
  retryCount : Z
}.

Record PlanningState := {
  planning_sessionId : option string;
  planning_model : string;
  planning_status : StepStatus;
  planning_error : option string
}.

Record IntegrationState := {
  integration_sessionId : option string;
  integration_status : StepStatus;
  mergedBranch : option string;
  prUrl : option string;
  integration_error : option string
}.

Record Repo := { owner : string; name : string }.

(** [tasks_of] is the [Record<string, TaskExecution>] of the source, held
    in the order in which [Object.values] enumerates it. *)
Record ProjectState := {
  project_id : string;
  createdAt : Z;
  updatedAt : Z;
  goal : string;
  repo : Repo;
  phase : ProjectPhase;
  planning : PlanningState;
  plan : option Plan;
  tasks_of : list (string * TaskExecution);
  integration : IntegrationState
}.

(** ** Graph engine ([orchestrator/dag.ts]) *)

Module Dag.

(** [new Map(tasks.map((t) => [t.id, t]))]: a later entry with the same
    key replaces an earlier one. *)
Definition taskMap (ts : list TaskNode) : gmap string TaskNode :=
  fold_left (fun m t => <[id t := t]> m) ts ∅.

(** [new Set(tasks.map((t) => t.id))]. *)
Definition idSet (ts : list TaskNode) : gset string :=
  list_to_set (map id ts).

Definition quote (s : string) : string :=
  String "034"%char (s +:+ String "034"%char EmptyString).

(** First loop of [validateDag]: one message per task whose id was seen
    earlier in the list. *)
Fixpoint duplicateErrors (seen : gset string) (ts : list TaskNode) : list string :=
  match ts with
  | [] => []
  | t :: rest =>
      (if decide (id t ∈ seen)
       then ["Duplicate task ID: " +:+ quote (id t)]
       else [])
      ++ duplicateErrors ({[id t]} ∪ seen) rest
  end.

(** Second loop of [validateDag]: one message per dependency reference
    whose target is not the id of any task. *)
Definition missingErrorsOf (ids : gset string) (t : TaskNode) : list string :=
  flat_map (fun dep =>
              if decide (dep ∈ ids) then []
              else ["Task " +:+ quote (id t) +:+ " depends on unknown task " +:+ quote dep])
           (dependsOn t).

Definition missingErrors (ids : gset string) (ts : list TaskNode) : list string :=
  flat_map (missingErrorsOf ids) ts.

(** *** [detectCycles] *)

(** The mutable variables that [strongConnect] closes over.  [stack] has
    its top at the head. *)
Record tarjan := {
  index : nat;
  indices : gmap string nat;
  lowlinks : gmap string nat;
  onStack : gset string;
  stack : list string;
  cycleNodes : list string
}.

Definition tarjan_init : tarjan :=
  {| index := 0; indices := ∅; lowlinks := ∅; onStack := ∅;
     stack := []; cycleNodes := [] |}.

(** [adj.get(id) ?? []], where [adj] was filled by [adj.set(task.id,
    task.dependsOn)] for each task in turn. *)
Definition adj (ts : list TaskNode) (x : string) : list string :=
  match taskMap ts !! x with
  | Some t => dependsOn t
  | None => []
  end.

(** [lowlinks.get(id)!] and [indices.get(id)!]. *)
Definition getN (m : gmap string nat) (k : string) : nat := default 0 (m !! k).

Definition set_lowlink (k : string) (v : nat) (s : tarjan) : tarjan :=
  {| index := index s; indices := indices s;
     lowlinks := <[k := v]> (lowlinks s);
     onStack := onStack s; stack := stack s; cycleNodes := cycleNodes s |}.

(** Entry of [strongConnect]: number the node and push it. *)
Definition enter (x : string) (s : tarjan) : tarjan :=
  {| index := S (index s);
     indices := <[x := index s]> (indices s);
     lowlinks := <[x := index s]> (lowlinks s);
     onStack := {[x]} ∪ onStack s;
     stack := x :: stack s;
     cycleNodes := cycleNodes s |}.

(** The [do ... while (w !== id)] loop: pops up to and including [x];
    returns the component in pop order, the remaining stack and the
    remaining [onStack] set.  [None] if [x] is not on the stack. *)
Fixpoint popComponent (x : string) (st : list string) (on : gset string)
  : option (list string * list string * gset string) :=
  match st with
  | [] => None
  | w :: rest =>
      if decide (w = x) then Some ([w], rest, on ∖ {[w]})
      else match popComponent x rest (on ∖ {[w]}) with
           | Some (comp, rest', on') => Some (w :: comp, rest', on')
           | None => None
           end
  end.

(** Exit of [strongConnect]: if the node is the root of its component,
    pop the component and report it when it has more than one node. *)
Definition leave (x : string) (s : tarjan) : option tarjan :=
  if decide (getN (lowlinks s) x = getN (indices s) x) then
    match popComponent x (stack s) (onStack s) with
    | Some (comp, rest, on) =>
        Some {| index := index s; indices := indices s; lowlinks := lowlinks s;
                onStack := on; stack := rest;
                cycleNodes := if decide (1 < length comp)
                              then cycleNodes s ++ comp else cycleNodes s |}
    | None => None
    end
  else Some s.

(** The body of [for (const dep of adj.get(id) ?? [])] in the activation
    of [strongConnect] for [x]; [recur] is the recursive call. *)
Definition onDep (recur : string -> tarjan -> option tarjan) (x : string)
  (s : tarjan) (dep : string) : option tarjan :=
  match indices s !! dep with
  | None =>
      match recur dep s with
      | Some s' =>
          Some (set_lowlink x (Nat.min (getN (lowlinks s') x)
                                       (getN (lowlinks s') dep)) s')
      | None => None
      end
  | Some di =>
      if decide (dep ∈ onStack s)
      then Some (set_lowlink x (Nat.min (getN (lowlinks s) x) di) s)
      else Some s
  end.

(** A [for ... of] loop whose body can fail. *)
Fixpoint forEachM {S A : Type} (body : S -> A -> option S) (xs : list A) (s : S)
  : option S :=
  match xs with
  | [] => Some s
  | x :: rest =>
      match body s x with
      | Some s' => forEachM body rest s'
      | None => None
      end
  end.

(** [strongConnect]; [None] when the fuel (recursion depth) runs out. *)
Fixpoint strongConnect (ts : list TaskNode) (fuel : nat) (x : string) (s : tarjan)
  : option tarjan :=
  match fuel with
  | O => None
  | S fuel' =>
      match forEachM (onDep (strongConnect ts fuel') x) (adj ts x) (enter x s) with
      | Some s' => leave x s'
      | None => None
      end
  end.

(** The final loop of [detectCycles] over the tasks. *)
Definition detectStep (ts : list TaskNode) (fuel : nat) (s : tarjan) (t : TaskNode)
  : option tarjan :=
  match indices s !! id t with
  | None => strongConnect ts fuel (id t) s
  | Some _ => Some s
  end.

Definition detectLoop (ts : list TaskNode) (fuel : nat) (todo : list TaskNode)
  (s : tarjan) : option tarjan :=
  forEachM (detectStep ts fuel) todo s.

(** Every id that can become a node: the task ids and the ids they name. *)
Definition allIds (ts : list TaskNode) : list string :=
  map id ts ++ flat_map dependsOn ts.

(** The recursion of [strongConnect] is never deeper than the number of
    nodes, so this much fuel is enough (lemma [detectCycles_total]). *)
Definition detectFuel (ts : list TaskNode) : nat := S (length (allIds ts)).

Definition detectCycles (ts : list TaskNode) : option (list string) :=
  match detectLoop ts (detectFuel ts) ts tarjan_init with
  | Some s => Some (cycleNodes s)
  | None => None
  end.

Record validation := { valid : bool; errors : list string }.

Definition cycleError (cyc : list string) : string :=
  "Cycle detected involving tasks: " +:+ JS.join ", " cyc.

Definition validateDag (ts : list TaskNode) : option validation :=
  match detectCycles ts with
  | Some cyc =>
      let errs :=
        duplicateErrors ∅ ts ++ missingErrors (idSet ts) ts
        ++ (if decide (0 < length cyc) then [cycleError cyc] else []) in
      Some {| valid := bool_decide (length errs = 0); errors := errs |}
  | None => None
  end.

(** *** [computeWaves] *)

(** [Math.max(...xs)] on a non-empty list of naturals. *)
Definition maxList (xs : list nat) : nat := fold_right Nat.max 0 xs.

(** [xs.map(f)] for an [f] that threads a state and can fail. *)
Fixpoint mapM_state {S A B : Type} (f : A -> S -> option (B * S)) (xs : list A) (s : S)
  : option (list B * S) :=
  match xs with
  | [] => Some ([], s)
  | x :: rest =>
      match f x s with
      | Some (y, s') =>
          match mapM_state f rest s' with
          | Some (ys, s'') => Some (y :: ys, s'')
          | None => None
          end
      | None => None
      end
  end.

(** [getWave] with its memo table [waveIndex] threaded through.  [None]
    when [taskMap.get(id)] is undefined (the source then throws) or when
    the fuel runs out. *)
Fixpoint getWave (tm : gmap string TaskNode) (fuel : nat) (x : string)
  (waveIndex : gmap string nat) : option (nat * gmap string nat) :=
  match fuel with
  | O => None
  | S fuel' =>
      match waveIndex !! x with
      | Some w => Some (w, waveIndex)
      | None =>
          match tm !! x with
          | None => None
          | Some task =>
              if bool_decide (length (dependsOn task) = 0)
              then Some (0, <[x := 0]> waveIndex)
              else
                match mapM_state (getWave tm fuel') (dependsOn task) waveIndex with
                | Some (ws, wi) =>
                    let wave := maxList ws + 1 in
                    Some (wave, <[x := wave]> wi)
                | None => None
                end
          end
      end
  end.

(** First loop of [computeWaves]. *)
Definition fillWaves (tm : gmap string TaskNode) (fuel : nat)
  (todo : list TaskNode) (wi : gmap string nat) : option (gmap string nat) :=
  forEachM (fun wi t => option_map snd (getWave tm fuel (id t) wi)) todo wi.

(** [while (waves.length <= w) waves.push([]); waves[w].push(task)]. *)
Definition placeTask (waves : list (list TaskNode)) (w : nat) (t : TaskNode)
  : list (list TaskNode) :=
  alter (fun g => g ++ [t]) w (waves ++ replicate (S w - length waves) []).

(** Second loop of [computeWaves]. *)
Fixpoint groupWaves (wi : gmap string nat) (todo : list TaskNode)
  (waves : list (list TaskNode)) : option (list (list TaskNode)) :=
  match todo with
  | [] => Some waves
  | t :: rest =>
      match wi !! id t with
      | Some w => groupWaves wi rest (placeTask waves w t)
      | None => None
      end
  end.

Definition computeWaves (ts : list TaskNode) : option (list (list TaskNode)) :=
  match fillWaves (taskMap ts) (S (length ts)) ts ∅ with
  | Some wi => groupWaves wi ts []
  | None => None
  end.

(** *** [topologicalSort] *)

(** [visit], with the [visited] set and the [result] array threaded
    through. *)
Fixpoint visit (tm : gmap string TaskNode) (fuel : nat)
  (st : gset string * list TaskNode) (x : string)
  : option (gset string * list TaskNode) :=
  match fuel with
  | O => None
  | S fuel' =>
      if decide (x ∈ st.1) then Some st
      else
        match tm !! x with
        | None => None
        | Some task =>
            match forEachM (visit tm fuel') (dependsOn task) ({[x]} ∪ st.1, st.2) with
            | Some st' => Some (st'.1, st'.2 ++ [task])
            | None => None
            end
        end
  end.

Definition visitAll (tm : gmap string TaskNode) (fuel : nat)
  (todo : list TaskNode) (st : gset string * list TaskNode)
  : option (gset string * list TaskNode) :=
  forEachM (fun st t => visit tm fuel st (id t)) todo st.

Definition topologicalSort (ts : list TaskNode) : option (list TaskNode) :=
  match visitAll (taskMap ts) (S (length ts)) ts (∅, []) with
  | Some st => Some st.2
  | None => None
  end.

(** *** The dependency relation and what [validateDag] checks *)

(** [depends ts x y]: some task with id [x] lists [y] in [dependsOn]. *)
Definition depends (ts : list TaskNode) (x y : string) : Prop :=
  exists t, In t ts /\ id t = x /\ In y (dependsOn t).

Definition uniqueIds (ts : list TaskNode) : Prop := NoDup (map id ts).

Definition resolvable (ts : list TaskNode) : Prop :=
  forall t d, In t ts -> In d (dependsOn t) -> In d (map id ts).

(** No task reaches itself along one or more dependency edges. *)
Definition acyclic (ts : list TaskNode) : Prop :=
  forall x, ~ tc (depends ts) x x.

(** A test helper, as [task(id, dependsOn)] in [dag.test.ts]. *)
Definition task (i : string) (deps : list string) : TaskNode :=
  {| id := i; title := "Task " +:+ i; description := "Description for " +:+ i;
     fileScope := ["src/" +:+ i +:+ "/**"]; dependsOn := deps;
     complexity := medium |}.

End Dag.

(** ** Output extractor ([util/json-extractor.ts]) *)

Module Extractor.
Import JS.

(** [\s] of a regular expression and the characters [trim] removes, for
    code units up to 0x00FF. *)
Definition isSpace (c : ascii) : bool :=
  let n := nat_of_ascii c in
  ((9 <=? n) && (n <=? 13)) || (n =? 32) || (n =? 160).

Fixpoint trimStart (s : string) : string :=
  match s with
  | String c r => if isSpace c then trimStart r else s
  | EmptyString => s
  end.

Definition rev_string (s : string) : string :=
  string_of_list_ascii (rev (list_ascii_of_string s)).

(** [s.trim()]. *)
Definition trim (s : string) : string :=
  rev_string (trimStart (rev_string (trimStart s))).

Definition fence : string := "```".

(** The lazy body [([\s\S]*?)] followed by the closing fence: the text up
    to the first closing fence, if there is one. *)
Fixpoint lazyBody (s : string) : option string :=
  if String.prefix fence s then Some EmptyString
  else match s with
       | EmptyString => None
       | String c r =>
           match lazyBody r with
           | Some body => Some (String c body)
           | None => None
           end
       end.

Definition dropN (n : nat) (s : string) : string :=
  String.substring n (String.length s - n) s.

(** [\n?], greedy: the remainders in the order the matcher tries them. *)
Definition optNewline (s : string) : list string :=
  match s with
  | String c r => if (c =? "010")%char then [r; s] else [s]
  | EmptyString => [s]
  end.

(** [\s*], greedy, followed by [\n?]: longest run of white space first,
    then one character less, down to none. *)
Fixpoint spaces (s : string) : list string :=
  match s with
  | String c r => if isSpace c then spaces r ++ optNewline s else optNewline s
  | EmptyString => optNewline s
  end.

(** [(?:json)?], greedy, followed by the rest of the prefix. *)
Definition afterOpening (s : string) : list string :=
  if String.prefix "json" s then spaces (dropN 4 s) ++ spaces s else spaces s.

Fixpoint firstSome {A B : Type} (f : A -> option B) (l : list A) : option B :=
  match l with
  | [] => None
  | x :: rest => match f x with Some y => Some y | None => firstSome f rest end
  end.

(** One attempt of the pattern at the start of [s]; the result is capture
    group 1. *)
Definition matchHere (s : string) : option string :=
  if String.prefix fence s then firstSome lazyBody (afterOpening (dropN 3 s))
  else None.

(** [text.match(/```(?:json)?\s*\n?([\s\S]*?)```/)]: the leftmost
    position at which the pattern matches. *)
Fixpoint fenceMatch (s : string) : option string :=
  match matchHere s with
  | Some body => Some body
  | None =>
      match s with
      | EmptyString => None
      | String _ r => fenceMatch r
      end
  end.

(** The loop of [extractBalanced], started at the character [text[start]];
    [taken] is the text from [start] up to the current position, reversed.
    Returns [text.slice(start, i + 1)]. *)
Fixpoint balancedLoop (opening closing : ascii) (s : string)
  (depth : Z) (inString escape : bool) (taken : list ascii) : option string :=
  match s with
  | EmptyString => None
  | String ch r =>
      let taken' := ch :: taken in
      if escape then balancedLoop opening closing r depth inString false taken'
      else if (ch =? "092")%char
      then balancedLoop opening closing r depth inString true taken'
      else if (ch =? "034")%char
      then balancedLoop opening closing r depth (negb inString) false taken'
      else if inString
      then balancedLoop opening closing r depth inString false taken'
      else if (ch =? opening)%char
      then balancedLoop opening closing r (depth + 1) inString false taken'
      else if (ch =? closing)%char
      then if (depth - 1 =? 0)%Z
           then Some (string_of_list_ascii (rev taken'))
           else balancedLoop opening closing r (depth - 1) inString false taken'
      else balancedLoop opening closing r depth inString false taken'
  end.

(** [text.indexOf(c)] as the suffix that starts at the first [c]. *)
Fixpoint fromFirst (c : ascii) (s : string) : option string :=
  match s with
  | EmptyString => None
  | String ch r => if (ch =? c)%char then Some s else fromFirst c r
  end.

(** [extractBalanced(text, text.indexOf(open), open, close)], guarded by
    [indexOf(...) !== -1]. *)
Definition extractBalanced (text : string) (opening closing : ascii)
  : option string :=
  match fromFirst opening text with
  | Some suffix => balancedLoop opening closing suffix 0 false false []
  | None => None
  end.

(** [try { return JSON.parse(src) } catch {}] for a candidate source. *)
Definition tryParse (candidate : option string) : option value :=
  match candidate with
  | Some src => JSON.parse src
  | None => None
  end.

(** [if (result)]: the candidate is neither [null] nor empty. *)
Definition nonEmpty (candidate : option string) : option string :=
  match candidate with
  | Some EmptyString => None
  | other => other
  end.

(** [extractJson]; the failure result is the JavaScript [null]. *)
Definition extractJson (text : string) : value :=
  match tryParse (option_map trim (fenceMatch text)) with
  | Some v => v
  | None =>
      match tryParse (nonEmpty (extractBalanced text "{" "}")) with
      | Some v => v
      | None =>
          match tryParse (nonEmpty (extractBalanced text "[" "]")) with
          | Some v => v
          | None => VNull
          end
      end
  end.

End Extractor.

(** ** Retry policy ([util/retry.ts]) *)

Module Retry.

Section retry.
Context {T E : Type}.

(** What the caller observes of one run: the invocations of [fn], with
    their attempt index, and the sleeps.  [SleepRandom cappedDelay] is
    [await sleep(Math.random() * cappedDelay)]: a sleep of a random
    fraction of [cappedDelay].  The draw of [Math.random] is not part of
    the trace, so the trace gives the bound of each sleep, not its
    length. *)
Inductive event := Call (attempt : nat) | SleepRandom (cappedDelay : Z).

(** [Thrown (Some e)] is [throw] of the value [e] with which [fn] was
    rejected.  [Thrown None] is [throw lastError] where [lastError] was
    never assigned; the value thrown is then [undefined], as it also is
    when [fn] itself is rejected with [undefined]. *)
Inductive outcome := Returned (v : T) | Thrown (e : option E).

Record RetryOptions := {
  maxAttempts : option nat;
  baseDelayMs : option Z;
  maxDelayMs : option Z;
  shouldAbort : option (E -> bool)
}.

Definition aborts (o : RetryOptions) (e : E) : bool :=
  match shouldAbort o with Some f => f e | None => false end.

(** The [for] loop, entered with [attempt] and [remaining = maxAttempts -
    attempt] iterations to go.  [fn attempt] is the settled promise of the
    call: [inl] resolved, [inr] rejected. *)
Fixpoint retryLoop (fn : nat -> T + E) (o : RetryOptions)
  (maxA : nat) (base maxD : Z)
  (remaining attempt : nat) (lastError : option E) (trace : list event)
  : outcome * list event :=
  match remaining with
  | O => (Thrown lastError, trace)
  | S remaining' =>
      match fn attempt with
      | inl v => (Returned v, trace ++ [Call attempt])
      | inr e =>
          if aborts o e then (Thrown (Some e), trace ++ [Call attempt])
          else if attempt <? maxA - 1 then
            retryLoop fn o maxA base maxD remaining' (S attempt) (Some e)
              (trace ++ [Call attempt;
                         SleepRandom (Z.min (base * 2 ^ Z.of_nat attempt) maxD)])
          else
            retryLoop fn o maxA base maxD remaining' (S attempt) (Some e)
              (trace ++ [Call attempt])
      end
  end.

Definition retry (fn : nat -> T + E) (o : RetryOptions) : outcome * list event :=
  let maxA := default 3 (maxAttempts o) in
  let base := default 1000%Z (baseDelayMs o) in
  let maxD := default 30000%Z (maxDelayMs o) in
  retryLoop fn o maxA base maxD maxA 0 None [].

(** The attempt indices passed to [fn], in order. *)
Definition calls (trace : list event) : list nat :=
  flat_map (fun ev => match ev with Call a => [a] | SleepRandom _ => [] end) trace.

End retry.
Arguments event : clear implicits.
Arguments outcome : clear implicits.
Arguments RetryOptions : clear implicits.

End Retry.

(** ** Project store ([state/project.ts]) *)

Module Store.
Import JS.

Definition phaseName (p : ProjectPhase) : string :=
  match p with
  | phase_planning => "planning"
  | phase_approval => "approval"
  | phase_executing => "executing"
  | phase_integrating => "integrating"
  | phase_completed => "completed"
  | phase_failed => "failed"
  end.

Definition stepStatusName (s : StepStatus) : string :=
  match s with
  | st_pending => "pending"
  | st_running => "running"
  | st_completed => "completed"
  | st_failed => "failed"
  end.

Definition taskStatusName (s : TaskStatus) : string :=
  match s with
  | pending => "pending"
  | running => "running"
  | completed => "completed"
  | failed => "failed"
  | skipped => "skipped"
  end.

Definition complexityName (c : Complexity) : string :=
  match c with small => "small" | medium => "medium" | large => "large" end.

(** [string | null] and [number | null] fields. *)
Definition nullableStr (o : option string) : value :=
  match o with Some s => VStr s | None => VNull end.
Definition nullableNum (o : option Z) : value :=
  match o with Some n => VNum n | None => VNull end.

(** An optional field ([error?: string]) is absent when unset. *)
Definition optionalStr (k : string) (o : option string) : list (string * value) :=
  match o with Some s => [(k, VStr s)] | None => [] end.

(** The JavaScript object behind each record, properties in the order in
    which the code creates them. *)
Definition taskNodeJS (t : TaskNode) : value :=
  VObj [("id", VStr (id t)); ("title", VStr (title t));
        ("description", VStr (description t));
        ("fileScope", VArr (map VStr (fileScope t)));
        ("dependsOn", VArr (map VStr (dependsOn t)));
        ("complexity", VStr (complexityName (complexity t)))].

Definition planJS (p : Plan) : value :=
  VObj [("summary", VStr (summary p)); ("tasks", VArr (map taskNodeJS (tasks p)))].

Definition taskExecutionJS (e : TaskExecution) : value :=
  VObj [("taskId", VStr (taskId e));
        ("status", VStr (taskStatusName (status e)));
        ("sessionId", nullableStr (sessionId e));
        ("branchName", nullableStr (branchName e));
        ("startedAt", nullableNum (startedAt e));
        ("completedAt", nullableNum (completedAt e));
        ("summary", nullableStr (exec_summary e));
        ("error", nullableStr (error e));
        ("retryCount", VNum (retryCount e))].

Definition planningJS (p : PlanningState) : value :=
  VObj ([("sessionId", nullableStr (planning_sessionId p));
         ("model", VStr (planning_model p));
         ("status", VStr (stepStatusName (planning_status p)))]
        ++ optionalStr "error" (planning_error p)).

Definition integrationJS (i : IntegrationState) : value :=
  VObj ([("sessionId", nullableStr (integration_sessionId i));
         ("status", VStr (stepStatusName (integration_status i)));
         ("mergedBranch", nullableStr (mergedBranch i));
         ("prUrl", nullableStr (prUrl i))]
        ++ optionalStr "error" (integration_error i)).

Definition projectJS (p : ProjectState) : value :=
  VObj [("id", VStr (project_id p));
        ("createdAt", VNum (createdAt p));
        ("updatedAt", VNum (updatedAt p));
        ("goal", VStr (goal p));
        ("repo", VObj [("owner", VStr (owner (repo p))); ("name", VStr (name (repo p)))]);
        ("phase", VStr (phaseName (phase p)));
        ("planning", planningJS (planning p));
        ("plan", match plan p with Some pl => planJS pl | None => VNull end);
        ("tasks", VObj (map (fun kv => (fst kv, taskExecutionJS (snd kv))) (tasks_of p)));
        ("integration", integrationJS (integration p))].

(** The files of the projects directory: path to content. *)
Definition files := gmap string string.

(** [path.join(os.homedir(), ".open-inspect", "projects")]. *)
Definition getProjectsDir (home : string) : string :=
  home +:+ "/.open-inspect/projects".

Definition projectPath (home : string) (i : string) : string :=
  getProjectsDir home +:+ "/" +:+ i +:+ ".json".

Definition set_updatedAt (t : Z) (p : ProjectState) : ProjectState :=
  {| project_id := project_id p; createdAt := createdAt p; updatedAt := t;
     goal := goal p; repo := repo p; phase := phase p; planning := planning p;
     plan := plan p; tasks_of := tasks_of p; integration := integration p |}.

(** [saveProject]: stamps [updatedAt] with the clock reading [now] (the
    caller's object is mutated, so the stamped state is returned), writes
    the temporary file and renames it over the final path. *)
Definition saveProject (home : string) (now : Z) (p : ProjectState) (fs : files)
  : ProjectState * files :=
  let filePath := projectPath home (project_id p) in
  let tmpPath := filePath +:+ ".tmp" in
  let p' := set_updatedAt now p in
  let written := <[tmpPath := JSON.stringify (projectJS p') +:+ String "010"%char EmptyString]> fs in
  let renamed :=
    match written !! tmpPath with
    | Some content => <[filePath := content]> (delete tmpPath written)
    | None => written
    end in
  (p', renamed).

(** [loadProject]: the parsed object, or [None] for the [null] returned
    when the file is missing or does not parse. *)
Definition loadProject (home : string) (i : string) (fs : files) : option value :=
  match fs !! projectPath home i with
  | Some data => JSON.parse data
  | None => None
  end.

End Store.

(** ** The control-plane client and the world the controllers run in *)

Module Client.

(** The part of [SessionStateRaw] that the CLI reads; [raw_sandbox] is
    [raw.sandbox?.status]. *)
Record SessionStateRaw := {
  raw_branchName : option string;
  raw_status : string;
  raw_sandbox : option string
}.

(** [SessionState], as [getSession] normalises it. *)
Record SessionState := {
  session_branchName : option string;
  session_status : string;
  sandboxStatus : string;
  isProcessing : bool
}.

(** Modelled from the spec: the [AgentEvent] type of the shared package,
    which is not among the sources; the spec gives
    [getEvents(sessionId, {limit}) -> ordered list of {id, type, data}].
    The payload [event_data] is an object, as the type declares; reading a
    property of it that is absent gives [undefined]. *)
Record AgentEvent := {
  event_id : string;
  event_type : string;
  event_data : JS.value
}.

(** Modelled from the spec: the [SessionArtifact] type of the shared
    package, which is not among the sources; the spec gives
    [getArtifacts(sessionId) -> list of {type, url?}]. *)
Record SessionArtifact := {
  artifact_type : string;
  artifact_url : option string
}.

(** The environment: what the clock and the control plane answer at the
    n-th interaction of the run.  An [Err] is a rejected request. *)
Record Env := {
  homedir : string;
  now : nat -> Z;
  createSessionR : nat -> result string;
  sendPromptR : nat -> result unit;
  getSessionR : nat -> result SessionStateRaw;
  getEventsR : nat -> result (list AgentEvent);
  getArtifactsR : nat -> result (list SessionArtifact)
}.

Definition normalise (raw : SessionStateRaw) : SessionState :=
  {| session_branchName := raw_branchName raw;
     session_status := raw_status raw;
     sandboxStatus := default "pending" (raw_sandbox raw);
     isProcessing :=
       match raw_sandbox raw with
       | Some st => String.eqb st "running" || String.eqb st "ready"
       | None => false
       end |}.

End Client.

(** The controllers mutate one [ProjectState] object and interact with the
    clock, the disk and the control plane; [tick] counts the interactions
    made so far. *)
Module Run.
Import Client.

(** The interactions with the outside, as the [calls] log records them. *)
Inductive call :=
  | SaveProject | DateNow | CreateSession | SendPrompt
  | GetSession | GetEvents | GetArtifacts.

#[global] Instance call_eq_dec : EqDecision call.
Proof. solve_decision. Defined.

Record World := { tick : nat; disk : Store.files; calls : list call }.

(** How a run ends.  [Throw] carries the [message] of the error.
    [OutOfFuel]: the model does not follow the run to its end, because
    the fuel of a loop ran out or because the run leaves what the model
    represents. *)
Inductive outcome (A : Type) : Type :=
  | Return (a : A)
  | Throw (message : string)
  | OutOfFuel.
Arguments Return {A} a.
Arguments Throw {A} message.
Arguments OutOfFuel {A}.

Definition M (A : Type) : Type :=
  ProjectState * World -> outcome A * (ProjectState * World).

Definition ret {A} (a : A) : M A := fun s => (Return a, s).

Definition bind {A B} (c : M A) (k : A -> M B) : M B :=
  fun s =>
    match c s with
    | (Return a, s') => k a s'
    | (Throw e, s') => (Throw e, s')
    | (OutOfFuel, s') => (OutOfFuel, s')
    end.

Definition throw {A} (e : string) : M A := fun s => (Throw e, s).
Definition outOfFuel {A} : M A := fun s => (OutOfFuel, s).

(** [try { c } catch (error) { handler(error.message) }]. *)
Definition tryCatch {A} (c : M A) (handler : string -> M A) : M A :=
  fun s =>
    match c s with
    | (Throw e, s') => handler e s'
    | other => other
    end.

Definition getState : M ProjectState := fun s => (Return (fst s), s).
Definition modify (f : ProjectState -> ProjectState) : M unit :=
  fun s => (Return tt, (f (fst s), snd s)).

Definition advance (c : call) (w : World) : World :=
  {| tick := S (tick w); disk := disk w; calls := calls w ++ [c] |}.

(** A request to the control plane. *)
Definition request {A} (c : call) (answer : nat -> result A) : M A :=
  fun s =>
    match answer (tick (snd s)) with
    | Ok a => (Return a, (fst s, advance c (snd s)))
    | Err e => (Throw e, (fst s, advance c (snd s)))
    end.

(** [Date.now()]. *)
Definition dateNow (env : Env) : M Z :=
  fun s => (Return (now env (tick (snd s))), (fst s, advance DateNow (snd s))).

(** [await saveProject(state)] on a disk that takes the write.  The
    world has no failing write: where the code treats a rejected save
    unlike other errors ([spawnTask], whose handler saves once more), the
    save is a parameter of the model ([Executor.spawnTaskWith]). *)
Definition save (env : Env) : M unit :=
  fun s =>
    let '(p, fs) := Store.saveProject (homedir env) (now env (tick (snd s)))
                      (fst s) (disk (snd s)) in
    (Return tt, (p, {| tick := S (tick (snd s)); disk := fs;
                       calls := calls (snd s) ++ [SaveProject] |})).

Definition createSession (env : Env) : M string :=
  request CreateSession (createSessionR env).
Definition sendPrompt (env : Env) : M unit :=
  request SendPrompt (sendPromptR env).
Definition getSession (env : Env) : M SessionState :=
  bind (request GetSession (getSessionR env)) (fun raw => ret (normalise raw)).
Definition getEvents (env : Env) : M (list AgentEvent) :=
  request GetEvents (getEventsR env).
Definition getArtifacts (env : Env) : M (list SessionArtifact) :=
  request GetArtifacts (getArtifactsR env).

Definition set_phase (ph : ProjectPhase) (p : ProjectState) : ProjectState :=
  {| project_id := project_id p; createdAt := createdAt p; updatedAt := updatedAt p;
     goal := goal p; repo := repo p; phase := ph; planning := planning p;
     plan := plan p; tasks_of := tasks_of p; integration := integration p |}.

Module Notations.
Notation "x <- c ;; k" := (bind c (fun x => k))
  (at level 100, c at next level, right associativity).
Notation "c ;;; k" := (bind c (fun _ => k))
  (at level 100, right associativity).
End Notations.

End Run.

(** ** Phase 4: integration *)

Module Integrator.
Import JS Client Run Run.Notations.

Record IntegrationResult := {
  result_branchName : option string;
  result_prUrl : option string
}.

(** A [string | null] used as a condition. *)
Definition truthyStr (o : option string) : bool :=
  match o with
  | Some s => negb (String.eqb s EmptyString)
  | None => false
  end.

Definition set_integration (i : IntegrationState) (p : ProjectState) : ProjectState :=
  {| project_id := project_id p; createdAt := createdAt p; updatedAt := updatedAt p;
     goal := goal p; repo := repo p; phase := phase p; planning := planning p;
     plan := plan p; tasks_of := tasks_of p; integration := i |}.

Definition with_status (st : StepStatus) (i : IntegrationState) : IntegrationState :=
  {| integration_sessionId := integration_sessionId i; integration_status := st;
     mergedBranch := mergedBranch i; prUrl := prUrl i;
     integration_error := integration_error i |}.

Definition with_error (e : string) (i : IntegrationState) : IntegrationState :=
  {| integration_sessionId := integration_sessionId i;
     integration_status := integration_status i;
     mergedBranch := mergedBranch i; prUrl := prUrl i;
     integration_error := Some e |}.

Definition with_session (sid : string) (i : IntegrationState) : IntegrationState :=
  {| integration_sessionId := Some sid;
     integration_status := integration_status i;
     mergedBranch := mergedBranch i; prUrl := prUrl i;
     integration_error := integration_error i |}.

Definition with_merged (b : option string) (i : IntegrationState) : IntegrationState :=
  {| integration_sessionId := integration_sessionId i;
     integration_status := integration_status i;
     mergedBranch := b; prUrl := prUrl i;
     integration_error := integration_error i |}.

Definition with_prUrl (u : option string) (i : IntegrationState) : IntegrationState :=
  {| integration_sessionId := integration_sessionId i;
     integration_status := integration_status i;
     mergedBranch := mergedBranch i; prUrl := u;
     integration_error := integration_error i |}.

Definition onIntegration (f : IntegrationState -> IntegrationState) : M unit :=
  modify (fun p => set_integration (f (integration p)) p).

(** The loop variables of [pollForCompletion]. *)
Record pollState := {
  seenEventIds : gset string;
  tokenChunks : list string;
  hasStarted : bool;
  executionComplete : bool
}.

(** The body of [for (const event of events)]. *)
Definition onEvent (st : pollState) (ev : AgentEvent) : pollState :=
  if decide (event_id ev ∈ seenEventIds st) then st
  else
    let isToken := String.eqb (event_type ev) "token"
                   && isString (get (event_data ev) "content") in
    {| seenEventIds := {[event_id ev]} ∪ seenEventIds st;
       tokenChunks :=
         if isToken
         then tokenChunks st ++ [toString (get (event_data ev) "content")]
         else tokenChunks st;
       hasStarted :=
         hasStarted st || isToken || String.eqb (event_type ev) "ready";
       executionComplete :=
         executionComplete st || String.eqb (event_type ev) "execution_complete" |}.

(** [pollForCompletion]; [fuel] bounds the number of polling cycles. *)
Fixpoint pollLoop (env : Env) (fuel : nat) (seen : gset string)
  (chunks : list string) (started : bool) : M string :=
  match fuel with
  | O => outOfFuel
  | S fuel' =>
      session <- getSession env ;;
      events <- getEvents env ;;
      let st := fold_left onEvent events
                  {| seenEventIds := seen; tokenChunks := chunks;
                     hasStarted := started || isProcessing session;
                     executionComplete := false |} in
      if executionComplete st then ret (JS.join EmptyString (tokenChunks st))
      else if hasStarted st && String.eqb (sandboxStatus session) "stopped"
      then ret (JS.join EmptyString (tokenChunks st))
      else pollLoop env fuel' (seenEventIds st) (tokenChunks st) (hasStarted st)
  end.

Definition pollForCompletion (env : Env) (fuel : nat) : M string :=
  pollLoop env fuel ∅ [] false.

(** The tasks that [runIntegration] collects: status [completed] and a
    branch name that is set. *)
Definition isIntegrable (t : TaskExecution) : bool :=
  bool_decide (status t = completed) && truthyStr (branchName t).

(** [artifacts.find((a) => a.type === "pr" && a.url)]. *)
Definition isPrArtifact (a : SessionArtifact) : bool :=
  String.eqb (artifact_type a) "pr" && truthyStr (artifact_url a).

(** [prArtifact?.url || null]. *)
Definition prUrlOf (artifacts : list SessionArtifact) : option string :=
  match List.find isPrArtifact artifacts with
  | Some a => if truthyStr (artifact_url a) then artifact_url a else None
  | None => None
  end.

(** The three stretches of [runIntegration]: up to the first save; from
    the creation of the merge session to the delivery of the prompt; and
    from the read-back of the session to the final save. *)
Definition begin (env : Env) : M unit :=
  modify (set_phase phase_integrating) ;;;
  onIntegration (with_status st_running) ;;;
  save env.

Definition openSession (env : Env) : M unit :=
  sid <- createSession env ;;
  onIntegration (with_session sid) ;;;
  save env ;;;
  sendPrompt env.

Definition collect (env : Env) : M IntegrationResult :=
  session <- getSession env ;;
  artifacts <- getArtifacts env ;;
  let res := {| result_branchName := session_branchName session;
                result_prUrl := prUrlOf artifacts |} in
  onIntegration (with_status st_completed) ;;;
  onIntegration (with_merged (result_branchName res)) ;;;
  onIntegration (with_prUrl (result_prUrl res)) ;;;
  modify (set_phase phase_completed) ;;;
  save env ;;;
  ret res.

Definition completedTasksOf (p : ProjectState) : list TaskExecution :=
  List.filter isIntegrable (map snd (tasks_of p)).

Definition runIntegration (env : Env) (fuel : nat) : M IntegrationResult :=
  begin env ;;;
  p <- getState ;;
  match completedTasksOf p with
  | [] =>
      onIntegration (with_status st_failed) ;;;
      onIntegration (with_error "No completed tasks to integrate") ;;;
      modify (set_phase phase_failed) ;;;
      save env ;;;
      throw "No completed tasks to integrate"
  | first :: others =>
      match plan p with
      | None => throw "Cannot read properties of null (reading 'tasks')"
      | Some _ =>
          match others with
          | [] =>
              onIntegration (with_status st_completed) ;;;
              onIntegration (with_merged (branchName first)) ;;;
              modify (set_phase phase_completed) ;;;
              save env ;;;
              ret {| result_branchName := branchName first; result_prUrl := None |}
          | _ =>
              openSession env ;;;
              pollForCompletion env fuel ;;;
              collect env
          end
      end
  end.

End Integrator.

(** ** Phase 1: planning ([orchestrator/planner.ts]) *)

Module Planner.
Import JS Client Run Run.Notations.

Definition set_planning (pl : PlanningState) (p : ProjectState) : ProjectState :=
  {| project_id := project_id p; createdAt := createdAt p; updatedAt := updatedAt p;
     goal := goal p; repo := repo p; phase := phase p; planning := pl;
     plan := plan p; tasks_of := tasks_of p; integration := integration p |}.

Definition set_plan (pl : Plan) (p : ProjectState) : ProjectState :=
  {| project_id := project_id p; createdAt := createdAt p; updatedAt := updatedAt p;
     goal := goal p; repo := repo p; phase := phase p; planning := planning p;
     plan := Some pl; tasks_of := tasks_of p; integration := integration p |}.

Definition with_status (st : StepStatus) (pl : PlanningState) : PlanningState :=
  {| planning_sessionId := planning_sessionId pl; planning_model := planning_model pl;
     planning_status := st; planning_error := planning_error pl |}.

Definition with_error (e : string) (pl : PlanningState) : PlanningState :=
  {| planning_sessionId := planning_sessionId pl; planning_model := planning_model pl;
     planning_status := planning_status pl; planning_error := Some e |}.

Definition with_session (sid : string) (pl : PlanningState) : PlanningState :=
  {| planning_sessionId := Some sid; planning_model := planning_model pl;
     planning_status := planning_status pl; planning_error := planning_error pl |}.

Definition onPlanning (f : PlanningState -> PlanningState) : M unit :=
  modify (fun p => set_planning (f (planning p)) p).

(** The variables of one polling cycle; [executionError] is declared
    inside the cycle and so starts as [null] in each one. *)
Record pollState := {
  seenEventIds : gset string;
  tokenChunks : list string;
  hasStarted : bool;
  executionComplete : bool;
  executionError : option string
}.

Definition onEvent (st : pollState) (ev : AgentEvent) : pollState :=
  if decide (event_id ev ∈ seenEventIds st) then st
  else
    let data := event_data ev in
    let ty := event_type ev in
    let isToken := String.eqb ty "token" && isString (get data "content") in
    let isComplete := String.eqb ty "execution_complete" in
    let err1 :=
      if isComplete && isFalse (get data "success") && truthy (get data "error")
      then Some (toString (get data "error")) else executionError st in
    let err2 :=
      if String.eqb ty "error" && truthy (get data "error")
      then Some (toString (get data "error")) else err1 in
    {| seenEventIds := {[event_id ev]} ∪ seenEventIds st;
       tokenChunks :=
         if isToken then tokenChunks st ++ [toString (get data "content")]
         else tokenChunks st;
       hasStarted := hasStarted st || isToken || String.eqb ty "ready";
       executionComplete := executionComplete st || isComplete;
       executionError := err2 |}.

Fixpoint pollLoop (env : Env) (fuel : nat) (seen : gset string)
  (chunks : list string) (started : bool) : M string :=
  match fuel with
  | O => outOfFuel
  | S fuel' =>
      session <- getSession env ;;
      events <- getEvents env ;;
      let st := fold_left onEvent events
                  {| seenEventIds := seen; tokenChunks := chunks;
                     hasStarted := started || isProcessing session;
                     executionComplete := false; executionError := None |} in
      if executionComplete st then
        match executionError st with
        | Some e =>
            if negb (String.eqb e EmptyString)
            then throw ("Agent execution failed: " +:+ e)
            else ret (JS.join EmptyString (tokenChunks st))
        | None => ret (JS.join EmptyString (tokenChunks st))
        end
      else if hasStarted st && String.eqb (sandboxStatus session) "stopped"
      then ret (JS.join EmptyString (tokenChunks st))
      else pollLoop env fuel' (seenEventIds st) (tokenChunks st) (hasStarted st)
  end.

Definition pollForCompletion (env : Env) (fuel : nat) : M string :=
  pollLoop env fuel ∅ [] false.

(** The typed view [extractJson<Plan>(text)] of the extracted value.  The
    source casts without checking; a value that has a [tasks] array whose
    elements are not task objects is outside the typed model. *)
Definition strOf (v : value) : option string :=
  match v with VStr s => Some s | _ => None end.

Definition strsOf (v : value) : option (list string) :=
  match v with VArr items => mapM strOf items | _ => None end.

Definition complexityOf (v : value) : option Complexity :=
  match v with
  | VStr s => if String.eqb s "small" then Some small
              else if String.eqb s "medium" then Some medium
              else if String.eqb s "large" then Some large else None
  | _ => None
  end.

Definition taskOfJS (v : value) : option TaskNode :=
  i ← strOf (get v "id");
  t ← strOf (get v "title");
  d ← strOf (get v "description");
  f ← strsOf (get v "fileScope");
  deps ← strsOf (get v "dependsOn");
  c ← complexityOf (get v "complexity");
  Some {| id := i; title := t; description := d; fileScope := f;
          dependsOn := deps; complexity := c |}.

Definition isArray (v : value) : bool :=
  match v with VArr _ => true | _ => false end.

(** [extracted as Plan]: the cast checks nothing, and the rest of the
    program takes the object for a [Plan].  The typed view exists
    ([Some]) when every task object has the six properties of a
    [TaskNode] with values of their types; of a plan that lacks some of
    them ([None]) the typed functions of the model say nothing. *)
Definition planOfJS (v : value) : option Plan :=
  match get v "tasks" with
  | VArr items =>
      ts ← mapM taskOfJS items;
      Some {| summary := default EmptyString (strOf (get v "summary")); tasks := ts |}
  | _ => None
  end.

Definition runPlanning (env : Env) (fuel : nat) : M Plan :=
  modify (set_phase phase_planning) ;;;
  onPlanning (with_status st_running) ;;;
  save env ;;;
  sid <- createSession env ;;
  onPlanning (with_session sid) ;;;
  save env ;;;
  sendPrompt env ;;;
  text <- pollForCompletion env fuel ;;
  let extracted := Extractor.extractJson text in
  if negb (truthy extracted) || negb (truthy (get extracted "tasks"))
     || negb (isArray (get extracted "tasks"))
  then
    onPlanning (with_status st_failed) ;;;
    onPlanning (with_error "Failed to extract valid plan from agent output") ;;;
    modify (set_phase phase_failed) ;;;
    save env ;;;
    if String.length text =? 0
    then throw "Planner produced no output — session may have failed to start or timed out"
    else throw ("Failed to extract valid plan from agent output ("
                +:+ showZ (Z.of_nat (String.length text)) +:+ " chars). First 200 chars: "
                +:+ String.substring 0 200 text)
  else
    match planOfJS extracted with
    | None => outOfFuel (* outside the typed view: not modelled *)
    | Some pl =>
        match Dag.validateDag (tasks pl) with
        | None => outOfFuel
        | Some validation =>
            if Dag.valid validation then
              onPlanning (with_status st_completed) ;;;
              modify (set_plan pl) ;;;
              modify (set_phase phase_approval) ;;;
              save env ;;;
              ret pl
            else
              let msg := "Invalid plan: " +:+ JS.join "; " (Dag.errors validation) in
              onPlanning (with_status st_failed) ;;;
              onPlanning (with_error msg) ;;;
              modify (set_phase phase_failed) ;;;
              save env ;;;
              throw msg
        end
    end.

End Planner.

(** ** Worker prompts: the expected branch name *)

Module Worker.

(** [toLowerCase] on one code unit below 256, as far as [slugify] can
    tell: the letters [A-Z] become [a-z]; the other letters of that range
    that have a lower case lie outside [a-z0-9] before and after, and
    are left as they are.  A code unit of that range is mapped to one
    code unit; characters beyond it, which a string of this model does
    not hold, can be mapped to more than one. *)
Definition lowerChar (c : ascii) : ascii :=
  let n := nat_of_ascii c in
  if (65 <=? n) && (n <=? 90) then ascii_of_nat (n + 32) else c.

Definition isAlnum (c : ascii) : bool :=
  let n := nat_of_ascii c in
  ((97 <=? n) && (n <=? 122)) || ((48 <=? n) && (n <=? 57)).

(** [.toLowerCase().replace(/[^a-z0-9]+/g, "-")]: [inRun] tells whether
    the previous character already belonged to the run being replaced. *)
Fixpoint hyphenate (inRun : bool) (s : string) : string :=
  match s with
  | EmptyString => EmptyString
  | String c r =>
      let c' := lowerChar c in
      if isAlnum c' then String c' (hyphenate false r)
      else if inRun then hyphenate true r
      else String "-" (hyphenate true r)
  end.

(** [.replace(/^-|-$/g, "")]. *)
Definition stripStart (s : string) : string :=
  match s with
  | String c r => if (c =? "-")%char then r else s
  | EmptyString => s
  end.

Definition stripEdges (s : string) : string :=
  Extractor.rev_string (stripStart (Extractor.rev_string (stripStart s))).

Definition slugify (text : string) : string :=
  String.substring 0 40 (stripEdges (hyphenate false text)).

Definition expectedBranchName (t : TaskNode) : string :=
  "oi/" +:+ id t +:+ "-" +:+ slugify (title t).

End Worker.

(** ** Phase 3: execution *)

Module Executor.
Import JS Client Run Run.Notations.

Definition DEFAULT_MAX_PARALLEL : Z := 3.

Definition set_tasks (ts : list (string * TaskExecution)) (p : ProjectState)
  : ProjectState :=
  {| project_id := project_id p; createdAt := createdAt p; updatedAt := updatedAt p;
     goal := goal p; repo := repo p; phase := phase p; planning := planning p;
     plan := plan p; tasks_of := ts; integration := integration p |}.

(** [state.tasks[k]] for a key [k] of [state.tasks] itself: the list
    holds the object's own properties, in the order in which
    [Object.values] and [JSON.stringify] enumerate them.  What the object
    inherits is in [inherited] below. *)
Fixpoint lookupTask (k : string) (ts : list (string * TaskExecution))
  : option TaskExecution :=
  match ts with
  | [] => None
  | (k', e) :: rest => if String.eqb k k' then Some e else lookupTask k rest
  end.

(** In-place mutation of the object [state.tasks[k]]. *)
Fixpoint updateTask (k : string) (f : TaskExecution -> TaskExecution)
  (ts : list (string * TaskExecution)) : list (string * TaskExecution) :=
  match ts with
  | [] => []
  | (k', e) :: rest =>
      if String.eqb k k' then (k', f e) :: rest
      else (k', e) :: updateTask k f rest
  end.

Definition onTask (k : string) (f : TaskExecution -> TaskExecution) : M unit :=
  modify (fun p => set_tasks (updateTask k f (tasks_of p)) p).

Definition freshExecution (i : string) : TaskExecution :=
  {| taskId := i; status := pending; sessionId := None; branchName := None;
     startedAt := None; completedAt := None; exec_summary := None;
     error := None; retryCount := 0 |}.

(** The properties that [state.tasks], an object literal or an object
    built by [JSON.parse], inherits from [Object.prototype].  Each of
    them is a function or an object, so that [state.tasks[k]] is truthy
    for these [k] also when no task is stored under [k]. *)
Definition inherited : list string :=
  ["constructor"; "hasOwnProperty"; "isPrototypeOf"; "propertyIsEnumerable";
   "toLocaleString"; "toString"; "valueOf"; "__proto__";
   "__defineGetter__"; "__defineSetter__"; "__lookupGetter__"; "__lookupSetter__"].

(** The condition [state.tasks[k]] (a [TaskExecution] is an object, and
    every object is truthy). *)
Definition isTracked (k : string) (ts : list (string * TaskExecution)) : bool :=
  match lookupTask k ts with
  | Some _ => true
  | None => existsb (String.eqb k) inherited
  end.

Definition isDigit (c : ascii) : bool :=
  (48 <=? nat_of_ascii c) && (nat_of_ascii c <=? 57).

Fixpoint digitsValue (s : string) (acc : N) : option N :=
  match s with
  | EmptyString => Some acc
  | String c rest =>
      if isDigit c then digitsValue rest (10 * acc + (N_of_ascii c - 48))%N else None
  end.

(** The keys that are array indices: the decimal numerals, without a
    leading zero, of the numbers below [2^32 - 1].  An object enumerates
    them first, in ascending order, and its other keys after them in the
    order of their creation. *)
Definition arrayIndex (k : string) : option N :=
  match k with
  | EmptyString => None
  | String c rest =>
      if Ascii.eqb c "0" && negb (String.eqb rest EmptyString) then None
      else match digitsValue k 0 with
           | Some n => if (n <? 2 ^ 32 - 1)%N then Some n else None
           | None => None
           end
  end.

Fixpoint insertIndex (n : N) (kv : string * TaskExecution)
  (ts : list (string * TaskExecution)) : list (string * TaskExecution) :=
  match ts with
  | [] => [kv]
  | kv' :: rest =>
      match arrayIndex (fst kv') with
      | Some m => if (m <? n)%N then kv' :: insertIndex n kv rest else kv :: ts
      | None => kv :: ts
      end
  end.

(** [state.tasks[k] = e] for a [k] that is not yet a key of
    [state.tasks]: the new property takes its place in the enumeration
    order. *)
Definition addTask (k : string) (e : TaskExecution)
  (ts : list (string * TaskExecution)) : list (string * TaskExecution) :=
  match arrayIndex k with
  | Some n => insertIndex n (k, e) ts
  | None => ts ++ [(k, e)]
  end.

(** "Initialize task executions for any tasks not yet tracked":
    [if (!state.tasks[task.id]) state.tasks[task.id] = { ... }]. *)
Fixpoint initTasks (planTasks : list TaskNode) (ts : list (string * TaskExecution))
  : list (string * TaskExecution) :=
  match planTasks with
  | [] => ts
  | t :: rest =>
      if isTracked (id t) ts then initTasks rest ts
      else initTasks rest (addTask (id t) (freshExecution (id t)) ts)
  end.

Definition with_status (st : TaskStatus) (e : TaskExecution) : TaskExecution :=
  {| taskId := taskId e; status := st; sessionId := sessionId e;
     branchName := branchName e; startedAt := startedAt e;
     completedAt := completedAt e; exec_summary := exec_summary e;
     error := error e; retryCount := retryCount e |}.

Definition with_error (msg : string) (e : TaskExecution) : TaskExecution :=
  {| taskId := taskId e; status := status e; sessionId := sessionId e;
     branchName := branchName e; startedAt := startedAt e;
     completedAt := completedAt e; exec_summary := exec_summary e;
     error := Some msg; retryCount := retryCount e |}.

Definition with_startedAt (t : Z) (e : TaskExecution) : TaskExecution :=
  {| taskId := taskId e; status := status e; sessionId := sessionId e;
     branchName := branchName e; startedAt := Some t;
     completedAt := completedAt e; exec_summary := exec_summary e;
     error := error e; retryCount := retryCount e |}.

Definition with_completedAt (t : Z) (e : TaskExecution) : TaskExecution :=
  {| taskId := taskId e; status := status e; sessionId := sessionId e;
     branchName := branchName e; startedAt := startedAt e;
     completedAt := Some t; exec_summary := exec_summary e;
     error := error e; retryCount := retryCount e |}.

Definition with_session (sid : string) (e : TaskExecution) : TaskExecution :=
  {| taskId := taskId e; status := status e; sessionId := Some sid;
     branchName := branchName e; startedAt := startedAt e;
     completedAt := completedAt e; exec_summary := exec_summary e;
     error := error e; retryCount := retryCount e |}.

Definition with_branch (b : string) (e : TaskExecution) : TaskExecution :=
  {| taskId := taskId e; status := status e; sessionId := sessionId e;
     branchName := Some b; startedAt := startedAt e;
     completedAt := completedAt e; exec_summary := exec_summary e;
     error := error e; retryCount := retryCount e |}.

Definition with_summary (sm : string) (e : TaskExecution) : TaskExecution :=
  {| taskId := taskId e; status := status e; sessionId := sessionId e;
     branchName := branchName e; startedAt := startedAt e;
     completedAt := completedAt e; exec_summary := Some sm;
     error := error e; retryCount := retryCount e |}.

Definition hasStatus (st : TaskStatus) (e : TaskExecution) : bool :=
  bool_decide (status e = st).

(** The callback of [task.dependsOn.every(...)]:
    [dep && (dep.status === "completed" || dep.status === "skipped")].
    An inherited member of [state.tasks] has no [status]: for it the
    test is false, as it is for a [dep] that is undefined. *)
Definition depSatisfied (ts : list (string * TaskExecution)) (depId : string) : bool :=
  match lookupTask depId ts with
  | Some dep => hasStatus completed dep || hasStatus skipped dep
  | None => false
  end.

(** The callback of [pending.filter(...)]; [None] when
    [taskMap.get(t.taskId)] is undefined and reading [dependsOn] throws. *)
Definition isReady (tm : gmap string TaskNode) (ts : list (string * TaskExecution))
  (t : TaskExecution) : option bool :=
  match tm !! taskId t with
  | Some task => Some (forallb (depSatisfied ts) (dependsOn task))
  | None => None
  end.

Fixpoint readyOf (tm : gmap string TaskNode) (ts : list (string * TaskExecution))
  (pendingTasks : list TaskExecution) : option (list TaskExecution) :=
  match pendingTasks with
  | [] => Some []
  | t :: rest =>
      match isReady tm ts t with
      | None => None
      | Some b =>
          match readyOf tm ts rest with
          | None => None
          | Some r => Some (if b then t :: r else r)
          end
      end
  end.

(** [xs.slice(0, n)]: a negative [n] counts from the end. *)
Definition slice0 {A} (xs : list A) (n : Z) : list A :=
  if (n <? 0)%Z then take (Z.to_nat (Z.of_nat (length xs) + n)) xs
  else take (Z.to_nat n) xs.

(** [spawnTask], with the [await saveProject(state)] of its body and of
    its handler as a parameter.  The prompt text is not observed by the
    model; the request that delivers it is.  The scheduler calls it with
    the task of an execution stored in [state.tasks].  For a task whose
    id is no key of [state.tasks] the model has the assignment to
    [exec.status] throw, as it does when [state.tasks[task.id]] is
    undefined; with an id that names an inherited property the
    assignment would reach the inherited object instead, a call that the
    model does not follow. *)
Definition spawnTaskWith (env : Env) (saveProject : M unit) (task : TaskNode)
  : M unit :=
  p <- getState ;;
  match lookupTask (id task) (tasks_of p) with
  | None => throw "Cannot set properties of undefined (setting 'status')"
  | Some _ =>
      onTask (id task) (with_status running) ;;;
      started <- dateNow env ;;
      onTask (id task) (with_startedAt started) ;;;
      tryCatch
        (sid <- createSession env ;;
         onTask (id task) (with_session sid) ;;;
         onTask (id task) (with_branch (Worker.expectedBranchName task)) ;;;
         saveProject ;;;
         sendPrompt env)
        (fun msg =>
           onTask (id task) (with_status failed) ;;;
           onTask (id task) (with_error msg) ;;;
           finished <- dateNow env ;;
           onTask (id task) (with_completedAt finished) ;;;
           saveProject)
  end.

(** [spawnTask] on a disk that takes every write, as [save] has it. *)
Definition spawnTask (env : Env) (task : TaskNode) : M unit :=
  spawnTaskWith env (save env) task.

(** What the event scan of [pollTask] accumulates. *)
Record scan := {
  executionComplete : bool;
  hasError : bool;
  errorMsg : option string;
  tokens : list string
}.

Definition onEvent (st : scan) (ev : AgentEvent) : scan :=
  let data := event_data ev in
  let ty := event_type ev in
  let isComplete := String.eqb ty "execution_complete" in
  let failedRun := isComplete && isFalse (get data "success") in
  let isError := String.eqb ty "error" in
  let msg1 := if failedRun && truthy (get data "error")
              then Some (toString (get data "error")) else errorMsg st in
  let msg2 := if isError && truthy (get data "error")
              then Some (toString (get data "error")) else msg1 in
  {| executionComplete := executionComplete st || isComplete;
     hasError := hasError st || failedRun || isError;
     errorMsg := msg2;
     tokens := if String.eqb ty "token" && isString (get data "content")
               then tokens st ++ [toString (get data "content")]
               else tokens st |}.

(** [tokenText.length > 500 ? tokenText.slice(-500) : tokenText]. *)
Definition lastChars (n : nat) (s : string) : string :=
  if n <? String.length s
  then String.substring (String.length s - n) n s else s.

(** [pollTask] for the execution stored under key [k]. *)
Definition pollTask (env : Env) (k : string) (exec : TaskExecution) : M unit :=
  match sessionId exec with
  | None => ret tt
  | Some sid =>
      if String.eqb sid EmptyString then ret tt
      else
        tryCatch
          (session <- getSession env ;;
           let sb := sandboxStatus session in
           if String.eqb sb "pending" || String.eqb sb "warming"
              || String.eqb sb "syncing"
           then ret tt
           else
             events <- getEvents env ;;
             let sc := fold_left onEvent events
                         {| executionComplete := false; hasError := false;
                            errorMsg := None; tokens := [] |} in
             if negb (executionComplete sc) && negb (String.eqb sb "stopped")
             then ret tt
             else
               (if Integrator.truthyStr (session_branchName session)
                then onTask k (with_branch (default EmptyString (session_branchName session)))
                else ret tt) ;;;
               onTask k (with_summary (lastChars 500 (JS.join EmptyString (tokens sc)))) ;;;
               (if hasError sc
                then onTask k (with_status failed) ;;;
                     onTask k (with_error
                                 (match errorMsg sc with
                                  | Some m => if String.eqb m EmptyString
                                              then "Session completed with errors" else m
                                  | None => "Session completed with errors"
                                  end))
                else onTask k (with_status completed)) ;;;
               finished <- dateNow env ;;
               onTask k (with_completedAt finished) ;;;
               save env)
          (fun _ => ret tt)
  end.

Fixpoint forEach {A} (f : A -> M unit) (xs : list A) : M unit :=
  match xs with
  | [] => ret tt
  | x :: rest => f x ;;; forEach f rest
  end.

Definition skipPending (e : TaskExecution) : TaskExecution :=
  if hasStatus pending e
  then with_error "Skipped: dependency failed" (with_status skipped e)
  else e.

Definition typeError {A} : M A :=
  throw "Cannot read properties of undefined (reading 'dependsOn')".

(** The tasks that one pass of the loop selects for spawning:
    [ready.slice(0, maxParallel - running.length)]. *)
Definition toSpawnOf (tm : gmap string TaskNode) (maxParallel : Z)
  (ts : list (string * TaskExecution)) : option (list TaskExecution) :=
  let execs := map snd ts in
  match readyOf tm ts (List.filter (hasStatus pending) execs) with
  | Some ready =>
      Some (slice0 ready
              (maxParallel - Z.of_nat (length (List.filter (hasStatus running) execs))))
  | None => None
  end.

(** One pass of the [for (;;)] loop of [runExecution]; the result tells
    whether the loop goes on ([true]) or breaks ([false]). *)
Definition iteration (env : Env) (tm : gmap string TaskNode) (maxParallel : Z)
  : M bool :=
  p <- getState ;;
  let execs := map snd (tasks_of p) in
  let pendingTasks := List.filter (hasStatus pending) execs in
  let runningTasks := List.filter (hasStatus running) execs in
  match toSpawnOf tm maxParallel (tasks_of p) with
  | None => typeError
  | Some toSpawn =>
      forEach (fun exec =>
                 match tm !! taskId exec with
                 | Some task => spawnTask env task
                 | None => typeError
                 end) toSpawn ;;;
      if (length runningTasks =? 0) && (length toSpawn =? 0) then
        (if 0 <? length pendingTasks then
           (* no task was spawned, so the objects in [pending] are the
              entries that are pending now *)
           modify (fun q => set_tasks
                      (map (fun kv => (fst kv, skipPending (snd kv))) (tasks_of q)) q) ;;;
           save env
         else ret tt) ;;;
        ret false
      else
        q <- getState ;;
        forEach (fun kv => pollTask env (fst kv) (snd kv))
                (List.filter (fun kv => hasStatus running (snd kv)) (tasks_of q)) ;;;
        save env ;;;
        ret true
  end.

Fixpoint loop (env : Env) (tm : gmap string TaskNode) (maxParallel : Z)
  (fuel : nat) : M unit :=
  match fuel with
  | O => outOfFuel
  | S fuel' =>
      continue <- iteration env tm maxParallel ;;
      if continue then loop env tm maxParallel fuel' else ret tt
  end.

Definition runExecution (env : Env) (maxParallel : option Z) (fuel : nat) : M unit :=
  p0 <- getState ;;
  modify (set_phase phase_executing) ;;;
  save env ;;;
  match plan p0 with
  | None => throw "Cannot read properties of null (reading 'tasks')"
  | Some pl =>
      modify (fun p => set_tasks (initTasks (tasks pl) (tasks_of p)) p) ;;;
      save env ;;;
      loop env (Dag.taskMap (tasks pl)) (default DEFAULT_MAX_PARALLEL maxParallel) fuel ;;;
      p <- getState ;;
      let execs := map snd (tasks_of p) in
      if (0 <? length (List.filter (hasStatus failed) execs))
         && (length (List.filter (hasStatus completed) execs) =? 0)
      then
        modify (set_phase phase_failed) ;;;
        save env ;;;
        throw "All tasks failed"
      else ret tt
  end.

End Executor.

(** ** The plan table ([ui/plan-display.ts]) *)

Module Display.

(** [str.slice(0, n)]: a negative [n] counts from the end. *)
Definition sliceTo (str : string) (n : Z) : string :=
  if (n <? 0)%Z
  then String.substring 0 (Z.to_nat (Z.of_nat (String.length str) + n)) str
  else String.substring 0 (Z.to_nat n) str.

(** [" ".repeat(n)]. *)
Fixpoint blanks (n : nat) : string :=
  match n with
  | O => EmptyString
  | S n' => String " " (blanks n')
  end.

(** [padRight]: the cell of a table column of the given width. *)
Definition padRight (str : string) (width : Z) : string :=
  if (width <=? Z.of_nat (String.length str))%Z
  then sliceTo str (width - 1) +:+ " "
  else str +:+ blanks (Z.to_nat (width - Z.of_nat (String.length str))).

End Display.

(** ** Listing the stored projects ([state/project.ts]) *)

Module Projects.
Import JS Store.

(** One element of the array that [listProjects] returns; the four
    properties are read off the parsed object as they are. *)
Record summary := {
  sum_id : value;
  sum_goal : value;
  sum_phase : value;
  sum_updatedAt : value
}.

(** [s.endsWith(suffix)]. *)
Definition endsWith (suffix s : string) : bool :=
  (String.length suffix <=? String.length s)
  && String.eqb (String.substring (String.length s - String.length suffix)
                   (String.length suffix) s) suffix.

(** The body of the loop over the directory entries; [None] when the
    entry is passed over: by its name, because [readFile] fails, because
    the content does not parse, or because it parses to [null], of which
    no property can be read. *)
Definition readEntry (home : string) (fs : files) (entry : string) : option summary :=
  if negb (endsWith ".json" entry) || endsWith ".tmp" entry then None
  else
    match fs !! (getProjectsDir home +:+ "/" +:+ entry) with
    | None => None
    | Some data =>
        match JSON.parse data with
        | None | Some VNull => None
        | Some project =>
            Some {| sum_id := get project "id"; sum_goal := get project "goal";
                    sum_phase := get project "phase";
                    sum_updatedAt := get project "updatedAt" |}
        end
    end.

(** [results.sort((a, b) => b.updatedAt - a.updatedAt)] is a stable sort;
    here by insertion, each element in front of the first one that is not
    newer. *)
Fixpoint insertDesc (x : summary * Z) (l : list (summary * Z)) : list (summary * Z) :=
  match l with
  | [] => [x]
  | y :: rest => if (snd y <=? snd x)%Z then x :: l else y :: insertDesc x rest
  end.

Definition sortDesc (l : list (summary * Z)) : list (summary * Z) :=
  fold_right insertDesc [] l.

(** The integers that a JavaScript number holds exactly, whatever the
    digits of the text: those up to [2^53] in absolute value. *)
Definition exactInteger (t : Z) : bool := (Z.abs t <=? 2 ^ 53)%Z.

(** The result with its time stamp, when that is such an integer: the
    sign of the difference of two of them is the sign of the difference
    of the integers. *)
Definition stamped (r : summary) : option (summary * Z) :=
  match sum_updatedAt r with
  | VNum t => if exactInteger t then Some (r, t) else None
  | _ => None
  end.

(** [listProjects].  [entries] is what [readdir] returns, [None] when it
    fails.  With fewer than two results the comparison function is not
    called.  When every [updatedAt] is an integer that a number holds
    exactly, the differences are a consistent comparison and [sort] is
    the stable sort by it.  When some [updatedAt] is not, the order in
    which [sort] leaves the array depends on the engine: [engineSort]
    stands for what it does then. *)
Definition listProjects (engineSort : list summary -> list summary)
  (home : string) (entries : option (list string)) (fs : files)
  : list summary :=
  match entries with
  | None => []
  | Some names =>
      let results := omap (readEntry home fs) names in
      if length results <? 2 then results
      else match mapM stamped results with
           | Some l => map fst (sortDesc l)
           | None => engineSort results
           end
  end.

End Projects.

(** ** Phase 2: approval ([orchestrator/approver.ts]) *)

Module Approver.
Import JS.

Inductive ApprovalResult := approved (plan : Plan) | rejected.

(** [toLowerCase], for code units up to 0x00FF: the letters [A-Z] and
    the capital letters of the range 0x00C0-0x00DE (the multiplication
    sign 0x00D7 is not one). *)
Definition lowerUnit (c : ascii) : ascii :=
  let n := nat_of_ascii c in
  if ((65 <=? n) && (n <=? 90))
     || ((192 <=? n) && (n <=? 222) && negb (n =? 215))
  then ascii_of_nat (n + 32) else c.

Fixpoint toLowerCase (s : string) : string :=
  match s with
  | EmptyString => EmptyString
  | String c r => String (lowerUnit c) (toLowerCase r)
  end.

(** What the terminal shows: the table of a plan and the three messages
    of the loop. *)
Inductive shown :=
  | PlanTable (plan : Plan)
  | PlanUpdated
  | EditCancelled
  | InvalidChoice.

(** One round of the loop: the answer typed at the prompt and, for the
    round in which the editor is asked for, what [editPlan] returns; it
    runs the editor of the user and has no exception of its own. *)
Record round := { answer : string; editPlan : option Plan }.

(** How the call ends: [Waits] when the prompt is never answered. *)
Inductive ending := Returns (r : ApprovalResult) | Throws | Waits.

(** [displayPlan] prints the table and then calls [computeWaves], whose
    exception it passes on; [false] stands for the exception. *)
Definition displayPlan (plan : Plan) : bool :=
  match Dag.computeWaves (tasks plan) with
  | Some _ => true
  | None => false
  end.

Definition isOneOf (choice : string) (options : list string) : bool :=
  existsb (String.eqb choice) options.

Definition choiceOf (r : round) : string :=
  toLowerCase (Extractor.trim (answer r)).

(** The [for (;;)] loop of [approvePlan]. *)
Fixpoint approveLoop (plan : Plan) (rounds : list round) (log : list shown)
  : ending * list shown :=
  match rounds with
  | [] => (Waits, log)
  | r :: rest =>
      let choice := choiceOf r in
      if isOneOf choice [EmptyString; "y"; "yes"]
      then (Returns (approved plan), log)
      else if isOneOf choice ["e"; "edit"] then
        match editPlan r with
        | Some edited =>
            if displayPlan edited
            then approveLoop plan rest (log ++ [PlanUpdated; PlanTable edited])
            else (Throws, log ++ [PlanUpdated; PlanTable edited])
        | None => approveLoop plan rest (log ++ [EditCancelled])
        end
      else if isOneOf choice ["r"; "reject"]
      then (Returns rejected, log)
      else approveLoop plan rest (log ++ [InvalidChoice])
  end.

Definition approvePlan (plan : Plan) (rounds : list round) : ending * list shown :=
  if displayPlan plan then approveLoop plan rounds [PlanTable plan]
  else (Throws, [PlanTable plan]).

End Approver.

(** * Properties *)

(** ** The phase controllers *)

Module IntegratorFacts.
Import JS Client Run Run.Notations Integrator.

Definition sampleRepo : Repo := {| owner := "acme"; name := "widget" |}.

Definition sampleExec (i : string) (st : TaskStatus) (branch : option string)
  : TaskExecution :=
  {| taskId := i; status := st; sessionId := Some ("s-" +:+ i);
     branchName := branch; startedAt := Some 10%Z; completedAt := Some 20%Z;
     exec_summary := Some "done"; error := None; retryCount := 0 |}.

Definition samplePlan : Plan :=
  {| summary := "two tasks"; tasks := [Dag.task "t1" []; Dag.task "t2" []] |}.

Definition sampleProject (ts : list (string * TaskExecution)) : ProjectState :=
  {| project_id := "p1"; createdAt := 1; updatedAt := 1; goal := "Add tests";
     repo := sampleRepo; phase := phase_executing;
     planning := {| planning_sessionId := Some "plan-1"; planning_model := "m";
                    planning_status := st_completed; planning_error := None |};
     plan := Some samplePlan; tasks_of := ts;
     integration := {| integration_sessionId := None; integration_status := st_pending;
                       mergedBranch := None; prUrl := None;
                       integration_error := None |} |}.

Definition world0 : World := {| tick := 0; disk := ∅; calls := [] |}.

(** An environment that answers every request successfully: the session is
    ["merge-1"], its sandbox is running, and every poll sees the [events]
    given; [artifacts] is what [getArtifacts] returns. *)
Definition sampleEnv (events : list AgentEvent) (artifacts : list SessionArtifact) : Env :=
  {| homedir := "/home/u";
     now := fun n => (1000 + Z.of_nat n)%Z;
     createSessionR := fun _ => Ok "merge-1";
     sendPromptR := fun _ => Ok tt;
     getSessionR := fun _ =>
       Ok {| raw_branchName := Some "integrate/all"; raw_status := "active";
             raw_sandbox := Some "running" |};
     getEventsR := fun _ => Ok events;
     getArtifactsR := fun _ => Ok artifacts |}.

Lemma filter_isIntegrable_nil (ts : list TaskExecution) :
  (forall t, In t ts -> status t = completed -> branchName t = None) ->
  List.filter isIntegrable ts = [].
Proof.
  induction ts as [|t ts IH]; intros H; simpl; [reflexivity|].
  assert (Ht : isIntegrable t = false).
  { unfold isIntegrable. destruct (decide (status t = completed)) as [Hc|Hc].
    - rewrite (H t (or_introl eq_refl) Hc). simpl. apply andb_false_r.
    - rewrite bool_decide_eq_false_2 by exact Hc. reflexivity. }
  rewrite Ht. apply IH. intros t' Hin. apply H. right. exact Hin.
Qed.

(** What [saveProject] leaves on disk. *)
Definition saved (home : string) (t : Z) (p : ProjectState) (fs : Store.files)
  : Store.files :=
  snd (Store.saveProject home t p fs).

Lemma saveProject_eq home t p fs :
  Store.saveProject home t p fs = (Store.set_updatedAt t p, saved home t p fs).
Proof. reflexivity. Qed.

Lemma save_eq env p w :
  save env (p, w)
  = (Return tt,
     (Store.set_updatedAt (now env (tick w)) p,
      {| tick := S (tick w);
         disk := saved (homedir env) (now env (tick w)) p (disk w);
         calls := calls w ++ [SaveProject] |})).
Proof. reflexivity. Qed.

Opaque save.

(** C10.  A task counts as completed for integration only if its status
    is [completed] and its branch name is set: when some task is
    [completed] but every such task has a null branch name,
    [runIntegration] sets [integration.status] and [phase] to [failed],
    records and raises "No completed tasks to integrate", and creates no
    session: its only interactions with the outside are two saves. *)
Theorem runIntegration_completed_without_branch
  (env : Env) (fuel : nat) (p : ProjectState) (w : World) :
  (exists t, In t (map snd (tasks_of p)) /\ status t = completed) ->
  (forall t, In t (map snd (tasks_of p)) -> status t = completed ->
             branchName t = None) ->
  exists p' w',
    runIntegration env fuel (p, w)
      = (Throw "No completed tasks to integrate", (p', w'))
    /\ integration_status (integration p') = st_failed
    /\ integration_error (integration p') = Some "No completed tasks to integrate"
    /\ phase p' = phase_failed
    /\ integration_sessionId (integration p') = integration_sessionId (integration p)
    /\ calls w' = calls w ++ [SaveProject; SaveProject].
Proof.
  intros _ Hnull.
  pose proof (filter_isIntegrable_nil _ Hnull) as Hnil.
  unfold runIntegration, begin, bind, modify, onIntegration, getState, throw.
  cbn. rewrite !save_eq. cbn.
  unfold completedTasksOf. cbn. rewrite Hnil. rewrite save_eq. cbn.
  eexists _, _. split; [reflexivity|]. cbn.
  rewrite <- app_assoc. repeat split.
Qed.

(** The hypotheses of C10 at a project whose two tasks are [completed]
    with no branch recorded. *)
Lemma runIntegration_completed_without_branch_witness :
  let p := sampleProject [("t1", sampleExec "t1" completed None);
                          ("t2", sampleExec "t2" completed None)] in
  exists p' w',
    runIntegration (sampleEnv [] []) 5 (p, world0)
      = (Throw "No completed tasks to integrate", (p', w'))
    /\ integration_status (integration p') = st_failed
    /\ integration_error (integration p') = Some "No completed tasks to integrate"
    /\ phase p' = phase_failed
    /\ integration_sessionId (integration p') = integration_sessionId (integration p)
    /\ calls w' = calls world0 ++ [SaveProject; SaveProject].
Proof.
  intros p.
  apply (runIntegration_completed_without_branch (sampleEnv [] []) 5 p world0).
  - exists (sampleExec "t1" completed None). split; [simpl; auto | reflexivity].
  - intros t Hin _. simpl in Hin.
    destruct Hin as [<-|[<-|[]]]; reflexivity.
Defined.

(** *** What [runIntegration] records from the artifacts *)

Definition twoDone : list (string * TaskExecution) :=
  [("t1", sampleExec "t1" completed (Some "oi/t1-a"));
   ("t2", sampleExec "t2" completed (Some "oi/t2-b"))].

Definition completeEvent (success : bool) (fields : list (string * value)) : AgentEvent :=
  {| event_id := "e1"; event_type := "execution_complete";
     event_data := VObj (("success", VBool success) :: fields) |}.

Definition pullRequestArtifact : SessionArtifact :=
  {| artifact_type := "pull request"; artifact_url := Some "https://git.example/pr/1" |}.

Definition prArtifact : SessionArtifact :=
  {| artifact_type := "pr"; artifact_url := Some "https://git.example/pr/1" |}.

(** C2, as stated, fails: the artifact list holds exactly one artifact of
    type "pull request", with a URL, polling completes and the run
    returns, but no URL is returned or stored. *)
Lemma runIntegration_pull_request_type_ignored :
  let arts := [pullRequestArtifact] in
  exists res p' w',
    runIntegration (sampleEnv [completeEvent true []] arts) 5
      (sampleProject twoDone, world0) = (Return res, (p', w'))
    /\ List.filter (fun a => String.eqb (artifact_type a) "pull request") arts
       = [pullRequestArtifact]
    /\ artifact_url pullRequestArtifact = Some "https://git.example/pr/1"
    /\ result_prUrl res = None
    /\ prUrl (integration p') = None
    /\ phase p' = phase_completed.
Proof.
  vm_compute. eexists _, _, _. repeat split.
Qed.

Lemma begin_eq env p w :
  begin env (p, w)
  = (Return tt,
     (Store.set_updatedAt (now env (tick w))
        (set_integration (with_status st_running (integration p))
           (set_phase phase_integrating p)),
      {| tick := S (tick w);
         disk := saved (homedir env) (now env (tick w))
                   (set_integration (with_status st_running (integration p))
                      (set_phase phase_integrating p)) (disk w);
         calls := calls w ++ [SaveProject] |})).
Proof.
  unfold begin, bind, modify, onIntegration. cbn. rewrite save_eq. reflexivity.
Qed.

Lemma find_of_filter {A} (f : A -> bool) (l : list A) (a : A) :
  List.filter f l = [a] -> List.find f l = Some a /\ f a = true.
Proof.
  induction l as [|x l IH]; simpl; [discriminate|].
  destruct (f x) eqn:Hx.
  - intros [= -> _]. auto.
  - exact IH.
Qed.

Lemma prUrlOf_single arts a u :
  List.filter isPrArtifact arts = [a] -> artifact_url a = Some u ->
  prUrlOf arts = Some u.
Proof.
  intros Hf Hu. destruct (find_of_filter _ _ _ Hf) as [Hfind Ha].
  unfold prUrlOf. rewrite Hfind.
  unfold isPrArtifact in Ha. apply andb_true_iff in Ha as [_ Ht].
  rewrite Ht. exact Hu.
Qed.

(** C2, amended.  On the merge path (two or more integrable tasks and a
    plan), once the merge session is opened and polling completes, if the
    read-back of the session gives [raw] and the artifact list holds
    exactly one artifact whose type is "pr" and whose URL is set, then
    [runIntegration] returns that URL, stores it in [integration.prUrl],
    stores the session's branch name in [integration.mergedBranch] and
    sets the phase (and the integration status) to [completed]. *)
Theorem runIntegration_records_pr
  (env : Env) (fuel : nat) (p : ProjectState) (w : World)
  (s1 s2 : ProjectState * World) (text : string)
  (raw : SessionStateRaw) (arts : list SessionArtifact)
  (a : SessionArtifact) (u : string) :
  2 <= length (completedTasksOf p) ->
  plan p <> None ->
  openSession env (snd (begin env (p, w))) = (Return tt, s1) ->
  pollForCompletion env fuel s1 = (Return text, s2) ->
  getSessionR env (tick (snd s2)) = Ok raw ->
  getArtifactsR env (S (tick (snd s2))) = Ok arts ->
  List.filter isPrArtifact arts = [a] ->
  artifact_url a = Some u ->
  exists p' w',
    runIntegration env fuel (p, w)
      = (Return {| result_branchName := raw_branchName raw;
                   result_prUrl := Some u |}, (p', w'))
    /\ prUrl (integration p') = Some u
    /\ mergedBranch (integration p') = raw_branchName raw
    /\ phase p' = phase_completed
    /\ integration_status (integration p') = st_completed.
Proof.
  intros Hlen Hplan Hopen Hpoll Hsess Harts Hfilter Hurl.
  unfold runIntegration. unfold bind at 1.
  rewrite begin_eq in *. cbn [snd] in Hopen.
  unfold bind at 1. unfold getState at 1. cbn [fst].
  change (completedTasksOf (Store.set_updatedAt _ (set_integration _ (set_phase _ p))))
    with (completedTasksOf p).
  destruct (completedTasksOf p) as [|t1 [|t2 rest]] eqn:Hc; simpl in Hlen; try lia.
  change (plan (Store.set_updatedAt _ (set_integration _ (set_phase _ p))))
    with (plan p).
  destruct (plan p) as [pl|]; [|congruence].
  unfold bind at 1. rewrite Hopen.
  unfold bind at 1. rewrite Hpoll.
  destruct s2 as [p2 w2]. cbn [snd] in Hsess, Harts.
  unfold collect, getSession, getArtifacts, bind, request, modify, onIntegration.
  cbn. rewrite Hsess. cbn. rewrite Harts. cbn. rewrite save_eq. cbn.
  rewrite (prUrlOf_single _ _ _ Hfilter Hurl).
  eexists _, _. split; [reflexivity|]. cbn. repeat split.
Qed.

(** The hypotheses of the amended C2 hold for the project with two
    integrable tasks, one poll that sees [execution_complete] and the
    single artifact of type "pr". *)
Lemma runIntegration_records_pr_witness :
  exists p' w',
    runIntegration (sampleEnv [completeEvent true []] [prArtifact]) 5
      (sampleProject twoDone, world0)
      = (Return {| result_branchName := Some "integrate/all";
                   result_prUrl := Some "https://git.example/pr/1" |}, (p', w'))
    /\ prUrl (integration p') = Some "https://git.example/pr/1"
    /\ mergedBranch (integration p') = Some "integrate/all"
    /\ phase p' = phase_completed
    /\ integration_status (integration p') = st_completed.
Proof.
  pose (env := sampleEnv [completeEvent true []] [prArtifact]).
  pose (s1 := snd (openSession env (snd (begin env (sampleProject twoDone, world0))))).
  pose (s2 := snd (pollForCompletion env 5 s1)).
  apply (runIntegration_records_pr env 5 (sampleProject twoDone) world0 s1 s2
           EmptyString
           {| raw_branchName := Some "integrate/all"; raw_status := "active";
              raw_sandbox := Some "running" |}
           [prArtifact] prArtifact "https://git.example/pr/1").
  - vm_compute. lia.
  - discriminate.
  - vm_compute. reflexivity.
  - vm_compute. reflexivity.
  - reflexivity.
  - reflexivity.
  - reflexivity.
  - reflexivity.
Defined.

(** *** Failure events during integration polling *)

Definition errorEvent : AgentEvent :=
  {| event_id := "e0"; event_type := "error";
     event_data := VObj [("error", VStr "sandbox crashed")] |}.

Definition failedCompletion : AgentEvent :=
  completeEvent false [("error", VStr "merge conflict")].

(** C3 at the integrator.  The events polled contain an [error] event and
    an [execution_complete] event with [success == false]; the poll loop
    of the integrator has no branch for either, so [runIntegration]
    returns normally, records no error and marks the integration and the
    phase [completed]. *)
Theorem runIntegration_ignores_failure_events :
  exists res p' w',
    runIntegration (sampleEnv [errorEvent; failedCompletion] []) 5
      (sampleProject twoDone, world0) = (Return res, (p', w'))
    /\ integration_status (integration p') = st_completed
    /\ integration_error (integration p') = None
    /\ phase p' = phase_completed.
Proof.
  vm_compute. eexists _, _, _. repeat split.
Qed.

End IntegratorFacts.

Module PlannerFacts.
Import JS Client Run Run.Notations Planner.

Definition freshProject : ProjectState :=
  {| project_id := "p1"; createdAt := 1; updatedAt := 1; goal := "Add tests";
     repo := IntegratorFacts.sampleRepo; phase := phase_planning;
     planning := {| planning_sessionId := None; planning_model := "m";
                    planning_status := st_pending; planning_error := None |};
     plan := None; tasks_of := [];
     integration := {| integration_sessionId := None; integration_status := st_pending;
                       mergedBranch := None; prUrl := None;
                       integration_error := None |} |}.

(** The planner's loop does raise on an [execution_complete] event that
    carries [success == false] and an error text, but [runPlanning] lets
    the exception pass without recording it: the planning status stays
    [running] and the phase stays [planning]. *)
Lemma runPlanning_failure_not_recorded :
  exists p' w',
    runPlanning (IntegratorFacts.sampleEnv [IntegratorFacts.failedCompletion] []) 5
      (freshProject, IntegratorFacts.world0)
      = (Throw "Agent execution failed: merge conflict", (p', w'))
    /\ planning_status (planning p') = st_running
    /\ planning_error (planning p') = None
    /\ phase p' = phase_planning.
Proof.
  vm_compute. eexists _, _. repeat split.
Qed.

(** An [execution_complete] event with [success == false] and no error
    text, and an [error] event seen in a cycle before the one that sees
    [execution_complete], do not make the planner's loop raise. *)
Lemma planner_poll_misses_failures :
  (exists s', pollForCompletion
                (IntegratorFacts.sampleEnv [IntegratorFacts.completeEvent false []] []) 5
                (freshProject, IntegratorFacts.world0) = (Return EmptyString, s'))
  /\ (let env := IntegratorFacts.sampleEnv [] [] in
      let env' :=
        {| homedir := homedir env; now := now env;
           createSessionR := createSessionR env; sendPromptR := sendPromptR env;
           getSessionR := getSessionR env;
           getEventsR := fun n =>
             if n <? 2 then Ok [IntegratorFacts.errorEvent]
             else Ok [IntegratorFacts.errorEvent; IntegratorFacts.completeEvent true []];
           getArtifactsR := getArtifactsR env |} in
      exists s', pollForCompletion env' 5 (freshProject, IntegratorFacts.world0)
                 = (Return EmptyString, s')).
Proof.
  split; vm_compute; eexists; reflexivity.
Qed.

End PlannerFacts.

(** ** The execution scheduler *)

Module ExecutorFacts.
Import JS Client Run Run.Notations Executor.

Definition chainPlan : Plan :=
  {| summary := "b after a"; tasks := [Dag.task "a" []; Dag.task "b" ["a"]] |}.

Definition skippedA : TaskExecution :=
  with_error "Skipped: dependency failed" (with_status skipped (freshExecution "a")).

(** A project file in which [a] is marked skipped while [b], which
    depends on [a], is still pending.  The scheduler writes no such
    file: it skips all pending tasks at once. *)
Definition resumed : ProjectState :=
  {| project_id := "p1"; createdAt := 1; updatedAt := 1; goal := "Add tests";
     repo := IntegratorFacts.sampleRepo; phase := phase_executing;
     planning := {| planning_sessionId := Some "plan-1"; planning_model := "m";
                    planning_status := st_completed; planning_error := None |};
     plan := Some chainPlan;
     tasks_of := [("a", skippedA); ("b", freshExecution "b")];
     integration := {| integration_sessionId := None; integration_status := st_pending;
                       mergedBranch := None; prUrl := None;
                       integration_error := None |} |}.

Definition statusOf (k : string) (p : ProjectState) : option TaskStatus :=
  option_map status (lookupTask k (tasks_of p)).

(** The readiness test by itself lets a skipped dependency pass.  At the
    table of [resumed], where [b] is pending and its only dependency [a]
    is [skipped], one pass of the scheduler loop selects [b], creates a
    session for it and leaves it [running].  The scheduler does not
    reach such a table (see [ReadinessFacts] below). *)
Lemma iteration_spawns_after_skipped_dependency :
  let env := IntegratorFacts.sampleEnv [] [] in
  let tm := Dag.taskMap (tasks chainPlan) in
  statusOf "a" resumed = Some skipped
  /\ statusOf "b" resumed = Some pending
  /\ option_map dependsOn (tm !! "b") = Some ["a"]
  /\ option_map (map taskId) (toSpawnOf tm 3 (tasks_of resumed)) = Some ["b"]
  /\ exists p' w',
       iteration env tm 3 (resumed, IntegratorFacts.world0) = (Return true, (p', w'))
       /\ statusOf "b" p' = Some running
       /\ statusOf "a" p' = Some skipped
       /\ In CreateSession (calls w').
Proof.
  vm_compute. repeat split. eexists _, _. repeat split. tauto.
Qed.

(** The readiness test lets a dependency pass when it is [completed] or
    [skipped]. *)
Lemma depSatisfied_iff ts d :
  depSatisfied ts d = true <->
  exists dep, lookupTask d ts = Some dep
              /\ (status dep = completed \/ status dep = skipped).
Proof.
  unfold depSatisfied, hasStatus. destruct (lookupTask d ts) as [dep|].
  - rewrite orb_true_iff, !bool_decide_eq_true. split.
    + intros H. exists dep. auto.
    + intros (dep' & [= <-] & H). exact H.
  - split; [discriminate|]. intros (dep & [=] & _).
Qed.

Lemma readyOf_sound tm ts pendingTasks ready e :
  readyOf tm ts pendingTasks = Some ready -> In e ready ->
  In e pendingTasks /\ isReady tm ts e = Some true.
Proof.
  revert ready. induction pendingTasks as [|t rest IH]; simpl; intros ready.
  - intros [= <-] [].
  - destruct (isReady tm ts t) as [b|] eqn:Hb; [|discriminate].
    destruct (readyOf tm ts rest) as [r|]; [|discriminate].
    intros [= <-] Hin. destruct b.
    + destruct Hin as [<-|Hin]; [auto|]. destruct (IH r eq_refl Hin). auto.
    + destruct (IH r eq_refl Hin). auto.
Qed.

Lemma slice0_incl {A} (xs : list A) n x : In x (slice0 xs n) -> In x xs.
Proof.
  unfold slice0. intros H.
  destruct (n <? 0)%Z; apply list_elem_of_In in H; apply list_elem_of_In;
    apply elem_of_take in H as (i & Hi & _); eapply list_elem_of_lookup_2; eauto.
Qed.

(** In a state in which no task is [skipped] the tasks selected for
    spawning are pending and all their dependencies are [completed]. *)
Lemma toSpawn_deps_completed tm maxParallel ts toSpawn e task d :
  (forall k x, lookupTask k ts = Some x -> status x <> skipped) ->
  toSpawnOf tm maxParallel ts = Some toSpawn ->
  In e toSpawn -> tm !! taskId e = Some task -> In d (dependsOn task) ->
  status e = pending
  /\ exists dep, lookupTask d ts = Some dep /\ status dep = completed.
Proof.
  intros Hns Hsp Hin Htask Hd. unfold toSpawnOf in Hsp.
  destruct (readyOf tm ts _) as [ready|] eqn:Hr; [|discriminate].
  injection Hsp as <-. apply slice0_incl in Hin.
  destruct (readyOf_sound _ _ _ _ _ Hr Hin) as [Hp Hready].
  apply filter_In in Hp as [_ Hp]. unfold hasStatus in Hp.
  apply bool_decide_eq_true in Hp. split; [exact Hp|].
  unfold isReady in Hready. rewrite Htask in Hready. injection Hready as Hall.
  rewrite forallb_forall in Hall. specialize (Hall d Hd).
  apply depSatisfied_iff in Hall as (dep & Hl & [Hc|Hs]).
  - exists dep. auto.
  - exfalso. exact (Hns d dep Hl Hs).
Qed.

End ExecutorFacts.

(** ** The retry policy *)

Module RetryFacts.
Import Retry.

Section facts.
Context {T E : Type}.
Variable fn : nat -> T + E.
Variable o : RetryOptions E.

Let maxA := default 3 (maxAttempts o).
Let base := default 1000%Z (baseDelayMs o).
Let maxD := default 30000%Z (maxDelayMs o).

(** The attempt at [i] failed and the failure did not abort the run. *)
Definition failsOn (i : nat) : Prop :=
  exists e, fn i = inr e /\ aborts o e = false.

(** What a run that started at [attempt] with [k] invocations ended in. *)
Definition endsWith (attempt k remaining : nat) (lastError : option E)
  (out : outcome T E) : Prop :=
  match out with
  | Returned v => 1 <= k /\ fn (attempt + k - 1) = inl v
  | Thrown (Some e) =>
      (1 <= k /\ fn (attempt + k - 1) = inr e
       /\ (aborts o e = true \/ (aborts o e = false /\ k = remaining)))
      \/ (k = 0 /\ remaining = 0 /\ lastError = Some e)
  | Thrown None => k = 0 /\ remaining = 0 /\ lastError = None
  end.

Lemma calls_app (t1 t2 : list (event)) :
  calls (t1 ++ t2) = calls t1 ++ calls t2.
Proof. unfold calls. apply flat_map_app. Qed.

Lemma retryLoop_spec remaining :
  forall attempt lastError trace,
    exists k,
      k <= remaining
      /\ calls (snd (retryLoop fn o maxA base maxD remaining attempt lastError trace))
         = calls trace ++ seq attempt k
      /\ (forall i, attempt <= i -> i + 1 < attempt + k -> failsOn i)
      /\ endsWith attempt k remaining lastError
           (fst (retryLoop fn o maxA base maxD remaining attempt lastError trace)).
Proof.
  induction remaining as [|remaining IH]; intros attempt lastError trace.
  - exists 0. simpl. rewrite app_nil_r. repeat split; [lia| |].
    + intros i H1 H2. lia.
    + destruct lastError; simpl; auto.
  - simpl. destruct (fn attempt) as [v|e] eqn:Hfn.
    + exists 1. simpl. rewrite calls_app. simpl.
      repeat split; [lia| |lia|].
      * intros i H1 H2. lia.
      * replace (attempt + 1 - 1) with attempt by lia. exact Hfn.
    + destruct (aborts o e) eqn:Hab.
      * exists 1. simpl. rewrite calls_app. simpl.
        repeat split; [lia| |].
        -- intros i H1 H2. lia.
        -- left. replace (attempt + 1 - 1) with attempt by lia. auto.
      * assert (Hstep : forall tr',
                  calls tr' = calls trace ++ [attempt] ->
                  exists k,
                    k <= S remaining
                    /\ calls (snd (retryLoop fn o maxA base maxD remaining
                                     (S attempt) (Some e) tr'))
                       = calls trace ++ seq attempt k
                    /\ (forall i, attempt <= i -> i + 1 < attempt + k -> failsOn i)
                    /\ endsWith attempt k (S remaining) lastError
                         (fst (retryLoop fn o maxA base maxD remaining
                                 (S attempt) (Some e) tr'))).
        { intros tr' Htr.
          destruct (IH (S attempt) (Some e) tr') as (k & Hk & Hcalls & Hfail & Hend).
          exists (S k). split; [lia|]. split.
          - rewrite Hcalls, Htr. rewrite <- app_assoc. reflexivity.
          - split.
            + intros i H1 H2. destruct (decide (i = attempt)) as [->|Hne].
              * exists e. auto.
              * apply Hfail; lia.
            + destruct (fst (retryLoop fn o maxA base maxD remaining (S attempt)
                               (Some e) tr')) as [v|[e'|]]; simpl in *.
              * destruct Hend as [Hk1 Hv]. split; [lia|].
                replace (attempt + S k - 1) with (S attempt + k - 1) by lia. exact Hv.
              * destruct Hend as [(Hk1 & He' & Hor)|(Hk0 & Hr0 & Hl)].
                -- left. split; [lia|]. split.
                   ++ replace (attempt + S k - 1) with (S attempt + k - 1) by lia.
                      exact He'.
                   ++ destruct Hor as [Ha|[Ha Hkr]]; [auto|right; split; [exact Ha|lia]].
                -- left. injection Hl as <-. subst k remaining. split; [lia|]. split.
                   ++ replace (attempt + 1 - 1) with attempt by lia. exact Hfn.
                   ++ right. auto.
              * destruct Hend as (_ & _ & Hl). discriminate. }
        destruct (attempt <? maxA - 1); apply Hstep; rewrite calls_app; reflexivity.
Qed.

(** How a run ends, from the number [k] of its invocations: the helper
    behind the clauses of [retry_spec]. *)
Lemma retry_run :
  exists k,
    k <= maxA
    /\ calls (snd (retry fn o)) = seq 0 k
    /\ (forall i, i + 1 < k -> failsOn i)
    /\ endsWith 0 k maxA None (fst (retry fn o)).
Proof.
  unfold retry. fold maxA base maxD.
  destruct (retryLoop_spec maxA 0 None []) as (k & Hk & Hcalls & Hfail & Hend).
  exists k. split; [exact Hk|]. split; [exact Hcalls|]. split; [|exact Hend].
  intros i Hi. apply Hfail; lia.
Qed.

(** C9.  [retry] invokes the operation with the attempt indices 0, 1, ...
    in order and at most [maxAttempts] times; an invocation that succeeds
    is the last one and [retry] returns its result; a failure for which
    [shouldAbort] holds is the last invocation and is re-raised; and when
    all [maxAttempts] invocations fail, the error of the last one is
    raised.  The clauses on success and on abort are given twice: for an
    invocation that took place, and for the first index at which the
    operation succeeds (aborts) after failures only. *)
Theorem retry_spec :
  let out := fst (retry fn o) in
  let invoked := calls (snd (retry fn o)) in
  (exists k, k <= maxA /\ invoked = seq 0 k
             /\ forall i, i + 1 < k -> failsOn i)
  /\ (forall i v, In i invoked -> fn i = inl v ->
        out = Returned v /\ invoked = seq 0 (S i))
  /\ (forall i v, i < maxA -> (forall j, j < i -> failsOn j) -> fn i = inl v ->
        out = Returned v /\ invoked = seq 0 (S i))
  /\ (forall v, out = Returned v ->
        exists k, invoked = seq 0 (S k) /\ fn k = inl v)
  /\ (forall i e, In i invoked -> fn i = inr e -> aborts o e = true ->
        out = Thrown (Some e) /\ invoked = seq 0 (S i))
  /\ (forall i e, i < maxA -> (forall j, j < i -> failsOn j) ->
        fn i = inr e -> aborts o e = true ->
        out = Thrown (Some e) /\ invoked = seq 0 (S i))
  /\ (0 < maxA -> (forall i, i < maxA -> failsOn i) ->
        invoked = seq 0 maxA
        /\ exists e, fn (maxA - 1) = inr e /\ out = Thrown (Some e)).
Proof.
  cbv zeta. destruct retry_run as (k & Hk & Hcalls & Hfail & Hend).
  (* an invocation that took place and did not fail on is the last one *)
  assert (Hlast : forall i, In i (calls (snd (retry fn o))) -> ~ failsOn i ->
                  k = S i).
  { intros i Hin Hnf. rewrite Hcalls in Hin. apply in_seq in Hin.
    destruct (decide (i + 1 < k)) as [Hlt|Hge]; [|lia].
    destruct (Hnf (Hfail i Hlt)). }
  (* the first index that does not fail on is invoked *)
  assert (Hfirst : forall i, i < maxA -> (forall j, j < i -> failsOn j) ->
                   ~ failsOn i -> In i (calls (snd (retry fn o)))).
  { intros i Hi Hbefore Hnf. rewrite Hcalls. apply in_seq.
    split; [lia|]. simpl.
    destruct (decide (i < k)) as [Hlt|Hge]; [exact Hlt|exfalso].
    destruct (fst (retry fn o)) as [v|[e'|]]; simpl in Hend.
    - destruct Hend as [Hk1 Hv].
      destruct (Hbefore (k - 1) ltac:(lia)) as (e & He & _). congruence.
    - destruct Hend as [(Hk1 & He' & [Hab|[_ Hkr]])|(Hk0 & Hm & _)]; [|lia|lia].
      destruct (Hbefore (k - 1) ltac:(lia)) as (e & He & Hnab). congruence.
    - destruct Hend as (_ & Hm & _). lia. }
  assert (Hsuccess : forall i v, In i (calls (snd (retry fn o))) -> fn i = inl v ->
            fst (retry fn o) = Returned v /\ calls (snd (retry fn o)) = seq 0 (S i)).
  { intros i v Hin Hfn.
    assert (Hki : k = S i).
    { apply Hlast; [exact Hin|]. intros (e & He & _). congruence. }
    subst k. split; [|exact Hcalls].
    destruct (fst (retry fn o)) as [v'|[e'|]]; simpl in Hend.
    - destruct Hend as [_ Hv].
      assert (Hv' : fn i = inl v') by (rewrite <- Hv; f_equal; lia). congruence.
    - destruct Hend as [(_ & He' & _)|(Hk0 & _)]; [|lia].
      assert (He'' : fn i = inr e') by (rewrite <- He'; f_equal; lia). congruence.
    - destruct Hend as (Hk0 & _). lia. }
  assert (Habort : forall i e, In i (calls (snd (retry fn o))) -> fn i = inr e ->
            aborts o e = true ->
            fst (retry fn o) = Thrown (Some e)
            /\ calls (snd (retry fn o)) = seq 0 (S i)).
  { intros i e Hin Hfn Hab.
    assert (Hki : k = S i).
    { apply Hlast; [exact Hin|]. intros (e' & He' & Hab'). congruence. }
    subst k. split; [|exact Hcalls].
    destruct (fst (retry fn o)) as [v'|[e'|]]; simpl in Hend.
    - destruct Hend as [_ Hv].
      assert (Hv' : fn i = inl v') by (rewrite <- Hv; f_equal; lia). congruence.
    - destruct Hend as [(_ & He' & _)|(Hk0 & _)]; [|lia].
      assert (He'' : fn i = inr e') by (rewrite <- He'; f_equal; lia). congruence.
    - destruct Hend as (Hk0 & _). lia. }
  split; [|split; [|split; [|split; [|split; [|split]]]]].
  - exists k. auto.
  - exact Hsuccess.
  - intros i v Hi Hbefore Hfn. apply Hsuccess; [|exact Hfn].
    apply Hfirst; [exact Hi|exact Hbefore|]. intros (e & He & _). congruence.
  - intros v Hv. rewrite Hv in Hend. simpl in Hend. destruct Hend as [Hk1 Hfn].
    exists (k - 1). replace (S (k - 1)) with k by lia. split; [exact Hcalls|].
    exact Hfn.
  - exact Habort.
  - intros i e Hi Hbefore Hfn Hab. apply Habort; [|exact Hfn|exact Hab].
    apply Hfirst; [exact Hi|exact Hbefore|]. intros (e' & He' & Hab'). congruence.
  - intros Hpos Hall.
    assert (Hkm : k = maxA).
    { destruct (fst (retry fn o)) as [v|[e'|]]; simpl in Hend.
      - destruct Hend as [Hk1 Hv].
        destruct (Hall (k - 1) ltac:(lia)) as (e & He & _). congruence.
      - destruct Hend as [(Hk1 & He' & [Hab|[_ Hkr]])|(Hk0 & Hm & _)]; [|exact Hkr|lia].
        destruct (Hall (k - 1) ltac:(lia)) as (e & He & Hnab). congruence.
      - destruct Hend as (_ & Hm & _). lia. }
    subst k. split; [exact Hcalls|].
    destruct (Hall (maxA - 1) ltac:(lia)) as (e & He & Hnab). exists e. split; [exact He|].
    destruct (fst (retry fn o)) as [v|[e'|]]; simpl in Hend.
    + destruct Hend as [_ Hv]. congruence.
    + destruct Hend as [(_ & He' & _)|(Hk0 & _)]; [|lia].
      congruence.
    + destruct Hend as (Hk0 & _). lia.
Qed.

End facts.

(** Two runs from [retry.test.ts]: success on the third attempt, and an
    abort on the first failure. *)
Example retry_third_time :
  retry (fun a => if a <? 2 then inr "fail" else inl "ok")
        {| maxAttempts := Some 3; baseDelayMs := Some 1%Z;
           maxDelayMs := None; shouldAbort := None |}
  = (Returned "ok", [Call 0; SleepRandom 1; Call 1; SleepRandom 2; Call 2]).
Proof. reflexivity. Qed.

Example retry_abort :
  retry (T := string) (fun _ => inr "fatal")
        {| maxAttempts := Some 5; baseDelayMs := Some 1%Z; maxDelayMs := None;
           shouldAbort := Some (fun e => String.eqb e "fatal") |}
  = (Thrown (Some "fatal"), [Call 0]).
Proof. reflexivity. Qed.

End RetryFacts.

(** ** The output extractor *)

Module ExtractorFacts.
Import JS Extractor.

Definition lf : string := String "010"%char EmptyString.
Definition q (s : string) : string := Dag.quote s.

(** An untagged fence followed by a fence tagged [json]. *)
Definition twoFences : string :=
  "```" +:+ lf +:+ "[1]" +:+ lf +:+ "```" +:+ lf
  +:+ "```json" +:+ lf +:+ "{" +:+ q "a" +:+ ": 1}" +:+ lf +:+ "```".

(** Runs of [json-extractor.test.ts]. *)
Example extract_json_fence :
  extractJson ("Here is the plan:" +:+ lf +:+ "```json" +:+ lf
               +:+ "{" +:+ q "summary" +:+ ": " +:+ q "Test plan" +:+ ", "
               +:+ q "tasks" +:+ ": []}" +:+ lf +:+ "```" +:+ lf +:+ "That's the plan.")
  = VObj [("summary", VStr "Test plan"); ("tasks", VArr [])].
Proof. vm_compute. reflexivity. Qed.

Example extract_prefers_fence_over_raw :
  extractJson ("{" +:+ q "wrong" +:+ ": true}" +:+ lf +:+ "```json" +:+ lf
               +:+ "{" +:+ q "correct" +:+ ": true}" +:+ lf +:+ "```")
  = VObj [("correct", VBool true)].
Proof. vm_compute. reflexivity. Qed.

Example extract_unbalanced : extractJson "{ missing close brace" = VNull.
Proof. vm_compute. reflexivity. Qed.

(** C5 at a text with an untagged fence and a later [json] fence.  The
    single pattern of [extractJson] matches the leftmost fence, tagged or
    not: the capture is the content of the untagged fence, and its value
    is returned although the content of the [json] fence parses. *)
Theorem extractJson_takes_first_fence :
  fenceMatch twoFences = Some ("[1]" +:+ lf)
  /\ JSON.parse ("{" +:+ q "a" +:+ ": 1}") = Some (VObj [("a", VNum 1)])
  /\ extractJson twoFences = VArr [VNum 1]
  /\ extractJson twoFences <> VObj [("a", VNum 1)].
Proof.
  vm_compute. repeat split. discriminate.
Qed.

End ExtractorFacts.

(** ** The graph engine *)

Module DagFacts.
Import Dag.

(** *** Task maps *)

Lemma taskMap_app ts t :
  taskMap (ts ++ [t]) = <[id t := t]> (taskMap ts).
Proof. unfold taskMap. rewrite fold_left_app. reflexivity. Qed.

Lemma taskMap_lookup_Some ts x t :
  taskMap ts !! x = Some t -> In t ts /\ id t = x.
Proof.
  induction ts as [|u ts IH] using rev_ind; [discriminate|].
  rewrite taskMap_app. destruct (decide (id u = x)) as [<-|Hne].
  - rewrite lookup_insert_eq. intros [= <-]. split; [|reflexivity].
    apply in_or_app. right. left. reflexivity.
  - rewrite lookup_insert_ne by exact Hne. intros H.
    destruct (IH H). split; [|assumption]. apply in_or_app. left. assumption.
Qed.

Lemma taskMap_lookup_None ts x :
  taskMap ts !! x = None <-> ~ In x (map id ts).
Proof.
  induction ts as [|u ts IH] using rev_ind; [simpl; tauto|].
  rewrite taskMap_app, map_app, in_app_iff. simpl.
  destruct (decide (id u = x)) as [<-|Hne].
  - rewrite lookup_insert_eq. split; [discriminate|]. tauto.
  - rewrite lookup_insert_ne by exact Hne. rewrite IH. tauto.
Qed.

Lemma taskMap_lookup_unique ts t :
  uniqueIds ts -> In t ts -> taskMap ts !! id t = Some t.
Proof.
  unfold uniqueIds. induction ts as [|u ts IH] using rev_ind; [intros _ []|].
  rewrite map_app. simpl. intros Hnd Hin.
  apply NoDup_app in Hnd as (Hnd & Hdisj & _).
  rewrite taskMap_app. apply in_app_iff in Hin as [Hin|[<-|[]]].
  - rewrite lookup_insert_ne; [apply IH; assumption|].
    intros Heq. apply (Hdisj (id t)).
    + apply list_elem_of_In, in_map, Hin.
    + rewrite <- Heq. apply list_elem_of_In. left. reflexivity.
  - apply lookup_insert_eq.
Qed.

Lemma taskMap_size ts : uniqueIds ts -> size (taskMap ts) = length ts.
Proof.
  unfold uniqueIds. induction ts as [|u ts IH] using rev_ind; [reflexivity|].
  rewrite map_app. simpl. intros Hnd.
  apply NoDup_app in Hnd as (Hnd & Hdisj & _).
  rewrite taskMap_app, length_app. simpl.
  rewrite map_size_insert_None.
  - rewrite IH by assumption. lia.
  - apply taskMap_lookup_None. intros Hin.
    apply (Hdisj (id u)); apply list_elem_of_In; [assumption|left; reflexivity].
Qed.

(** With unique ids the map holds exactly the tasks, so the dependency
    relation of the list is the one the algorithms follow. *)
Lemma depends_adj ts x y :
  uniqueIds ts -> depends ts x y <-> In y (adj ts x).
Proof.
  intros Hu. unfold depends, adj. split.
  - intros (t & Hin & <- & Hy). rewrite (taskMap_lookup_unique _ _ Hu Hin). exact Hy.
  - destruct (taskMap ts !! x) as [t|] eqn:Ht; [|intros []].
    intros Hy. apply taskMap_lookup_Some in Ht as [Hin Hid]. eauto.
Qed.

(** *** Acyclic task maps have heights *)

Section graph.
Variable tm : gmap string TaskNode.

Definition edge (x y : string) : Prop :=
  exists t, tm !! x = Some t /\ In y (dependsOn t).

(** The recurrence of the specification, without the memo table:
    [wave(t) = 0] if [t] has no dependencies, else
    [1 + max(wave(d) for d in deps(t))]. *)
Definition waveStep (recur : string -> option nat) (task : TaskNode) : option nat :=
  if bool_decide (length (dependsOn task) = 0) then Some 0
  else match mapM recur (dependsOn task) with
       | Some ws => Some (maxList ws + 1)
       | None => None
       end.

Fixpoint waveOf (fuel : nat) (x : string) : option nat :=
  match fuel with
  | O => None
  | S fuel' =>
      match tm !! x with
      | None => None
      | Some task => waveStep (waveOf fuel') task
      end
  end.

Lemma waveOf_S fuel x task :
  tm !! x = Some task -> waveOf (S fuel) x = waveStep (waveOf fuel) task.
Proof. intros H. simpl. rewrite H. reflexivity. Qed.

Lemma waveOf_Some fuel x w :
  waveOf fuel x = Some w ->
  exists fuel' task, fuel = S fuel' /\ tm !! x = Some task
                     /\ waveStep (waveOf fuel') task = Some w.
Proof.
  destruct fuel as [|fuel']; [discriminate|]. simpl.
  destruct (tm !! x) as [task|]; [|discriminate]. eauto.
Qed.

Lemma waveStep_leaf recur task :
  dependsOn task = [] -> waveStep recur task = Some 0.
Proof. intros H. unfold waveStep. rewrite H. reflexivity. Qed.

Lemma waveStep_node recur task :
  dependsOn task <> [] ->
  waveStep recur task
  = match mapM recur (dependsOn task) with
    | Some ws => Some (maxList ws + 1)
    | None => None
    end.
Proof.
  intros H. unfold waveStep. rewrite bool_decide_eq_false_2; [reflexivity|].
  destruct (dependsOn task); [congruence|discriminate].
Qed.

Lemma mapM_map_Some {A B} (f : A -> option B) (g : A -> B) (l : list A) :
  (forall x, In x l -> f x = Some (g x)) -> mapM f l = Some (map g l).
Proof.
  induction l as [|a l IH]; intros H; [reflexivity|].
  simpl. rewrite (H a) by (left; reflexivity). simpl.
  rewrite IH; [reflexivity|]. intros x Hx. apply H. right. exact Hx.
Qed.

Lemma mapM_Some_map {A B} (f : A -> option B) (l : list A) (ys : list B) :
  mapM f l = Some ys -> Forall2 (fun x y => f x = Some y) l ys.
Proof.
  revert ys. induction l as [|a l IH]; intros ys H.
  - injection H as <-. constructor.
  - simpl in H. destruct (f a) as [b|] eqn:Hb; [|discriminate].
    simpl in H. destruct (mapM f l) as [bs|] eqn:Hbs; [|discriminate].
    simpl in H. injection H as <-. constructor; [exact Hb|apply IH; reflexivity].
Qed.

Lemma mapM_ext_in {A B} (f g : A -> option B) (l : list A) :
  (forall x, In x l -> f x = g x) -> mapM f l = mapM g l.
Proof.
  induction l as [|a l IH]; intros H; [reflexivity|].
  simpl. rewrite (H a) by (left; reflexivity).
  rewrite IH; [reflexivity|]. intros x Hx. apply H. right. exact Hx.
Qed.

Lemma mapM_Some_in {A B} (f : A -> option B) (l : list A) (ys : list B) (x : A) :
  mapM f l = Some ys -> In x l -> exists y, f x = Some y /\ In y ys.
Proof.
  revert ys. induction l as [|a l IH]; intros ys H Hin; [destruct Hin|].
  simpl in H. destruct (f a) as [b|] eqn:Hb; [|discriminate].
  simpl in H. destruct (mapM f l) as [bs|] eqn:Hbs; [|discriminate].
  simpl in H. injection H as <-. destruct Hin as [<-|Hin].
  - exists b. split; [exact Hb|left; reflexivity].
  - destruct (IH bs eq_refl Hin) as (y & Hy & Hiny). exists y. split; [exact Hy|right; exact Hiny].
Qed.

Lemma mapM_total {A B} (f : A -> option B) (l : list A) :
  (forall x, In x l -> is_Some (f x)) -> is_Some (mapM f l).
Proof.
  induction l as [|a l IH]; intros H; [eexists; reflexivity|].
  simpl. destruct (H a (or_introl eq_refl)) as [b ->]. simpl.
  destruct IH as [bs ->]; [|eexists; reflexivity].
  intros x Hx. apply H. right. exact Hx.
Qed.

Lemma maxList_ge (xs : list nat) x : In x xs -> x <= maxList xs.
Proof.
  induction xs as [|a xs IH]; [intros []|]. simpl. intros [<-|H]; [lia|].
  specialize (IH H). lia.
Qed.

Lemma maxList_in (xs : list nat) : xs <> [] -> In (maxList xs) xs.
Proof.
  induction xs as [|a xs IH]; [congruence|]. intros _. simpl.
  destruct xs as [|b xs]; [left; simpl; lia|].
  destruct (Nat.max_spec a (maxList (b :: xs))) as [[_ ->]|[_ ->]].
  - right. apply IH. discriminate.
  - left. reflexivity.
Qed.

Lemma waveOf_mono fuel : forall fuel' x w,
  waveOf fuel x = Some w -> fuel <= fuel' -> waveOf fuel' x = Some w.
Proof.
  induction fuel as [|fuel IH]; intros fuel' x w H Hle; [discriminate|].
  destruct fuel' as [|fuel']; [lia|].
  apply waveOf_Some in H as (f & task & [= <-] & Ht & Hw).
  rewrite (waveOf_S _ _ _ Ht).
  destruct (dependsOn task) as [|d ds] eqn:Hd.
  - rewrite waveStep_leaf in * by exact Hd. exact Hw.
  - rewrite waveStep_node in * by (rewrite Hd; discriminate).
    destruct (mapM (waveOf fuel) (dependsOn task)) as [ws|] eqn:Hws; [|discriminate].
    assert (Hext : mapM (waveOf fuel') (dependsOn task) = Some ws).
    { rewrite <- Hws. apply mapM_ext_in. intros y Hy.
      destruct (mapM_Some_in _ _ _ _ Hws Hy) as (wy & Hwy & _).
      rewrite Hwy. apply IH; [exact Hwy|lia]. }
    rewrite Hext. exact Hw.
Qed.

Lemma Forall2_in_r {A B} (P : A -> B -> Prop) l l' y :
  Forall2 P l l' -> In y l' -> exists x, In x l /\ P x y.
Proof.
  induction 1 as [|a b l l' Hab _ IH]; [intros []|].
  intros [<-|Hin].
  - exists a. split; [left; reflexivity|exact Hab].
  - destruct (IH Hin) as (x & Hx & Hp). exists x. split; [right; exact Hx|exact Hp].
Qed.

(** The wave of a node is below the fuel that computes it. *)
Lemma waveOf_lt fuel : forall x w, waveOf fuel x = Some w -> w < fuel.
Proof.
  induction fuel as [|fuel IH]; intros x w H; [discriminate|].
  apply waveOf_Some in H as (f & task & [= <-] & Ht & Hw).
  destruct (dependsOn task) as [|d ds] eqn:Hd.
  - rewrite waveStep_leaf in Hw by exact Hd. injection Hw as <-. lia.
  - rewrite waveStep_node in Hw by (rewrite Hd; discriminate).
    destruct (mapM (waveOf fuel) (dependsOn task)) as [ws|] eqn:Hws; [|discriminate].
    injection Hw as <-.
    apply mapM_Some_map in Hws.
    assert (Hne : ws <> []).
    { intros ->. rewrite Hd in Hws. inversion Hws. }
    destruct (Forall2_in_r _ _ _ _ Hws (maxList_in ws Hne)) as (y & _ & Hy).
    specialize (IH _ _ Hy). lia.
Qed.

Hypothesis closed : forall x y, edge x y -> is_Some (tm !! y).
Hypothesis acyc : forall x, ~ tc edge x x.

(** A dependency path, written from its end: in [y :: x :: l] the node
    [x] depends on [y]. *)
Fixpoint ispath (l : list string) : Prop :=
  match l with
  | y :: (x :: _) as l' => edge x y /\ ispath l'
  | _ => True
  end.

Lemma ispath_reach y l z : ispath (y :: l) -> In z l -> tc edge z y.
Proof.
  revert y. induction l as [|x l IH]; intros y Hp Hz; [destruct Hz|].
  destruct Hp as [He Hp]. destruct Hz as [<-|Hz].
  - apply tc_once. exact He.
  - eapply tc_r; [apply IH; eassumption|exact He].
Qed.

Lemma ispath_NoDup l : ispath l -> NoDup l.
Proof.
  induction l as [|y l IH]; intros Hp; [constructor|].
  constructor.
  - intros Hin. apply list_elem_of_In in Hin.
    exact (acyc y (ispath_reach _ _ _ Hp Hin)).
  - apply IH. destruct l; [exact I|]. destruct Hp. assumption.
Qed.

Lemma path_length l :
  ispath l -> (forall z, In z l -> is_Some (tm !! z)) -> length l <= size tm.
Proof.
  intros Hp Hdom. rewrite <- size_dom.
  rewrite <- (size_list_to_set (C := gset string) l) by (apply ispath_NoDup; exact Hp).
  apply subseteq_size. intros z Hz. apply elem_of_list_to_set in Hz.
  apply elem_of_dom. apply Hdom. apply list_elem_of_In. exact Hz.
Qed.

(** Every node has a wave, and fuel equal to the number of nodes finds it. *)
Lemma waveOf_path fuel : forall x l,
  ispath (x :: l) -> (forall z, In z (x :: l) -> is_Some (tm !! z)) ->
  size tm <= fuel + length l ->
  is_Some (waveOf fuel x).
Proof.
  induction fuel as [|fuel IH]; intros x l Hp Hdom Hsz.
  - pose proof (path_length _ Hp Hdom). simpl in *. lia.
  - destruct (Hdom x (or_introl eq_refl)) as [task Htask].
    rewrite (waveOf_S _ _ _ Htask).
    destruct (dependsOn task) as [|d ds] eqn:Hd;
      [rewrite waveStep_leaf by exact Hd; eexists; reflexivity|].
    rewrite waveStep_node by (rewrite Hd; discriminate).
    destruct (mapM_total (waveOf fuel) (dependsOn task)) as [ws ->];
      [|eexists; reflexivity].
    intros y Hy.
    assert (He : edge x y) by (exists task; auto).
    apply (IH y (x :: l)).
    + split; assumption.
    + intros z [<-|Hz]; [exact (closed _ _ He)|apply Hdom; exact Hz].
    + simpl. lia.
Qed.

Lemma waveOf_total x : is_Some (tm !! x) -> is_Some (waveOf (size tm) x).
Proof.
  intros Hx. apply (waveOf_path (size tm) x []).
  - exact I.
  - intros z [<-|[]]. exact Hx.
  - lia.
Qed.

(** The height of a node: its wave. *)
Definition height (x : string) : nat := default 0 (waveOf (size tm) x).

Lemma height_eq fuel x w : waveOf fuel x = Some w -> height x = w.
Proof.
  intros H. unfold height.
  destruct (Nat.le_ge_cases fuel (size tm)) as [Hle|Hge].
  - rewrite (waveOf_mono _ _ _ _ H Hle). reflexivity.
  - assert (Hx : is_Some (tm !! x)).
    { apply waveOf_Some in H as (? & task & _ & Ht & _). eauto. }
    destruct (waveOf_total x Hx) as [w' Hw'].
    rewrite Hw'. simpl. pose proof (waveOf_mono _ _ _ _ Hw' Hge). congruence.
Qed.

Lemma waveOf_height fuel x :
  is_Some (tm !! x) -> height x < fuel -> waveOf fuel x = Some (height x).
Proof.
  intros Hx Hlt. destruct (waveOf_total x Hx) as [w Hw].
  pose proof (height_eq _ _ _ Hw) as Hh. rewrite Hh in *.
  clear Hh. revert x w Hx Hw Hlt.
  induction fuel as [|fuel IH]; intros x w Hx Hw Hlt; [lia|].
  apply waveOf_Some in Hw as (n & task & Hn & Htask & Hw).
  rewrite (waveOf_S _ _ _ Htask).
  destruct (dependsOn task) as [|d ds] eqn:Hd.
  - rewrite waveStep_leaf in * by exact Hd. exact Hw.
  - rewrite waveStep_node in * by (rewrite Hd; discriminate).
    destruct (mapM (waveOf n) (dependsOn task)) as [ws|] eqn:Hws; [|discriminate].
    injection Hw as <-.
    assert (Hext : mapM (waveOf fuel) (dependsOn task) = Some ws).
    { rewrite <- Hws. apply mapM_ext_in. intros y Hy.
      destruct (mapM_Some_in _ _ _ _ Hws Hy) as (wy & Hwy & Hin).
      rewrite Hwy. apply IH.
      - apply (closed x). exists task. auto.
      - rewrite Hn. apply (waveOf_mono n); [exact Hwy|lia].
      - pose proof (maxList_ge _ _ Hin). lia. }
    rewrite Hext. reflexivity.
Qed.

Lemma waves_are_heights fuel l ws :
  Forall2 (fun x w => waveOf fuel x = Some w) l ws -> ws = map height l.
Proof.
  induction 1 as [|a b l l' Hab _ IH]; [reflexivity|].
  simpl. rewrite (height_eq _ _ _ Hab), IH. reflexivity.
Qed.

(** The defining equations of [height]. *)
Lemma height_leaf x task :
  tm !! x = Some task -> dependsOn task = [] -> height x = 0.
Proof.
  intros Ht Hd. apply (height_eq 1).
  rewrite (waveOf_S _ _ _ Ht), waveStep_leaf by exact Hd. reflexivity.
Qed.

Lemma height_node x task :
  tm !! x = Some task -> dependsOn task <> [] ->
  height x = maxList (map height (dependsOn task)) + 1.
Proof.
  intros Ht Hd. destruct (waveOf_total x (ex_intro _ _ Ht)) as [w Hw].
  rewrite (height_eq _ _ _ Hw).
  apply waveOf_Some in Hw as (n & task' & Hn & Ht' & Hw).
  rewrite Ht in Ht'. injection Ht' as <-.
  rewrite waveStep_node in Hw by exact Hd.
  destruct (mapM (waveOf n) (dependsOn task)) as [ws|] eqn:Hws; [|discriminate].
  injection Hw as <-. f_equal. f_equal.
  apply mapM_Some_map in Hws. apply (waves_are_heights _ _ _ Hws).
Qed.

Lemma height_edge x y : edge x y -> height y < height x.
Proof.
  intros (task & Ht & Hy).
  rewrite (height_node x task Ht) by (intros E; rewrite E in Hy; destruct Hy).
  pose proof (maxList_ge (map height (dependsOn task)) (height y) (in_map _ _ _ Hy)).
  lia.
Qed.

Lemma height_lt_size x : is_Some (tm !! x) -> height x < size tm.
Proof.
  intros Hx. destruct (waveOf_total x Hx) as [w Hw].
  rewrite (height_eq _ _ _ Hw). exact (waveOf_lt _ _ _ Hw).
Qed.

(** *** [getWave] computes heights *)

(** The memo table only holds heights of nodes. *)
Definition memo_ok (wi : gmap string nat) : Prop :=
  forall y w, wi !! y = Some w -> is_Some (tm !! y) /\ w = height y.

Definition getWave_ok (fuel : nat) : Prop :=
  forall x wi,
    memo_ok wi -> is_Some (tm !! x) -> height x < fuel ->
    exists wi', getWave tm fuel x wi = Some (height x, wi')
                /\ memo_ok wi' /\ wi ⊆ wi' /\ wi' !! x = Some (height x).

Lemma memo_ok_insert wi x :
  memo_ok wi -> is_Some (tm !! x) -> memo_ok (<[x := height x]> wi).
Proof.
  intros Hok Hx y w. destruct (decide (x = y)) as [<-|Hne].
  - rewrite lookup_insert_eq. intros [= <-]. auto.
  - rewrite lookup_insert_ne by exact Hne. apply Hok.
Qed.

Lemma mapM_state_getWave fuel :
  getWave_ok fuel ->
  forall ds wi,
    memo_ok wi ->
    (forall d, In d ds -> is_Some (tm !! d) /\ height d < fuel) ->
    exists wi', mapM_state (getWave tm fuel) ds wi = Some (map height ds, wi')
                /\ memo_ok wi' /\ wi ⊆ wi'.
Proof.
  intros Hrec. induction ds as [|d ds IH]; intros wi Hok Hds.
  - exists wi. simpl. auto.
  - destruct (Hds d (or_introl eq_refl)) as [Hd Hh].
    destruct (Hrec d wi Hok Hd Hh) as (wi1 & Hg & Hok1 & Hsub1 & _).
    destruct (IH wi1 Hok1) as (wi2 & Hm & Hok2 & Hsub2).
    { intros d' Hd'. apply Hds. right. exact Hd'. }
    exists wi2. simpl. rewrite Hg, Hm. split; [reflexivity|]. split; [exact Hok2|].
    etrans; eassumption.
Qed.

Lemma getWave_correct fuel : getWave_ok fuel.
Proof.
  induction fuel as [|fuel IH]; intros x wi Hok Hx Hlt; [lia|].
  simpl. destruct (wi !! x) as [w|] eqn:Hw.
  - destruct (Hok _ _ Hw) as [_ ->]. exists wi. auto.
  - destruct Hx as [task Htask]. rewrite Htask.
    destruct (dependsOn task) as [|d ds] eqn:Hd.
    + simpl. rewrite <- (height_leaf x task Htask Hd).
      exists (<[x := height x]> wi). split; [reflexivity|]. split; [|split].
      * apply memo_ok_insert; eauto.
      * apply insert_subseteq. exact Hw.
      * apply lookup_insert_eq.
    + rewrite bool_decide_eq_false_2 by discriminate.
      rewrite <- Hd.
      assert (Hne : dependsOn task <> []) by (rewrite Hd; discriminate).
      destruct (mapM_state_getWave fuel IH (dependsOn task) wi Hok)
        as (wi' & Hm & Hok' & Hsub).
      { intros d' Hd'.
        assert (He : edge x d') by (exists task; auto).
        split; [exact (closed _ _ He)|]. pose proof (height_edge _ _ He). lia. }
      rewrite Hm. rewrite <- (height_node x task Htask Hne).
      exists (<[x := height x]> wi'). split; [reflexivity|]. split; [|split].
      * apply memo_ok_insert; eauto.
      * apply map_subseteq_spec. intros y w Hy.
        destruct (decide (x = y)) as [<-|Hxy]; [congruence|].
        rewrite lookup_insert_ne by exact Hxy.
        exact (lookup_weaken _ _ _ _ Hy Hsub).
      * apply lookup_insert_eq.
Qed.

Lemma fillWaves_correct fuel todo : forall wi,
  memo_ok wi ->
  (forall t, In t todo -> is_Some (tm !! id t)) ->
  size tm <= fuel ->
  exists wi', fillWaves tm fuel todo wi = Some wi'
              /\ memo_ok wi' /\ wi ⊆ wi'
              /\ forall t, In t todo -> wi' !! id t = Some (height (id t)).
Proof.
  unfold fillWaves. induction todo as [|t todo IH]; intros wi Hok Hdom Hfuel.
  - exists wi. simpl. split; [reflexivity|]. split; [exact Hok|].
    split; [reflexivity|]. intros t [].
  - assert (Ht : is_Some (tm !! id t)) by (apply Hdom; left; reflexivity).
    destruct (getWave_correct fuel (id t) wi Hok Ht) as (wi1 & Hg & Hok1 & Hsub1 & Hl1).
    { pose proof (height_lt_size _ Ht). lia. }
    destruct (IH wi1 Hok1) as (wi2 & Hf & Hok2 & Hsub2 & Hl2); [|exact Hfuel|].
    { intros t' Ht'. apply Hdom. right. exact Ht'. }
    exists wi2. simpl. rewrite Hg. simpl. split; [exact Hf|].
    split; [exact Hok2|]. split; [etrans; eassumption|].
    intros t' [<-|Ht']; [|apply Hl2; exact Ht'].
    exact (lookup_weaken _ _ _ _ Hl1 Hsub2).
Qed.

(** A node of height [n] has, below it, a node of every smaller height. *)
Lemma height_dense n : forall x i,
  is_Some (tm !! x) -> height x = n -> i <= n ->
  exists y, is_Some (tm !! y) /\ height y = i /\ rtc edge x y.
Proof.
  induction n as [|n IH]; intros x i Hx Hh Hi.
  - exists x. replace i with 0 by lia. auto using rtc_refl.
  - destruct (decide (i = S n)) as [->|Hne]; [exists x; auto using rtc_refl|].
    destruct Hx as [task Htask].
    assert (Hd : dependsOn task <> []).
    { intros Hd. rewrite (height_leaf _ _ Htask Hd) in Hh. discriminate. }
    rewrite (height_node _ _ Htask Hd) in Hh.
    assert (Hm : In (maxList (map height (dependsOn task))) (map height (dependsOn task))).
    { apply maxList_in. destruct (dependsOn task); [congruence|discriminate]. }
    apply in_map_iff in Hm as (d & Hdh & Hdin).
    assert (He : edge x d) by (exists task; auto).
    destruct (IH d i (closed _ _ He)) as (y & Hy & Hyh & Hr); [lia|lia|].
    exists y. split; [exact Hy|]. split; [exact Hyh|]. eapply rtc_l; eassumption.
Qed.

(** A dependency path that ends at [x] has at most [height x + 1] nodes,
    and some path has exactly that many. *)
Fixpoint chainFrom (l : list string) : Prop :=
  match l with
  | [] => True
  | [x] => is_Some (tm !! x)
  | x :: (y :: _) as l' => edge x y /\ chainFrom l'
  end.

Lemma chainFrom_length x l : chainFrom (x :: l) -> length (x :: l) <= S (height x).
Proof.
  revert x. induction l as [|y l IH]; intros x Hc; [simpl; lia|].
  destruct Hc as [He Hc]. specialize (IH y Hc).
  pose proof (height_edge _ _ He). simpl in *. lia.
Qed.

Lemma chainFrom_exists n : forall x,
  is_Some (tm !! x) -> height x = n ->
  exists l, chainFrom (x :: l) /\ length (x :: l) = S n.
Proof.
  induction n as [|n IH]; intros x Hx Hh.
  - exists []. auto.
  - destruct Hx as [task Htask].
    assert (Hd : dependsOn task <> []).
    { intros Hd. rewrite (height_leaf _ _ Htask Hd) in Hh. discriminate. }
    rewrite (height_node _ _ Htask Hd) in Hh.
    assert (Hm : In (maxList (map height (dependsOn task))) (map height (dependsOn task))).
    { apply maxList_in. destruct (dependsOn task); [congruence|discriminate]. }
    apply in_map_iff in Hm as (d & Hdh & Hdin).
    assert (He : edge x d) by (exists task; auto).
    destruct (IH d (closed _ _ He)) as (l & Hc & Hlen); [lia|].
    exists (d :: l). split; [split; assumption|]. simpl in *. lia.
Qed.

(** *** [visit] finishes a node after its dependencies *)

Definition ids (l : list TaskNode) : list string := map id l.

(** In the result array every task comes after the tasks it names. *)
Definition ordered (l : list TaskNode) : Prop :=
  forall j u d, l !! j = Some u -> In d (dependsOn u) ->
    exists i t, i < j /\ l !! i = Some t /\ id t = d.

Definition good (l : list TaskNode) : Prop :=
  NoDup (ids l) /\ (forall t, In t l -> tm !! id t = Some t) /\ ordered l.

(** Every visited node whose height is at most [k] is already in the
    result: the nodes whose visit is still in progress are higher. *)
Definition finishedUpTo (k : nat) (V : gset string) (l : list TaskNode) : Prop :=
  forall v, v ∈ V -> In v (ids l) \/ k < height v.

Definition visited_ok (V : gset string) (l : list TaskNode) : Prop :=
  forall v, In v (ids l) -> v ∈ V.

Lemma ordered_snoc l t :
  ordered l -> (forall d, In d (dependsOn t) -> In d (ids l)) -> ordered (l ++ [t]).
Proof.
  intros Ho Hd j u d Hj Hin.
  destruct (decide (j < length l)) as [Hlt|Hge].
  - rewrite lookup_app_l in Hj by exact Hlt.
    destruct (Ho j u d Hj Hin) as (i & t' & Hi & Hl & Hid).
    exists i, t'. split; [exact Hi|]. split; [|exact Hid].
    rewrite lookup_app_l by lia. exact Hl.
  - rewrite lookup_app_r in Hj by lia.
    destruct (j - length l) as [|n] eqn:Hn; [|destruct n; discriminate].
    injection Hj as <-.
    specialize (Hd d Hin). apply in_map_iff in Hd as (t' & Hid & Ht').
    apply list_elem_of_In, list_elem_of_lookup in Ht' as [i Hi].
    exists i, t'. split; [pose proof (lookup_lt_Some _ _ _ Hi); lia|].
    split; [|exact Hid]. rewrite lookup_app_l by (eapply lookup_lt_Some; eauto). exact Hi.
Qed.

(** The specification of one call of [visit], and of the loop over the
    dependencies of a node. *)
Definition visit_post (V : gset string) (l : list TaskNode)
  (res : option (gset string * list TaskNode)) (targets : list string) : Prop :=
  exists new,
    res = Some (V ∪ list_to_set (ids new), l ++ new)
    /\ good (l ++ new)
    /\ (forall v, In v (ids new) -> v ∉ V)
    /\ (forall x, In x targets -> In x (ids (l ++ new))).

Definition visit_ok (fuel : nat) : Prop :=
  forall x V l,
    is_Some (tm !! x) -> height x < fuel ->
    good l -> visited_ok V l -> finishedUpTo (height x) V l ->
    visit_post V l (visit tm fuel (V, l) x) [x].

Lemma ids_app l l' : ids (l ++ l') = ids l ++ ids l'.
Proof. apply map_app. Qed.

Lemma visit_loop fuel (Hrec : visit_ok fuel) k : forall ds V l,
  (forall d, In d ds -> is_Some (tm !! d) /\ height d <= k /\ height d < fuel) ->
  good l -> visited_ok V l -> finishedUpTo k V l ->
  visit_post V l (forEachM (visit tm fuel) ds (V, l)) ds.
Proof.
  induction ds as [|d ds IH]; intros V l Hds Hgood Hvis Hfin.
  - exists []. simpl. rewrite app_nil_r.
    split; [f_equal; f_equal; set_solver|].
    split; [exact Hgood|]. split; intros ? [].
  - destruct (Hds d (or_introl eq_refl)) as (Hd & Hk & Hf).
    destruct (Hrec d V l Hd Hf Hgood Hvis) as (new1 & Hrun1 & Hgood1 & Hfresh1 & Hin1).
    { intros v Hv. destruct (Hfin v Hv) as [?|?]; [left; assumption|right; lia]. }
    destruct (IH (V ∪ list_to_set (ids new1)) (l ++ new1))
      as (new2 & Hrun2 & Hgood2 & Hfresh2 & Hin2).
    { intros d' Hd'. apply Hds. right. exact Hd'. }
    { exact Hgood1. }
    { intros v Hv. rewrite ids_app in Hv.
      apply in_app_iff in Hv as [Hv|Hv].
      - apply elem_of_union_l. apply Hvis. exact Hv.
      - apply elem_of_union_r. apply elem_of_list_to_set, list_elem_of_In. exact Hv. }
    { intros v Hv. apply elem_of_union in Hv as [Hv|Hv].
      - destruct (Hfin v Hv) as [Hl|Hr]; [left|right; exact Hr].
        rewrite ids_app. apply in_app_iff. left. exact Hl.
      - left. rewrite ids_app. apply in_app_iff. right.
        apply list_elem_of_In. apply elem_of_list_to_set in Hv. exact Hv. }
    exists (new1 ++ new2). simpl. rewrite Hrun1. rewrite Hrun2.
    rewrite <- !app_assoc in *.
    split.
    { f_equal. f_equal. rewrite ids_app, list_to_set_app_L. set_solver. }
    split; [exact Hgood2|]. split.
    + intros v Hv. rewrite ids_app in Hv.
      apply in_app_iff in Hv as [Hv|Hv]; [apply Hfresh1; exact Hv|].
      specialize (Hfresh2 v Hv). set_solver.
    + intros x [Hx|Hx]; [subst x|apply Hin2; exact Hx].
      specialize (Hin1 d (or_introl eq_refl)).
      rewrite !ids_app in *. rewrite app_assoc. apply in_app_iff. left. exact Hin1.
Qed.

Lemma good_snoc l task x :
  good l -> tm !! x = Some task -> id task = x -> ~ In x (ids l) ->
  (forall d, In d (dependsOn task) -> In d (ids l)) ->
  good (l ++ [task]).
Proof.
  intros (Hnd & Htm & Hord) Htask Hid Hnot Hdeps. split; [|split].
  - rewrite ids_app. simpl. apply NoDup_app. split; [exact Hnd|]. split.
    + intros v Hv Hv'. apply list_elem_of_In in Hv'. destruct Hv' as [Hv'|[]].
      apply Hnot. rewrite <- Hid, Hv'. apply list_elem_of_In. exact Hv.
    + apply NoDup_singleton.
  - intros t Ht. apply in_app_iff in Ht as [Ht|[Ht|[]]]; [apply Htm; exact Ht|].
    subst t. rewrite Hid. exact Htask.
  - apply ordered_snoc; assumption.
Qed.

Hypothesis keyed : forall x t, tm !! x = Some t -> id t = x.

Lemma visit_correct fuel : visit_ok fuel.
Proof.
  induction fuel as [|fuel IH]; intros x V l Hx Hlt Hgood Hvis Hfin; [lia|].
  simpl. destruct (decide (x ∈ V)) as [HxV|HxV].
  - exists []. rewrite app_nil_r.
    split; [f_equal; f_equal; set_solver|].
    split; [exact Hgood|]. split; [intros ? []|].
    intros ? [<-|[]]. destruct (Hfin x HxV) as [?|?]; [assumption|lia].
  - destruct Hx as [task Htask]. rewrite Htask.
    assert (Hnot : ~ In x (ids l)) by (intros Hin; exact (HxV (Hvis x Hin))).
    assert (Hloop : visit_post ({[x]} ∪ V) l
              (forEachM (visit tm fuel) (dependsOn task) ({[x]} ∪ V, l)) (dependsOn task)).
    { destruct (dependsOn task) as [|d0 ds0] eqn:Hdeps.
      - exists []. simpl. rewrite app_nil_r.
        split; [f_equal; f_equal; set_solver|].
        split; [exact Hgood|]. split; intros ? [].
      - rewrite <- Hdeps.
        assert (Hpos : 0 < height x).
        { assert (He : edge x d0).
          { exists task. split; [exact Htask|rewrite Hdeps; left; reflexivity]. }
          pose proof (height_edge _ _ He). lia. }
        apply (visit_loop fuel IH (height x - 1)).
        + intros d Hd. assert (He : edge x d) by (exists task; auto).
          pose proof (height_edge _ _ He). split; [exact (closed _ _ He)|lia].
        + exact Hgood.
        + intros v Hv. apply elem_of_union_r. apply Hvis. exact Hv.
        + intros v Hv. apply elem_of_union in Hv as [Hv|Hv].
          * apply elem_of_singleton in Hv as ->. right. lia.
          * destruct (Hfin v Hv) as [?|?]; [left; assumption|right; lia]. }
    destruct Hloop as (new & Hrun & Hgood' & Hfresh & Hin).
    change (({[x]} ∪ V, l).1) with ({[x]} ∪ V) in *.
    change (({[x]} ∪ V, l).2) with l in *.
    rewrite Hrun. simpl.
    exists (new ++ [task]). rewrite app_assoc.
    assert (Hxnew : ~ In x (ids new)).
    { intros Hxin. apply (Hfresh x Hxin). set_solver. }
    split.
    { f_equal. f_equal. rewrite ids_app, list_to_set_app_L. simpl.
      rewrite (keyed _ _ Htask). set_solver. }
    split.
    { apply (good_snoc _ task x Hgood' Htask (keyed _ _ Htask)); [|exact Hin].
      rewrite ids_app. intros [?|?]%in_app_iff; contradiction. }
    split.
    + intros v Hv. rewrite ids_app in Hv. apply in_app_iff in Hv as [Hv|[<-|[]]].
      * specialize (Hfresh v Hv). set_solver.
      * rewrite (keyed _ _ Htask). exact HxV.
    + intros ? [<-|[]]. rewrite ids_app. apply in_app_iff. right.
      left. exact (keyed _ _ Htask).
Qed.

End graph.

(** *** Grouping by wave *)

Section grouping.
Variable h : TaskNode -> nat.

Definition inWave (i : nat) (t : TaskNode) : bool := h t =? i.

(** One more than the largest wave in the list; 0 for the empty list. *)
Definition bound (l : list TaskNode) : nat := maxList (map (fun t => S (h t)) l).

Lemma maxList_app xs ys : maxList (xs ++ ys) = Nat.max (maxList xs) (maxList ys).
Proof. induction xs as [|x xs IH]; simpl; [reflexivity|]. rewrite IH. lia. Qed.

Lemma bound_snoc l t : bound (l ++ [t]) = Nat.max (bound l) (S (h t)).
Proof. unfold bound. rewrite map_app, maxList_app. simpl. lia. Qed.

Lemma bound_gt l t : In t l -> h t < bound l.
Proof.
  intros Hin. unfold bound.
  pose proof (maxList_ge _ _ (in_map (fun t => S (h t)) _ _ Hin)). simpl in *. lia.
Qed.

(** What the second loop of [computeWaves] has built after the tasks
    [done]: group [i] holds the tasks of wave [i], in input order. *)
Definition grouped (waves : list (list TaskNode)) (done : list TaskNode) : Prop :=
  length waves = bound done
  /\ forall i g, waves !! i = Some g -> g = List.filter (inWave i) done.

Lemma filter_none (i : nat) l :
  (forall t, In t l -> h t <> i) -> List.filter (inWave i) l = [].
Proof.
  induction l as [|t l IH]; intros H; [reflexivity|]. simpl.
  unfold inWave at 1. destruct (Nat.eqb_spec (h t) i) as [Heq|_].
  - exfalso. exact (H t (or_introl eq_refl) Heq).
  - apply IH. intros t' Ht'. apply H. right. exact Ht'.
Qed.

Lemma padded_lookup (waves : list (list TaskNode)) w i g :
  (waves ++ replicate (S w - length waves) []) !! i = Some g ->
  waves !! i = Some g \/ (length waves <= i /\ g = []).
Proof.
  intros H. destruct (decide (i < length waves)) as [Hlt|Hge].
  - left. rewrite lookup_app_l in H by exact Hlt. exact H.
  - right. rewrite lookup_app_r in H by lia.
    apply lookup_replicate in H as [-> _]. split; [lia|reflexivity].
Qed.

Lemma padded_length (waves : list (list TaskNode)) w :
  length (waves ++ replicate (S w - length waves) []) = Nat.max (length waves) (S w).
Proof. rewrite length_app, length_replicate. lia. Qed.

Lemma placeTask_grouped waves done t :
  grouped waves done -> grouped (placeTask waves (h t) t) (done ++ [t]).
Proof.
  intros [Hlen Hg]. unfold placeTask. split.
  - rewrite length_alter, padded_length, bound_snoc, Hlen. reflexivity.
  - intros i g Hi. rewrite List.filter_app. simpl. unfold inWave at 2.
    destruct (decide (i = h t)) as [->|Hne].
    + rewrite Nat.eqb_refl. rewrite list_lookup_alter_eq in Hi.
      destruct ((waves ++ replicate (S (h t) - length waves) []) !! h t)
        as [g0|] eqn:Hg0; [|discriminate].
      simpl in Hi. injection Hi as <-. f_equal.
      apply padded_lookup in Hg0 as [Hg0|[Hge ->]]; [exact (Hg _ _ Hg0)|].
      symmetry. apply filter_none. intros t' Ht'.
      pose proof (bound_gt _ _ Ht'). lia.
    + rewrite list_lookup_alter_ne in Hi by congruence.
      destruct (Nat.eqb_spec (h t) i) as [Heq|_]; [congruence|]. rewrite app_nil_r.
      apply padded_lookup in Hi as [Hi|[Hge ->]]; [exact (Hg _ _ Hi)|].
      symmetry. apply filter_none. intros t' Ht'.
      pose proof (bound_gt _ _ Ht'). lia.
Qed.

Lemma concat_padded (waves : list (list TaskNode)) n :
  concat (waves ++ replicate n []) = concat waves.
Proof.
  rewrite concat_app. induction n as [|n IH]; simpl; [apply app_nil_r|exact IH].
Qed.

Lemma concat_alter_snoc (waves : list (list TaskNode)) w t :
  w < length waves ->
  Permutation (concat (alter (fun g => g ++ [t]) w waves)) (concat waves ++ [t]).
Proof.
  revert w. induction waves as [|g waves IH]; intros w Hw; [simpl in Hw; lia|].
  destruct w as [|w]; simpl.
  - rewrite <- !app_assoc. apply Permutation_app_head. apply Permutation_app_comm.
  - rewrite <- app_assoc. apply Permutation_app_head. apply IH. simpl in Hw. lia.
Qed.

Lemma placeTask_concat waves w t :
  Permutation (concat (placeTask waves w t)) (concat waves ++ [t]).
Proof.
  unfold placeTask. etrans.
  - apply concat_alter_snoc. rewrite padded_length. lia.
  - rewrite concat_padded. reflexivity.
Qed.

Lemma groupWaves_correct (wi : gmap string nat) todo : forall waves done,
  (forall t, In t todo -> wi !! id t = Some (h t)) ->
  grouped waves done ->
  exists waves', groupWaves wi todo waves = Some waves'
                 /\ grouped waves' (done ++ todo)
                 /\ Permutation (concat waves') (concat waves ++ todo).
Proof.
  induction todo as [|t todo IH]; intros waves done Hwi Hg.
  - exists waves. simpl. rewrite !app_nil_r. auto.
  - simpl. rewrite (Hwi t) by (left; reflexivity).
    destruct (IH (placeTask waves (h t) t) (done ++ [t])) as (waves' & Hrun & Hg' & Hperm).
    { intros t' Ht'. apply Hwi. right. exact Ht'. }
    { apply placeTask_grouped. exact Hg. }
    exists waves'. split; [exact Hrun|]. split.
    + rewrite <- app_assoc in Hg'. exact Hg'.
    + etrans; [exact Hperm|].
      rewrite (placeTask_concat waves (h t) t), <- app_assoc. reflexivity.
Qed.

End grouping.

(** The index of the first group that holds a task with id [x]. *)
Fixpoint groupIndexOf (waves : list (list TaskNode)) (x : string) : option nat :=
  match waves with
  | [] => None
  | g :: rest =>
      if existsb (fun t => String.eqb (id t) x) g then Some 0
      else option_map S (groupIndexOf rest x)
  end.

Lemma groupIndexOf_eq waves : forall x n,
  (forall i g t, waves !! i = Some g -> In t g -> id t = x -> i = n) ->
  (exists g t, waves !! n = Some g /\ In t g /\ id t = x) ->
  groupIndexOf waves x = Some n.
Proof.
  induction waves as [|g0 waves IH]; intros x n Honly (g & t & Hn & Hin & Hid).
  - discriminate.
  - simpl. destruct (existsb _ g0) eqn:Hex.
    + apply existsb_exists in Hex as (t0 & Ht0 & Heq).
      apply String.eqb_eq in Heq. f_equal.
      exact (Honly 0 g0 t0 eq_refl Ht0 Heq).
    + destruct n as [|n].
      * exfalso. simpl in Hn. injection Hn as <-.
        assert (existsb (fun t => String.eqb (id t) x) g0 = true); [|congruence].
        apply existsb_exists. exists t. split; [exact Hin|]. apply String.eqb_eq. exact Hid.
      * rewrite (IH x n); [reflexivity| |eauto].
        intros i g' t' Hi Hin' Hid'.
        specialize (Honly (S i) g' t' Hi Hin' Hid'). lia.
Qed.

(** *** From task lists to task maps *)

(** A dependency chain of the task list: each element depends on the
    next one, and the elements are ids of tasks. *)
Fixpoint chain (ts : list TaskNode) (l : list string) : Prop :=
  match l with
  | [] => True
  | [x] => In x (map id ts)
  | x :: (y :: _) as l' => depends ts x y /\ chain ts l'
  end.

Section valid.
Variable ts : list TaskNode.
Hypothesis unique : uniqueIds ts.
Hypothesis resolved : resolvable ts.
Hypothesis acyc : acyclic ts.

Let tm := taskMap ts.

Lemma edge_depends x y : edge tm x y <-> depends ts x y.
Proof.
  unfold edge, depends. split.
  - intros (t & Ht & Hy). apply taskMap_lookup_Some in Ht as [Hin Hid]. eauto.
  - intros (t & Hin & <- & Hy). exists t. split; [|exact Hy].
    apply taskMap_lookup_unique; assumption.
Qed.

Lemma in_ids_lookup x : In x (map id ts) <-> is_Some (tm !! x).
Proof.
  split.
  - intros Hin. destruct (tm !! x) eqn:E; [eauto|].
    apply taskMap_lookup_None in E. contradiction.
  - intros [t Ht]. apply taskMap_lookup_Some in Ht as [Hin <-]. apply in_map. exact Hin.
Qed.

Lemma valid_closed x y : edge tm x y -> is_Some (tm !! y).
Proof.
  intros (t & Ht & Hy). apply taskMap_lookup_Some in Ht as [Hin _].
  apply in_ids_lookup. exact (resolved t y Hin Hy).
Qed.

Lemma valid_acyclic x : ~ tc (edge tm) x x.
Proof.
  intros Htc. apply (acyc x).
  apply (tc_congruence (R := edge tm) (fun z => z) (depends ts)); [|exact Htc].
  intros a b Hab. apply edge_depends. exact Hab.
Qed.

Lemma chain_chainFrom l : chain ts l -> chainFrom tm l.
Proof.
  induction l as [|x l IH]; [auto|]. destruct l as [|y l].
  - simpl. apply in_ids_lookup.
  - intros [Hd Hc]. split; [apply edge_depends; exact Hd|apply IH; exact Hc].
Qed.

Lemma chainFrom_chain l : chainFrom tm l -> chain ts l.
Proof.
  induction l as [|x l IH]; [auto|]. destruct l as [|y l].
  - simpl. apply in_ids_lookup.
  - intros [Hd Hc]. split; [apply edge_depends; exact Hd|apply IH; exact Hc].
Qed.

Lemma chain_head x l : chain ts (x :: l) -> In x (map id ts).
Proof.
  destruct l as [|y l]; [auto|]. intros [(t & Hin & <- & _) _]. apply in_map. exact Hin.
Qed.

Let h (t : TaskNode) : nat := height tm (id t).

(** C6, amended.  For a task list with unique ids, resolvable
    dependencies and no dependency cycle of any length, a task that
    depends on itself included, [computeWaves] returns groups that
    partition the
    tasks: the groups together are a rearrangement of the input, no group
    is empty and a task lies in one group only; the group index of a task
    is 0 if it has no dependencies and otherwise one more than the
    largest group index of its dependencies; and the number of groups is
    the length of the longest dependency chain. *)
Theorem computeWaves_spec :
  exists waves,
    computeWaves ts = Some waves
    /\ Permutation (concat waves) ts
    /\ (forall g, In g waves -> g <> [])
    /\ (forall t i j gi gj,
          waves !! i = Some gi -> waves !! j = Some gj ->
          In t gi -> In t gj -> i = j)
    /\ (forall t, In t ts ->
          exists js,
            mapM (groupIndexOf waves) (dependsOn t) = Some js
            /\ groupIndexOf waves (id t)
               = Some (match dependsOn t with [] => 0 | _ => S (maxList js) end))
    /\ (forall l, chain ts l -> length l <= length waves)
    /\ (exists l, chain ts l /\ length l = length waves).
Proof.
  pose proof valid_closed as Hclosed. pose proof valid_acyclic as Hacyc.
  destruct (fillWaves_correct tm Hclosed Hacyc (S (length ts)) ts ∅)
    as (wi & Hfill & Hok & _ & Hwi).
  { intros y w Hy. rewrite lookup_empty in Hy. discriminate. }
  { intros t Ht. apply in_ids_lookup. apply in_map. exact Ht. }
  { unfold tm. rewrite (taskMap_size ts unique). lia. }
  destruct (groupWaves_correct h wi ts [] []) as (waves & Hrun & [Hlen Hgr] & Hperm).
  { intros t Ht. apply Hwi. exact Ht. }
  { split; [reflexivity|]. intros i g Hi. destruct i; discriminate. }
  simpl in Hgr, Hperm, Hlen.
  assert (Hmem : forall t i g, waves !! i = Some g -> In t g -> In t ts /\ h t = i).
  { intros t i g Hi Hin. rewrite (Hgr _ _ Hi) in Hin.
    apply filter_In in Hin as [Hin Hw]. split; [exact Hin|].
    apply Nat.eqb_eq. exact Hw. }
  assert (Hhas : forall t, In t ts -> exists g, waves !! h t = Some g /\ In t g).
  { intros t Ht.
    destruct (lookup_lt_is_Some_2 waves (h t)) as [g Hg].
    { rewrite Hlen. apply bound_gt. exact Ht. }
    exists g. split; [exact Hg|]. rewrite (Hgr _ _ Hg).
    apply filter_In. split; [exact Ht|]. apply Nat.eqb_refl. }
  assert (Hidx : forall x, In x (map id ts) -> groupIndexOf waves x = Some (height tm x)).
  { intros x Hx. apply in_map_iff in Hx as (t & <- & Ht).
    apply groupIndexOf_eq.
    - intros i g t' Hi Hin Hid. destruct (Hmem _ _ _ Hi Hin) as [_ <-].
      unfold h. rewrite Hid. reflexivity.
    - destruct (Hhas t Ht) as (g & Hg & Hin). exists g, t. auto. }
  exists waves. split.
  { unfold computeWaves. fold tm. rewrite Hfill. exact Hrun. }
  split; [exact Hperm|]. split; [|split; [|split; [|split]]].
  - (* no group is empty *)
    intros g Hg Hnil. subst g. apply list_elem_of_In, list_elem_of_lookup in Hg as [i Hi].
    pose proof (lookup_lt_Some _ _ _ Hi) as Hlt. rewrite Hlen in Hlt.
    assert (Hne : map (fun t => S (h t)) ts <> []).
    { intros E. unfold bound in Hlt. rewrite E in Hlt. simpl in Hlt. lia. }
    apply maxList_in in Hne. fold (bound h ts) in Hne.
    apply in_map_iff in Hne as (tmax & Hmax & Htmax).
    destruct (height_dense tm Hclosed Hacyc (h tmax) (id tmax) i) as (y & Hy & Hyh & _).
    { apply in_ids_lookup, in_map. exact Htmax. }
    { reflexivity. }
    { lia. }
    apply in_ids_lookup, in_map_iff in Hy as (ty & <- & Hty).
    pose proof (Hgr _ _ Hi) as Hfil. symmetry in Hfil.
    assert (Hin : In ty (List.filter (inWave h i) ts)).
    { apply filter_In. split; [exact Hty|]. apply Nat.eqb_eq. exact Hyh. }
    rewrite Hfil in Hin. destruct Hin.
  - (* a task lies in one group only *)
    intros t i j gi gj Hi Hj Hti Htj.
    destruct (Hmem _ _ _ Hi Hti) as [_ <-]. destruct (Hmem _ _ _ Hj Htj) as [_ <-].
    reflexivity.
  - (* the wave recurrence *)
    intros t Ht. exists (map (height tm) (dependsOn t)). split.
    + apply mapM_map_Some. intros d Hd. apply Hidx. exact (resolved t d Ht Hd).
    + rewrite (Hidx (id t)) by (apply in_map; exact Ht). f_equal.
      pose proof (taskMap_lookup_unique ts t unique Ht) as Hlk. fold tm in Hlk.
      destruct (dependsOn t) as [|d ds] eqn:Hd.
      * apply (height_leaf tm Hclosed Hacyc _ _ Hlk Hd).
      * rewrite (height_node tm Hclosed Hacyc _ _ Hlk) by (rewrite Hd; discriminate).
        rewrite Hd. lia.
  - (* no chain is longer than the number of groups *)
    intros l Hc. destruct l as [|x l]; [simpl; lia|].
    pose proof (chainFrom_length tm Hclosed Hacyc x l (chain_chainFrom _ Hc)) as Hle.
    apply chain_head, in_map_iff in Hc as (t & <- & Ht).
    pose proof (bound_gt h ts t Ht). unfold h in *. rewrite Hlen. lia.
  - (* some chain is as long as the number of groups *)
    destruct (Nat.eq_dec (length waves) 0) as [Hz|Hnz].
    + exists []. split; [exact I|]. rewrite Hz. reflexivity.
    + assert (Hne : map (fun t => S (h t)) ts <> []).
      { intros E. unfold bound in Hlen. rewrite E in Hlen. simpl in Hlen. lia. }
      apply maxList_in in Hne. fold (bound h ts) in Hne.
      apply in_map_iff in Hne as (tmax & Hmax & Htmax).
      destruct (chainFrom_exists tm Hclosed Hacyc (h tmax) (id tmax)) as (l & Hc & Hl).
      { apply in_ids_lookup, in_map. exact Htmax. }
      { reflexivity. }
      exists (id tmax :: l). split; [apply chainFrom_chain; exact Hc|].
      rewrite Hl, Hlen. exact Hmax.
Qed.

Lemma forEachM_map {S A B} (body : S -> B -> option S) (f : A -> B) (l : list A) :
  forall s, forEachM (fun s a => body s (f a)) l s = forEachM body (map f l) s.
Proof.
  induction l as [|a l IH]; intros s; [reflexivity|].
  simpl. destruct (body s (f a)); [apply IH|reflexivity].
Qed.

Lemma valid_keyed x t : tm !! x = Some t -> id t = x.
Proof. intros H. apply taskMap_lookup_Some in H as [_ H]. exact H. Qed.

Lemma depends_lookup u d :
  tm !! id u = Some u -> depends ts (id u) d -> In d (dependsOn u).
Proof.
  intros Hu Hd. apply edge_depends in Hd as (t & Ht & Hin).
  rewrite Hu in Ht. injection Ht as <-. exact Hin.
Qed.

(** In a result that is [good], a task comes after everything it
    depends on, directly or through other tasks. *)
Lemma good_order (r : list TaskNode) :
  good tm r ->
  forall a b, tc (depends ts) a b ->
  forall i j t u, id u = a -> id t = b ->
    r !! i = Some t -> r !! j = Some u -> i < j.
Proof.
  intros (Hnd & Htm & Hord) a b Htc.
  assert (Hpos : forall i i' t t', r !! i = Some t -> r !! i' = Some t' ->
                                   id t = id t' -> i = i').
  { intros i i' t t' Hi Hi' Hid.
    apply (NoDup_lookup (ids r) i i' (id t)); [exact Hnd| |].
    - unfold ids. rewrite list_lookup_fmap, Hi. reflexivity.
    - unfold ids. rewrite list_lookup_fmap, Hi', Hid. reflexivity. }
  induction Htc as [a b Hab|a z b Haz Hzb IH]; intros i j t u Hu Ht Hi Hj.
  - subst a b.
    assert (Hd : In (id t) (dependsOn u)).
    { apply depends_lookup; [|exact Hab]. apply Htm.
      apply list_elem_of_In. eapply list_elem_of_lookup_2. exact Hj. }
    destruct (Hord j u (id t) Hj Hd) as (i' & t' & Hlt & Hi' & Hid).
    rewrite (Hpos i i' t t' Hi Hi' (eq_sym Hid)). exact Hlt.
  - subst a b.
    assert (Hd : In z (dependsOn u)).
    { apply depends_lookup; [|exact Haz]. apply Htm.
      apply list_elem_of_In. eapply list_elem_of_lookup_2. exact Hj. }
    destruct (Hord j u z Hj Hd) as (k & tz & Hlt & Hk & Hid).
    specialize (IH i k t tz Hid eq_refl Hi Hk). lia.
Qed.

Lemma topologicalSort_valid :
  exists r,
    topologicalSort ts = Some r
    /\ Permutation r ts
    /\ forall i j t u,
         r !! i = Some t -> r !! j = Some u ->
         tc (depends ts) (id u) (id t) -> i < j.
Proof.
  pose proof valid_closed as Hclosed. pose proof valid_acyclic as Hacyc.
  destruct (visit_loop tm Hclosed Hacyc (S (length ts))
              (visit_correct tm Hclosed Hacyc valid_keyed (S (length ts)))
              (size tm) (map id ts) ∅ [])
    as (r & Hrun & Hgood & _ & Hall).
  { intros d Hd. apply in_ids_lookup in Hd.
    pose proof (height_lt_size tm Hclosed Hacyc d Hd) as Hlt.
    split; [exact Hd|]. unfold tm in *. rewrite (taskMap_size ts unique) in *. lia. }
  { split; [constructor|]. split; [intros ? []|].
    intros j u d Hj. destruct j; discriminate. }
  { intros v []. }
  { intros v Hv. set_solver. }
  change ([] ++ r) with r in *.
  exists r. split.
  { unfold topologicalSort, visitAll. fold tm.
    rewrite (forEachM_map (visit tm (S (length ts))) id ts), Hrun. reflexivity. }
  destruct Hgood as (Hnd & Htm & Hord). split.
  - apply NoDup_Permutation.
    + apply (NoDup_fmap_1 id). exact Hnd.
    + apply (NoDup_fmap_1 id). exact unique.
    + intros t. split; intros Ht.
      * apply list_elem_of_In in Ht. apply list_elem_of_In.
        exact (proj1 (taskMap_lookup_Some _ _ _ (Htm t Ht))).
      * apply list_elem_of_In in Ht. apply list_elem_of_In.
        pose proof (Hall (id t) (in_map id _ _ Ht)) as Hin.
        apply in_map_iff in Hin as (t' & Hid & Ht').
        pose proof (Htm t' Ht') as Hl'. rewrite Hid in Hl'.
        pose proof (taskMap_lookup_unique ts t unique Ht) as Hl. fold tm in Hl.
        rewrite Hl in Hl'. injection Hl' as <-. exact Ht'.
  - intros i j t u Hi Hj Htc.
    exact (good_order r (conj Hnd (conj Htm Hord)) _ _ Htc i j t u eq_refl eq_refl Hi Hj).
Qed.

End valid.

(** What [validateDag] checks is independent of the order of the list. *)
Lemma depends_perm ts ts' x y :
  Permutation ts ts' -> depends ts x y -> depends ts' x y.
Proof.
  intros Hp (t & Hin & Hid & Hy). exists t. split; [|auto].
  apply (Permutation_in _ Hp). exact Hin.
Qed.

Lemma valid_perm ts ts' :
  Permutation ts ts' ->
  uniqueIds ts -> resolvable ts -> acyclic ts ->
  uniqueIds ts' /\ resolvable ts' /\ acyclic ts'.
Proof.
  intros Hp Hu Hr Ha. split; [|split].
  - unfold uniqueIds in *. rewrite <- (Permutation_map id Hp). exact Hu.
  - intros t d Ht Hd. apply (Permutation_in _ (Permutation_map id Hp)).
    apply (Hr t d); [|exact Hd]. apply (Permutation_in _ (Permutation_sym Hp)). exact Ht.
  - intros x Htc. apply (Ha x).
    apply (tc_congruence (R := depends ts') (fun z => z) (depends ts)); [|exact Htc].
    intros a b. apply depends_perm. apply Permutation_sym. exact Hp.
Qed.

(** C7.  For a task list with unique ids, resolvable dependencies and no
    dependency cycle, and for every rearrangement [ts'] of it (every input
    order that gives the same graph), [topologicalSort] returns a
    rearrangement of the input in which every task stands after all the
    tasks it depends on, directly or transitively. *)
Theorem topologicalSort_spec (ts ts' : list TaskNode) :
  uniqueIds ts -> resolvable ts -> acyclic ts -> Permutation ts ts' ->
  exists r,
    topologicalSort ts' = Some r
    /\ Permutation r ts
    /\ forall i j t u,
         r !! i = Some t -> r !! j = Some u ->
         tc (depends ts) (id u) (id t) -> i < j.
Proof.
  intros Hu Hr Ha Hp.
  destruct (valid_perm ts ts' Hp Hu Hr Ha) as (Hu' & Hr' & Ha').
  destruct (topologicalSort_valid ts' Hu' Hr' Ha') as (r & Hrun & Hperm & Hord).
  exists r. split; [exact Hrun|]. split.
  - etrans; [exact Hperm|]. apply Permutation_sym. exact Hp.
  - intros i j t u Hi Hj Htc. apply (Hord i j t u Hi Hj).
    apply (tc_congruence (R := depends ts) (fun z => z) (depends ts')); [|exact Htc].
    intros a b. apply depends_perm. exact Hp.
Qed.

(** *** The scenarios of the specification *)

(** A rank that decreases along every dependency shows that the list has
    no cycle. *)
Lemma acyclic_by_rank ts (rank : string -> nat) :
  (forall x y, depends ts x y -> rank y < rank x) -> acyclic ts.
Proof.
  intros Hrank x Htc.
  assert (H : forall a b, tc (depends ts) a b -> rank b < rank a).
  { induction 1 as [a b Hab|a z b Haz _ IH]; [exact (Hrank _ _ Hab)|].
    pose proof (Hrank _ _ Haz). lia. }
  specialize (H x x Htc). lia.
Qed.

(** The diamond [t1 -> {t2, t3} -> t4]. *)
Definition diamond : list TaskNode :=
  [task "t1" []; task "t2" ["t1"]; task "t3" ["t1"]; task "t4" ["t2"; "t3"]].

Definition diamondRank (x : string) : nat :=
  if String.eqb x "t1" then 0 else if String.eqb x "t4" then 2 else 1.

Lemma diamond_unique : uniqueIds diamond.
Proof.
  unfold uniqueIds.
  apply (bool_decide_unpack (NoDup (map id diamond))). vm_compute. exact I.
Qed.

Lemma diamond_resolvable : resolvable diamond.
Proof.
  intros t d Ht Hd. simpl in Ht.
  destruct Ht as [<-|[<-|[<-|[<-|[]]]]]; simpl in Hd; simpl; tauto.
Qed.

Lemma diamond_acyclic : acyclic diamond.
Proof.
  apply (acyclic_by_rank diamond diamondRank).
  intros x y (t & Ht & <- & Hy). simpl in Ht.
  destruct Ht as [<-|[<-|[<-|[<-|[]]]]]; simpl in Hy;
    repeat (destruct Hy as [<-|Hy]; [vm_compute; lia|]); destruct Hy.
Qed.

Example diamond_waves :
  option_map (map (map id)) (computeWaves diamond)
  = Some [["t1"]; ["t2"; "t3"]; ["t4"]].
Proof. vm_compute. reflexivity. Qed.

Example chain_waves :
  option_map (map (map id))
    (computeWaves [task "t1" []; task "t2" ["t1"]; task "t3" ["t2"]])
  = Some [["t1"]; ["t2"]; ["t3"]].
Proof. vm_compute. reflexivity. Qed.

Example diamond_sorted :
  option_map (map id)
    (topologicalSort [task "t4" ["t2"; "t3"]; task "t2" ["t1"];
                      task "t3" ["t1"]; task "t1" []])
  = Some ["t1"; "t2"; "t3"; "t4"].
Proof. vm_compute. reflexivity. Qed.

(** The hypotheses of C6 hold for the diamond. *)
Lemma computeWaves_spec_witness :
  exists waves,
    computeWaves diamond = Some waves
    /\ Permutation (concat waves) diamond
    /\ (forall g, In g waves -> g <> [])
    /\ (forall t i j gi gj,
          waves !! i = Some gi -> waves !! j = Some gj ->
          In t gi -> In t gj -> i = j)
    /\ (forall t, In t diamond ->
          exists js,
            mapM (groupIndexOf waves) (dependsOn t) = Some js
            /\ groupIndexOf waves (id t)
               = Some (match dependsOn t with [] => 0 | _ => S (maxList js) end))
    /\ (forall l, chain diamond l -> length l <= length waves)
    /\ (exists l, chain diamond l /\ length l = length waves).
Proof.
  apply (computeWaves_spec diamond).
  - exact diamond_unique.
  - exact diamond_resolvable.
  - exact diamond_acyclic.
Defined.

(** The hypotheses of C7 hold for the diamond, listed in another order. *)
Lemma topologicalSort_spec_witness :
  let ts' := [task "t4" ["t2"; "t3"]; task "t3" ["t1"]; task "t2" ["t1"]; task "t1" []] in
  exists r,
    topologicalSort ts' = Some r
    /\ Permutation r diamond
    /\ forall i j t u,
         r !! i = Some t -> r !! j = Some u ->
         tc (depends diamond) (id u) (id t) -> i < j.
Proof.
  intros ts'. apply (topologicalSort_spec diamond ts').
  - exact diamond_unique.
  - exact diamond_resolvable.
  - exact diamond_acyclic.
  - unfold diamond, ts'.
    apply (perm_trans (l' := [task "t4" ["t2"; "t3"]; task "t1" [];
                              task "t2" ["t1"]; task "t3" ["t1"]])).
    + symmetry. apply (Permutation_cons_append (_ :: _ :: _ :: nil)).
    + apply perm_skip.
      apply (perm_trans (l' := [task "t3" ["t1"]; task "t1" []; task "t2" ["t1"]])).
      * symmetry. apply (Permutation_cons_append (_ :: _ :: nil)).
      * apply perm_skip. apply perm_swap.
Defined.

End DagFacts.

(** ** Cycle detection *)

Module TarjanFacts.
Import Dag DagFacts.

Section tarjan.
Variable ts : list TaskNode.

(** The graph that [detectCycles] walks: [E x y] when [y] is in
    [adj.get(x) ?? []]. *)
Definition E (x y : string) : Prop := In y (adj ts x).
Definition reach : string -> string -> Prop := rtc E.

Definition num (s : tarjan) (x : string) : nat := getN (indices s) x.
Definition low (s : tarjan) (x : string) : nat := getN (lowlinks s) x.
Definition visited (s : tarjan) (x : string) : Prop := is_Some (indices s !! x).

(** The nodes: every id that occurs in the list. *)
Definition U : gset string := list_to_set (allIds ts).

(** Indices decrease from the top of the stack downwards. *)
Fixpoint desc (s : tarjan) (l : list string) : Prop :=
  match l with
  | [] => True
  | a :: l' => (forall b, In b l' -> num s b < num s a) /\ desc s l'
  end.

(** The invariant between two steps of the algorithm.  [G] lists the
    nodes whose activation of [strongConnect] is in progress, innermost
    first. *)
Record Inv (s : tarjan) (G : list string) : Prop := {
  inv_univ : forall x, visited s x -> x ∈ U;
  inv_bound : forall x i, indices s !! x = Some i -> i < index s;
  inv_inj : forall x y i, indices s !! x = Some i -> indices s !! y = Some i -> x = y;
  inv_onStack : forall x, x ∈ onStack s <-> In x (stack s);
  inv_stack_vis : forall x, In x (stack s) -> visited s x;
  inv_sorted : desc s (stack s);
  inv_gray_stack : forall g, In g G -> In g (stack s);
  inv_gray_sorted : desc s G;
  inv_reach_up : forall x y,
    In x (stack s) -> In y (stack s) -> num s x <= num s y -> reach x y;
  inv_reach_gray : forall y,
    In y (stack s) -> exists g, In g G /\ num s g <= num s y /\ reach y g;
  inv_black_closed : forall x y,
    visited s x -> ~ In x G -> E x y -> visited s y;
  inv_popped_scc : forall x y,
    visited s x -> ~ In x (stack s) -> reach x y -> reach y x ->
    visited s y /\ ~ In y (stack s);
  inv_cyc_sound : forall c,
    In c (cycleNodes s) -> exists c', c' <> c /\ reach c c' /\ reach c' c;
  inv_cyc_complete : forall x y,
    visited s x -> ~ In x (stack s) -> y <> x -> reach x y -> reach y x ->
    In x (cycleNodes s)
}.

Lemma num_eq s x i : indices s !! x = Some i -> num s x = i.
Proof. intros H. unfold num, getN. rewrite H. reflexivity. Qed.

Lemma visited_num s x : visited s x -> indices s !! x = Some (num s x).
Proof. intros [i Hi]. rewrite (num_eq _ _ _ Hi). exact Hi. Qed.

Lemma desc_in s l a b l1 l2 :
  desc s l -> l = l1 ++ a :: l2 -> In b l2 -> num s b < num s a.
Proof.
  revert l. induction l1 as [|c l1 IH]; intros l Hd -> Hb.
  - destruct Hd as [Hd _]. apply Hd. exact Hb.
  - destruct Hd as [_ Hd]. exact (IH _ Hd eq_refl Hb).
Qed.

Lemma desc_app_r s l1 l2 : desc s (l1 ++ l2) -> desc s l2.
Proof. induction l1 as [|a l1 IH]; [auto|]. intros [_ H]. exact (IH H). Qed.

Lemma desc_app_lt s l1 l2 a b :
  desc s (l1 ++ l2) -> In a l1 -> In b l2 -> num s b < num s a.
Proof.
  induction l1 as [|c l1 IH]; [intros _ []|].
  intros [Hc Hd] [<-|Ha] Hb.
  - apply Hc. apply in_or_app. right. exact Hb.
  - exact (IH Hd Ha Hb).
Qed.

Lemma desc_ext s s' l :
  (forall x, In x l -> num s' x = num s x) -> desc s l -> desc s' l.
Proof.
  induction l as [|a l IH]; [auto|]. intros Hnum [Ha Hd]. split.
  - intros b Hb. rewrite (Hnum a), (Hnum b) by (simpl; auto). exact (Ha b Hb).
  - apply IH; [|exact Hd]. intros x Hx. apply Hnum. right. exact Hx.
Qed.

Lemma desc_NoDup s l : desc s l -> NoDup l.
Proof.
  induction l as [|a l IH]; [constructor|]. intros [Ha Hd]. constructor.
  - intros Hin. apply list_elem_of_In in Hin. specialize (Ha a Hin). lia.
  - exact (IH Hd).
Qed.

(** The universe is closed under the edges. *)
Lemma adj_in_U x y : E x y -> y ∈ U.
Proof.
  unfold E, adj, U, allIds. destruct (taskMap ts !! x) as [t|] eqn:Ht; [|intros []].
  intros Hy. apply taskMap_lookup_Some in Ht as [Hin _].
  apply elem_of_list_to_set, list_elem_of_In, in_or_app. right.
  apply in_flat_map. exists t. split; assumption.
Qed.

Lemma task_in_U t : In t ts -> id t ∈ U.
Proof.
  intros Ht. apply elem_of_list_to_set, list_elem_of_In, in_or_app. left.
  apply in_map. exact Ht.
Qed.

(** *** Entering a node *)

Lemma enter_num_other s x y : y <> x -> num (enter x s) y = num s y.
Proof.
  intros Hne. unfold num, getN. simpl. rewrite lookup_insert_ne by congruence.
  reflexivity.
Qed.

Lemma enter_num_self s x : num (enter x s) x = index s.
Proof. unfold num, getN. simpl. rewrite lookup_insert_eq. reflexivity. Qed.

Lemma enter_visited s x y : visited (enter x s) y <-> y = x \/ visited s y.
Proof.
  unfold visited. simpl. destruct (decide (x = y)) as [->|Hne].
  - rewrite lookup_insert_eq. split; [auto|eauto].
  - rewrite lookup_insert_ne by exact Hne. split; [auto|].
    intros [->|H]; [congruence|exact H].
Qed.

(** The node that calls [strongConnect] for [x] has an edge to [x]; at
    top level nothing is in progress. *)
Definition parent_ok (G : list string) (x : string) : Prop :=
  match G with
  | [] => True
  | g :: _ => E g x
  end.

Lemma stack_reaches_top s G y :
  Inv s G -> In y (stack s) ->
  exists g G', G = g :: G' /\ reach y g.
Proof.
  intros HI Hy. destruct (inv_reach_gray s G HI y Hy) as (g' & Hg' & _ & Hr).
  destruct G as [|g G']; [destruct Hg'|]. exists g, G'. split; [reflexivity|].
  destruct Hg' as [<-|Hg']; [exact Hr|].
  eapply rtc_trans; [exact Hr|].
  apply (inv_reach_up s _ HI).
  - apply (inv_gray_stack s _ HI). right. exact Hg'.
  - apply (inv_gray_stack s _ HI). left. reflexivity.
  - destruct (inv_gray_sorted s _ HI) as [Hlt _]. specialize (Hlt g' Hg'). lia.
Qed.

Lemma enter_inv s G x :
  Inv s G -> ~ visited s x -> x ∈ U -> parent_ok G x ->
  Inv (enter x s) (x :: G).
Proof.
  intros HI Hw HU Hpar.
  assert (Hstack_ne : forall y, In y (stack s) -> y <> x).
  { intros y Hy ->. exact (Hw (inv_stack_vis s G HI x Hy)). }
  assert (Hstack_lt : forall y, In y (stack s) -> num (enter x s) y < num (enter x s) x).
  { intros y Hy. rewrite enter_num_self, enter_num_other by (apply Hstack_ne; exact Hy).
    apply (inv_bound s G HI y). apply visited_num. exact (inv_stack_vis s G HI y Hy). }
  assert (Hgray_ne : forall g, In g G -> g <> x).
  { intros g Hg. apply Hstack_ne. exact (inv_gray_stack s G HI g Hg). }
  split.
  - intros y [Hyx|Hy]%enter_visited; [subst y; exact HU|exact (inv_univ s G HI y Hy)].
  - intros y i. simpl. destruct (decide (x = y)) as [<-|Hne].
    + rewrite lookup_insert_eq. intros [= <-]. lia.
    + rewrite lookup_insert_ne by exact Hne. intros Hy.
      pose proof (inv_bound s G HI y i Hy). lia.
  - intros y z i. simpl.
    destruct (decide (x = y)) as [<-|Hy]; destruct (decide (x = z)) as [<-|Hz];
      rewrite ?lookup_insert_eq, ?lookup_insert_ne by assumption.
    + reflexivity.
    + intros [= <-] Hz'. pose proof (inv_bound s G HI z _ Hz'). lia.
    + intros Hy' [= <-]. pose proof (inv_bound s G HI y _ Hy'). lia.
    + apply (inv_inj s G HI).
  - intros y. simpl. rewrite elem_of_union, elem_of_singleton, (inv_onStack s G HI).
    split; intros [?|?]; auto.
  - intros y [<-|Hy]; apply enter_visited; [left; reflexivity|right].
    exact (inv_stack_vis s G HI y Hy).
  - simpl. split; [exact Hstack_lt|].
    apply (desc_ext s); [|exact (inv_sorted s G HI)].
    intros y Hy. apply enter_num_other, Hstack_ne, Hy.
  - intros g [<-|Hg]; [left; reflexivity|right; exact (inv_gray_stack s G HI g Hg)].
  - simpl. split.
    + intros g Hg. apply Hstack_lt. exact (inv_gray_stack s G HI g Hg).
    + apply (desc_ext s); [|exact (inv_gray_sorted s G HI)].
      intros y Hy. apply enter_num_other, Hgray_ne, Hy.
  - intros y z [<-|Hy] [<-|Hz] Hle.
    + apply rtc_refl.
    + specialize (Hstack_lt z Hz). lia.
    + destruct (stack_reaches_top s G y HI Hy) as (g & G' & -> & Hr).
      eapply rtc_trans; [exact Hr|]. apply rtc_once. exact Hpar.
    + rewrite !enter_num_other in Hle by (apply Hstack_ne; assumption).
      exact (inv_reach_up s G HI y z Hy Hz Hle).
  - intros y [<-|Hy].
    + exists x. split; [left; reflexivity|]. split; [lia|apply rtc_refl].
    + destruct (inv_reach_gray s G HI y Hy) as (g & Hg & Hle & Hr).
      exists g. split; [right; exact Hg|]. split; [|exact Hr].
      rewrite !enter_num_other
        by first [apply Hgray_ne; assumption | apply Hstack_ne; assumption].
      exact Hle.
  - intros y z [Hyx|Hy]%enter_visited Hng Hyz.
    + exfalso. apply Hng. left. symmetry. exact Hyx.
    + apply enter_visited. right. apply (inv_black_closed s G HI y z Hy); [|exact Hyz].
      intros Hg. apply Hng. right. exact Hg.
  - intros y z [Hyx|Hy]%enter_visited Hns Hyz Hzy.
    + exfalso. apply Hns. left. symmetry. exact Hyx.
    + destruct (inv_popped_scc s G HI y z Hy) as [Hz Hzs]; [|exact Hyz|exact Hzy|].
      { intros Hin. apply Hns. right. exact Hin. }
      split; [apply enter_visited; right; exact Hz|].
      intros [<-|Hin]; [exact (Hw Hz)|exact (Hzs Hin)].
  - exact (inv_cyc_sound s G HI).
  - intros y z [Hyx|Hy]%enter_visited Hns Hne Hyz Hzy.
    + exfalso. apply Hns. left. symmetry. exact Hyx.
    + apply (inv_cyc_complete s G HI y z Hy); [|exact Hne|exact Hyz|exact Hzy].
      intros Hin. apply Hns. right. exact Hin.
Qed.

(** *** The activation of [strongConnect] for a node *)

(** What a call [strongConnect x] started in [s] leaves in [s']; [new] is
    what the call adds to the stack: nothing when [x] was the root of its
    component, [x] and the descendants that stay otherwise. *)
Record Post (x : string) (s : tarjan) (G : list string) (s' : tarjan)
  (new : list string) : Prop := {
  post_inv : Inv s' G;
  post_indices : forall y i, indices s !! y = Some i -> indices s' !! y = Some i;
  post_low : forall y, visited s y -> low s' y = low s y;
  post_vis : visited s' x;
  post_fresh : forall y, visited s' y -> ~ visited s y -> index s <= num s' y;
  post_stack : stack s' = new ++ stack s;
  post_new : forall z, In z new -> ~ visited s z;
  post_root : new = [] -> index s <= low s' x;
  post_nonroot : new <> [] ->
    In x new /\ low s' x < index s
    /\ (exists y, In y (stack s) /\ num s' y = low s' x /\ reach x y)
    /\ (forall z y, In z new -> In y (stack s) -> E z y -> low s' x <= num s' y)
}.

(** The state of the loop over the dependencies of [x], entered from
    [s0]: [done] are the dependencies handled so far and [new] is what
    lies on the stack above [x]. *)
Record Loop (x : string) (s0 : tarjan) (G : list string)
  (done new : list string) (s : tarjan) : Prop := {
  loop_inv : Inv s (x :: G);
  loop_indices : forall y i,
    indices (enter x s0) !! y = Some i -> indices s !! y = Some i;
  loop_low : forall y, visited s0 y -> low s y = low s0 y;
  loop_fresh : forall y, visited s y -> ~ visited s0 y -> index s0 <= num s y;
  loop_stack : stack s = new ++ x :: stack s0;
  loop_new : forall z, In z new -> ~ visited s0 z /\ z <> x;
  loop_low_le : low s x <= index s0;
  loop_low_wit : exists y, In y (stack s) /\ num s y = low s x /\ reach x y;
  loop_done : forall d, In d done -> visited s d;
  loop_min_new : forall z y,
    In z new -> In y (stack s0) -> E z y -> low s x <= num s y;
  loop_min_done : forall d, In d done -> In d (stack s0) -> low s x <= num s d
}.

Lemma low_set_self s k v : low (set_lowlink k v s) k = v.
Proof. unfold low, getN. simpl. rewrite lookup_insert_eq. reflexivity. Qed.

Lemma low_set_other s k v y : y <> k -> low (set_lowlink k v s) y = low s y.
Proof.
  intros Hne. unfold low, getN. simpl. rewrite lookup_insert_ne by congruence.
  reflexivity.
Qed.

Lemma set_lowlink_inv s G k v : Inv s G -> Inv (set_lowlink k v s) G.
Proof.
  intros HI. destruct HI. split; try assumption.
  - apply (desc_ext s); [reflexivity|assumption].
  - apply (desc_ext s); [reflexivity|assumption].
Qed.

Lemma loop_num_x x s0 G done new s : Loop x s0 G done new s -> num s x = index s0.
Proof.
  intros HL. apply num_eq. apply (loop_indices _ _ _ _ _ _ HL).
  simpl. apply lookup_insert_eq.
Qed.

Lemma loop_num_old x s0 G done new s y :
  Loop x s0 G done new s -> visited s0 y -> ~ visited s0 x -> num s y = num s0 y.
Proof.
  intros HL Hy Hx. apply num_eq. apply (loop_indices _ _ _ _ _ _ HL).
  simpl. rewrite lookup_insert_ne by (intros ->; exact (Hx Hy)).
  apply visited_num. exact Hy.
Qed.

Lemma loop_init x s0 G :
  Inv s0 G -> ~ visited s0 x -> x ∈ U -> parent_ok G x ->
  Loop x s0 G [] [] (enter x s0).
Proof.
  intros HI Hw HU Hpar. split.
  - apply enter_inv; assumption.
  - auto.
  - intros y Hy. unfold low, getN. simpl.
    rewrite lookup_insert_ne by (intros ->; exact (Hw Hy)). reflexivity.
  - intros y [->|Hy]%enter_visited Hn; [|contradiction].
    rewrite enter_num_self. lia.
  - reflexivity.
  - intros z [].
  - unfold low, getN. simpl. rewrite lookup_insert_eq. simpl. lia.
  - exists x. split; [left; reflexivity|]. split; [|apply rtc_refl].
    rewrite enter_num_self. unfold low, getN. simpl.
    rewrite lookup_insert_eq. reflexivity.
  - intros d [].
  - intros z y [].
  - intros d [].
Qed.

Lemma loop_stack_old x s0 G done new s y :
  Loop x s0 G done new s -> In y (stack s0) -> In y (stack s).
Proof.
  intros HL Hy. rewrite (loop_stack _ _ _ _ _ _ HL).
  apply in_or_app. right. right. exact Hy.
Qed.

(** A dependency that is visited and still on the stack. *)
Lemma step_onstack x s0 G done new s d di :
  ~ visited s0 x -> Loop x s0 G done new s -> E x d ->
  indices s !! d = Some di -> d ∈ onStack s ->
  Loop x s0 G (done ++ [d]) new (set_lowlink x (Nat.min (low s x) di) s).
Proof.
  intros Hw HL Hxd Hd Hon.
  pose proof (num_eq _ _ _ Hd) as Hnum.
  assert (Hds : In d (stack s)).
  { apply (inv_onStack s _ (loop_inv _ _ _ _ _ _ HL)). exact Hon. }
  split.
  - apply set_lowlink_inv. exact (loop_inv _ _ _ _ _ _ HL).
  - exact (loop_indices _ _ _ _ _ _ HL).
  - intros y Hy. rewrite low_set_other by (intros ->; exact (Hw Hy)).
    exact (loop_low _ _ _ _ _ _ HL y Hy).
  - exact (loop_fresh _ _ _ _ _ _ HL).
  - exact (loop_stack _ _ _ _ _ _ HL).
  - exact (loop_new _ _ _ _ _ _ HL).
  - rewrite low_set_self. pose proof (loop_low_le _ _ _ _ _ _ HL). lia.
  - rewrite low_set_self.
    destruct (Nat.min_spec (low s x) di) as [[_ ->]|[_ ->]].
    + exact (loop_low_wit _ _ _ _ _ _ HL).
    + exists d. split; [exact Hds|]. split; [exact Hnum|]. apply rtc_once. exact Hxd.
  - intros d' [Hd'|[<-|[]]]%in_app_iff.
    + exact (loop_done _ _ _ _ _ _ HL d' Hd').
    + exists di. exact Hd.
  - intros z y Hz Hy Hzy. rewrite low_set_self.
    pose proof (loop_min_new _ _ _ _ _ _ HL z y Hz Hy Hzy) as H.
    change (num (set_lowlink x (Nat.min (low s x) di) s) y) with (num s y). lia.
  - intros d' [Hd'|[<-|[]]]%in_app_iff Hst; rewrite low_set_self;
      change (num (set_lowlink x (Nat.min (low s x) di) s) ?y) with (num s y).
    + pose proof (loop_min_done _ _ _ _ _ _ HL d' Hd' Hst). lia.
    + change (num (set_lowlink x (Nat.min (low s x) di) s) d) with (num s d). lia.
Qed.

(** A dependency that is visited and no longer on the stack. *)
Lemma step_popped x s0 G done new s d :
  Loop x s0 G done new s -> visited s d -> d ∉ onStack s ->
  Loop x s0 G (done ++ [d]) new s.
Proof.
  intros HL Hd Hoff. destruct HL. split; try assumption.
  - intros d' [Hd'|[<-|[]]]%in_app_iff; [auto|exact Hd].
  - intros d' [Hd'|[<-|[]]]%in_app_iff Hst; [auto|].
    exfalso. apply Hoff. apply (inv_onStack s _ loop_inv0).
    rewrite loop_stack0. apply in_or_app. right. right. exact Hst.
Qed.

(** A dependency that was not visited: [strongConnect] has run for it. *)
Lemma step_white x s0 G done new s d s1 new_d :
  ~ visited s0 x -> Loop x s0 G done new s -> E x d -> ~ visited s d ->
  Post d s (x :: G) s1 new_d ->
  Loop x s0 G (done ++ [d]) (new_d ++ new)
    (set_lowlink x (Nat.min (low s1 x) (low s1 d)) s1).
Proof.
  intros Hw HL Hxd Hd HP.
  pose proof (loop_inv _ _ _ _ _ _ HL) as HI.
  assert (Hxs : visited s x).
  { apply (inv_stack_vis s _ HI). apply (inv_gray_stack s _ HI). left. reflexivity. }
  assert (Hlowx : low s1 x = low s x) by exact (post_low _ _ _ _ _ HP x Hxs).
  assert (Hnum1 : forall y, visited s y -> num s1 y = num s y).
  { intros y Hy. apply num_eq. apply (post_indices _ _ _ _ _ HP). apply visited_num. exact Hy. }
  assert (Hnumx : num s x < index s).
  { apply (inv_bound s _ HI x). apply visited_num. exact Hxs. }
  pose proof (loop_num_x _ _ _ _ _ _ HL) as Hnx.
  pose proof (loop_low_le _ _ _ _ _ _ HL) as Hle.
  set (m := Nat.min (low s1 x) (low s1 d)).
  assert (Hstack1 : stack s1 = (new_d ++ new) ++ x :: stack s0).
  { rewrite (post_stack _ _ _ _ _ HP), (loop_stack _ _ _ _ _ _ HL), app_assoc. reflexivity. }
  split.
  - apply set_lowlink_inv. exact (post_inv _ _ _ _ _ HP).
  - intros y i Hy. apply (post_indices _ _ _ _ _ HP).
    exact (loop_indices _ _ _ _ _ _ HL y i Hy).
  - intros y Hy. rewrite low_set_other by (intros ->; exact (Hw Hy)).
    rewrite (post_low _ _ _ _ _ HP).
    + exact (loop_low _ _ _ _ _ _ HL y Hy).
    + exists (num s0 y). apply (loop_indices _ _ _ _ _ _ HL). simpl.
      rewrite lookup_insert_ne by (intros ->; exact (Hw Hy)).
      apply visited_num. exact Hy.
  - intros y Hy Hn0. change (num (set_lowlink x m s1) y) with (num s1 y).
    destruct (decide (visited s y)) as [Hys|Hys].
    + rewrite (Hnum1 y Hys). exact (loop_fresh _ _ _ _ _ _ HL y Hys Hn0).
    + pose proof (post_fresh _ _ _ _ _ HP y Hy Hys). lia.
  - exact Hstack1.
  - intros z [Hz|Hz]%in_app_iff.
    + pose proof (post_new _ _ _ _ _ HP z Hz) as Hzs. split.
      * intros Hz0. apply Hzs. exists (num s0 z).
        apply (loop_indices _ _ _ _ _ _ HL). simpl.
        rewrite lookup_insert_ne by (intros ->; exact (Hw Hz0)).
        apply visited_num. exact Hz0.
      * intros ->. exact (Hzs Hxs).
    + exact (loop_new _ _ _ _ _ _ HL z Hz).
  - rewrite low_set_self. unfold m. lia.
  - rewrite low_set_self. unfold m.
    destruct (Nat.min_spec (low s1 x) (low s1 d)) as [[_ ->]|[Hlt ->]].
    + destruct (loop_low_wit _ _ _ _ _ _ HL) as (y & Hy & Hny & Hr).
      exists y. split; [|split; [|exact Hr]].
      * cbn [stack set_lowlink].
        rewrite (post_stack _ _ _ _ _ HP). apply in_or_app. right. exact Hy.
      * change (num (set_lowlink x (low s1 x) s1) y) with (num s1 y).
        rewrite (Hnum1 y (inv_stack_vis s _ HI y Hy)). lia.
    + destruct (decide (new_d = [])) as [Hnil|Hne].
      * pose proof (post_root _ _ _ _ _ HP Hnil). lia.
      * destruct (post_nonroot _ _ _ _ _ HP Hne) as (_ & _ & (y & Hy & Hny & Hr) & _).
        exists y. split; [|split; [exact Hny|]].
        -- cbn [stack set_lowlink].
           rewrite (post_stack _ _ _ _ _ HP). apply in_or_app. right. exact Hy.
        -- eapply rtc_l; [exact Hxd|exact Hr].
  - intros d' [Hd'|[<-|[]]]%in_app_iff.
    + destruct (loop_done _ _ _ _ _ _ HL d' Hd') as [i Hi].
      exists i. exact (post_indices _ _ _ _ _ HP d' i Hi).
    + exact (post_vis _ _ _ _ _ HP).
  - intros z y [Hz|Hz]%in_app_iff Hy Hzy; rewrite low_set_self;
      change (num (set_lowlink x m s1) y) with (num s1 y).
    + destruct (decide (new_d = [])) as [Hnil|Hne]; [subst new_d; destruct Hz|].
      destruct (post_nonroot _ _ _ _ _ HP Hne) as (_ & _ & _ & Hmin).
      pose proof (Hmin z y Hz (loop_stack_old _ _ _ _ _ _ _ HL Hy) Hzy). unfold m. lia.
    + pose proof (loop_min_new _ _ _ _ _ _ HL z y Hz Hy Hzy) as H.
      rewrite (Hnum1 y) by (apply (inv_stack_vis s _ HI), (loop_stack_old _ _ _ _ _ _ _ HL Hy)).
      unfold m. lia.
  - intros d' [Hd'|[<-|[]]]%in_app_iff Hst; rewrite low_set_self;
      change (num (set_lowlink x m s1) ?y) with (num s1 y).
    + pose proof (loop_min_done _ _ _ _ _ _ HL d' Hd' Hst) as H.
      change (num (set_lowlink x m s1) d') with (num s1 d').
      rewrite (Hnum1 d') by (apply (inv_stack_vis s _ HI), (loop_stack_old _ _ _ _ _ _ _ HL Hst)).
      unfold m. lia.
    + exfalso. apply Hd. apply (inv_stack_vis s _ HI).
      exact (loop_stack_old _ _ _ _ _ _ _ HL Hst).
Qed.

(** *** Leaving a node *)

Lemma loop_new_above x s0 G done new s z :
  Loop x s0 G done new s -> In z new -> num s x < num s z.
Proof.
  intros HL Hz. pose proof (inv_sorted s _ (loop_inv _ _ _ _ _ _ HL)) as Hd.
  rewrite (loop_stack _ _ _ _ _ _ HL) in Hd.
  apply (desc_app_lt s new (x :: stack s0)); [exact Hd|exact Hz|left; reflexivity].
Qed.

Lemma loop_old_below x s0 G done new s y :
  Loop x s0 G done new s -> In y (stack s0) -> num s y < num s x.
Proof.
  intros HL Hy. pose proof (inv_sorted s _ (loop_inv _ _ _ _ _ _ HL)) as Hd.
  rewrite (loop_stack _ _ _ _ _ _ HL) in Hd.
  apply desc_app_r in Hd. destruct Hd as [Hd _]. exact (Hd y Hy).
Qed.

Lemma loop_x_on_stack x s0 G done new s :
  Loop x s0 G done new s -> In x (stack s).
Proof.
  intros HL. rewrite (loop_stack _ _ _ _ _ _ HL). apply in_or_app. right. left. reflexivity.
Qed.

Lemma loop_comp_on_stack x s0 G done new s z :
  Loop x s0 G done new s -> In z (new ++ [x]) -> In z (stack s).
Proof.
  intros HL Hz. rewrite (loop_stack _ _ _ _ _ _ HL).
  apply in_app_iff in Hz as [Hz|[<-|[]]]; apply in_or_app; [left; exact Hz|right; left; reflexivity].
Qed.

(** The nodes from [x] upwards on the stack reach [x] and are reached
    from it. *)
Lemma scc_sound x s0 G done new s z :
  Loop x s0 G done new s -> In z (new ++ [x]) -> reach x z /\ reach z x.
Proof.
  intros HL Hz. pose proof (loop_inv _ _ _ _ _ _ HL) as HI.
  pose proof (loop_comp_on_stack _ _ _ _ _ _ _ HL Hz) as Hzs.
  pose proof (loop_x_on_stack _ _ _ _ _ _ HL) as Hxs.
  assert (Hle : num s x <= num s z).
  { apply in_app_iff in Hz as [Hz|[<-|[]]]; [|lia].
    pose proof (loop_new_above _ _ _ _ _ _ _ HL Hz). lia. }
  split.
  - exact (inv_reach_up s _ HI x z Hxs Hzs Hle).
  - destruct (inv_reach_gray s _ HI z Hzs) as (g & [<-|Hg] & _ & Hr); [exact Hr|].
    eapply rtc_trans; [exact Hr|].
    apply (inv_reach_up s _ HI g x); [|exact Hxs|].
    + apply (inv_gray_stack s _ HI). right. exact Hg.
    + destruct (inv_gray_sorted s _ HI) as [Hlt _]. specialize (Hlt g Hg). lia.
Qed.

Lemma new_not_gray x s0 G done new s z :
  Inv s0 G -> Loop x s0 G done new s -> In z new -> ~ In z (x :: G).
Proof.
  intros HI0 HL Hz [<-|Hg].
  - destruct (loop_new _ _ _ _ _ _ HL _ Hz) as [_ Hne]. congruence.
  - destruct (loop_new _ _ _ _ _ _ HL _ Hz) as [Hnv _]. apply Hnv.
    apply (inv_stack_vis s0 _ HI0). apply (inv_gray_stack s0 _ HI0). exact Hg.
Qed.

(** When [x] is a root, everything that reaches [x] and is reached from
    it lies on the stack from [x] upwards. *)
Lemma scc_complete x s0 G new s :
  Inv s0 G -> ~ visited s0 x ->
  Loop x s0 G (adj ts x) new s -> low s x = num s x ->
  forall z y, rtc E z y -> In z (new ++ [x]) -> reach y x -> In y (new ++ [x]).
Proof.
  intros HI0 Hw HL Hroot. pose proof (loop_inv _ _ _ _ _ _ HL) as HI.
  induction 1 as [z|z z' y Hzz' Hz'y IH]; intros Hz Hyx; [exact Hz|].
  apply IH; [|exact Hyx].
  assert (Hvis : visited s z').
  { apply in_app_iff in Hz as [Hz|[<-|[]]].
    - apply (inv_black_closed s _ HI z z'); [|exact (new_not_gray _ _ _ _ _ _ _ HI0 HL Hz)|exact Hzz'].
      apply (inv_stack_vis s _ HI). rewrite (loop_stack _ _ _ _ _ _ HL).
      apply in_or_app. left. exact Hz.
    - exact (loop_done _ _ _ _ _ _ HL z' Hzz'). }
  destruct (In_dec string_dec z' (stack s)) as [Hin|Hout].
  - rewrite (loop_stack _ _ _ _ _ _ HL) in Hin.
    apply in_app_iff in Hin as [Hin|[<-|Hin]].
    + apply in_or_app. left. exact Hin.
    + apply in_or_app. right. left. reflexivity.
    + exfalso. pose proof (loop_old_below _ _ _ _ _ _ _ HL Hin) as Hlt.
      assert (Hmin : low s x <= num s z').
      { apply in_app_iff in Hz as [Hz|[<-|[]]].
        - exact (loop_min_new _ _ _ _ _ _ HL z z' Hz Hin Hzz').
        - exact (loop_min_done _ _ _ _ _ _ HL z' Hzz' Hin). }
      lia.
  - exfalso.
    destruct (scc_sound _ _ _ _ _ _ _ HL Hz) as [Hxz _].
    destruct (inv_popped_scc s _ HI z' x Hvis Hout) as [_ Hx].
    + eapply rtc_trans; [exact Hz'y|exact Hyx].
    + eapply rtc_r; [exact Hxz|exact Hzz'].
    + exact (Hx (loop_x_on_stack _ _ _ _ _ _ HL)).
Qed.

(** [x] is not the root of its component: it stays on the stack. *)
Lemma finish_nonroot x s0 G new s :
  Inv s0 G -> ~ visited s0 x ->
  Loop x s0 G (adj ts x) new s -> low s x <> num s x ->
  leave x s = Some s /\ Post x s0 G s (new ++ [x]).
Proof.
  intros HI0 Hw HL Hne. pose proof (loop_inv _ _ _ _ _ _ HL) as HI.
  pose proof (loop_num_x _ _ _ _ _ _ HL) as Hnx.
  pose proof (loop_low_le _ _ _ _ _ _ HL) as Hle.
  assert (Hlt : low s x < num s x) by lia.
  destruct (loop_low_wit _ _ _ _ _ _ HL) as (yw & Hyw & Hnyw & Hrw).
  assert (Hyw0 : In yw (stack s0)).
  { rewrite (loop_stack _ _ _ _ _ _ HL) in Hyw.
    apply in_app_iff in Hyw as [Hyw|[<-|Hyw]]; [|lia|exact Hyw].
    pose proof (loop_new_above _ _ _ _ _ _ _ HL Hyw). lia. }
  split.
  { unfold leave. rewrite decide_False by exact Hne. reflexivity. }
  split.
  - split; try (destruct HI; assumption).
    + intros g Hg. apply (inv_gray_stack s _ HI). right. exact Hg.
    + destruct (inv_gray_sorted s _ HI) as [_ H]. exact H.
    + intros y Hy. destruct (inv_reach_gray s _ HI y Hy) as (g & [<-|Hg] & Hgle & Hr).
      * destruct (inv_reach_gray s _ HI yw Hyw) as (g' & [<-|Hg'] & Hgle' & Hr'); [lia|].
        exists g'. split; [exact Hg'|]. split; [lia|].
        eapply rtc_trans; [exact Hr|]. eapply rtc_trans; [exact Hrw|exact Hr'].
      * exists g. auto.
    + intros y z Hy Hng Hyz. destruct (decide (y = x)) as [->|Hyx].
      * exact (loop_done _ _ _ _ _ _ HL z Hyz).
      * apply (inv_black_closed s _ HI y z Hy); [|exact Hyz].
        intros [?|?]; [congruence|contradiction].
  - intros y i Hy. apply (loop_indices _ _ _ _ _ _ HL). simpl.
    rewrite lookup_insert_ne; [exact Hy|]. intros ->. apply Hw. exists i. exact Hy.
  - exact (loop_low _ _ _ _ _ _ HL).
  - apply (inv_stack_vis s _ HI). exact (loop_x_on_stack _ _ _ _ _ _ HL).
  - exact (loop_fresh _ _ _ _ _ _ HL).
  - rewrite (loop_stack _ _ _ _ _ _ HL), <- app_assoc. reflexivity.
  - intros z [Hz|[<-|[]]]%in_app_iff; [|exact Hw].
    exact (proj1 (loop_new _ _ _ _ _ _ HL z Hz)).
  - intros Hnil. destruct new; discriminate.
  - intros _. split; [apply in_or_app; right; left; reflexivity|].
    split; [lia|]. split.
    + exists yw. auto.
    + intros z y [Hz|[<-|[]]]%in_app_iff Hy Hzy.
      * exact (loop_min_new _ _ _ _ _ _ HL z y Hz Hy Hzy).
      * exact (loop_min_done _ _ _ _ _ _ HL y Hzy Hy).
Qed.

Lemma popComponent_spec x new K : forall on,
  ~ In x new ->
  exists on',
    popComponent x (new ++ x :: K) on = Some (new ++ [x], K, on')
    /\ forall y, y ∈ on' <-> y ∈ on /\ ~ In y (new ++ [x]).
Proof.
  induction new as [|w new IH]; intros on Hx.
  - exists (on ∖ {[x]}). simpl. rewrite decide_True by reflexivity.
    split; [reflexivity|]. intros y. rewrite elem_of_difference, elem_of_singleton.
    simpl. intuition.
  - destruct (IH (on ∖ {[w]})) as (on' & Hpop & Hon').
    { intros Hin. apply Hx. right. exact Hin. }
    exists on'. simpl. rewrite decide_False by (intros ->; apply Hx; left; reflexivity).
    rewrite Hpop. split; [reflexivity|].
    intros y. rewrite Hon', elem_of_difference, elem_of_singleton. simpl. intuition.
Qed.

(** The state that [leave] builds when it pops a component. *)
Definition popped (s : tarjan) (comp rest : list string) (on : gset string) : tarjan :=
  {| index := index s; indices := indices s; lowlinks := lowlinks s;
     onStack := on; stack := rest;
     cycleNodes := if decide (1 < length comp)
                   then cycleNodes s ++ comp else cycleNodes s |}.

(** [x] is the root of its component: the component is popped, and
    reported if it has more than one node. *)
Lemma finish_root x s0 G new s :
  Inv s0 G -> ~ visited s0 x ->
  Loop x s0 G (adj ts x) new s -> low s x = num s x ->
  exists s', leave x s = Some s' /\ Post x s0 G s' [].
Proof.
  intros HI0 Hw HL Hroot. pose proof (loop_inv _ _ _ _ _ _ HL) as HI.
  pose proof (loop_num_x _ _ _ _ _ _ HL) as Hnx.
  assert (Hxnew : ~ In x new).
  { intros Hin. destruct (loop_new _ _ _ _ _ _ HL x Hin) as [_ H]. congruence. }
  destruct (popComponent_spec x new (stack s0) (onStack s) Hxnew) as (on' & Hpop & Hon').
  set (comp := new ++ [x]) in *.
  exists (popped s comp (stack s0) on'). split.
  { unfold leave. rewrite decide_True by exact Hroot.
    rewrite (loop_stack _ _ _ _ _ _ HL), Hpop. reflexivity. }
  assert (Hdisj : forall y, In y (stack s0) -> ~ In y comp).
  { intros y Hy Hc. pose proof (loop_old_below _ _ _ _ _ _ _ HL Hy) as Hlt.
    apply in_app_iff in Hc as [Hc|[<-|[]]]; [|lia].
    pose proof (loop_new_above _ _ _ _ _ _ _ HL Hc). lia. }
  assert (Hsplit : forall y, In y (stack s) <-> In y comp \/ In y (stack s0)).
  { intros y. rewrite (loop_stack _ _ _ _ _ _ HL). unfold comp.
    rewrite !in_app_iff. simpl. tauto. }
  assert (Hscc : forall y z, In y comp -> reach y z -> reach z y -> In z comp).
  { intros y z Hy Hyz Hzy. destruct (scc_sound _ _ _ _ _ _ _ HL Hy) as [Hxy Hyx].
    apply (scc_complete x s0 G new s HI0 Hw HL Hroot x z).
    - eapply rtc_trans; eassumption.
    - apply in_or_app. right. left. reflexivity.
    - eapply rtc_trans; eassumption. }
  split.
  - split.
    + exact (inv_univ s _ HI).
    + exact (inv_bound s _ HI).
    + exact (inv_inj s _ HI).
    + intros y. cbn [onStack stack popped]. rewrite Hon', (inv_onStack s _ HI), Hsplit.
      split; [tauto|]. intros Hy. split; [right; exact Hy|exact (Hdisj y Hy)].
    + intros y Hy. apply (inv_stack_vis s _ HI). apply Hsplit. right. exact Hy.
    + cbn [stack popped]. apply (desc_ext s); [reflexivity|].
      pose proof (inv_sorted s _ HI) as Hd. rewrite (loop_stack _ _ _ _ _ _ HL) in Hd.
      apply desc_app_r in Hd. destruct Hd as [_ Hd]. exact Hd.
    + exact (inv_gray_stack s0 _ HI0).
    + apply (desc_ext s); [reflexivity|].
      destruct (inv_gray_sorted s _ HI) as [_ Hd]. exact Hd.
    + intros y z Hy Hz Hle. apply (inv_reach_up s _ HI y z); [| |exact Hle];
        apply Hsplit; right; assumption.
    + intros y Hy.
      destruct (inv_reach_gray s _ HI y (proj2 (Hsplit y) (or_intror Hy)))
        as (g & [<-|Hg] & Hle & Hr).
      * pose proof (loop_old_below _ _ _ _ _ _ _ HL Hy). lia.
      * exists g. auto.
    + intros y z Hy Hng Hyz. destruct (decide (y = x)) as [->|Hyx].
      * exact (loop_done _ _ _ _ _ _ HL z Hyz).
      * apply (inv_black_closed s _ HI y z Hy); [|exact Hyz].
        intros [?|?]; [congruence|contradiction].
    + intros y z Hy Hns Hyz Hzy. cbn [stack popped] in *.
      destruct (In_dec string_dec y (stack s)) as [Hin|Hout].
      * apply Hsplit in Hin as [Hc|?]; [|contradiction].
        pose proof (Hscc y z Hc Hyz Hzy) as Hzc. split.
        -- apply (inv_stack_vis s _ HI). apply Hsplit. left. exact Hzc.
        -- intros Hz. exact (Hdisj z Hz Hzc).
      * destruct (inv_popped_scc s _ HI y z Hy Hout Hyz Hzy) as [Hz Hzs].
        split; [exact Hz|]. intros Hin. apply Hzs. apply Hsplit. right. exact Hin.
    + intros c Hc. cbn [cycleNodes popped] in Hc.
      destruct (decide (1 < length comp)) as [Hlen|_];
        [|exact (inv_cyc_sound s _ HI c Hc)].
      apply in_app_iff in Hc as [Hc|Hc]; [exact (inv_cyc_sound s _ HI c Hc)|].
      assert (exists c', In c' comp /\ c' <> c) as (c' & Hc' & Hne).
      { destruct new as [|w new'].
        - simpl in Hlen. lia.
        - destruct (decide (c = x)) as [->|Hcx].
          + exists w. split; [left; reflexivity|].
            intros ->. apply Hxnew. left. reflexivity.
          + exists x. split; [apply in_or_app; right; left; reflexivity|congruence]. }
      destruct (scc_sound _ _ _ _ _ _ _ HL Hc) as [Hxc Hcx].
      destruct (scc_sound _ _ _ _ _ _ _ HL Hc') as [Hxc' Hc'x].
      exists c'. split; [exact Hne|]. split; eapply rtc_trans; eassumption.
    + intros y z Hy Hns Hne Hyz Hzy. cbn [stack cycleNodes popped] in *.
      destruct (In_dec string_dec y (stack s)) as [Hin|Hout].
      * apply Hsplit in Hin as [Hc|?]; [|contradiction].
        pose proof (Hscc y z Hc Hyz Hzy) as Hzc.
        assert (Hlen : 1 < length comp).
        { unfold comp in *. destruct new as [|w new'].
          - destruct Hc as [<-|[]]. destruct Hzc as [<-|[]]. congruence.
          - rewrite length_app. simpl. lia. }
        rewrite decide_True by exact Hlen. apply in_or_app. right. exact Hc.
      * pose proof (inv_cyc_complete s _ HI y z Hy Hout Hne Hyz Hzy) as Hc.
        destruct (decide (1 < length comp)); [apply in_or_app; left|]; exact Hc.
  - intros y i Hy. apply (loop_indices _ _ _ _ _ _ HL). simpl.
    rewrite lookup_insert_ne; [exact Hy|]. intros ->. apply Hw. exists i. exact Hy.
  - exact (loop_low _ _ _ _ _ _ HL).
  - apply (inv_stack_vis s _ HI). exact (loop_x_on_stack _ _ _ _ _ _ HL).
  - exact (loop_fresh _ _ _ _ _ _ HL).
  - reflexivity.
  - intros z [].
  - intros _. change (low (popped s comp (stack s0) on') x) with (low s x). lia.
  - intros H. congruence.
Qed.

(** *** [strongConnect] and [detectCycles] *)

(** [strongConnect] returns when its fuel exceeds the number of nodes not
    yet visited, and establishes [Post]. *)
Definition sc_ok (fuel : nat) : Prop :=
  forall x s G,
    Inv s G -> ~ visited s x -> x ∈ U -> parent_ok G x ->
    size (U ∖ dom (indices s)) < fuel ->
    exists s' new, strongConnect ts fuel x s = Some s' /\ Post x s G s' new.

Lemma unvisited_mono (s s' : tarjan) :
  (forall y i, indices s !! y = Some i -> indices s' !! y = Some i) ->
  size (U ∖ dom (indices s')) <= size (U ∖ dom (indices s)).
Proof.
  intros H. apply subseteq_size. intros y Hy.
  apply elem_of_difference in Hy as [HyU Hy]. apply elem_of_difference.
  split; [exact HyU|]. intros Hd. apply Hy.
  apply elem_of_dom in Hd as [i Hi]. apply elem_of_dom. exists i. exact (H y i Hi).
Qed.

Lemma unvisited_enter s x :
  x ∈ U -> ~ visited s x ->
  size (U ∖ dom (indices (enter x s))) < size (U ∖ dom (indices s)).
Proof.
  intros HU Hw. apply subset_size. split.
  - intros y Hy. apply elem_of_difference in Hy as [HyU Hy]. apply elem_of_difference.
    split; [exact HyU|]. intros Hd. apply Hy. simpl. rewrite dom_insert. set_solver.
  - intros Hsub. assert (Hx : x ∈ U ∖ dom (indices s)).
    { apply elem_of_difference. split; [exact HU|]. intros Hd. apply Hw.
      apply elem_of_dom in Hd. exact Hd. }
    specialize (Hsub x Hx). apply elem_of_difference in Hsub as [_ Hsub].
    apply Hsub. simpl. rewrite dom_insert. set_solver.
Qed.

Lemma deps_loop fuel (Hrec : sc_ok fuel) x s0 G :
  Inv s0 G -> ~ visited s0 x ->
  size (U ∖ dom (indices (enter x s0))) < fuel ->
  forall ds done new s,
    Loop x s0 G done new s -> (forall d, In d ds -> E x d) ->
    exists s' new',
      forEachM (onDep (strongConnect ts fuel) x) ds s = Some s'
      /\ Loop x s0 G (done ++ ds) new' s'.
Proof.
  intros HI0 Hw Hfuel. induction ds as [|d ds IH]; intros done new s HL Hds.
  - exists s, new. rewrite app_nil_r. auto.
  - assert (Hxd : E x d) by (apply Hds; left; reflexivity).
    assert (Hnext : forall s2 new2,
              Loop x s0 G (done ++ [d]) new2 s2 ->
              exists s' new',
                forEachM (onDep (strongConnect ts fuel) x) ds s2 = Some s'
                /\ Loop x s0 G (done ++ d :: ds) new' s').
    { intros s2 new2 HL2. destruct (IH (done ++ [d]) new2 s2 HL2) as (s' & new' & Hrun & HL').
      - intros d' Hd'. apply Hds. right. exact Hd'.
      - exists s', new'. rewrite <- app_assoc in HL'. auto. }
    simpl. unfold onDep at 1. destruct (indices s !! d) as [di|] eqn:Hd.
    + destruct (decide (d ∈ onStack s)) as [Hon|Hoff].
      * apply (Hnext _ new). exact (step_onstack _ _ _ _ _ _ _ _ Hw HL Hxd Hd Hon).
      * apply (Hnext _ new). apply step_popped; [exact HL|exists di; exact Hd|exact Hoff].
    + assert (Hdw : ~ visited s d) by (intros [i Hi]; congruence).
      destruct (Hrec d s (x :: G)) as (s1 & new_d & Hrun & HP).
      * exact (loop_inv _ _ _ _ _ _ HL).
      * exact Hdw.
      * exact (adj_in_U _ _ Hxd).
      * exact Hxd.
      * pose proof (unvisited_mono (enter x s0) s (loop_indices _ _ _ _ _ _ HL)). lia.
      * rewrite Hrun. apply (Hnext _ (new_d ++ new)).
        exact (step_white _ _ _ _ _ _ _ _ _ Hw HL Hxd Hdw HP).
Qed.

Lemma strongConnect_correct fuel : sc_ok fuel.
Proof.
  induction fuel as [|fuel IH]; intros x s G HI Hw HU Hpar Hfuel; [lia|].
  simpl.
  destruct (deps_loop fuel IH x s G HI Hw) with (ds := adj ts x) (done := @nil string)
    (new := @nil string) (s := enter x s) as (s1 & new & Hrun & HL).
  - pose proof (unvisited_enter s x HU Hw). lia.
  - apply loop_init; assumption.
  - intros d Hd. exact Hd.
  - rewrite Hrun. simpl in HL.
    destruct (decide (low s1 x = num s1 x)) as [Hroot|Hne].
    + destruct (finish_root x s G new s1 HI Hw HL Hroot) as (s' & Hleave & HP).
      exists s', []. auto.
    + destruct (finish_nonroot x s G new s1 HI Hw HL Hne) as [Hleave HP].
      exists s1, (new ++ [x]). auto.
Qed.

Lemma tarjan_init_inv : Inv tarjan_init [].
Proof.
  assert (Hnone : forall x, ~ visited tarjan_init x).
  { intros x [i Hi]. simpl in Hi. rewrite lookup_empty in Hi. discriminate. }
  split; simpl; try (intros; exfalso; eauto; fail); auto.
  - intros x Hx. destruct (Hnone x Hx).
  - intros x i Hi. rewrite lookup_empty in Hi. discriminate.
  - intros x y i Hi. rewrite lookup_empty in Hi. discriminate.
  - intros x. split; [intros Hx; set_solver|intros []].
  - intros x y Hx. destruct (Hnone x Hx).
Qed.

Lemma size_list_to_set_le (l : list string) :
  size (list_to_set l : gset string) <= length l.
Proof.
  induction l as [|a l IH].
  { change (list_to_set [] : gset string) with (∅ : gset string).
    rewrite size_empty. simpl. lia. }
  simpl length.
  change (list_to_set (a :: l) : gset string) with ({[a]} ∪ list_to_set l : gset string).
  rewrite size_union_alt, size_singleton.
  pose proof (subseteq_size (list_to_set l ∖ {[a]}) (list_to_set l : gset string)
                ltac:(set_solver)). lia.
Qed.

Lemma detect_loop fuel :
  size U < fuel ->
  forall todo s,
    Inv s [] -> (forall t, In t todo -> In t ts) ->
    exists s',
      detectLoop ts fuel todo s = Some s' /\ Inv s' []
      /\ (forall y, visited s y -> visited s' y)
      /\ (forall t, In t todo -> visited s' (id t)).
Proof.
  intros Hfuel. unfold detectLoop.
  induction todo as [|t todo IH]; intros s HI Hin.
  - exists s. simpl. split; [reflexivity|]. split; [exact HI|]. split; [auto|intros ? []].
  - simpl. unfold detectStep at 1.
    assert (Hstep : exists s1, match indices s !! id t with
                               | Some _ => Some s
                               | None => strongConnect ts fuel (id t) s
                               end = Some s1
                               /\ Inv s1 [] /\ (forall y, visited s y -> visited s1 y)
                               /\ visited s1 (id t)).
    { destruct (indices s !! id t) as [i|] eqn:Hi.
      - exists s. split; [reflexivity|]. split; [exact HI|].
        split; [auto|exists i; exact Hi].
      - destruct (strongConnect_correct fuel (id t) s []) as (s1 & new & Hrun & HP).
        + exact HI.
        + intros [j Hj]. congruence.
        + apply task_in_U. apply Hin. left. reflexivity.
        + exact I.
        + pose proof (subseteq_size (U ∖ dom (indices s)) U ltac:(set_solver)). lia.
        + exists s1. split; [exact Hrun|]. split; [exact (post_inv _ _ _ _ _ HP)|].
          split; [|exact (post_vis _ _ _ _ _ HP)].
          intros y [j Hj]. exists j. exact (post_indices _ _ _ _ _ HP y j Hj). }
    destruct Hstep as (s1 & Hrun1 & HI1 & Hmono1 & Hvis1). rewrite Hrun1.
    destruct (IH s1 HI1) as (s' & Hrun & HI' & Hmono & Hall).
    { intros t' Ht'. apply Hin. right. exact Ht'. }
    exists s'. split; [exact Hrun|]. split; [exact HI'|]. split.
    + intros y Hy. apply Hmono, Hmono1, Hy.
    + intros t' [<-|Ht']; [apply Hmono, Hvis1|apply Hall, Ht'].
Qed.

(** [detectCycles] returns, and reports exactly the nodes that lie on a
    cycle through another node. *)
Theorem detectCycles_correct :
  exists cyc,
    detectCycles ts = Some cyc
    /\ (forall c, In c cyc -> exists c', c' <> c /\ reach c c' /\ reach c' c)
    /\ (forall t y, In t ts -> y <> id t -> reach (id t) y -> reach y (id t) ->
                    In (id t) cyc).
Proof.
  destruct (detect_loop (detectFuel ts)) with (todo := ts) (s := tarjan_init)
    as (s & Hrun & HI & _ & Hall).
  - unfold detectFuel, U. pose proof (size_list_to_set_le (allIds ts)). lia.
  - exact tarjan_init_inv.
  - auto.
  - exists (cycleNodes s). unfold detectCycles. rewrite Hrun.
    split; [reflexivity|]. split; [exact (inv_cyc_sound s _ HI)|].
    intros t y Ht Hne Hty Hyt.
    apply (inv_cyc_complete s _ HI (id t) y (Hall t Ht)); [|exact Hne|exact Hty|exact Hyt].
    intros Hst. destruct (inv_reach_gray s _ HI _ Hst) as (g & [] & _).
Qed.

End tarjan.

(** *** [validateDag] *)

Lemma duplicateErrors_nil ts : forall seen,
  NoDup (map id ts) -> (forall t, In t ts -> id t ∉ seen) ->
  duplicateErrors seen ts = [].
Proof.
  induction ts as [|t ts IH]; intros seen Hnd Hseen; [reflexivity|].
  simpl. rewrite decide_False by (apply Hseen; left; reflexivity). simpl.
  simpl in Hnd. apply NoDup_cons in Hnd as [Hnot Hnd].
  apply IH; [exact Hnd|]. intros t' Ht' Hin.
  apply elem_of_union in Hin as [Hin|Hin].
  - apply elem_of_singleton in Hin. apply Hnot. rewrite <- Hin.
    apply list_elem_of_In, in_map, Ht'.
  - apply (Hseen t'); [right; exact Ht'|exact Hin].
Qed.

Lemma missingErrors_nil ts : resolvable ts -> missingErrors (idSet ts) ts = [].
Proof.
  intros Hres. unfold missingErrors.
  assert (H : forall l, (forall t, In t l -> In t ts) ->
                        flat_map (missingErrorsOf (idSet ts)) l = []).
  { induction l as [|t l IH]; intros Hl; [reflexivity|]. simpl.
    rewrite IH by (intros t' Ht'; apply Hl; right; exact Ht'). rewrite app_nil_r.
    unfold missingErrorsOf.
    assert (Hd : forall ds, (forall d, In d ds -> In d (dependsOn t)) ->
                   flat_map (fun dep => if decide (dep ∈ idSet ts) then []
                                        else ["Task " +:+ quote (id t)
                                              +:+ " depends on unknown task "
                                              +:+ quote dep]) ds = []).
    { induction ds as [|d ds IHd]; intros Hds; [reflexivity|]. simpl.
      rewrite decide_True.
      - apply IHd. intros d' Hd'. apply Hds. right. exact Hd'.
      - apply elem_of_list_to_set, list_elem_of_In.
        apply (Hres t d); [apply Hl; left; reflexivity|apply Hds; left; reflexivity]. }
    apply Hd. auto. }
  apply H. auto.
Qed.

(** A walk along a relation, and a cycle of the dependency relation: a
    walk that returns to its first node. *)
Fixpoint walk (R : relation string) (l : list string) : Prop :=
  match l with
  | x :: (y :: _) as l' => R x y /\ walk R l'
  | _ => True
  end.

Definition isCycle (ts : list TaskNode) (l : list string) : Prop :=
  match l with
  | [] => False
  | x :: _ => walk (depends ts) (l ++ [x])
  end.

Lemma walk_tc R l : forall i j a b,
  walk R l -> l !! i = Some a -> l !! j = Some b -> i < j -> tc R a b.
Proof.
  induction l as [|x l IH]; intros i j a b Hw Hi Hj Hlt; [discriminate|].
  destruct j as [|j]; [lia|]. simpl in Hj.
  destruct l as [|y l]; [discriminate|]. destruct Hw as [Hxy Hw].
  destruct i as [|i].
  - injection Hi as <-. destruct j as [|j].
    + injection Hj as <-. apply tc_once. exact Hxy.
    + eapply tc_l; [exact Hxy|]. apply (IH 0 (S j) y b Hw eq_refl Hj). lia.
  - simpl in Hi. apply (IH i j a b Hw Hi Hj). lia.
Qed.

Lemma cycle_tc ts l a b :
  isCycle ts l -> In a l -> In b l -> tc (depends ts) a b.
Proof.
  destruct l as [|x l]; [intros []|]. unfold isCycle. intros Hw Ha Hb.
  apply list_elem_of_In, list_elem_of_lookup in Ha as [i Hi].
  apply list_elem_of_In, list_elem_of_lookup in Hb as [j Hj].
  pose proof (lookup_lt_Some _ _ _ Hi) as Hil.
  pose proof (lookup_lt_Some _ _ _ Hj) as Hjl.
  set (w := (x :: l) ++ [x]) in *.
  assert (Hwi : w !! i = Some a) by (unfold w; rewrite lookup_app_l; assumption).
  assert (Hwj : w !! j = Some b) by (unfold w; rewrite lookup_app_l; assumption).
  assert (Hend : w !! length (x :: l) = Some x).
  { unfold w. rewrite lookup_app_r by lia. rewrite Nat.sub_diag. reflexivity. }
  destruct (decide (i < j)) as [Hlt|Hge]; [exact (walk_tc _ w i j a b Hw Hwi Hwj Hlt)|].
  pose proof (walk_tc _ w i _ a x Hw Hwi Hend Hil) as Hax.
  destruct j as [|j].
  - simpl in Hj. injection Hj as <-. exact Hax.
  - eapply tc_transitive; [exact Hax|].
    apply (walk_tc _ w 0 (S j) x b Hw eq_refl Hwj). lia.
Qed.

Lemma cycle_member_task ts l a : isCycle ts l -> In a l -> In a (map id ts).
Proof.
  intros Hc Ha. pose proof (cycle_tc ts l a a Hc Ha Ha) as Htc.
  assert (H : forall x y, tc (depends ts) x y -> In x (map id ts)).
  { induction 1 as [x y (t & Ht & <- & _)|x y z (t & Ht & <- & _) _ _];
      apply in_map; exact Ht. }
  exact (H _ _ Htc).
Qed.

Section validate.
Variable ts : list TaskNode.
Hypothesis unique : uniqueIds ts.

Lemma reach_depends x y : reach ts x y <-> rtc (depends ts) x y.
Proof.
  split; apply rtc_subrel; intros a b H; apply (depends_adj ts a b unique); exact H.
Qed.

(** [validateDag] always returns. *)
Lemma validateDag_total_unique : is_Some (validateDag ts).
Proof.
  destruct (detectCycles_correct ts) as (cyc & Hrun & _).
  unfold validateDag. rewrite Hrun. eexists. reflexivity.
Qed.

Lemma validateDag_accepts :
  resolvable ts ->
  (forall x y, tc (depends ts) x y -> tc (depends ts) y x -> x = y) ->
  validateDag ts = Some {| valid := true; errors := [] |}.
Proof.
  intros Hres Hno.
  destruct (detectCycles_correct ts) as (cyc & Hrun & Hsound & _).
  assert (Hnil : cyc = []).
  { destruct cyc as [|c cyc]; [reflexivity|]. exfalso.
    destruct (Hsound c (or_introl eq_refl)) as (c' & Hne & Hcc' & Hc'c).
    apply reach_depends, rtc_tc in Hcc'. apply reach_depends, rtc_tc in Hc'c.
    destruct Hcc' as [->|Hcc']; [congruence|].
    destruct Hc'c as [->|Hc'c]; [congruence|].
    apply Hne. symmetry. exact (Hno c c' Hcc' Hc'c). }
  unfold validateDag. rewrite Hrun, Hnil.
  rewrite (duplicateErrors_nil ts ∅ unique) by (intros; set_solver).
  rewrite (missingErrors_nil ts Hres). reflexivity.
Qed.

Lemma validateDag_reports_cycle cyc :
  isCycle ts cyc ->
  (exists a b, In a cyc /\ In b cyc /\ a <> b) ->
  exists v nodes,
    validateDag ts = Some v /\ valid v = false
    /\ In (cycleError nodes) (errors v)
    /\ forall x, In x cyc -> In x nodes.
Proof.
  intros Hcyc (a & b & Ha & Hb & Hab).
  destruct (detectCycles_correct ts) as (nodes & Hrun & _ & Hcomplete).
  assert (Hall : forall x, In x cyc -> In x nodes).
  { intros x Hx.
    assert (exists y, In y cyc /\ y <> x) as (y & Hy & Hne).
    { destruct (decide (a = x)) as [->|Hax]; [exists b; auto|exists a; auto]. }
    pose proof (cycle_member_task ts cyc x Hcyc Hx) as Hid.
    apply in_map_iff in Hid as (t & <- & Ht).
    apply (Hcomplete t y Ht Hne); apply reach_depends, tc_rtc, (cycle_tc ts cyc);
      assumption. }
  assert (Hlen : 0 < length nodes).
  { destruct nodes; [destruct (Hall a Ha)|simpl; lia]. }
  eexists _, nodes. unfold validateDag. rewrite Hrun.
  split; [reflexivity|]. cbn [valid errors]. rewrite decide_True by exact Hlen.
  split.
  - apply bool_decide_eq_false_2. rewrite !length_app. simpl. lia.
  - split; [|exact Hall]. apply in_or_app. right. apply in_or_app. right.
    left. reflexivity.
Qed.

End validate.

(** C4, amended.  For a task list with unique ids and resolvable
    dependencies in which no two distinct tasks depend on each other
    (directly or transitively), [validateDag] returns [valid = true] with
    no error, so it does for every such list that is acyclic; and for a
    task list with unique ids whose dependency relation has a cycle
    through two or more distinct tasks, it returns [valid = false] with a
    "Cycle detected" error whose list of ids names every member of the
    cycle. *)
Theorem validateDag_spec (ts : list TaskNode) :
  (uniqueIds ts -> resolvable ts ->
   (forall x y, tc (depends ts) x y -> tc (depends ts) y x -> x = y) ->
   validateDag ts = Some {| valid := true; errors := [] |})
  /\ (uniqueIds ts -> resolvable ts -> acyclic ts ->
      validateDag ts = Some {| valid := true; errors := [] |})
  /\ (uniqueIds ts ->
      forall cyc,
        isCycle ts cyc -> (exists a b, In a cyc /\ In b cyc /\ a <> b) ->
        exists v nodes,
          validateDag ts = Some v /\ valid v = false
          /\ In (cycleError nodes) (errors v)
          /\ forall x, In x cyc -> In x nodes).
Proof.
  split; [|split].
  - intros Hu Hr Hno. exact (validateDag_accepts ts Hu Hr Hno).
  - intros Hu Hr Hac. apply (validateDag_accepts ts Hu Hr).
    intros x y Hxy Hyx. exfalso. apply (Hac x).
    eapply tc_transitive; eassumption.
  - intros Hu cyc Hc Hd. exact (validateDag_reports_cycle ts Hu cyc Hc Hd).
Qed.

Definition selfLoop : list TaskNode := [task "t1" ["t1"]].
Definition twoCycle : list TaskNode := [task "t1" ["t2"]; task "t2" ["t1"]].
Definition shadowed : list TaskNode :=
  [task "a" ["b"]; task "b" ["a"]; task "a" []].

(** C4, as stated, fails: a task that depends on itself is a cycle of the
    dependency relation, and [validateDag] accepts the list. *)
Lemma validateDag_accepts_self_dependency :
  isCycle selfLoop ["t1"]
  /\ validateDag selfLoop = Some {| valid := true; errors := [] |}.
Proof.
  split; [|vm_compute; reflexivity].
  simpl. split; [|exact I]. exists (task "t1" ["t1"]). simpl. auto.
Qed.

(** With a duplicated id only the last task of that id enters the graph
    that is searched: here the cycle [a -> b -> a] goes unreported, and
    the only error names [a]. *)
Example validateDag_duplicate_hides_cycle :
  isCycle shadowed ["a"; "b"]
  /\ option_map errors (validateDag shadowed)
     = Some ["Duplicate task ID: " +:+ quote "a"].
Proof.
  split; [|vm_compute; reflexivity].
  simpl. split; [|split; [|exact I]].
  - exists (task "a" ["b"]). simpl. auto.
  - exists (task "b" ["a"]). simpl. auto.
Qed.

(** The other two checks: a dependency on a task that is not in the list
    is an error of an acyclic list, too. *)
Example validateDag_unknown_dependency :
  validateDag [task "a" ["zz"]]
  = Some {| valid := false;
            errors := ["Task " +:+ quote "a" +:+ " depends on unknown task "
                       +:+ quote "zz"] |}.
Proof. vm_compute. reflexivity. Qed.

Example validateDag_two_cycle :
  validateDag twoCycle
  = Some {| valid := false; errors := [cycleError ["t2"; "t1"]] |}.
Proof. vm_compute. reflexivity. Qed.

(** The two halves of the amended C4 at the diamond and at the two-node
    cycle. *)
Lemma validateDag_spec_witness :
  validateDag diamond = Some {| valid := true; errors := [] |}
  /\ exists v nodes,
       validateDag twoCycle = Some v /\ valid v = false
       /\ In (cycleError nodes) (errors v)
       /\ forall x, In x ["t1"; "t2"] -> In x nodes.
Proof.
  split.
  - apply (proj1 (proj2 (validateDag_spec diamond))).
    + exact diamond_unique.
    + exact diamond_resolvable.
    + exact diamond_acyclic.
  - apply (proj2 (proj2 (validateDag_spec twoCycle))).
    + unfold uniqueIds. apply (bool_decide_unpack (NoDup (map id twoCycle))).
      vm_compute. exact I.
    + simpl. split; [|split; [|exact I]].
      * exists (task "t1" ["t2"]). simpl. auto.
      * exists (task "t2" ["t1"]). simpl. auto.
    + exists "t1", "t2". simpl. split; [auto|]. split; [auto|discriminate].
Defined.

End TarjanFacts.

(** ** [JSON.parse] after [JSON.stringify] *)

Module JSONFacts.
Import JS JSON.

#[local] Arguments String.append : simpl nomatch.

(** *** Strings *)

Lemma app_assoc (a b c : string) : (a +:+ b) +:+ c = a +:+ (b +:+ c).
Proof. induction a as [|x a IH]; simpl; [reflexivity|]. rewrite IH. reflexivity. Qed.

Lemma app_nil_r (a : string) : a +:+ EmptyString = a.
Proof. induction a as [|x a IH]; simpl; [reflexivity|]. rewrite IH. reflexivity. Qed.

Lemma length_app (a b : string) :
  String.length (a +:+ b) = String.length a + String.length b.
Proof. induction a as [|x a IH]; simpl; [reflexivity|]. rewrite IH. reflexivity. Qed.

Lemma substring_all (s : string) : substring 0 (String.length s) s = s.
Proof. induction s as [|x s IH]; simpl; [reflexivity|]. rewrite IH. reflexivity. Qed.

Lemma substring_skip (p rest : string) n :
  substring (String.length p) n (p +:+ rest) = substring 0 n rest.
Proof. induction p as [|x p IH]; simpl; [reflexivity|]. exact IH. Qed.

Lemma prefix_app (p rest : string) : String.prefix p (p +:+ rest) = true.
Proof.
  induction p as [|x p IH]; simpl; [destruct rest; reflexivity|].
  destruct (ascii_dec x x); [exact IH|congruence].
Qed.

Lemma stripPrefix_app (p rest : string) : stripPrefix p (p +:+ rest) = Some rest.
Proof.
  unfold stripPrefix. rewrite prefix_app, substring_skip, length_app.
  replace (String.length p + String.length rest - String.length p)
    with (String.length rest) by lia.
  rewrite substring_all. reflexivity.
Qed.

(** *** White space *)

Fixpoint blank (s : string) : bool :=
  match s with
  | EmptyString => true
  | String c r => (c =? " ")%char && blank r
  end.

Lemma blank_app a b : blank a = true -> blank b = true -> blank (a +:+ b) = true.
Proof.
  induction a as [|x a IH]; simpl; [auto|]. intros H Hb.
  apply andb_true_iff in H as [-> Ha]. simpl. auto.
Qed.

Lemma skipWs_blank ws t : blank ws = true -> skipWs (ws +:+ t) = skipWs t.
Proof.
  induction ws as [|x ws IH]; simpl; [reflexivity|]. intros H.
  apply andb_true_iff in H as [Hx Hws]. apply Ascii.eqb_eq in Hx as ->. simpl.
  auto.
Qed.

Lemma skipWs_newline ind t : blank ind = true -> skipWs (newline ind +:+ t) = skipWs t.
Proof. intros H. unfold newline. simpl. apply skipWs_blank, H. Qed.

Lemma skipWs_idem s : skipWs (skipWs s) = skipWs s.
Proof.
  induction s as [|c s IH]; simpl; [reflexivity|].
  destruct (isWs c) eqn:E; [exact IH|]. simpl. rewrite E. reflexivity.
Qed.

Lemma parseValue_skipWs n s : parseValue n (skipWs s) = parseValue n s.
Proof. destruct n; simpl; [reflexivity|]. rewrite skipWs_idem. reflexivity. Qed.

Lemma parseMembers_skipWs n s acc :
  parseMembers n (skipWs s) acc = parseMembers n s acc.
Proof. destruct n; simpl; [reflexivity|]. rewrite skipWs_idem. reflexivity. Qed.

Lemma parseElements_skipWs n s acc :
  parseElements n (skipWs s) acc = parseElements n s acc.
Proof. destruct n; simpl; [reflexivity|]. rewrite parseValue_skipWs. reflexivity. Qed.

(** *** Numbers *)

(** What may follow a number token: anything that does not continue it. *)
Definition delimited (rest : string) : bool :=
  match rest with
  | EmptyString => true
  | String c _ =>
      negb (isDigit c) && negb (c =? ".")%char
      && negb (c =? "e")%char && negb (c =? "E")%char
  end.

Lemma spanDigits_uint d rest :
  delimited rest = true ->
  spanDigits (NilEmpty.string_of_uint d +:+ rest) = (NilEmpty.string_of_uint d, rest).
Proof.
  intros Hr. induction d; simpl; try (rewrite IHd; reflexivity).
  destruct rest as [|c r]; [reflexivity|]. simpl in *.
  destruct (isDigit c); [discriminate|reflexivity].
Qed.

Lemma to_uint_normal p : Decimal.unorm (Pos.to_uint p) = Pos.to_uint p.
Proof.
  rewrite <- (DecimalPos.Unsigned.to_of (Pos.to_uint p)).
  rewrite DecimalPos.Unsigned.of_to. reflexivity.
Qed.

Lemma to_uint_head p : forall d, Pos.to_uint p <> Decimal.D0 d.
Proof.
  intros d H. pose proof (to_uint_normal p) as Hn. rewrite H in Hn.
  rewrite unorm_D0 in Hn.
  assert (Hcase : d = Decimal.Nil \/ d <> Decimal.Nil)
    by (destruct d; [left; reflexivity|right; discriminate..]).
  destruct Hcase as [->|Hd].
  - exact (Unsigned.to_uint_nonzero p H).
  - pose proof (nb_digits_unorm d Hd) as Hle. rewrite Hn in Hle. simpl in Hle. lia.
Qed.

Lemma lexInt_pos p rest :
  delimited rest = true ->
  lexInt (NilZero.string_of_uint (Pos.to_uint p) +:+ rest)
  = Some (NilZero.string_of_uint (Pos.to_uint p), rest).
Proof.
  intros Hr. pose proof (to_uint_head p) as Hh.
  pose proof (Unsigned.to_uint_nonnil p) as Hnn.
  destruct (Pos.to_uint p) as [|d|d|d|d|d|d|d|d|d|d]; try congruence;
    try (exfalso; exact (Hh d eq_refl));
    simpl; rewrite (spanDigits_uint d rest Hr); reflexivity.
Qed.

Lemma lexFrac_delimited rest :
  delimited rest = true -> lexFrac rest = Some (EmptyString, rest).
Proof.
  destruct rest as [|c r]; [reflexivity|]. simpl. intros H.
  destruct (c =? ".")%char; [|reflexivity].
  rewrite !andb_true_iff in H. simpl in H. intuition discriminate.
Qed.

Lemma lexExp_delimited rest :
  delimited rest = true -> lexExp rest = Some (EmptyString, rest).
Proof.
  destruct rest as [|c r]; [reflexivity|]. simpl. intros H.
  rewrite !andb_true_iff in H. destruct H as [[[_ _] He] HE].
  destruct (c =? "e")%char; [discriminate|].
  destruct (c =? "E")%char; [discriminate|]. reflexivity.
Qed.

Lemma parseNumber_showZ n rest :
  delimited rest = true -> parseNumber (showZ n +:+ rest) = Some (VNum n, rest).
Proof.
  intros Hr. unfold showZ, parseNumber.
  assert (Hback : NilZero.int_of_string (NilZero.string_of_int (Z.to_int n))
                  = Some (Z.to_int n)).
  { apply NilZero.isi; destruct n; simpl; try discriminate;
      intros [= H]; exact (Unsigned.to_uint_nonnil _ H). }
  destruct n as [|p|p].
  - simpl. rewrite (lexFrac_delimited rest Hr), (lexExp_delimited rest Hr). reflexivity.
  - change (Z.to_int (Z.pos p)) with (Decimal.Pos (Pos.to_uint p)) in *.
    change (NilZero.string_of_int (Decimal.Pos (Pos.to_uint p)))
      with (NilZero.string_of_uint (Pos.to_uint p)) in *.
    pose proof (lexInt_pos p rest Hr) as Hl.
    pose proof (to_uint_head p) as Hh. pose proof (Unsigned.to_uint_nonnil p) as Hnn.
    assert (Hsign : match NilZero.string_of_uint (Pos.to_uint p) +:+ rest with
                    | String c r => if (c =? "-")%char then (String c EmptyString, r)
                                    else (EmptyString, NilZero.string_of_uint (Pos.to_uint p) +:+ rest)
                    | EmptyString => (EmptyString, NilZero.string_of_uint (Pos.to_uint p) +:+ rest)
                    end = (EmptyString, NilZero.string_of_uint (Pos.to_uint p) +:+ rest)).
    { destruct (Pos.to_uint p); try congruence; reflexivity. }
    rewrite Hsign, Hl, (lexFrac_delimited rest Hr), (lexExp_delimited rest Hr).
    cbn [isEmpty andb append]. rewrite Hback.
    pose proof (DecimalZ.of_to (Z.pos p)) as H.
    change (Z.to_int (Z.pos p)) with (Decimal.Pos (Pos.to_uint p)) in H.
    rewrite H. reflexivity.
  - change (Z.to_int (Z.neg p)) with (Decimal.Neg (Pos.to_uint p)) in *.
    change (NilZero.string_of_int (Decimal.Neg (Pos.to_uint p)))
      with (String "-" (NilZero.string_of_uint (Pos.to_uint p))) in *.
    cbn [append]. rewrite Ascii.eqb_refl.
    rewrite (lexInt_pos p rest Hr), (lexFrac_delimited rest Hr), (lexExp_delimited rest Hr).
    cbn [isEmpty andb append]. rewrite Hback.
    pose proof (DecimalZ.of_to (Z.neg p)) as H. 
    change (Z.to_int (Z.neg p)) with (Decimal.Neg (Pos.to_uint p)) in H.
    rewrite H. reflexivity.
Qed.

(** *** String tokens *)

Lemma parseChars_escapeChar c rest :
  parseChars (escapeChar c +:+ rest)
  = match parseChars rest with
    | Some (str, r) => Some (String c str, r)
    | None => None
    end.
Proof.
  destruct c as [b0 b1 b2 b3 b4 b5 b6 b7].
  destruct b0, b1, b2, b3, b4, b5, b6, b7; reflexivity.
Qed.

Lemma parseChars_quoteBody s rest : parseChars (quoteBody s +:+ rest) = Some (s, rest).
Proof.
  induction s as [|c s IH]; [reflexivity|].
  cbn [quoteBody]. rewrite app_assoc, parseChars_escapeChar, IH. reflexivity.
Qed.

(** *** Values that [JSON.stringify] writes and [JSON.parse] reads back *)

(** No [undefined] and no number kept as a lexeme anywhere, and no key
    twice in an object. *)
Fixpoint storable (v : value) : Prop :=
  match v with
  | VUndefined | VNumLex _ => False
  | VNull | VBool _ | VNum _ | VStr _ => True
  | VArr items => fold_right (fun x P => storable x /\ P) True items
  | VObj fields =>
      NoDup (map fst fields)
      /\ fold_right (fun kv P => storable (snd kv) /\ P) True fields
  end.

Lemma storable_arr items : storable (VArr items) <-> Forall storable items.
Proof.
  cbn [storable]. induction items as [|x l IH]; simpl.
  - split; [constructor|trivial].
  - rewrite Forall_cons, IH. reflexivity.
Qed.

Lemma storable_obj fields :
  storable (VObj fields)
  <-> NoDup (map fst fields) /\ Forall (fun kv => storable (snd kv)) fields.
Proof.
  cbn [storable]. apply and_iff_compat_l.
  induction fields as [|x l IH]; simpl.
  - split; [constructor|trivial].
  - rewrite Forall_cons, IH. reflexivity.
Qed.

Definition ser (indent : string) (v : value) : string :=
  default "null" (serialize indent v).

Lemma serialize_ser indent v : storable v -> serialize indent v = Some (ser indent v).
Proof. unfold ser. destruct v as [| |[]| | | | |]; simpl; intros H; try reflexivity; destruct H. Qed.

Lemma showZ_head n :
  exists c r, showZ n = String c r /\ (c = "-"%char \/ isDigit c = true).
Proof.
  unfold showZ. destruct n as [|p|p].
  - exists "0"%char, EmptyString. split; [reflexivity|right; reflexivity].
  - change (Z.to_int (Z.pos p)) with (Decimal.Pos (Pos.to_uint p)).
    destruct (Pos.to_uint p); simpl; eexists _, _; (split; [reflexivity|right; reflexivity]).
  - eexists _, _. split; [reflexivity|left; reflexivity].
Qed.

Lemma parseValue_S f s :
  parseValue (S f) s
  = match skipWs s with
    | EmptyString => None
    | String c r =>
        if (c =? "{")%char then
          match skipWs r with
          | String c' r' =>
              if (c' =? "}")%char then Some (VObj [], r')
              else parseMembers f r []
          | EmptyString => None
          end
        else if (c =? "[")%char then
          match skipWs r with
          | String c' r' =>
              if (c' =? "]")%char then Some (VArr [], r')
              else parseElements f r []
          | EmptyString => None
          end
        else if (c =? dq)%char then
          match parseChars r with
          | Some (str, rest) => Some (VStr str, rest)
          | None => None
          end
        else
          match stripPrefix "true" (String c r) with
          | Some rest => Some (VBool true, rest)
          | None =>
          match stripPrefix "false" (String c r) with
          | Some rest => Some (VBool false, rest)
          | None =>
          match stripPrefix "null" (String c r) with
          | Some rest => Some (VNull, rest)
          | None => parseNumber (String c r)
          end end end
    end.
Proof. reflexivity. Qed.

Lemma parseElements_S f s acc :
  parseElements (S f) s acc
  = match parseValue f s with
    | Some (v, r) =>
        match skipWs r with
        | String c r' =>
            if (c =? ",")%char then parseElements f r' (acc ++ [v])
            else if (c =? "]")%char then Some (VArr (acc ++ [v]), r')
            else None
        | EmptyString => None
        end
    | None => None
    end.
Proof. reflexivity. Qed.

Lemma parseMembers_S f s acc :
  parseMembers (S f) s acc
  = match skipWs s with
    | String c r =>
        if (c =? dq)%char then
          match parseChars r with
          | Some (k, r1) =>
              match skipWs r1 with
              | String c1 r2 =>
                  if (c1 =? ":")%char then
                    match parseValue f r2 with
                    | Some (v, r3) =>
                        match skipWs r3 with
                        | String c3 r4 =>
                            if (c3 =? ",")%char
                            then parseMembers f r4 (setField k v acc)
                            else if (c3 =? "}")%char
                            then Some (VObj (setField k v acc), r4)
                            else None
                        | EmptyString => None
                        end
                    | None => None
                    end
                  else None
              | EmptyString => None
              end
          | None => None
          end
        else None
    | EmptyString => None
    end.
Proof. reflexivity. Qed.

Lemma parseValue_number f c r :
  c = "-"%char \/ isDigit c = true ->
  parseValue (S f) (String c r) = parseNumber (String c r).
Proof.
  intros [->|H]; [reflexivity|].
  destruct c as [b0 b1 b2 b3 b4 b5 b6 b7].
  destruct b0, b1, b2, b3, b4, b5, b6, b7; try discriminate H; reflexivity.
Qed.

(** Every rendering starts with a character that is neither white space
    nor a closing bracket. *)
Lemma ser_head indent v :
  storable v ->
  exists c r, ser indent v = String c r /\ isWs c = false
              /\ (c =? "]")%char = false /\ (c =? "}")%char = false.
Proof.
  unfold ser. destruct v as [| |[]|n| |s|items|fields]; simpl; intros H;
    try destruct H; try (eexists _, _; split; [reflexivity|auto]).
  - destruct (showZ_head n) as (c & r & -> & Hc). exists c, r.
    split; [reflexivity|]. destruct Hc as [->|Hc]; [auto|].
    destruct c as [b0 b1 b2 b3 b4 b5 b6 b7].
    destruct b0, b1, b2, b3, b4, b5, b6, b7; try discriminate Hc; auto.
  - unfold wrap. destruct (map _ items); eexists _, _; (split; [reflexivity|auto]).
  - unfold wrap. destruct (flat_map _ fields); eexists _, _; (split; [reflexivity|auto]).
Qed.

(** *** Arrays and objects *)

(** [sep x1 sep x2 ...]: what [join] puts after the first part. *)
Definition tailOf (sep : string) (parts : list string) : string :=
  fold_right (fun q acc => sep +:+ q +:+ acc) EmptyString parts.

Lemma join_cons sep p ps : join sep (p :: ps) = p +:+ tailOf sep ps.
Proof.
  unfold join. revert p. induction ps as [|q ps IH]; intros p; simpl.
  - rewrite app_nil_r. reflexivity.
  - rewrite IH, !app_assoc. reflexivity.
Qed.

Lemma length_tailOf sep ps :
  1 <= String.length sep ->
  list_sum (map (fun p => S (String.length p)) ps) <= String.length (tailOf sep ps).
Proof.
  intros Hsep. induction ps as [|p ps IH]; simpl; [lia|].
  rewrite !length_app. lia.
Qed.

Lemma wrap_cons o c stepback indent p ps :
  wrap o c stepback indent (p :: ps)
  = String o (newline indent +:+ p
              +:+ tailOf (String "," (newline indent)) ps
              +:+ newline stepback +:+ String c EmptyString).
Proof. unfold wrap. rewrite join_cons, !app_assoc. reflexivity. Qed.

Lemma length_wrap_cons o c stepback indent p ps :
  S (list_sum (map (fun q => S (String.length q)) (p :: ps)))
  <= String.length (wrap o c stepback indent (p :: ps)).
Proof.
  rewrite wrap_cons. cbn [String.length list_sum map].
  rewrite !length_app.
  pose proof (length_tailOf (String "," (newline indent)) ps) as H.
  unfold newline, list_sum in *. cbn [String.length fold_right] in *.
  specialize (H ltac:(lia)). lia.
Qed.

Lemma setField_fresh k v acc :
  ~ In k (map fst acc) -> setField k v acc = acc ++ [(k, v)].
Proof.
  induction acc as [|[k' v'] acc IH]; simpl; intros H; [reflexivity|].
  destruct (String.eqb_spec k k') as [->|Hne]; [tauto|].
  rewrite IH by tauto. reflexivity.
Qed.

(** The round trip of a value at fuel [n]. *)
Definition readsBack (n : nat) : Prop :=
  forall v indent rest,
    storable v -> blank indent = true -> delimited rest = true ->
    String.length (ser indent v) <= n ->
    parseValue n (ser indent v +:+ rest) = Some (v, rest).

Section nested.
Variable N : nat.
Hypothesis IH : forall m, m < N -> readsBack m.
Variables indent inner rest : string.
Hypothesis blank_indent : blank indent = true.
Hypothesis blank_inner : blank inner = true.

Lemma parseElements_items : forall xs x f acc,
  f <= N -> Forall storable (x :: xs) ->
  list_sum (map (fun y => S (String.length (ser inner y))) (x :: xs)) <= f ->
  parseElements f
    (newline inner +:+ ser inner x
     +:+ tailOf (String "," (newline inner)) (map (ser inner) xs)
     +:+ newline indent +:+ String "]" rest) acc
  = Some (VArr (acc ++ x :: xs), rest).
Proof.
  induction xs as [|y ys IHxs]; intros x f acc Hf Hst Hlen;
    (destruct f as [|f]; [simpl in Hlen; lia|]);
    apply Forall_cons in Hst as [Hx Hst];
    rewrite parseElements_S, <- parseValue_skipWs, skipWs_newline,
      parseValue_skipWs by exact blank_inner.
  - cbn [map tailOf fold_right append].
    rewrite (IH f ltac:(lia) x inner _ Hx blank_inner);
      [|reflexivity|simpl in Hlen; lia].
    rewrite skipWs_newline by exact blank_indent. reflexivity.
  - cbn [map tailOf fold_right]. fold (tailOf (String "," (newline inner)) (map (ser inner) ys)).
    rewrite (IH f ltac:(lia) x inner _ Hx blank_inner);
      [|reflexivity|simpl in Hlen; lia].
    cbn [append skipWs isWs]. cbn.
    rewrite !app_assoc.
    replace (acc ++ x :: y :: ys) with ((acc ++ [x]) ++ y :: ys)
      by (rewrite <- List.app_assoc; reflexivity).
    apply (IHxs y f (acc ++ [x])); [lia|exact Hst|].
    simpl in Hlen |- *. lia.
Qed.

Definition member (kv : string * value) : string :=
  quoteJSONString (fst kv) +:+ ": " +:+ ser inner (snd kv).

Lemma length_member kv : String.length (ser inner (snd kv)) <= String.length (member kv).
Proof. unfold member. rewrite !length_app. lia. Qed.

Lemma member_app k v T :
  member (k, v) +:+ T
  = String dq (quoteBody k +:+ String ":" (String " " (ser inner v +:+ T))).
Proof.
  unfold member, quoteJSONString. cbn [fst snd]. simpl. rewrite !app_assoc.
  reflexivity.
Qed.

Lemma parseMembers_step f k v T acc :
  parseMembers (S f) (newline inner +:+ member (k, v) +:+ T) acc
  = match parseValue f (ser inner v +:+ T) with
    | Some (v0, r3) =>
        match skipWs r3 with
        | String c3 r4 =>
            if (c3 =? ",")%char then parseMembers f r4 (setField k v0 acc)
            else if (c3 =? "}")%char then Some (VObj (setField k v0 acc), r4)
            else None
        | EmptyString => None
        end
    | None => None
    end.
Proof.
  rewrite parseMembers_S, skipWs_newline, member_app by exact blank_inner.
  set (X := quoteBody k +:+ _).
  change (skipWs (String dq X)) with (String dq X). cbv iota beta.
  change ((dq =? dq)%char) with true. cbv iota. subst X.
  rewrite parseChars_quoteBody.
  set (Y := ser inner v +:+ T).
  change (skipWs (String ":" (String " " Y))) with (String ":" (String " " Y)).
  cbv iota beta. change ((":" =? ":")%char) with true. cbv iota.
  rewrite <- (parseValue_skipWs f (String " " Y)).
  change (skipWs (String " " Y)) with (skipWs Y).
  rewrite parseValue_skipWs. reflexivity.
Qed.

Lemma parseMembers_fields : forall kvs kv f acc,
  f <= N -> Forall (fun kv => storable (snd kv)) (kv :: kvs) ->
  List.NoDup (map fst (acc ++ kv :: kvs)) ->
  list_sum (map (fun y => S (String.length (member y))) (kv :: kvs)) <= f ->
  parseMembers f
    (newline inner +:+ member kv
     +:+ tailOf (String "," (newline inner)) (map member kvs)
     +:+ newline indent +:+ String "}" rest) acc
  = Some (VObj (acc ++ kv :: kvs), rest).
Proof.
  induction kvs as [|y ys IHxs]; intros [k v] f acc Hf Hst Hnd Hlen;
    (destruct f as [|f]; [simpl in Hlen; lia|]);
    apply Forall_cons in Hst as [Hx Hst]; cbn [snd] in Hx;
    pose proof (length_member (k, v)) as Hm; cbn [snd] in Hm;
    assert (Hfresh : ~ In k (map fst acc))
      by (rewrite map_app in Hnd; apply NoDup_remove_2 in Hnd;
          intros Hin; apply Hnd, in_or_app; left; exact Hin);
    unfold list_sum in Hlen; cbn [map fold_right] in Hlen;
    rewrite parseMembers_step.
  - cbn [map tailOf fold_right append].
    rewrite (IH f ltac:(lia) v inner _ Hx blank_inner);
      [|reflexivity|lia].
    rewrite skipWs_newline by exact blank_indent.
    cbn. rewrite (setField_fresh k v acc Hfresh). reflexivity.
  - cbn [map tailOf fold_right].
    fold (tailOf (String "," (newline inner)) (map member ys)).
    rewrite (IH f ltac:(lia) v inner _ Hx blank_inner);
      [|reflexivity|lia].
    rewrite (setField_fresh k v acc Hfresh).
    replace (acc ++ (k, v) :: y :: ys) with ((acc ++ [(k, v)]) ++ y :: ys)
      by (rewrite <- List.app_assoc; reflexivity).
    rewrite <- (IHxs y f (acc ++ [(k, v)])); [|lia|exact Hst| |].
    + rewrite !app_assoc. reflexivity.
    + rewrite <- List.app_assoc. exact Hnd.
    + unfold list_sum. cbn [map fold_right]. lia.
Qed.

End nested.

Lemma parseValue_null f rest : parseValue (S f) ("null" +:+ rest) = Some (VNull, rest).
Proof.
  assert (H : parseValue (S f) ("null" +:+ rest)
              = match stripPrefix "null" ("null" +:+ rest) with
                | Some r => Some (VNull, r)
                | None => parseNumber ("null" +:+ rest)
                end) by reflexivity.
  rewrite H, stripPrefix_app. reflexivity.
Qed.

Lemma parseValue_true f rest :
  parseValue (S f) ("true" +:+ rest) = Some (VBool true, rest).
Proof.
  assert (H : parseValue (S f) ("true" +:+ rest)
              = match stripPrefix "true" ("true" +:+ rest) with
                | Some r => Some (VBool true, r)
                | None => None
                end) by reflexivity.
  rewrite H, stripPrefix_app. reflexivity.
Qed.

Lemma parseValue_false f rest :
  parseValue (S f) ("false" +:+ rest) = Some (VBool false, rest).
Proof.
  assert (H : parseValue (S f) ("false" +:+ rest)
              = match stripPrefix "false" ("false" +:+ rest) with
                | Some r => Some (VBool false, r)
                | None => None
                end) by reflexivity.
  rewrite H, stripPrefix_app. reflexivity.
Qed.

Lemma parseValue_array f R c r :
  skipWs R = String c r -> (c =? "]")%char = false ->
  parseValue (S f) (String "[" R) = parseElements f R [].
Proof.
  intros H Hc. rewrite parseValue_S.
  change (skipWs (String "[" R)) with (String "[" R). cbv iota beta.
  change (("[" =? "{")%char) with false. change (("[" =? "[")%char) with true.
  cbv iota. rewrite H, Hc. reflexivity.
Qed.

Lemma parseValue_object f R c r :
  skipWs R = String c r -> (c =? "}")%char = false ->
  parseValue (S f) (String "{" R) = parseMembers f R [].
Proof.
  intros H Hc. rewrite parseValue_S.
  change (skipWs (String "{" R)) with (String "{" R). cbv iota beta.
  change (("{" =? "{")%char) with true. cbv iota. rewrite H, Hc. reflexivity.
Qed.

Lemma members_of_fields inner fields :
  Forall (fun kv => storable (snd kv)) fields ->
  flat_map (fun kv => match serialize inner (snd kv) with
                      | Some str => [quoteJSONString (fst kv) +:+ ": " +:+ str]
                      | None => []
                      end) fields
  = map (member inner) fields.
Proof.
  induction 1 as [|kv l Hkv _ IH]; [reflexivity|]. cbn [flat_map map].
  rewrite (serialize_ser inner _ Hkv), IH. reflexivity.
Qed.

Lemma skipWs_head c r : isWs c = false -> skipWs (String c r) = String c r.
Proof. intros H. simpl. rewrite H. reflexivity. Qed.

(** [JSON.parse] reads back what [JSON.stringify] wrote, whatever follows
    the value, with fuel for the length of the text. *)
Lemma parseValue_ser : forall n, readsBack n.
Proof.
  induction n as [n IH] using lt_wf_ind.
  intros v indent rest Hst Hind Hrest Hlen.
  destruct (ser_head indent v Hst) as (c0 & r0 & Hs0 & _).
  destruct n as [|f]; [rewrite Hs0 in Hlen; simpl in Hlen; lia|]. clear c0 r0 Hs0.
  assert (Hinner : blank (indent +:+ "  ") = true) by (apply blank_app; auto).
  destruct v as [| |[]|n| |s|items|fields]; try (destruct Hst; fail).
  - apply parseValue_null.
  - apply parseValue_true.
  - apply parseValue_false.
  - change (ser indent (VNum n)) with (showZ n).
    destruct (showZ_head n) as (c & r & E & Hc).
    rewrite <- (parseNumber_showZ n rest Hrest). rewrite E.
    exact (parseValue_number f c (r +:+ rest) Hc).
  - change (ser indent (VStr s)) with (String dq (quoteBody s)).
    assert (H : parseValue (S f) (String dq (quoteBody s) +:+ rest)
                = match parseChars (quoteBody s +:+ rest) with
                  | Some (str, r) => Some (VStr str, r)
                  | None => None
                  end) by reflexivity.
    rewrite H, parseChars_quoteBody. reflexivity.
  - destruct items as [|x xs]; [reflexivity|].
    apply storable_arr in Hst.
    change (ser indent (VArr (x :: xs)))
      with (wrap "[" "]" indent (indent +:+ "  ")
              (map (ser (indent +:+ "  ")) (x :: xs))) in *.
    pose proof (length_wrap_cons "[" "]" indent (indent +:+ "  ")
                  (ser (indent +:+ "  ") x) (map (ser (indent +:+ "  ")) xs)) as Hw.
    cbn [map] in Hlen |- *. rewrite wrap_cons. cbn [append]. rewrite !app_assoc.
    change (String "]" EmptyString +:+ rest) with (String "]" rest).
    destruct (ser_head (indent +:+ "  ") x (Forall_inv Hst)) as (c & r & Hs & Hws & Hc & _).
    erewrite parseValue_array;
      [|rewrite skipWs_newline by exact Hinner; rewrite Hs; cbn [append];
        apply skipWs_head, Hws|exact Hc].
    rewrite (parseElements_items (S f) IH indent (indent +:+ "  ") rest Hind Hinner
               xs x f []); [reflexivity|lia|exact Hst|].
    unfold list_sum in *. cbn [map fold_right] in *.
    rewrite List.map_map in Hw. lia.
  - destruct fields as [|[k v] kvs]; [reflexivity|]. set (kv := (k, v)) in *.
    apply storable_obj in Hst as [Hnd Hst].
    assert (E : ser indent (VObj (kv :: kvs))
                = wrap "{" "}" indent (indent +:+ "  ")
                    (map (member (indent +:+ "  ")) (kv :: kvs))).
    { unfold ser. cbn [serialize default]. rewrite (members_of_fields _ _ Hst).
      reflexivity. }
    rewrite E in *. clear E.
    pose proof (length_wrap_cons "{" "}" indent (indent +:+ "  ")
                  (member (indent +:+ "  ") kv)
                  (map (member (indent +:+ "  ")) kvs)) as Hw.
    cbn [map] in Hlen |- *. rewrite wrap_cons. cbn [append]. rewrite !app_assoc.
    change (String "}" EmptyString +:+ rest) with (String "}" rest).
    erewrite parseValue_object;
      [|rewrite skipWs_newline by exact Hinner; unfold kv;
        rewrite member_app; reflexivity|reflexivity].
    rewrite (parseMembers_fields (S f) IH indent (indent +:+ "  ") rest Hind Hinner
               kvs kv f []);
      [reflexivity|lia|exact Hst|apply NoDup_ListNoDup; exact Hnd|].
    unfold list_sum in *. cbn [map fold_right] in *.
    rewrite List.map_map in Hw. lia.
Qed.

(** [JSON.parse(JSON.stringify(v, null, 2) + "\n")] is [v]. *)
Theorem parse_stringify v :
  storable v -> parse (stringify v +:+ String nl EmptyString) = Some v.
Proof.
  intros Hst. unfold parse, stringify.
  rewrite (serialize_ser EmptyString v Hst). cbv [default from_option Datatypes.id].
  rewrite (parseValue_ser _ v EmptyString (String nl EmptyString) Hst eq_refl eq_refl).
  - reflexivity.
  - rewrite length_app. cbn [String.length]. lia.
Qed.

End JSONFacts.

(** ** The project store ([state/project.ts]) *)

Module StoreFacts.
Import JS Store JSONFacts.

(** *** The objects written are read back *)

(** A [Record<string, TaskExecution>] has each key once. *)
Definition wellKeyed (p : ProjectState) : Prop := NoDup (map fst (tasks_of p)).

Ltac distinct_keys :=
  match goal with |- ?P => apply (bool_decide_unpack P) end; vm_compute; exact I.

Lemma storable_nullableStr o : storable (nullableStr o).
Proof. destruct o; exact I. Qed.

Lemma storable_nullableNum o : storable (nullableNum o).
Proof. destruct o; exact I. Qed.

Lemma storable_strings l : storable (VArr (map VStr l)).
Proof. apply storable_arr, List.Forall_forall. intros x Hx. apply in_map_iff in Hx as (s & <- & _). exact I. Qed.

Create HintDb storable.
#[local] Hint Resolve storable_nullableStr storable_nullableNum storable_strings : storable.

Lemma storable_taskNodeJS t : storable (taskNodeJS t).
Proof.
  apply storable_obj. split; [distinct_keys|].
  repeat constructor; cbn [snd]; auto with storable.
Qed.

Lemma storable_planJS pl : storable (planJS pl).
Proof.
  apply storable_obj. split; [distinct_keys|].
  repeat constructor; cbn [snd].
  apply storable_arr, List.Forall_forall. intros x Hx.
  apply in_map_iff in Hx as (t & <- & _). apply storable_taskNodeJS.
Qed.

Lemma storable_taskExecutionJS e : storable (taskExecutionJS e).
Proof.
  apply storable_obj. split; [distinct_keys|].
  repeat constructor; cbn [snd]; auto with storable.
Qed.

Lemma storable_planningJS s : storable (planningJS s).
Proof.
  apply storable_obj. unfold planningJS. destruct (planning_error s);
    (split; [distinct_keys|repeat constructor; cbn [snd]; auto with storable]).
Qed.

Lemma storable_integrationJS s : storable (integrationJS s).
Proof.
  apply storable_obj. unfold integrationJS. destruct (integration_error s);
    (split; [distinct_keys|repeat constructor; cbn [snd]; auto with storable]).
Qed.

Lemma storable_projectJS p : wellKeyed p -> storable (projectJS p).
Proof.
  intros Hk. apply storable_obj. split; [distinct_keys|].
  repeat (apply Forall_cons; split; [cbn [snd]|]); try apply Forall_nil;
    try exact I.
  - apply storable_obj. split; [distinct_keys|]. repeat constructor.
  - apply storable_planningJS.
  - destruct (plan p); [apply storable_planJS|exact I].
  - apply storable_obj. split.
    + rewrite List.map_map. exact Hk.
    + apply List.Forall_forall. intros x Hx. apply in_map_iff in Hx as (kv & <- & _).
      apply storable_taskExecutionJS.
  - apply storable_integrationJS.
Qed.

(** *** Nothing is lost in the object: the state is determined by it *)

Lemma map_injective {A B} (f : A -> B) :
  (forall x y, f x = f y -> x = y) ->
  forall l l', map f l = map f l' -> l = l'.
Proof.
  intros Hf. induction l as [|x l IH]; intros [|y l'] H; try discriminate;
    [reflexivity|]. injection H as Hx Hl. f_equal; auto.
Qed.

Lemma VStr_inj x y : VStr x = VStr y -> x = y.
Proof. congruence. Qed.

Lemma phaseName_inj a b : phaseName a = phaseName b -> a = b.
Proof. destruct a, b; (reflexivity || discriminate). Qed.

Lemma stepStatusName_inj a b : stepStatusName a = stepStatusName b -> a = b.
Proof. destruct a, b; (reflexivity || discriminate). Qed.

Lemma taskStatusName_inj a b : taskStatusName a = taskStatusName b -> a = b.
Proof. destruct a, b; (reflexivity || discriminate). Qed.

Lemma complexityName_inj a b : complexityName a = complexityName b -> a = b.
Proof. destruct a, b; (reflexivity || discriminate). Qed.

Lemma nullableStr_inj a b : nullableStr a = nullableStr b -> a = b.
Proof. destruct a, b; simpl; congruence. Qed.

Lemma nullableNum_inj a b : nullableNum a = nullableNum b -> a = b.
Proof. destruct a, b; simpl; congruence. Qed.

Lemma taskNodeJS_inj a b : taskNodeJS a = taskNodeJS b -> a = b.
Proof.
  destruct a, b. unfold taskNodeJS. cbn. intros H.
  injection H as H1 H2 H3 H4 H5 H6.
  apply (map_injective VStr VStr_inj) in H4, H5.
  apply complexityName_inj in H6. subst. reflexivity.
Qed.

Lemma planJS_inj a b : planJS a = planJS b -> a = b.
Proof.
  destruct a, b. unfold planJS. cbn. intros H. injection H as H1 H2.
  apply (map_injective taskNodeJS taskNodeJS_inj) in H2. subst. reflexivity.
Qed.

Lemma taskExecutionJS_inj a b : taskExecutionJS a = taskExecutionJS b -> a = b.
Proof.
  destruct a, b. unfold taskExecutionJS. cbn. intros H.
  injection H as H1 H2 H3 H4 H5 H6 H7 H8 H9.
  apply taskStatusName_inj in H2.
  apply nullableStr_inj in H3, H4, H7, H8. apply nullableNum_inj in H5, H6.
  subst. reflexivity.
Qed.

Lemma planningJS_inj a b : planningJS a = planningJS b -> a = b.
Proof.
  destruct a as [a1 a2 a3 [a4|]], b as [b1 b2 b3 [b4|]]; unfold planningJS; cbn;
    intros H; try discriminate H; injection H as H1 H2 H3;
    apply nullableStr_inj in H1; apply stepStatusName_inj in H3; subst; reflexivity.
Qed.

Lemma integrationJS_inj a b : integrationJS a = integrationJS b -> a = b.
Proof.
  destruct a as [a1 a2 a3 a4 [a5|]], b as [b1 b2 b3 b4 [b5|]];
    unfold integrationJS; cbn;
    intros H; try discriminate H; injection H as H1 H2 H3 H4;
    apply nullableStr_inj in H1, H3, H4; apply stepStatusName_inj in H2;
    subst; reflexivity.
Qed.

Lemma entry_inj (a b : string * TaskExecution) :
  (fst a, taskExecutionJS (snd a)) = (fst b, taskExecutionJS (snd b)) -> a = b.
Proof.
  destruct a as [ka ea], b as [kb eb]. cbn [fst snd]. intros H.
  apply pair_equal_spec in H as [H1 H2].
  apply taskExecutionJS_inj in H2. subst. reflexivity.
Qed.

Lemma projectJS_inj p q : projectJS p = projectJS q -> p = q.
Proof.
  unfold projectJS. intros H.
  remember (planningJS (planning p)) as a7 eqn:Ea7.
  remember (planningJS (planning q)) as b7 eqn:Eb7.
  remember (match plan p with Some pl => planJS pl | None => VNull end) as a8 eqn:Ea8.
  remember (match plan q with Some pl => planJS pl | None => VNull end) as b8 eqn:Eb8.
  remember (map (fun kv => (fst kv, taskExecutionJS (snd kv))) (tasks_of p)) as a9 eqn:Ea9.
  remember (map (fun kv => (fst kv, taskExecutionJS (snd kv))) (tasks_of q)) as b9 eqn:Eb9.
  remember (integrationJS (integration p)) as a10 eqn:Ea10.
  remember (integrationJS (integration q)) as b10 eqn:Eb10.
  injection H as H1 H2 H3 H4 H5 H5' H6 H7 H8 H9 H10. subst.
  apply phaseName_inj in H6. apply planningJS_inj in H7.
  apply (map_injective _ entry_inj) in H9. apply integrationJS_inj in H10.
  assert (H8' : plan p = plan q).
  { destruct (plan p) as [a|], (plan q) as [b|]; try discriminate H8; [|reflexivity].
    f_equal. apply planJS_inj, H8. }
  destruct p as [p1 p2 p3 p4 [po pn] p6 p7 p8 p9 p10],
           q as [q1 q2 q3 q4 [qo qn] q6 q7 q8 q9 q10].
  cbn in *. subst. reflexivity.
Qed.

(** *** [saveProject] then [loadProject] *)

Lemma loadProject_saveProject home now p fs :
  wellKeyed p ->
  loadProject home (project_id p) (saveProject home now p fs).2
  = Some (projectJS (set_updatedAt now p)).
Proof.
  intros Hk. unfold loadProject, saveProject, files in *. cbv zeta. cbn [snd].
  rewrite lookup_insert_eq, lookup_insert_eq.
  apply parse_stringify, storable_projectJS. exact Hk.
Qed.

(** The [updatedAt] property of the file of project [i]. *)
Definition storedUpdatedAt (home i : string) (fs : files) : option value :=
  option_map (fun v => get v "updatedAt") (loadProject home i fs).

Lemma storedUpdatedAt_saveProject home now p fs :
  wellKeyed p ->
  storedUpdatedAt home (project_id p) (saveProject home now p fs).2
  = Some (VNum now).
Proof.
  intros Hk. unfold storedUpdatedAt. rewrite (loadProject_saveProject _ _ _ _ Hk).
  reflexivity.
Qed.

(** Repeated saves: each step is the clock reading of the save and the
    state handed to it (the callers change the state between saves); the
    result lists what each save returns and leaves on disk. *)
Fixpoint saveAll (home : string) (steps : list (Z * ProjectState)) (fs : files)
  : list (ProjectState * files) :=
  match steps with
  | [] => []
  | (now, p) :: rest =>
      let r := saveProject home now p fs in
      r :: saveAll home rest (snd r)
  end.

Definition stampsOf (home i : string) (rs : list (ProjectState * files))
  : list (option value) :=
  map (fun r => storedUpdatedAt home i (snd r)) rs.

Lemma stampsOf_saveAll home i steps : forall fs,
  Forall (fun s => wellKeyed (snd s) /\ project_id (snd s) = i) steps ->
  stampsOf home i (saveAll home steps fs)
  = map (fun t => Some (VNum t)) (map fst steps).
Proof.
  induction steps as [|[now p] steps IH]; intros fs Hall; [reflexivity|].
  apply Forall_cons in Hall as [[Hk Hi] Hall]. cbn [snd] in Hk, Hi.
  cbn [saveAll stampsOf map fst snd]. f_equal.
  - rewrite <- Hi. apply storedUpdatedAt_saveProject, Hk.
  - apply IH, Hall.
Qed.

Lemma saveAll_each home i steps : forall fs,
  Forall (fun s => wellKeyed (snd s) /\ project_id (snd s) = i) steps ->
  Forall2 (fun s r =>
             fst r = set_updatedAt (fst s) (snd s)
             /\ loadProject home i (snd r) = Some (projectJS (fst r))
             /\ (forall q, loadProject home i (snd r) = Some (projectJS q) ->
                           q = fst r))
          steps (saveAll home steps fs).
Proof.
  induction steps as [|[now p] steps IH]; intros fs Hall; [constructor|].
  apply Forall_cons in Hall as [[Hk Hi] Hall]. cbn [snd] in Hk, Hi.
  cbn [saveAll]. constructor; [|apply IH, Hall].
  cbn [fst snd]. rewrite <- Hi, (loadProject_saveProject home now p fs Hk).
  split; [reflexivity|]. split; [reflexivity|].
  intros q Hq. apply (f_equal (default VNull)) in Hq. cbn [default from_option] in Hq.
  symmetry. apply projectJS_inj, Hq.
Qed.

Definition demoProject : ProjectState :=
  {| project_id := "p1"; createdAt := 1700000000000%Z; updatedAt := 1700000000000%Z;
     goal := "add " +:+ String JSON.dq "dark mode" +:+ String JSON.dq EmptyString;
     repo := {| owner := "acme"; name := "widget" |};
     phase := phase_executing;
     planning := {| planning_sessionId := Some "s0"; planning_model := "m";
                    planning_status := st_completed; planning_error := None |};
     plan := Some {| summary := "two steps";
                     tasks := [ {| id := "t1"; title := "first"; description := "d1";
                                   fileScope := ["src/a.ts"]; dependsOn := [];
                                   complexity := small |};
                                {| id := "t2"; title := "second"; description := "d2";
                                   fileScope := []; dependsOn := ["t1"];
                                   complexity := large |} ] |};
     tasks_of := [("t1", {| taskId := "t1"; status := completed;
                            sessionId := Some "s1"; branchName := Some "oi/t1-first";
                            startedAt := Some 1700000000100%Z;
                            completedAt := Some 1700000000200%Z;
                            exec_summary := Some "done"; error := None;
                            retryCount := 0%Z |});
                  ("t2", {| taskId := "t2"; status := pending;
                            sessionId := None; branchName := None;
                            startedAt := None; completedAt := None;
                            exec_summary := None; error := None;
                            retryCount := 0%Z |})];
     integration := {| integration_sessionId := None; integration_status := st_pending;
                       mergedBranch := None; prUrl := None;
                       integration_error := None |} |}.

Lemma demoProject_wellKeyed : wellKeyed demoProject.
Proof. unfold wellKeyed. distinct_keys. Qed.

(** The round trip, run: the file written for [demoProject] parses to its
    object. *)
Example loadProject_demo :
  loadProject "/home/u" "p1" (snd (saveProject "/home/u" 1700000000300%Z demoProject ∅))
  = Some (projectJS (set_updatedAt 1700000000300%Z demoProject)).
Proof. vm_compute. reflexivity. Qed.

(** C8, as stated, fails in its second half: [saveProject] stores the
    reading of [Date.now()] as it is, so when the clock reads 100 at one
    save and 50 at the next, the stored [updatedAt] goes from 100 to 50. *)
Lemma saveProject_updatedAt_follows_clock :
  stampsOf "/home/u" "p1"
    (saveAll "/home/u" [(100%Z, demoProject); (50%Z, demoProject)] ∅)
  = [Some (VNum 100); Some (VNum 50)].
Proof.
  rewrite (stampsOf_saveAll "/home/u" "p1"); [reflexivity|].
  repeat (apply Forall_cons; split;
          [split; [exact demoProject_wellKeyed|reflexivity]|]).
  apply Forall_nil. exact I.
Qed.

(** C8, amended.  In a run of saves of the states of project [i] (each
    with its keys of [tasks] distinct), every save returns the state it
    was given with [updatedAt] set to the clock reading, a [loadProject]
    after it returns the object of exactly that state (every field, the
    [tasks] map and the sub-states included), and the stored [updatedAt]
    values are the clock readings: they are non-decreasing when the
    readings of the clock are. *)
Theorem saveProject_loadProject_roundtrip
  (home i : string) (steps : list (Z * ProjectState)) (fs : files) :
  Forall (fun s => wellKeyed (snd s) /\ project_id (snd s) = i) steps ->
  StronglySorted Z.le (map fst steps) ->
  Forall2 (fun s r =>
             fst r = set_updatedAt (fst s) (snd s)
             /\ loadProject home i (snd r) = Some (projectJS (fst r))
             /\ (forall q, loadProject home i (snd r) = Some (projectJS q) ->
                           q = fst r))
          steps (saveAll home steps fs)
  /\ exists stamps,
       stampsOf home i (saveAll home steps fs) = map (fun t => Some (VNum t)) stamps
       /\ stamps = map fst steps
       /\ StronglySorted Z.le stamps.
Proof.
  intros Hall Hsorted. split; [apply saveAll_each, Hall|].
  exists (map fst steps). split; [apply stampsOf_saveAll, Hall|]. auto.
Qed.

Lemma saveProject_loadProject_roundtrip_witness :
  Forall2 (fun s r =>
             fst r = set_updatedAt (fst s) (snd s)
             /\ loadProject "/home/u" "p1" (snd r) = Some (projectJS (fst r))
             /\ (forall q, loadProject "/home/u" "p1" (snd r) = Some (projectJS q) ->
                           q = fst r))
          [(100%Z, demoProject); (200%Z, demoProject)]
          (saveAll "/home/u" [(100%Z, demoProject); (200%Z, demoProject)] ∅)
  /\ exists stamps,
       stampsOf "/home/u" "p1"
         (saveAll "/home/u" [(100%Z, demoProject); (200%Z, demoProject)] ∅)
       = map (fun t => Some (VNum t)) stamps
       /\ stamps = map fst [(100%Z, demoProject); (200%Z, demoProject)]
       /\ StronglySorted Z.le stamps.
Proof.
  apply (saveProject_loadProject_roundtrip "/home/u" "p1"
           [(100%Z, demoProject); (200%Z, demoProject)] ∅).
  - repeat (apply Forall_cons; split;
            [split; [exact demoProject_wellKeyed|reflexivity]|]).
    apply Forall_nil. exact I.
  - repeat constructor; simpl; lia.
Defined.

End StoreFacts.

(** ** What validation reports *)

Module ValidationFacts.
Import Dag DagFacts TarjanFacts.

(** *** What the three checks of [validateDag] report *)

Definition duplicateMessage (x : string) : string :=
  "Duplicate task ID: " +:+ quote x.

Definition unknownMessage (x dep : string) : string :=
  "Task " +:+ quote x +:+ " depends on unknown task " +:+ quote dep.

Lemma In_duplicateErrors ts : forall seen msg,
  In msg (duplicateErrors seen ts)
  <-> exists l1 t l2,
        ts = l1 ++ t :: l2
        /\ (id t ∈ seen \/ In (id t) (map id l1))
        /\ msg = duplicateMessage (id t).
Proof.
  induction ts as [|u ts IH]; intros seen msg.
  - simpl. split; [intros []|]. intros (l1 & t & l2 & H & _). destruct l1; discriminate.
  - cbn [duplicateErrors]. rewrite in_app_iff, IH. split.
    + intros [H|(l1 & t & l2 & -> & Hseen & ->)].
      * destruct (decide (id u ∈ seen)) as [Hin|]; [|destruct H].
        destruct H as [<-|[]]. exists [], u, ts. auto.
      * exists (u :: l1), t, l2. split; [reflexivity|]. split; [|reflexivity].
        destruct Hseen as [Hs|Hs]; [|right; right; exact Hs].
        apply elem_of_union in Hs as [Hs|Hs]; [|left; exact Hs].
        apply elem_of_singleton in Hs. right. left. symmetry. exact Hs.
    + intros (l1 & t & l2 & Heq & Hseen & ->). destruct l1 as [|u' l1].
      * injection Heq as -> ->. left. destruct Hseen as [Hs|[]].
        rewrite decide_True by exact Hs. left. reflexivity.
      * injection Heq as -> ->. right. exists l1, t, l2.
        split; [reflexivity|]. split; [|reflexivity].
        destruct Hseen as [Hs|[Hs|Hs]].
        -- left. set_solver.
        -- left. set_solver.
        -- right. exact Hs.
Qed.

Lemma In_missingErrors ids ts msg :
  In msg (missingErrors ids ts)
  <-> exists t dep,
        In t ts /\ In dep (dependsOn t) /\ (dep ∉ ids)
        /\ msg = unknownMessage (id t) dep.
Proof.
  unfold missingErrors, missingErrorsOf. rewrite in_flat_map. split.
  - intros (t & Ht & H). apply in_flat_map in H as (dep & Hdep & H).
    destruct (decide (dep ∈ ids)) as [|Hno]; [destruct H|].
    destruct H as [<-|[]]. exists t, dep. auto.
  - intros (t & dep & Ht & Hdep & Hno & ->). exists t. split; [exact Ht|].
    apply in_flat_map. exists dep. split; [exact Hdep|].
    rewrite decide_False by exact Hno. left. reflexivity.
Qed.

Lemma idSet_In ts x : x ∈ idSet ts <-> In x (map id ts).
Proof. unfold idSet. rewrite elem_of_list_to_set. apply list_elem_of_In. Qed.

(** The message for the task at position [i], if its id stands earlier
    in the list. *)
Definition duplicateReportAt (ts : list TaskNode) (i : nat) : list string :=
  match ts !! i with
  | Some t =>
      if bool_decide (id t ∈ map id (take i ts)) then [duplicateMessage (id t)] else []
  | None => []
  end.

(** The messages on duplicates, by position. *)
Definition duplicateReport (ts : list TaskNode) : list string :=
  flat_map (duplicateReportAt ts) (seq 0 (length ts)).

(** The messages on dependencies that name no task: by task and, for
    each task, by dependency. *)
Definition unknownReport (ts : list TaskNode) : list string :=
  flat_map (fun t =>
              flat_map (fun dep =>
                          if bool_decide (dep ∈ map id ts) then []
                          else [unknownMessage (id t) dep])
                       (dependsOn t))
           ts.

Lemma duplicateErrors_report ts : forall seen pre,
  (forall x, x ∈ seen <-> x ∈ map id pre) ->
  duplicateErrors seen ts
  = flat_map (duplicateReportAt (pre ++ ts)) (seq (length pre) (length ts)).
Proof.
  induction ts as [|t rest IH]; intros seen pre Hseen; [reflexivity|].
  cbn [duplicateErrors length seq flat_map]. f_equal.
  - unfold duplicateReportAt.
    rewrite lookup_app_r, Nat.sub_diag by lia. cbn [lookup list_lookup].
    rewrite take_app_length.
    destruct (decide (id t ∈ seen)) as [Hin|Hno].
    + rewrite bool_decide_eq_true_2 by (apply Hseen; exact Hin). reflexivity.
    + rewrite bool_decide_eq_false_2; [reflexivity|].
      intros Hin. apply Hno, Hseen. exact Hin.
  - rewrite (IH ({[id t]} ∪ seen) (pre ++ [t])).
    + rewrite <- app_assoc, length_app. cbn [app length].
      rewrite Nat.add_1_r. reflexivity.
    + intros x. rewrite map_app, elem_of_app, elem_of_union, elem_of_singleton.
      cbn [map]. rewrite list_elem_of_singleton, Hseen. tauto.
Qed.

Lemma missingErrors_report ts : missingErrors (idSet ts) ts = unknownReport ts.
Proof.
  unfold missingErrors, unknownReport, missingErrorsOf.
  apply flat_map_ext. intros t. apply flat_map_ext. intros dep.
  destruct (decide (dep ∈ idSet ts)) as [Hin|Hno].
  - rewrite bool_decide_eq_true_2; [reflexivity|].
    apply list_elem_of_In, idSet_In. exact Hin.
  - rewrite bool_decide_eq_false_2; [reflexivity|].
    intros Hin. apply Hno, idSet_In, list_elem_of_In. exact Hin.
Qed.

(** X1.  [validateDag] returns for every task list, and its error list
    is, in this order: one [Duplicate task ID] message for each position
    of the list whose task has an id that stands earlier in the list;
    one [depends on unknown task] message for each task and each entry of
    its [dependsOn] that is not the id of a task; and one message with
    the ids that [detectCycles] found, if it found any.  The list is
    valid exactly when there is no message. *)
Theorem validateDag_errors (ts : list TaskNode) :
  exists v cyc,
    validateDag ts = Some v /\ detectCycles ts = Some cyc
    /\ (valid v = true <-> errors v = [])
    /\ errors v
       = duplicateReport ts ++ unknownReport ts
         ++ (match cyc with [] => [] | _ => [cycleError cyc] end)
    /\ forall msg,
         In msg (errors v)
         <-> (exists l1 t l2, ts = l1 ++ t :: l2 /\ In (id t) (map id l1)
                              /\ msg = duplicateMessage (id t))
             \/ (exists t dep, In t ts /\ In dep (dependsOn t)
                               /\ ~ In dep (map id ts)
                               /\ msg = unknownMessage (id t) dep)
             \/ (cyc <> [] /\ msg = cycleError cyc).
Proof.
  destruct (detectCycles_correct ts) as (cyc & Hrun & _).
  unfold validateDag. rewrite Hrun. eexists _, cyc.
  split; [reflexivity|]. split; [reflexivity|]. cbn [valid errors]. split; [|split].
  - rewrite bool_decide_eq_true. split.
    + intros H. apply length_zero_iff_nil. exact H.
    + intros ->. reflexivity.
  - rewrite (duplicateErrors_report ts ∅ []), missingErrors_report.
    + unfold duplicateReport. cbn [app length]. do 2 f_equal.
      destruct cyc; reflexivity.
    + intros x. cbn [map]. rewrite elem_of_nil. set_solver.
  - intros msg. rewrite !in_app_iff, In_duplicateErrors, In_missingErrors.
    assert (H1 : (exists l1 t l2, ts = l1 ++ t :: l2
                    /\ (id t ∈ (∅ : gset string) \/ In (id t) (map id l1))
                    /\ msg = duplicateMessage (id t))
                 <-> (exists l1 t l2, ts = l1 ++ t :: l2 /\ In (id t) (map id l1)
                        /\ msg = duplicateMessage (id t))).
    { split.
      - intros (l1 & t & l2 & H1 & [H2|H2] & H3); [set_solver|eauto 6].
      - intros (l1 & t & l2 & H1 & H2 & H3). eauto 8. }
    assert (H2 : (exists t dep, In t ts /\ In dep (dependsOn t) /\ (dep ∉ idSet ts)
                    /\ msg = unknownMessage (id t) dep)
                 <-> (exists t dep, In t ts /\ In dep (dependsOn t)
                        /\ ~ In dep (map id ts)
                        /\ msg = unknownMessage (id t) dep)).
    { split; intros (t & dep & H1' & H2 & H3 & H4); exists t, dep;
        [rewrite <- idSet_In|rewrite idSet_In]; auto. }
    assert (H3 : In msg (if decide (0 < length cyc) then [cycleError cyc] else [])
                 <-> cyc <> [] /\ msg = cycleError cyc).
    { destruct cyc as [|c cyc]; simpl.
      - split; [intros []|intros [H _]; congruence].
      - split; [intros [<-|[]]; split; [discriminate|reflexivity]|].
        intros [_ ->]. left. reflexivity. }
    rewrite H1, H2, H3. reflexivity.
Qed.

(** A list with an id that stands three times and an unknown dependency
    named twice: each offence is reported once per occurrence. *)
Example validateDag_errors_counted :
  option_map errors
    (validateDag [task "a" ["b"; "x"; "x"]; task "b" ["a"]; task "a" []; task "a" []])
  = Some [duplicateMessage "a"; duplicateMessage "a";
          unknownMessage "a" "x"; unknownMessage "a" "x"].
Proof. vm_compute. reflexivity. Qed.

Lemma duplicateErrors_nil_inv ts : forall seen,
  duplicateErrors seen ts = [] ->
  NoDup (map id ts) /\ forall t, In t ts -> id t ∉ seen.
Proof.
  induction ts as [|u ts IH]; intros seen H.
  - split; [constructor|intros t []].
  - cbn [duplicateErrors] in H. apply app_eq_nil in H as [Hu Hrest].
    destruct (decide (id u ∈ seen)) as [|Hno]; [discriminate|].
    destruct (IH _ Hrest) as [Hnd Hfresh]. split.
    + simpl. apply NoDup_cons. split; [|exact Hnd].
      intros Hin. apply list_elem_of_In, in_map_iff in Hin as (t & Hid & Ht).
      apply (Hfresh t Ht). rewrite Hid. set_solver.
    + intros t [<-|Ht]; [exact Hno|].
      intros Hin. apply (Hfresh t Ht). set_solver.
Qed.

Lemma missingErrors_nil_inv ts :
  missingErrors (idSet ts) ts = [] -> resolvable ts.
Proof.
  intros H t d Ht Hd. destruct (decide (d ∈ idSet ts)) as [Hin|Hno].
  - apply idSet_In. exact Hin.
  - exfalso. assert (Hmsg : In (unknownMessage (id t) d) (missingErrors (idSet ts) ts)).
    { apply In_missingErrors. exists t, d. auto. }
    rewrite H in Hmsg. destruct Hmsg.
Qed.

Lemma tc_source_task ts x y : tc (depends ts) x y -> exists t, In t ts /\ id t = x.
Proof. induction 1 as [x y (t & Ht & Hid & _)|x y z (t & Ht & Hid & _) _ _]; eauto. Qed.

(** X2.  With unique ids, the ids that [detectCycles] returns are exactly the
    ids that lie on a dependency cycle together with another id. *)
Theorem detectCycles_exact (ts : list TaskNode) :
  uniqueIds ts ->
  exists cyc,
    detectCycles ts = Some cyc
    /\ forall x, In x cyc
                 <-> exists y, y <> x /\ tc (depends ts) x y /\ tc (depends ts) y x.
Proof.
  intros Hu. destruct (detectCycles_correct ts) as (cyc & Hrun & Hsound & Hcomplete).
  exists cyc. split; [exact Hrun|]. intros x. split.
  - intros Hx. destruct (Hsound x Hx) as (y & Hne & Hxy & Hyx). exists y.
    apply (reach_depends ts Hu), rtc_tc in Hxy.
    apply (reach_depends ts Hu), rtc_tc in Hyx.
    destruct Hxy as [->|Hxy]; [congruence|]. destruct Hyx as [->|Hyx]; [congruence|].
    auto.
  - intros (y & Hne & Hxy & Hyx).
    destruct (tc_source_task ts x y Hxy) as (t & Ht & <-).
    apply (Hcomplete t y Ht Hne); apply (reach_depends ts Hu), tc_rtc; assumption.
Qed.

Lemma detectCycles_exact_witness :
  exists cyc,
    detectCycles twoCycle = Some cyc
    /\ forall x, In x cyc
                 <-> exists y, y <> x /\ tc (depends twoCycle) x y
                               /\ tc (depends twoCycle) y x.
Proof.
  apply (detectCycles_exact twoCycle).
  unfold uniqueIds. apply (bool_decide_unpack (NoDup (map id twoCycle))).
  vm_compute. exact I.
Defined.

Lemma validateDag_valid_inv ts v :
  validateDag ts = Some v -> valid v = true ->
  errors v = [] /\ uniqueIds ts /\ resolvable ts
  /\ forall x y, tc (depends ts) x y -> tc (depends ts) y x -> x = y.
Proof.
  destruct (detectCycles_correct ts) as (cyc & Hrun & _ & Hcomplete).
  unfold validateDag. rewrite Hrun. intros [= <-]. cbn [valid errors].
  rewrite bool_decide_eq_true. intros Hlen. apply length_zero_iff_nil in Hlen.
  split; [exact Hlen|].
  apply app_eq_nil in Hlen as [Hdup Hrest]. apply app_eq_nil in Hrest as [Hmiss Hcyc].
  destruct (duplicateErrors_nil_inv ts ∅ Hdup) as [Hu _].
  split; [exact Hu|]. split; [exact (missingErrors_nil_inv ts Hmiss)|].
  intros x y Hxy Hyx. destruct (decide (x = y)) as [|Hne]; [assumption|exfalso].
  destruct (tc_source_task ts x y Hxy) as (t & Ht & <-).
  assert (Hin : In (id t) cyc).
  { apply (Hcomplete t y Ht); [congruence| |];
      apply (reach_depends ts Hu), tc_rtc; assumption. }
  destruct cyc as [|c cyc]; [destruct Hin|]. discriminate Hcyc.
Qed.

(** X3.  [validateDag] accepts a task list exactly when its ids are unique,
    every dependency names a task of the list, and no two different tasks
    depend on each other, directly or through other tasks. *)
Theorem validateDag_valid_iff (ts : list TaskNode) :
  exists v,
    validateDag ts = Some v
    /\ (valid v = true
        <-> uniqueIds ts /\ resolvable ts
            /\ forall x y, tc (depends ts) x y -> tc (depends ts) y x -> x = y).
Proof.
  destruct (detectCycles_correct ts) as (cyc & Hrun & _).
  assert (Hv : exists v, validateDag ts = Some v)
    by (unfold validateDag; rewrite Hrun; eauto).
  destruct Hv as [v Hv]. exists v. split; [exact Hv|]. split.
  - intros Hvalid. exact (proj2 (validateDag_valid_inv ts v Hv Hvalid)).
  - intros (Hu & Hr & Hno).
    rewrite (validateDag_accepts ts Hu Hr Hno) in Hv. injection Hv as <-. reflexivity.
Qed.

End ValidationFacts.

(** ** When the traversals return *)

Module TraversalFacts.
Import Dag DagFacts ValidationFacts.

(** *** [computeWaves] returns only on closed acyclic graphs *)

Section grounded.
Variable tm : gmap string TaskNode.

(** The tasks from which every dependency path ends: the task exists and
    so does, in turn, each task it depends on. *)
Inductive grounded : string -> Prop :=
  | grounded_intro x t :
      tm !! x = Some t -> (forall d, In d (dependsOn t) -> grounded d) -> grounded x.

Definition memoGrounded (wi : gmap string nat) : Prop :=
  forall k, is_Some (wi !! k) -> grounded k.

Lemma memoGrounded_insert wi x w :
  memoGrounded wi -> grounded x -> memoGrounded (<[x := w]> wi).
Proof.
  intros Hm Hx k Hk. destruct (decide (k = x)) as [->|Hne]; [exact Hx|].
  rewrite lookup_insert_ne in Hk by congruence. exact (Hm k Hk).
Qed.

Lemma mapM_state_grounded (f : string -> gmap string nat -> option (nat * gmap string nat)) :
  (forall x wi w wi', memoGrounded wi -> f x wi = Some (w, wi') ->
                      grounded x /\ memoGrounded wi') ->
  forall deps wi ws wi',
    memoGrounded wi -> mapM_state f deps wi = Some (ws, wi') ->
    (forall d, In d deps -> grounded d) /\ memoGrounded wi'.
Proof.
  intros Hf. induction deps as [|d deps IH]; intros wi ws wi' Hm Hrun.
  - injection Hrun as <- <-. split; [intros d []|exact Hm].
  - simpl in Hrun. destruct (f d wi) as [[w wi1]|] eqn:Hd; [|discriminate].
    destruct (mapM_state f deps wi1) as [[ws' wi2]|] eqn:Hrest; [|discriminate].
    injection Hrun as <- <-.
    destruct (Hf d wi w wi1 Hm Hd) as [Hgd Hm1].
    destruct (IH wi1 ws' wi2 Hm1 Hrest) as [Hall Hm2].
    split; [|exact Hm2]. intros d' [<-|Hin]; auto.
Qed.

Lemma getWave_grounded fuel : forall x wi w wi',
  memoGrounded wi -> getWave tm fuel x wi = Some (w, wi') ->
  grounded x /\ memoGrounded wi'.
Proof.
  induction fuel as [|fuel IH]; intros x wi w wi' Hm Hrun; [discriminate|].
  cbn [getWave] in Hrun. destruct (wi !! x) as [w0|] eqn:Hx.
  - injection Hrun as <- <-. split; [apply Hm; eauto|exact Hm].
  - destruct (tm !! x) as [task|] eqn:Ht; [|discriminate].
    destruct (bool_decide (length (dependsOn task) = 0)) eqn:Hleaf.
    + injection Hrun as <- <-. apply bool_decide_eq_true in Hleaf.
      assert (Hg : grounded x).
      { apply (grounded_intro x task Ht). intros d Hd.
        destruct (dependsOn task); [destruct Hd|discriminate]. }
      split; [exact Hg|]. apply memoGrounded_insert; assumption.
    + destruct (mapM_state (getWave tm fuel) (dependsOn task) wi) as [[ws wi1]|] eqn:Hdeps;
        [|discriminate].
      injection Hrun as <- <-.
      destruct (mapM_state_grounded (getWave tm fuel) IH _ _ _ _ Hm Hdeps) as [Hall Hm1].
      assert (Hg : grounded x) by (apply (grounded_intro x task Ht); exact Hall).
      split; [exact Hg|]. apply memoGrounded_insert; assumption.
Qed.

Lemma fillWaves_grounded fuel : forall todo wi wi',
  memoGrounded wi -> fillWaves tm fuel todo wi = Some wi' ->
  (forall t, In t todo -> grounded (id t)) /\ memoGrounded wi'.
Proof.
  unfold fillWaves. induction todo as [|t todo IH]; intros wi wi' Hm Hrun.
  - injection Hrun as <-. split; [intros t []|exact Hm].
  - cbn [forEachM] in Hrun.
    destruct (getWave tm fuel (id t) wi) as [[w wi1]|] eqn:Ht; [|discriminate].
    cbn [option_map snd] in Hrun.
    destruct (getWave_grounded fuel _ _ _ _ Hm Ht) as [Hg Hm1].
    destruct (IH wi1 wi' Hm1 Hrun) as [Hall Hm2].
    split; [|exact Hm2]. intros t' [<-|Hin]; auto.
Qed.

Lemma grounded_no_cycle x : grounded x -> ~ tc (edge tm) x x.
Proof.
  induction 1 as [x t Ht _ IH]. intros Htc.
  assert (Hstep : exists d, edge tm x d /\ rtc (edge tm) d x).
  { inversion Htc as [? ? Hxy|? z ? Hxz Hzx]; subst.
    - exists x. split; [exact Hxy|apply rtc_refl].
    - exists z. split; [exact Hxz|apply tc_rtc; exact Hzx]. }
  destruct Hstep as (d & (t' & Ht' & Hd) & Hdx).
  rewrite Ht in Ht'. injection Ht' as <-.
  apply (IH d Hd). eapply tc_rtc_l; [exact Hdx|]. apply tc_once.
  exists t. auto.
Qed.

End grounded.

(** X4.  With unique ids, [computeWaves] returns a result exactly for the task
    lists whose dependencies all name tasks and have no cycle.  On any
    other list the first loop returns nothing however deep the recursion
    may go: the lookup of an unknown dependency has no [dependsOn], and on
    a cycle [getWave] calls itself without end. *)
Theorem computeWaves_returns_iff (ts : list TaskNode) :
  uniqueIds ts ->
  ((exists waves, computeWaves ts = Some waves) <-> resolvable ts /\ acyclic ts)
  /\ (~ (resolvable ts /\ acyclic ts) ->
      forall fuel, fillWaves (taskMap ts) fuel ts ∅ = None).
Proof.
  intros Hu.
  assert (Honly : forall fuel wi, fillWaves (taskMap ts) fuel ts ∅ = Some wi ->
                                  resolvable ts /\ acyclic ts).
  { intros fuel wi Hrun.
    destruct (fillWaves_grounded (taskMap ts) fuel ts ∅ wi) as [Hall _]; [|exact Hrun|].
    { intros k [w Hk]. rewrite lookup_empty in Hk. discriminate. }
    split.
    - intros t d Ht Hd. pose proof (Hall t Ht) as Hg.
      inversion Hg as [x t' Ht' Hdeps Heq]. subst x.
      rewrite (taskMap_lookup_unique ts t Hu Ht) in Ht'. injection Ht' as <-.
      pose proof (Hdeps d Hd) as Hgd. inversion Hgd as [d' td Htd _ Heq]. subst d'.
      apply taskMap_lookup_Some in Htd as [Hin <-]. apply in_map. exact Hin.
    - intros x Htc.
      destruct (tc_source_task ts x x Htc) as (t & Ht & <-).
      apply (grounded_no_cycle (taskMap ts) (id t) (Hall t Ht)).
      apply (tc_congruence (R := depends ts) (fun z => z) (edge (taskMap ts)));
        [|exact Htc].
      intros a b Hab. apply (edge_depends ts Hu). exact Hab. }
  split; [split|].
  - intros [waves Hrun]. unfold computeWaves in Hrun.
    destruct (fillWaves (taskMap ts) (S (length ts)) ts ∅) as [wi|] eqn:Hfill;
      [|discriminate].
    exact (Honly _ _ Hfill).
  - intros [Hr Ha].
    destruct (fillWaves_correct (taskMap ts) (valid_closed ts Hr)
                (valid_acyclic ts Hu Ha) (S (length ts)) ts ∅)
      as (wi & Hfill & Hok & _ & Hwi).
    { intros y w Hy. rewrite lookup_empty in Hy. discriminate. }
    { intros t Ht. apply (in_ids_lookup ts). apply in_map. exact Ht. }
    { rewrite (taskMap_size ts Hu). lia. }
    destruct (groupWaves_correct (fun t => height (taskMap ts) (id t)) wi ts [] [])
      as (waves & Hrun & _).
    { intros t Ht. apply Hwi. exact Ht. }
    { split; [reflexivity|]. intros i g Hi. destruct i; discriminate. }
    exists waves. unfold computeWaves. rewrite Hfill. exact Hrun.
  - intros Hnot fuel. destruct (fillWaves (taskMap ts) fuel ts ∅) as [wi|] eqn:Hfill;
      [|reflexivity].
    exfalso. exact (Hnot (Honly _ _ Hfill)).
Qed.

Lemma computeWaves_returns_iff_witness :
  ((exists waves, computeWaves TarjanFacts.selfLoop = Some waves)
   <-> resolvable TarjanFacts.selfLoop /\ acyclic TarjanFacts.selfLoop)
  /\ (~ (resolvable TarjanFacts.selfLoop /\ acyclic TarjanFacts.selfLoop) ->
      forall fuel, fillWaves (taskMap TarjanFacts.selfLoop) fuel TarjanFacts.selfLoop ∅
                   = None).
Proof.
  apply (computeWaves_returns_iff TarjanFacts.selfLoop).
  unfold uniqueIds. apply (bool_decide_unpack (NoDup (map id TarjanFacts.selfLoop))).
  vm_compute. exact I.
Defined.

(** C6, as stated, fails: [validateDag] accepts the list whose one task
    depends on itself, and on it [computeWaves] returns no groups: the
    recursion of [getWave] does not end, whatever depth it is given. *)
Lemma computeWaves_diverges_on_accepted_list :
  validateDag TarjanFacts.selfLoop = Some {| valid := true; errors := [] |}
  /\ computeWaves TarjanFacts.selfLoop = None
  /\ forall fuel,
       fillWaves (taskMap TarjanFacts.selfLoop) fuel TarjanFacts.selfLoop ∅ = None.
Proof.
  split; [vm_compute; reflexivity|]. split; [vm_compute; reflexivity|].
  intros fuel.
  destruct (fillWaves (taskMap TarjanFacts.selfLoop) fuel TarjanFacts.selfLoop ∅)
    as [wi|] eqn:Hfill; [exfalso|reflexivity].
  destruct (fillWaves_grounded (taskMap TarjanFacts.selfLoop) fuel
              TarjanFacts.selfLoop ∅ wi) as [Hall _]; [|exact Hfill|].
  { intros k [w Hk]. rewrite lookup_empty in Hk. discriminate. }
  apply (grounded_no_cycle (taskMap TarjanFacts.selfLoop) "t1").
  - apply (Hall (task "t1" ["t1"])). left. reflexivity.
  - apply tc_once. exists (task "t1" ["t1"]). split; [|left; reflexivity].
    vm_compute. reflexivity.
Qed.

(** *** [topologicalSort] on graphs with cycles *)

Lemma classic_in (d : string) (r : list TaskNode) :
  In d (map id r) \/ ~ In d (map id r).
Proof. destruct (in_dec string_dec d (map id r)); auto. Qed.

Section dfs.
Variable tm : gmap string TaskNode.
Hypothesis keyed : forall x t, tm !! x = Some t -> id t = x.


(** Visited and not yet in the result: the activations of [visit] that
    are still running. *)
Definition open (st : gset string * list TaskNode) (g : string) : Prop :=
  g ∈ st.1 /\ ~ In g (map id st.2).

Record dfsInv (st : gset string * list TaskNode) : Prop := {
  di_known : forall x, x ∈ st.1 -> is_Some (tm !! x);
  di_tasks : forall t, In t st.2 -> tm !! id t = Some t /\ id t ∈ st.1;
  di_nodup : NoDup (map id st.2);
  di_deps : forall u d, In u st.2 -> In d (dependsOn u) -> d ∈ st.1;
  di_order : forall j u d,
      st.2 !! j = Some u -> In d (dependsOn u) ->
      (exists i t, i < j /\ st.2 !! i = Some t /\ id t = d)
      \/ rtc (edge tm) d (id u)
}.

(** What a call of [visit] or a loop of such calls does to the state. *)
Record dfsStep (st st' : gset string * list TaskNode) : Prop := {
  ds_inv : dfsInv st';
  ds_mono : st.1 ⊆ st'.1;
  ds_ext : exists new, st'.2 = st.2 ++ new;
  ds_open : forall g, open st' g <-> open st g
}.

Lemma dfsStep_refl st : dfsInv st -> dfsStep st st.
Proof. intros H. split; [exact H|set_solver|exists []; rewrite app_nil_r; reflexivity|tauto]. Qed.

Lemma dfsStep_trans st1 st2 st3 : dfsStep st1 st2 -> dfsStep st2 st3 -> dfsStep st1 st3.
Proof.
  intros [_ M1 [n1 E1] O1] [I2 M2 [n2 E2] O2]. split; [exact I2|set_solver| |].
  - exists (n1 ++ n2). rewrite E2, E1, <- app_assoc. reflexivity.
  - intros g. rewrite O2. apply O1.
Qed.

Lemma in_ids_lookup_list (r : list TaskNode) d :
  In d (map id r) -> exists i t, r !! i = Some t /\ id t = d.
Proof.
  intros H. apply in_map_iff in H as (t & Hid & Ht).
  apply list_elem_of_In, list_elem_of_lookup in Ht as [i Hi]. eauto.
Qed.

(** The loop over the dependencies of the node [x] being visited. *)
Lemma visit_loop_partial (f : gset string * list TaskNode -> string -> option (gset string * list TaskNode))
  (x : string) :
  (forall st d st', dfsInv st -> (forall g, open st g -> rtc (edge tm) g d) ->
                    f st d = Some st' -> dfsStep st st' /\ d ∈ st'.1) ->
  forall ds st st',
    dfsInv st -> (forall g, open st g -> rtc (edge tm) g x) ->
    (forall d, In d ds -> edge tm x d) ->
    forEachM f ds st = Some st' ->
    dfsStep st st' /\ forall d, In d ds -> d ∈ st'.1.
Proof.
  intros Hf. induction ds as [|d ds IH]; intros st st' Hinv Hopen Hedge Hrun.
  - injection Hrun as <-. split; [apply dfsStep_refl, Hinv|intros d []].
  - cbn [forEachM] in Hrun. destruct (f st d) as [st1|] eqn:Hd; [|discriminate].
    destruct (Hf st d st1 Hinv) as [Hstep1 Hd1]; [|exact Hd|].
    { intros g Hg. eapply rtc_r; [exact (Hopen g Hg)|]. apply Hedge. left. reflexivity. }
    destruct (IH st1 st' (ds_inv _ _ Hstep1)) as [Hstep2 Hall]; [| |exact Hrun|].
    { intros g Hg. apply Hopen. apply (ds_open _ _ Hstep1). exact Hg. }
    { intros d' Hd'. apply Hedge. right. exact Hd'. }
    split; [exact (dfsStep_trans _ _ _ Hstep1 Hstep2)|].
    intros d' [<-|Hin]; [|exact (Hall d' Hin)].
    apply (ds_mono _ _ Hstep2). exact Hd1.
Qed.

Lemma visit_partial fuel : forall st x st',
  dfsInv st -> (forall g, open st g -> rtc (edge tm) g x) ->
  visit tm fuel st x = Some st' -> dfsStep st st' /\ x ∈ st'.1.
Proof.
  induction fuel as [|fuel IH]; intros st x st' Hinv Hopen Hrun; [discriminate|].
  cbn [visit] in Hrun. destruct (decide (x ∈ st.1)) as [Hx|Hx].
  - injection Hrun as <-. split; [apply dfsStep_refl, Hinv|exact Hx].
  - destruct (tm !! x) as [task|] eqn:Ht; [|discriminate].
    set (st1 := ({[x]} ∪ st.1, st.2)) in *.
    destruct (forEachM (visit tm fuel) (dependsOn task) st1) as [st2|] eqn:Hloop;
      [|discriminate].
    injection Hrun as <-.
    pose proof (keyed x task Ht) as Hid.
    assert (Hnot : ~ In x (map id st.2)).
    { intros Hin. apply in_map_iff in Hin as (t & Htx & Hin).
      apply Hx. rewrite <- Htx. exact (proj2 (di_tasks _ Hinv t Hin)). }
    assert (Hinv1 : dfsInv st1).
    { destruct Hinv as [K T N D O]. split; unfold st1; cbn [fst snd].
      - intros y Hy. apply elem_of_union in Hy as [Hy|Hy]; [|auto].
        apply elem_of_singleton in Hy. subst y. eauto.
      - intros t Hin. destruct (T t Hin). split; [assumption|set_solver].
      - exact N.
      - intros u d Hu Hd. specialize (D u d Hu Hd). set_solver.
      - exact O. }
    assert (Hopen1 : forall g, open st1 g <-> g = x \/ open st g).
    { intros g. unfold open, st1. cbn [fst snd]. split.
      - intros [Hg Hn]. apply elem_of_union in Hg as [Hg|Hg].
        + left. apply elem_of_singleton in Hg. exact Hg.
        + right. auto.
      - intros [->|[Hg Hn]]; (split; [set_solver|assumption]). }
    destruct (visit_loop_partial (visit tm fuel) x IH (dependsOn task) st1 st2 Hinv1)
      as [Hstep Hall]; [| |exact Hloop|].
    { intros g Hg. apply Hopen1 in Hg as [->|Hg]; [apply rtc_refl|exact (Hopen g Hg)]. }
    { intros d Hd. exists task. auto. }
    destruct Hstep as [[K T N D O] M [new E] Op]. cbn [fst snd] in *.
    assert (Hx2 : x ∈ st2.1) by (apply M; unfold st1; cbn [fst]; set_solver).
    assert (Hxopen : ~ In x (map id st2.2)).
    { apply (Op x). apply Hopen1. left. reflexivity. }
    split; [|exact Hx2]. split; cbn [fst snd].
    + split; cbn [fst snd].
      * exact K.
      * intros t Hin. apply in_app_iff in Hin as [Hin|[<-|[]]]; [exact (T t Hin)|].
        rewrite Hid. auto.
      * rewrite map_app. cbn [map]. apply NoDup_app. split; [exact N|]. split.
        -- intros y Hy Hy'. apply list_elem_of_In in Hy.
           apply list_elem_of_In in Hy'. destruct Hy' as [<-|[]]. rewrite Hid in Hy.
           exact (Hxopen Hy).
        -- apply NoDup_singleton.
      * intros u d Hu Hd. apply in_app_iff in Hu as [Hu|[<-|[]]];
          [exact (D u d Hu Hd)|exact (Hall d Hd)].
      * intros j u d Hj Hd.
        destruct (decide (j < length st2.2)) as [Hlt|Hge].
        -- rewrite lookup_app_l in Hj by exact Hlt.
           destruct (O j u d Hj Hd) as [(i & t & Hi & Hit & Htd)|Hr]; [left|right; exact Hr].
           exists i, t. split; [exact Hi|]. split; [|exact Htd].
           rewrite lookup_app_l by lia. exact Hit.
        -- rewrite lookup_app_r in Hj by lia.
           destruct (j - length st2.2) as [|k] eqn:Hk; [|destruct k; discriminate Hj].
           injection Hj as <-. rewrite Hid.
           destruct (classic_in d st2.2) as [Hin|Hnin].
           ++ left. destruct (in_ids_lookup_list _ _ Hin) as (i & t & Hi & Htd).
              exists i, t. split; [apply lookup_lt_Some in Hi; lia|].
              split; [|exact Htd]. rewrite lookup_app_l; [exact Hi|].
              apply lookup_lt_Some in Hi. exact Hi.
           ++ right. assert (Hg : open st2 d) by (split; [exact (Hall d Hd)|exact Hnin]).
              apply Op, Hopen1 in Hg as [->|Hg]; [apply rtc_refl|exact (Hopen d Hg)].
    + unfold st1 in M. cbn [fst] in M. set_solver.
    + exists (new ++ [task]). rewrite E. unfold st1. cbn [snd].
      rewrite <- app_assoc. reflexivity.
    + intros g. unfold open. cbn [fst snd]. rewrite map_app, in_app_iff. cbn [map In].
      rewrite Hid. pose proof (Op g) as Hg. rewrite Hopen1 in Hg. unfold open in Hg.
      split.
      * intros [Hg1 Hg2]. destruct (proj1 Hg) as [->|H]; [tauto|tauto|exact H].
      * intros H. destruct (proj2 Hg (or_intror H)) as [Hg1 Hg2].
        split; [exact Hg1|]. intros [Hin|[Heq|[]]]; [tauto|].
        subst g. apply Hx. exact (proj1 H).
Qed.

Lemma visitAll_partial fuel : forall todo st st',
  dfsInv st -> (forall g, ~ open st g) ->
  visitAll tm fuel todo st = Some st' ->
  dfsStep st st' /\ forall t, In t todo -> id t ∈ st'.1.
Proof.
  unfold visitAll. induction todo as [|t todo IH]; intros st st' Hinv Hopen Hrun.
  - injection Hrun as <-. split; [apply dfsStep_refl, Hinv|intros t []].
  - cbn [forEachM] in Hrun. destruct (visit tm fuel st (id t)) as [st1|] eqn:Ht; [|discriminate].
    destruct (visit_partial fuel st (id t) st1 Hinv) as [Hstep1 Hin1]; [|exact Ht|].
    { intros g Hg. destruct (Hopen g Hg). }
    destruct (IH st1 st' (ds_inv _ _ Hstep1)) as [Hstep2 Hall]; [|exact Hrun|].
    { intros g Hg. apply (Hopen g). apply (ds_open _ _ Hstep1). exact Hg. }
    split; [exact (dfsStep_trans _ _ _ Hstep1 Hstep2)|].
    intros t' [<-|Hin]; [apply (ds_mono _ _ Hstep2); exact Hin1|exact (Hall t' Hin)].
Qed.

(** *** Termination: the recursion is no deeper than the number of tasks
    not yet visited *)

Hypothesis closed : forall x y, edge tm x y -> is_Some (tm !! y).

Definition unvisited (st : gset string * list TaskNode) : nat := size (dom tm ∖ st.1).

Lemma unvisited_shrinks st st' : st.1 ⊆ st'.1 -> unvisited st' <= unvisited st.
Proof. intros H. unfold unvisited. apply subseteq_size. set_solver. Qed.

Lemma unvisited_drops (st : gset string * list TaskNode) x :
  is_Some (tm !! x) -> x ∉ st.1 ->
  unvisited ({[x]} ∪ st.1, st.2) < unvisited st.
Proof.
  intros Hx Hn. unfold unvisited. apply subset_size. cbn [fst].
  apply elem_of_dom in Hx. set_solver.
Qed.

Lemma visit_loop_returns (f : gset string * list TaskNode -> string -> option (gset string * list TaskNode))
  (x : string) fuel :
  (forall st d, dfsInv st -> (forall g, open st g -> rtc (edge tm) g d) ->
                is_Some (tm !! d) -> unvisited st < fuel ->
                exists st', f st d = Some st' /\ dfsStep st st') ->
  forall ds st,
    dfsInv st -> (forall g, open st g -> rtc (edge tm) g x) ->
    (forall d, In d ds -> edge tm x d) -> unvisited st < fuel ->
    exists st', forEachM f ds st = Some st'.
Proof.
  intros Hf. induction ds as [|d ds IH]; intros st Hinv Hopen Hedge Hfuel.
  - exists st. reflexivity.
  - cbn [forEachM].
    destruct (Hf st d Hinv) as (st1 & Hd & Hstep); [| |exact Hfuel|].
    { intros g Hg. eapply rtc_r; [exact (Hopen g Hg)|]. apply Hedge. left. reflexivity. }
    { apply (closed x d). apply Hedge. left. reflexivity. }
    rewrite Hd. apply (IH st1 (ds_inv _ _ Hstep)).
    + intros g Hg. apply Hopen. apply (ds_open _ _ Hstep). exact Hg.
    + intros d' Hd'. apply Hedge. right. exact Hd'.
    + pose proof (unvisited_shrinks st st1 (ds_mono _ _ Hstep)). lia.
Qed.

Lemma visit_returns fuel : forall st x,
  dfsInv st -> (forall g, open st g -> rtc (edge tm) g x) ->
  is_Some (tm !! x) -> unvisited st < fuel ->
  exists st', visit tm fuel st x = Some st' /\ dfsStep st st'.
Proof.
  induction fuel as [|fuel IH]; intros st x Hinv Hopen Hx Hfuel; [lia|].
  assert (Hsome : exists st', visit tm (S fuel) st x = Some st').
  { cbn [visit]. destruct (decide (x ∈ st.1)) as [Hin|Hnin]; [eauto|].
    destruct Hx as [task Ht]. rewrite Ht.
    set (st1 := ({[x]} ∪ st.1, st.2)).
    assert (Hinv1 : dfsInv st1).
    { destruct Hinv as [K T N D O]. split; unfold st1; cbn [fst snd].
      - intros y Hy. apply elem_of_union in Hy as [Hy|Hy]; [|auto].
        apply elem_of_singleton in Hy. subst y. eauto.
      - intros t Hin. destruct (T t Hin). split; [assumption|set_solver].
      - exact N.
      - intros u d Hu Hd. specialize (D u d Hu Hd). set_solver.
      - exact O. }
    destruct (visit_loop_returns (visit tm fuel) x fuel IH (dependsOn task) st1 Hinv1)
      as (st2 & Hloop).
    - intros g [Hg Hn]. unfold st1 in Hg, Hn. cbn [fst snd] in Hg, Hn.
      apply elem_of_union in Hg as [Hg|Hg].
      + apply elem_of_singleton in Hg. subst g. apply rtc_refl.
      + apply Hopen. split; assumption.
    - intros d Hd. exists task. auto.
    - pose proof (unvisited_drops st x (ex_intro _ task Ht) Hnin). fold st1 in H. lia.
    - rewrite Hloop. eauto. }
  destruct Hsome as (st' & Hrun). exists st'. split; [exact Hrun|].
  exact (proj1 (visit_partial (S fuel) st x st' Hinv Hopen Hrun)).
Qed.

Lemma visitAll_returns fuel : forall todo st,
  dfsInv st -> (forall g, ~ open st g) ->
  (forall t, In t todo -> is_Some (tm !! id t)) -> unvisited st < fuel ->
  exists st', visitAll tm fuel todo st = Some st'.
Proof.
  unfold visitAll. induction todo as [|t todo IH]; intros st Hinv Hopen Hall Hfuel.
  - exists st. reflexivity.
  - cbn [forEachM].
    destruct (visit_returns fuel st (id t) Hinv) as (st1 & Ht & Hstep);
      [|apply Hall; left; reflexivity|exact Hfuel|].
    { intros g Hg. destruct (Hopen g Hg). }
    rewrite Ht. apply (IH st1 (ds_inv _ _ Hstep)).
    + intros g Hg. apply (Hopen g). apply (ds_open _ _ Hstep). exact Hg.
    + intros t' Ht'. apply Hall. right. exact Ht'.
    + pose proof (unvisited_shrinks st st1 (ds_mono _ _ Hstep)). lia.
Qed.

End dfs.

Lemma dfsInv_init tm : dfsInv tm (∅, []).
Proof.
  split; cbn [fst snd].
  - intros x Hx. set_solver.
  - intros t [].
  - constructor.
  - intros u d [].
  - intros j u d Hj. discriminate.
Qed.

(** X5.  With unique ids, [topologicalSort] returns a result exactly when every
    dependency names a task of the list, whether or not the dependencies
    have a cycle.  The result is then a rearrangement of the input, and a
    task stands after each task it depends on, except for a dependency
    that depends back on it. *)
Theorem topologicalSort_total (ts : list TaskNode) :
  uniqueIds ts ->
  ((exists r, topologicalSort ts = Some r) <-> resolvable ts)
  /\ forall r,
       topologicalSort ts = Some r ->
       Permutation r ts
       /\ forall j u d,
            r !! j = Some u -> In d (dependsOn u) ->
            (exists i t, i < j /\ r !! i = Some t /\ id t = d)
            \/ rtc (depends ts) d (id u).
Proof.
  intros Hu. set (tm := taskMap ts).
  assert (Hkeyed : forall x t, tm !! x = Some t -> id t = x).
  { intros x t Ht. exact (proj2 (taskMap_lookup_Some ts x t Ht)). }
  assert (Hnone : forall g, ~ open (∅, []) g).
  { intros g [Hg _]. cbn [fst] in Hg. set_solver. }
  assert (Hfinal : forall r, topologicalSort ts = Some r ->
            exists V, dfsInv tm (V, r) /\ (forall g, ~ open (V, r) g)
                      /\ forall t, In t ts -> id t ∈ V).
  { intros r Hrun. unfold topologicalSort in Hrun. fold tm in Hrun.
    destruct (visitAll tm (S (length ts)) ts (∅, [])) as [[V r']|] eqn:Hall; [|discriminate].
    injection Hrun as <-.
    destruct (visitAll_partial tm Hkeyed _ _ _ _ (dfsInv_init tm) Hnone Hall)
      as [Hstep Hin].
    exists V. split; [exact (ds_inv _ _ _ Hstep)|]. split; [|exact Hin].
    intros g Hg. apply (Hnone g). apply (ds_open _ _ _ Hstep). exact Hg. }
  assert (Hmem : forall r V, dfsInv tm (V, r) -> (forall g, ~ open (V, r) g) ->
                             (forall t, In t ts -> id t ∈ V) ->
                             forall t, In t r <-> In t ts).
  { intros r V Hinv Hopen Hin t. split.
    - intros Ht. exact (proj1 (taskMap_lookup_Some _ _ _ (proj1 (di_tasks _ _ Hinv t Ht)))).
    - intros Ht. destruct (classic_in (id t) r) as [Hr|Hr].
      + apply in_map_iff in Hr as (t' & Hid & Ht').
        pose proof (proj1 (di_tasks _ _ Hinv t' Ht')) as Hl. cbn [snd] in Hl.
        rewrite Hid in Hl. unfold tm in Hl.
        rewrite (taskMap_lookup_unique ts t Hu Ht) in Hl. injection Hl as ->. exact Ht'.
      + exfalso. apply (Hopen (id t)). split; [exact (Hin t Ht)|exact Hr]. }
  split; [split|].
  - intros [r Hrun]. destruct (Hfinal r Hrun) as (V & Hinv & Hopen & Hin).
    intros t d Ht Hd. apply (Hmem r V Hinv Hopen Hin) in Ht.
    pose proof (di_deps _ _ Hinv t d Ht Hd) as HdV.
    destruct (di_known _ _ Hinv d HdV) as [td Htd].
    apply taskMap_lookup_Some in Htd as [Hin' <-]. apply in_map. exact Hin'.
  - intros Hr.
    destruct (visitAll_returns tm Hkeyed (valid_closed ts Hr) (S (length ts)) ts (∅, []))
      as ([V r] & Hrun).
    + apply dfsInv_init.
    + exact Hnone.
    + intros t Ht. apply (in_ids_lookup ts). apply in_map. exact Ht.
    + unfold unvisited. cbn [fst].
      assert (Hle : size (dom tm ∖ (∅ : gset string)) <= size (dom tm))
        by (apply subseteq_size; set_solver).
      rewrite size_dom in Hle. unfold tm in Hle. rewrite (taskMap_size ts Hu) in Hle.
      fold tm in Hle. lia.
    + exists r. unfold topologicalSort. fold tm. rewrite Hrun. reflexivity.
  - intros r Hrun. destruct (Hfinal r Hrun) as (V & Hinv & Hopen & Hin). split.
    + apply NoDup_Permutation.
      * apply (NoDup_fmap_1 id). exact (di_nodup _ _ Hinv).
      * apply (NoDup_fmap_1 id). exact Hu.
      * intros t. rewrite !list_elem_of_In. exact (Hmem r V Hinv Hopen Hin t).
    + intros j u d Hj Hd.
      destruct (di_order _ _ Hinv j u d Hj Hd) as [H|H]; [left; exact H|right].
      eapply rtc_subrel; [|exact H]. intros a b Hab. apply (edge_depends ts Hu). exact Hab.
Qed.

Definition knot : list TaskNode :=
  [task "a" ["b"]; task "b" ["a"; "c"]; task "c" []].

Lemma topologicalSort_total_witness :
  ((exists r, topologicalSort knot = Some r) <-> resolvable knot)
  /\ forall r,
       topologicalSort knot = Some r ->
       Permutation r knot
       /\ forall j u d,
            r !! j = Some u -> In d (dependsOn u) ->
            (exists i t, i < j /\ r !! i = Some t /\ id t = d)
            \/ rtc (depends knot) d (id u).
Proof.
  apply (topologicalSort_total knot).
  unfold uniqueIds. apply (bool_decide_unpack (NoDup (map id knot))).
  vm_compute. exact I.
Defined.

(** The run on the list above, whose first two tasks depend on each
    other: [c] and [b] come out before [a]. *)
Example topologicalSort_knot :
  option_map (map id) (topologicalSort knot) = Some ["c"; "b"; "a"].
Proof. vm_compute. reflexivity. Qed.

End TraversalFacts.

(** ** The plan table *)

Module DisplayFacts.
Import Display.

#[local] Arguments String.append : simpl nomatch.

Lemma length_blanks n : String.length (blanks n) = n.
Proof. induction n as [|n IH]; simpl; [reflexivity|]. rewrite IH. reflexivity. Qed.

Lemma length_substring_0 s : forall k,
  String.length (String.substring 0 k s) = Nat.min k (String.length s).
Proof.
  induction s as [|c s IH]; intros [|k]; simpl; try reflexivity.
  rewrite IH. reflexivity.
Qed.

Lemma substring_0_prefix s : forall k,
  exists rest, s = String.substring 0 k s +:+ rest.
Proof.
  induction s as [|c s IH]; intros [|k]; simpl; try (eexists; reflexivity).
  destruct (IH k) as [rest Hrest]. exists rest. rewrite <- Hrest. reflexivity.
Qed.

(** X6.  A cell is exactly as wide as its column: for every text and every
    width of at least 1, [padRight] returns [width] characters, the
    longest beginning of the text that leaves room for one blank, then
    blanks. *)
Theorem padRight_width (str : string) (width : Z) :
  (1 <= width)%Z ->
  Z.of_nat (String.length (padRight str width)) = width
  /\ exists kept pad,
       padRight str width = kept +:+ blanks (S pad)
       /\ (exists rest, str = kept +:+ rest)
       /\ String.length kept
          = Nat.min (String.length str) (Z.to_nat (width - 1)).
Proof.
  intros Hw. unfold padRight. destruct (width <=? Z.of_nat (String.length str))%Z eqn:Hcmp.
  - apply Z.leb_le in Hcmp. unfold sliceTo.
    destruct (width - 1 <? 0)%Z eqn:Hneg; [apply Z.ltb_lt in Hneg; lia|].
    set (k := Z.to_nat (width - 1)). split.
    + rewrite JSONFacts.length_app, length_substring_0. simpl. lia.
    + exists (String.substring 0 k str), 0. split; [reflexivity|]. split.
      * apply substring_0_prefix.
      * rewrite length_substring_0. lia.
  - apply Z.leb_gt in Hcmp. split.
    + rewrite JSONFacts.length_app, length_blanks. lia.
    + exists str, (Z.to_nat (width - Z.of_nat (String.length str)) - 1). split.
      * f_equal. f_equal. lia.
      * split; [exists EmptyString; rewrite JSONFacts.app_nil_r; reflexivity|]. lia.
Qed.

Lemma padRight_width_witness :
  Z.of_nat (String.length (padRight "Add JWT utils" 6)) = 6%Z
  /\ exists kept pad,
       padRight "Add JWT utils" 6 = kept +:+ blanks (S pad)
       /\ (exists rest, "Add JWT utils" = kept +:+ rest)
       /\ String.length kept
          = Nat.min (String.length "Add JWT utils") (Z.to_nat (6 - 1)).
Proof. apply (padRight_width "Add JWT utils" 6). lia. Defined.

End DisplayFacts.

(** ** Branch names *)

Module WorkerFacts.
Import Worker.

#[local] Arguments String.append : simpl nomatch.

(** *** The shape of a slug *)

Definition isHyphen (c : ascii) : bool := (c =? "-")%char.

(** No two hyphens in a row; with [afterHyphen], no hyphen at the start
    either. *)
Fixpoint spaced (afterHyphen : bool) (s : string) : bool :=
  match s with
  | EmptyString => true
  | String c r =>
      if isHyphen c then negb afterHyphen && spaced true r else spaced false r
  end.

Fixpoint allChars (p : ascii -> bool) (s : string) : bool :=
  match s with
  | EmptyString => true
  | String c r => p c && allChars p r
  end.

Definition slugChar (c : ascii) : bool := isAlnum c || isHyphen c.

Fixpoint endsWithHyphen (s : string) : bool :=
  match s with
  | EmptyString => false
  | String c EmptyString => isHyphen c
  | String _ r => endsWithHyphen r
  end.

Lemma isAlnum_not_hyphen c : isAlnum c = true -> isHyphen c = false.
Proof.
  destruct c as [b0 b1 b2 b3 b4 b5 b6 b7].
  destruct b0, b1, b2, b3, b4, b5, b6, b7; (reflexivity || discriminate).
Qed.

Lemma hyphenate_spaced s : forall b, spaced b (hyphenate b s) = true.
Proof.
  induction s as [|c s IH]; intros b; [reflexivity|]. cbn [hyphenate].
  destruct (isAlnum (lowerChar c)) eqn:Ha.
  - cbn [spaced]. rewrite (isAlnum_not_hyphen _ Ha). apply IH.
  - destruct b; [apply IH|]. cbn [spaced]. change (isHyphen "-") with true.
    cbn. apply IH.
Qed.

Lemma hyphenate_chars s : forall b, allChars slugChar (hyphenate b s) = true.
Proof.
  induction s as [|c s IH]; intros b; [reflexivity|]. cbn [hyphenate].
  destruct (isAlnum (lowerChar c)) eqn:Ha.
  - cbn [allChars]. unfold slugChar at 1. rewrite Ha. apply IH.
  - destruct b; [apply IH|]. cbn [allChars]. apply IH.
Qed.

Lemma length_hyphenate s : forall b, String.length (hyphenate b s) <= String.length s.
Proof.
  induction s as [|c s IH]; intros b; [reflexivity|]. cbn [hyphenate].
  destruct (isAlnum (lowerChar c)); [simpl; specialize (IH false); lia|].
  destruct b; simpl; [specialize (IH true); lia|specialize (IH true); lia].
Qed.

(** Removing the last character if it is a hyphen: what the second
    alternative of [/^-|-$/g] does. *)
Fixpoint stripEnd (s : string) : string :=
  match s with
  | EmptyString => EmptyString
  | String c r =>
      match r with
      | EmptyString => if isHyphen c then EmptyString else s
      | _ => String c (stripEnd r)
      end
  end.

Definition snoc (s : string) (c : ascii) : string := s +:+ String c EmptyString.

Lemma snoc_cases s : s = EmptyString \/ exists s' c, s = snoc s' c.
Proof.
  induction s as [|a s IH]; [left; reflexivity|right].
  destruct IH as [->|(s' & c & ->)].
  - exists EmptyString, a. reflexivity.
  - exists (String a s'), c. reflexivity.
Qed.

Lemma snoc_not_empty s c : snoc s c <> EmptyString.
Proof. destruct s; discriminate. Qed.

Lemma rev_string_snoc s c :
  Extractor.rev_string (snoc s c) = String c (Extractor.rev_string s).
Proof.
  unfold Extractor.rev_string, snoc.
  assert (H : list_ascii_of_string (s +:+ String c EmptyString)
              = list_ascii_of_string s ++ [c]).
  { induction s as [|a s IH]; simpl; [reflexivity|]. rewrite IH. reflexivity. }
  rewrite H, rev_app_distr. reflexivity.
Qed.

Lemma rev_string_cons c s :
  Extractor.rev_string (String c s) = snoc (Extractor.rev_string s) c.
Proof.
  unfold Extractor.rev_string, snoc. simpl.
  generalize (rev (list_ascii_of_string s)). intros l.
  induction l as [|a l IH]; simpl; [reflexivity|]. rewrite IH. reflexivity.
Qed.

Lemma rev_string_involutive s :
  Extractor.rev_string (Extractor.rev_string s) = s.
Proof.
  induction s as [|c s IH]; [reflexivity|].
  rewrite rev_string_cons, rev_string_snoc, IH. reflexivity.
Qed.

Lemma stripEnd_snoc s c :
  stripEnd (snoc s c) = if isHyphen c then s else snoc s c.
Proof.
  induction s as [|a s IH].
  - simpl. destruct (isHyphen c); reflexivity.
  - change (snoc (String a s) c) with (String a (snoc s c)). cbn [stripEnd].
    destruct (snoc s c) eqn:E; [destruct (snoc_not_empty _ _ E)|].
    rewrite IH. destruct (isHyphen c); reflexivity.
Qed.

Lemma stripEdges_eq s : stripEdges s = stripEnd (stripStart s).
Proof.
  unfold stripEdges. generalize (stripStart s). clear s. intros s.
  destruct (snoc_cases s) as [->|(s' & c & ->)]; [reflexivity|].
  rewrite rev_string_snoc, stripEnd_snoc. unfold stripStart, isHyphen.
  destruct (c =? "-")%char.
  - apply rev_string_involutive.
  - rewrite <- rev_string_snoc. apply rev_string_involutive.
Qed.

Lemma spaced_weaken s : spaced true s = true -> spaced false s = true.
Proof.
  destruct s as [|c s]; [reflexivity|]. cbn [spaced].
  destruct (isHyphen c); [discriminate|auto].
Qed.

Lemma spaced_snoc s c : forall b, spaced b (snoc s c) = true -> spaced b s = true.
Proof.
  induction s as [|a s IH]; intros b; [reflexivity|].
  change (snoc (String a s) c) with (String a (snoc s c)). cbn [spaced].
  destruct (isHyphen a).
  - intros H. apply andb_true_iff in H as [-> H]. simpl. apply IH. exact H.
  - apply IH.
Qed.

Lemma allChars_snoc p s c : allChars p (snoc s c) = true -> allChars p s = true.
Proof.
  induction s as [|a s IH]; [reflexivity|].
  change (snoc (String a s) c) with (String a (snoc s c)). cbn [allChars].
  intros H. apply andb_true_iff in H as [-> H]. simpl. apply IH. exact H.
Qed.

Lemma endsWithHyphen_snoc s c : endsWithHyphen (snoc s c) = isHyphen c.
Proof.
  induction s as [|a s IH]; [reflexivity|].
  change (snoc (String a s) c) with (String a (snoc s c)). cbn [endsWithHyphen].
  destruct (snoc s c) eqn:E; [destruct (snoc_not_empty _ _ E)|]. exact IH.
Qed.

Lemma spaced_hyphen_end s : forall b,
  spaced b (snoc s "-") = true -> endsWithHyphen s = false.
Proof.
  intros b H. destruct (snoc_cases s) as [->|(s' & c & ->)]; [reflexivity|].
  rewrite endsWithHyphen_snoc. destruct (isHyphen c) eqn:Hc; [exfalso|reflexivity].
  revert b H. induction s' as [|a s' IH]; intros b H.
  - unfold snoc in H. simpl in H. rewrite Hc in H. simpl in H.
    apply andb_true_iff in H as [_ H]. discriminate.
  - change (snoc (snoc (String a s') c) "-") with (String a (snoc (snoc s' c) "-")) in H.
    cbn [spaced] in H. destruct (isHyphen a).
    + apply andb_true_iff in H as [_ H]. exact (IH _ H).
    + exact (IH _ H).
Qed.

Lemma stripEnd_props s b :
  spaced b s = true ->
  spaced b (stripEnd s) = true /\ endsWithHyphen (stripEnd s) = false
  /\ (allChars slugChar s = true -> allChars slugChar (stripEnd s) = true)
  /\ String.length (stripEnd s) <= String.length s.
Proof.
  intros Hs. destruct (snoc_cases s) as [->|(s' & c & ->)].
  - simpl. auto.
  - rewrite stripEnd_snoc. destruct (isHyphen c) eqn:Hc.
    + assert (c = "-"%char) by (apply Ascii.eqb_eq; exact Hc). subst c.
      split; [exact (spaced_snoc _ _ _ Hs)|]. split; [exact (spaced_hyphen_end _ _ Hs)|].
      split; [apply allChars_snoc|].
      unfold snoc. rewrite JSONFacts.length_app. lia.
    + split; [exact Hs|]. split; [rewrite endsWithHyphen_snoc; exact Hc|]. auto.
Qed.

Lemma stripStart_props s :
  spaced false s = true ->
  spaced true (stripStart s) = true
  /\ (allChars slugChar s = true -> allChars slugChar (stripStart s) = true)
  /\ String.length (stripStart s) <= String.length s.
Proof.
  destruct s as [|c s]; [simpl; auto|]. cbn [spaced stripStart]. fold (isHyphen c).
  destruct (isHyphen c) eqn:Hc.
  - simpl. intros H. split; [exact H|]. split; [|lia].
    cbn [allChars]. intros Ha. apply andb_true_iff in Ha as [_ Ha]. exact Ha.
  - intros H. split; [|auto]. cbn [spaced]. rewrite Hc. exact H.
Qed.

Lemma substring_props n : forall s b,
  spaced b s = true ->
  spaced b (String.substring 0 n s) = true
  /\ (allChars slugChar s = true -> allChars slugChar (String.substring 0 n s) = true)
  /\ (String.length s <= n -> String.substring 0 n s = s).
Proof.
  induction n as [|n IH]; intros [|c s] b Hs; simpl; try (intuition (auto; lia)).
  cbn [spaced] in Hs |- *. destruct (isHyphen c).
  - apply andb_true_iff in Hs as [-> Hs]. destruct (IH s true Hs) as (H1 & H2 & H3).
    split; [exact H1|]. split.
    + intros Ha. apply andb_true_iff in Ha as [-> Ha]. simpl. auto.
    + intros Hl. rewrite H3 by lia. reflexivity.
  - destruct (IH s false Hs) as (H1 & H2 & H3).
    split; [exact H1|]. split.
    + intros Ha. apply andb_true_iff in Ha as [-> Ha]. simpl. auto.
    + intros Hl. rewrite H3 by lia. reflexivity.
Qed.

(** The boolean shape predicates, read as statements about substrings. *)
Lemma spaced_no_double s : forall b,
  spaced b s = true -> forall x y, s <> x +:+ "--" +:+ y.
Proof.
  induction s as [|c s IH]; intros b Hs x y Heq.
  - destruct x; discriminate.
  - destruct x as [|a x].
    + simpl in Heq. injection Heq as -> ->. simpl in Hs.
      rewrite andb_false_r in Hs. discriminate.
    + simpl in Heq. injection Heq as -> ->. cbn [spaced] in Hs.
      destruct (isHyphen a).
      * apply andb_true_iff in Hs as [_ Hs]. exact (IH _ Hs x y eq_refl).
      * exact (IH _ Hs x y eq_refl).
Qed.

Lemma spaced_no_leading s : spaced true s = true -> forall y, s <> "-" +:+ y.
Proof. intros Hs y ->. simpl in Hs. discriminate. Qed.

Lemma allChars_each p s :
  allChars p s = true -> forall x c y, s = x +:+ String c y -> p c = true.
Proof.
  revert s. intros s Hs x. revert s Hs. induction x as [|a x IH]; intros s Hs c y ->.
  - simpl in Hs. apply andb_true_iff in Hs as [H _]. exact H.
  - simpl in Hs. apply andb_true_iff in Hs as [_ H]. exact (IH _ H c y eq_refl).
Qed.

Lemma endsWithHyphen_no_trailing s :
  endsWithHyphen s = false -> forall x, s <> x +:+ "-".
Proof.
  intros Hs x ->. change (x +:+ "-") with (snoc x "-") in Hs.
  rewrite endsWithHyphen_snoc in Hs. discriminate.
Qed.

Lemma length_substring_le n : forall s, String.length (String.substring 0 n s) <= n.
Proof. induction n as [|n IH]; intros [|c s]; simpl; try lia. specialize (IH s). lia. Qed.

(** X7.  For a title of characters below 256 (the strings of this model,
    which [toLowerCase] maps code unit by code unit): its slug is made of
    lower-case letters, digits and hyphens only, has at most 40
    characters, does not begin with a hyphen and never has two hyphens in
    a row.  It does not end with a hyphen either when the title has at
    most 40 characters; a longer title can be cut right after a
    hyphen. *)
Theorem slugify_shape (text : string) :
  String.length (slugify text) <= 40
  /\ (forall x c y, slugify text = x +:+ String c y ->
                    isAlnum c = true \/ c = "-"%char)
  /\ (forall y, slugify text <> "-" +:+ y)
  /\ (forall x y, slugify text <> x +:+ "--" +:+ y)
  /\ (String.length text <= 40 -> forall x, slugify text <> x +:+ "-").
Proof.
  unfold slugify. rewrite stripEdges_eq.
  set (h := hyphenate false text).
  pose proof (hyphenate_spaced text false) as Hh. fold h in Hh.
  pose proof (hyphenate_chars text false) as Hc. fold h in Hc.
  pose proof (length_hyphenate text false) as Hl. fold h in Hl.
  destruct (stripStart_props h Hh) as (Hs1 & Hc1 & Hl1).
  destruct (stripEnd_props (stripStart h) true Hs1) as (Hs2 & He2 & Hc2 & Hl2).
  destruct (substring_props 40 (stripEnd (stripStart h)) true Hs2) as (Hs3 & Hc3 & Hid).
  split; [apply length_substring_le|]. split; [|split; [|split]].
  - intros x c y Heq. pose proof (allChars_each _ _ (Hc3 (Hc2 (Hc1 Hc))) x c y Heq) as H.
    unfold slugChar in H. apply orb_true_iff in H as [H|H]; [left; exact H|right].
    apply Ascii.eqb_eq. exact H.
  - apply spaced_no_leading. exact Hs3.
  - apply (spaced_no_double _ true). exact Hs3.
  - intros Hlen. rewrite Hid by lia. apply endsWithHyphen_no_trailing. exact He2.
Qed.

(** The run of [worker.test.ts], and a title whose slug is cut after a
    hyphen. *)
Example slugify_test : slugify "Add JWT Utils & Middleware!" = "add-jwt-utils-middleware".
Proof. vm_compute. reflexivity. Qed.

Example slugify_cut :
  slugify "refactor the authentication middlewares to use tokens"
  = "refactor-the-authentication-middlewares-".
Proof. vm_compute. reflexivity. Qed.

End WorkerFacts.

(** ** The backoff schedule *)

Module BackoffFacts.
Import Retry RetryFacts.

(** The trace of a run with [k] invocations that starts at [attempt]:
    after each invocation [i] but the last, a sleep of a random fraction
    of [min(baseDelayMs * 2^i, maxDelayMs)]. *)
Fixpoint schedule (base maxD : Z) (attempt k : nat) : list event :=
  match k with
  | O => []
  | S k' =>
      match k' with
      | O => [Call attempt]
      | S _ =>
          Call attempt :: SleepRandom (Z.min (base * 2 ^ Z.of_nat attempt) maxD)
          :: schedule base maxD (S attempt) k'
      end
  end.

Section backoff.
Context {T E : Type}.
Variable fn : nat -> T + E.
Variable o : RetryOptions E.

Let maxA := default 3 (maxAttempts o).
Let base := default 1000%Z (baseDelayMs o).
Let maxD := default 30000%Z (maxDelayMs o).

Lemma retryLoop_schedule remaining : forall attempt lastError trace,
  attempt + remaining = maxA ->
  exists k,
    k <= remaining /\ (k = 0 <-> remaining = 0)
    /\ snd (retryLoop fn o maxA base maxD remaining attempt lastError trace)
       = trace ++ schedule base maxD attempt k.
Proof.
  induction remaining as [|remaining IH]; intros attempt lastError trace Hsum.
  - exists 0. simpl. rewrite app_nil_r. split; [lia|]. split; [tauto|reflexivity].
  - cbn [retryLoop]. destruct (fn attempt) as [v|e].
    + exists 1. split; [lia|]. split; [split; lia|reflexivity].
    + destruct (aborts o e).
      * exists 1. split; [lia|]. split; [split; lia|reflexivity].
      * destruct (attempt <? maxA - 1) eqn:Hlt.
        -- apply Nat.ltb_lt in Hlt.
           destruct (IH (S attempt) (Some e)
                       (trace ++ [Call attempt;
                                  SleepRandom (Z.min (base * 2 ^ Z.of_nat attempt) maxD)]))
             as (k & Hk & Hk0 & Htrace); [lia|].
           exists (S k). split; [lia|]. split; [split; lia|].
           rewrite Htrace, <- app_assoc. cbn [schedule app].
           destruct k as [|k]; [exfalso; lia|]. reflexivity.
        -- apply Nat.ltb_ge in Hlt.
           destruct (IH (S attempt) (Some e) (trace ++ [Call attempt]))
             as (k & Hk & Hk0 & Htrace); [lia|].
           assert (k = 0) by lia. subst k.
           exists 1. split; [lia|]. split; [split; lia|].
           rewrite Htrace. simpl. rewrite app_nil_r. reflexivity.
Qed.


End backoff.

(** The bounds of the delays double up to the cap: five failing attempts with a base
    of 1000 ms and a cap of 5000 ms. *)
Example retry_backoff_capped :
  snd (retry (T := unit) (fun _ => inr "down")
         {| maxAttempts := Some 5; baseDelayMs := Some 1000%Z;
            maxDelayMs := Some 5000%Z; shouldAbort := None |})
  = [Call 0; SleepRandom 1000; Call 1; SleepRandom 2000; Call 2; SleepRandom 4000;
     Call 3; SleepRandom 5000; Call 4].
Proof. reflexivity. Qed.

End BackoffFacts.

(** ** The projects directory *)

Module DiskFacts.
Import JS Store StoreFacts.

Lemma append_longer (a b : string) : b <> EmptyString -> a <> a +:+ b.
Proof.
  intros Hb Heq. apply (f_equal String.length) in Heq.
  rewrite JSONFacts.length_app in Heq. destruct b; [congruence|]. simpl in Heq. lia.
Qed.

(** X9.  [saveProject] replaces the file of the project and changes nothing
    else: afterwards the project's file holds the text written, the
    temporary file does not exist (even if an interrupted save had left
    one behind), and every other file is as before. *)
Theorem saveProject_one_file (home : string) (now : Z) (p : ProjectState) (fs : files) :
  let filePath := projectPath home (project_id p) in
  let tmpPath := filePath +:+ ".tmp" in
  let fs' := snd (saveProject home now p fs) in
  fs' !! filePath
  = Some (JSON.stringify (projectJS (set_updatedAt now p)) +:+ String "010"%char EmptyString)
  /\ fs' !! tmpPath = None
  /\ forall path, path <> filePath -> path <> tmpPath -> fs' !! path = fs !! path.
Proof.
  cbv zeta. unfold saveProject, files in *. cbv zeta. cbn [snd].
  rewrite lookup_insert_eq.
  assert (Hne : projectPath home (project_id p)
                <> projectPath home (project_id p) +:+ ".tmp")
    by (apply append_longer; discriminate).
  split; [apply lookup_insert_eq|]. split.
  - rewrite lookup_insert_ne by exact Hne. apply lookup_delete_eq.
  - intros path H1 H2. rewrite lookup_insert_ne by congruence.
    rewrite lookup_delete_ne by congruence. apply lookup_insert_ne. congruence.
Qed.

(** *** [listProjects] *)

Import Projects.

Lemma substring_skip_add (p rest : string) k n :
  String.substring (String.length p + k) n (p +:+ rest) = String.substring k n rest.
Proof. induction p as [|c p IH]; [reflexivity|]. exact IH. Qed.

Lemma endsWith_json (a : string) : endsWith ".json" (a +:+ ".json") = true.
Proof.
  unfold endsWith. rewrite JSONFacts.length_app. cbn [String.length].
  replace (String.length a + 5 - 5) with (String.length a + 0) by lia.
  rewrite substring_skip_add. apply andb_true_iff. split; [apply Nat.leb_le; lia|].
  reflexivity.
Qed.

Lemma endsWith_tmp_json (a : string) : endsWith ".tmp" (a +:+ ".json") = false.
Proof.
  unfold endsWith. rewrite JSONFacts.length_app. cbn [String.length].
  replace (String.length a + 5 - 4) with (String.length a + 1) by lia.
  rewrite substring_skip_add. apply andb_false_iff. right. reflexivity.
Qed.

Lemma readEntry_saved home now p fs :
  wellKeyed p ->
  readEntry home (snd (saveProject home now p fs)) (project_id p +:+ ".json")
  = Some {| sum_id := VStr (project_id p); sum_goal := VStr (goal p);
            sum_phase := VStr (phaseName (phase p)); sum_updatedAt := VNum now |}.
Proof.
  intros Hk. unfold readEntry. rewrite endsWith_json, endsWith_tmp_json. cbn [negb orb].
  pose proof (loadProject_saveProject home now p fs Hk) as Hload.
  unfold loadProject, projectPath in Hload.
  destruct (snd (saveProject home now p fs) !! _) as [data|]; [|discriminate].
  rewrite Hload. reflexivity.
Qed.

Lemma insertDesc_perm x l : Permutation (insertDesc x l) (x :: l).
Proof.
  induction l as [|y l IH]; [reflexivity|]. cbn [insertDesc].
  destruct (snd y <=? snd x)%Z; [reflexivity|].
  rewrite IH. apply perm_swap.
Qed.

Lemma sortDesc_perm l : Permutation (sortDesc l) l.
Proof.
  induction l as [|x l IH]; [reflexivity|]. cbn [sortDesc fold_right].
  fold (sortDesc l). rewrite insertDesc_perm. constructor. exact IH.
Qed.

Definition descending (l : list (summary * Z)) : Prop :=
  StronglySorted (fun a b => (snd b <= snd a)%Z) l.

Lemma insertDesc_sorted x l : descending l -> descending (insertDesc x l).
Proof.
  unfold descending. induction 1 as [|y l Hl IH Hy]; cbn [insertDesc].
  - repeat constructor.
  - destruct (snd y <=? snd x)%Z eqn:Hcmp.
    + apply Z.leb_le in Hcmp. constructor; [constructor; assumption|].
      constructor; [exact Hcmp|].
      eapply Forall_impl; [exact Hy|]. intros z Hz. cbn beta in Hz. lia.
    + apply Z.leb_gt in Hcmp. constructor; [exact IH|].
      apply (Forall_forall (fun b => (snd b <= snd y)%Z)). intros z Hz.
      apply list_elem_of_In in Hz.
      apply (Permutation_in _ (insertDesc_perm x l)) in Hz.
      destruct Hz as [<-|Hz]; [lia|].
      apply (proj1 (Forall_forall _ _) Hy). apply list_elem_of_In. exact Hz.
Qed.

Lemma sortDesc_sorted l : descending (sortDesc l).
Proof.
  induction l as [|x l IH]; [constructor|]. cbn [sortDesc fold_right].
  apply insertDesc_sorted. exact IH.
Qed.

Lemma sorted_lookup {A} (R : A -> A -> Prop) (l : list A) :
  StronglySorted R l ->
  forall i j a b, i < j -> l !! i = Some a -> l !! j = Some b -> R a b.
Proof.
  induction 1 as [|x l Hl IH Hx]; intros i j a b Hij Hi Hj; [discriminate|].
  destruct j as [|j]; [lia|]. cbn in Hj. destruct i as [|i].
  - injection Hi as <-. apply (proj1 (List.Forall_forall _ _) Hx).
    apply list_elem_of_In, (list_elem_of_lookup_2 _ j). exact Hj.
  - cbn in Hi. apply (IH i j a b); [lia|assumption..].
Qed.

Lemma mapM_stamped rs l :
  mapM stamped rs = Some l ->
  map fst l = rs /\ forall r t, In (r, t) l -> sum_updatedAt r = VNum t.
Proof.
  revert l. induction rs as [|r rs IH]; intros l H.
  - injection H as <-. split; [reflexivity|intros r t []].
  - cbn in H. destruct (stamped r) as [[r' t]|] eqn:Hr; [|discriminate].
    cbn in H. destruct (mapM stamped rs) as [l'|]; [|discriminate].
    cbn in H. injection H as <-. destruct (IH l' eq_refl) as [Hfst Hall].
    unfold stamped in Hr. destruct (sum_updatedAt r) eqn:Hu; try discriminate.
    destruct (exactInteger _); [|discriminate].
    injection Hr as <- <-. split; [cbn; rewrite Hfst; reflexivity|].
    intros r0 t0 [[= <- <-]|Hin]; [exact Hu|exact (Hall r0 t0 Hin)].
Qed.

Lemma stamped_all rs :
  (forall r, In r rs -> exists t, sum_updatedAt r = VNum t /\ exactInteger t = true) ->
  exists l, mapM stamped rs = Some l.
Proof.
  induction rs as [|r rs IH]; intros H; [exists []; reflexivity|].
  destruct (H r (or_introl eq_refl)) as (t & Ht & Hex).
  destruct IH as [l Hl]; [intros r' Hr'; apply H; right; exact Hr'|].
  exists ((r, t) :: l).
  assert (Hr : stamped r = Some (r, t)) by (unfold stamped; rewrite Ht, Hex; reflexivity).
  cbn. rewrite Hr. cbn. rewrite Hl. reflexivity.
Qed.

(** X10.  [listProjects] returns the empty list when the directory cannot be
    read.  Otherwise the result is a rearrangement of the summaries of
    the entries that it reads (whatever order the engine's [sort] gives
    to time stamps that are no integers, as long as it rearranges);
    newer ones come first when every time stamp read is an integer that
    a number holds exactly; and for a project that [saveProject] has just
    written and whose file the directory lists, the result holds its id,
    goal, phase and the time of that save. *)
Theorem listProjects_spec
  (engineSort : list summary -> list summary) (home : string) (fs : files) :
  (forall l, Permutation (engineSort l) l) ->
  listProjects engineSort home None fs = []
  /\ (forall names,
        let l := listProjects engineSort home (Some names) fs in
        Permutation l (omap (readEntry home fs) names)
        /\ ((forall r, In r (omap (readEntry home fs) names) ->
                       exists t, sum_updatedAt r = VNum t /\ exactInteger t = true) ->
            forall i j a b,
              i < j -> l !! i = Some a -> l !! j = Some b ->
              exists ta tb, sum_updatedAt a = VNum ta /\ sum_updatedAt b = VNum tb
                            /\ (tb <= ta)%Z))
  /\ (forall names now p fs0,
        wellKeyed p -> fs = snd (saveProject home now p fs0) ->
        In (project_id p +:+ ".json") names ->
        In {| sum_id := VStr (project_id p); sum_goal := VStr (goal p);
              sum_phase := VStr (phaseName (phase p)); sum_updatedAt := VNum now |}
           (listProjects engineSort home (Some names) fs)).
Proof.
  intros Hengine.
  assert (Hperm : forall names,
            Permutation (listProjects engineSort home (Some names) fs)
                        (omap (readEntry home fs) names)).
  { intros names. unfold listProjects.
    set (results := omap (readEntry home fs) names).
    destruct (length results <? 2); [reflexivity|].
    destruct (mapM stamped results) as [st|] eqn:Hst; [|apply Hengine].
    destruct (mapM_stamped _ _ Hst) as [Hfst _].
    rewrite <- Hfst. apply Permutation_map. apply sortDesc_perm. }
  split; [reflexivity|]. split.
  - intros names l. split; [apply Hperm|]. intros Hnum. subst l. unfold listProjects.
    set (results := omap (readEntry home fs) names) in *.
    destruct (length results <? 2) eqn:Hlen.
    + apply Nat.ltb_lt in Hlen. intros i j a b Hij Hi Hj.
      apply lookup_lt_Some in Hj. lia.
    + destruct (stamped_all results Hnum) as [st Hst]. rewrite Hst.
      destruct (mapM_stamped _ _ Hst) as [Hfst Hall].
      intros i j a b Hij Hi Hj.
      rewrite list_lookup_fmap in Hi, Hj.
      destruct (sortDesc st !! i) as [[a' ta]|] eqn:Hi'; [|discriminate].
      destruct (sortDesc st !! j) as [[b' tb]|] eqn:Hj'; [|discriminate].
      cbn in Hi, Hj. injection Hi as <-. injection Hj as <-.
      assert (Hin : forall r t, In (r, t) (sortDesc st) -> sum_updatedAt r = VNum t).
      { intros r t Hin. apply (Hall r t).
        exact (Permutation_in _ (sortDesc_perm st) Hin). }
      exists ta, tb.
      split; [apply Hin, list_elem_of_In, (list_elem_of_lookup_2 _ i); exact Hi'|].
      split; [apply Hin, list_elem_of_In, (list_elem_of_lookup_2 _ j); exact Hj'|].
      pose proof (sortDesc_sorted st) as Hs. unfold descending in Hs.
      exact (sorted_lookup _ _ Hs i j _ _ Hij Hi' Hj').
  - intros names now p fs0 Hk -> Hin.
    apply (Permutation_in _ (Permutation_sym (Hperm names))).
    apply list_elem_of_In, list_elem_of_omap. exists (project_id p +:+ ".json").
    split; [apply list_elem_of_In; exact Hin|]. apply readEntry_saved. exact Hk.
Qed.

Lemma listProjects_spec_witness :
  let engineSort := fun l : list summary => rev l in
  let home := "/home/u" in
  let fs := snd (saveProject home 7 PlannerFacts.freshProject ∅) in
  listProjects engineSort home None fs = []
  /\ (forall names,
        let l := listProjects engineSort home (Some names) fs in
        Permutation l (omap (readEntry home fs) names)
        /\ ((forall r, In r (omap (readEntry home fs) names) ->
                       exists t, sum_updatedAt r = VNum t /\ exactInteger t = true) ->
            forall i j a b,
              i < j -> l !! i = Some a -> l !! j = Some b ->
              exists ta tb, sum_updatedAt a = VNum ta /\ sum_updatedAt b = VNum tb
                            /\ (tb <= ta)%Z))
  /\ (forall names now p fs0,
        wellKeyed p -> fs = snd (saveProject home now p fs0) ->
        In (project_id p +:+ ".json") names ->
        In {| sum_id := VStr (project_id p); sum_goal := VStr (goal p);
              sum_phase := VStr (phaseName (phase p)); sum_updatedAt := VNum now |}
           (listProjects engineSort home (Some names) fs)).
Proof.
  intros engineSort home fs.
  apply (listProjects_spec engineSort home fs).
  intros l. symmetry. apply Permutation_rev.
Defined.

End DiskFacts.

(** ** Integration: the short paths *)

Module IntegrationFacts.
Import JS Client Run Run.Notations Integrator IntegratorFacts.

Opaque save.

(** X11.  With exactly one task to integrate there is nothing to merge:
    [runIntegration] asks nothing of the control plane, returns the
    branch of that task with no pull-request URL, and leaves the project
    completed with that branch as the merged branch, saved to disk. *)
Theorem runIntegration_single_task
  (env : Env) (fuel : nat) (p : ProjectState) (w : World)
  (only : TaskExecution) (pl : Plan) :
  completedTasksOf p = [only] -> plan p = Some pl ->
  exists p' w',
    runIntegration env fuel (p, w)
      = (Return {| result_branchName := branchName only; result_prUrl := None |},
         (p', w'))
    /\ status only = completed
    /\ (exists b, branchName only = Some b /\ b <> EmptyString)
    /\ phase p' = phase_completed
    /\ integration_status (integration p') = st_completed
    /\ mergedBranch (integration p') = branchName only
    /\ integration_sessionId (integration p') = integration_sessionId (integration p)
    /\ tasks_of p' = tasks_of p
    /\ calls w' = calls w ++ [SaveProject; SaveProject]
    /\ (StoreFacts.wellKeyed p ->
        Store.loadProject (homedir env) (project_id p) (disk w')
        = Some (Store.projectJS p')).
Proof.
  intros Hone Hplan.
  assert (Hin : In only (List.filter isIntegrable (map snd (tasks_of p)))).
  { unfold completedTasksOf in Hone. rewrite Hone. left. reflexivity. }
  apply filter_In in Hin as [_ Hint]. unfold isIntegrable in Hint.
  apply andb_true_iff in Hint as [Hst Hbr]. apply bool_decide_eq_true in Hst.
  unfold runIntegration, begin, bind, modify, onIntegration, getState, ret.
  cbn -[saved]. rewrite !save_eq. cbn -[saved].
  unfold completedTasksOf in *. cbn -[saved]. rewrite Hone, Hplan. cbn -[saved].
  rewrite save_eq. cbn -[saved].
  eexists _, _. split; [reflexivity|]. cbn -[saved].
  split; [exact Hst|]. split.
  { unfold truthyStr in Hbr. destruct (branchName only) as [b|]; [|discriminate].
    exists b. split; [reflexivity|]. intros ->. discriminate. }
  rewrite <- app_assoc. repeat split.
  intros Hk. unfold saved.
  match goal with
  | |- Store.loadProject _ _ (snd (Store.saveProject ?h ?t ?q ?fs)) = _ =>
      exact (StoreFacts.loadProject_saveProject h t q fs Hk)
  end.
Qed.

Lemma runIntegration_single_task_witness :
  let p := sampleProject [("t1", sampleExec "t1" completed (Some "oi/t1-a"));
                          ("t2", sampleExec "t2" failed None)] in
  let only := sampleExec "t1" completed (Some "oi/t1-a") in
  exists p' w',
    runIntegration (sampleEnv [] []) 5 (p, world0)
      = (Return {| result_branchName := branchName only; result_prUrl := None |},
         (p', w'))
    /\ status only = completed
    /\ (exists b, branchName only = Some b /\ b <> EmptyString)
    /\ phase p' = phase_completed
    /\ integration_status (integration p') = st_completed
    /\ mergedBranch (integration p') = branchName only
    /\ integration_sessionId (integration p') = integration_sessionId (integration p)
    /\ tasks_of p' = tasks_of p
    /\ calls w' = calls world0 ++ [SaveProject; SaveProject]
    /\ (StoreFacts.wellKeyed p ->
        Store.loadProject (homedir (sampleEnv [] [])) (project_id p) (disk w')
        = Some (Store.projectJS p')).
Proof.
  intros p only.
  apply (runIntegration_single_task (sampleEnv [] []) 5 p world0 only samplePlan);
    reflexivity.
Defined.

(** X12.  When the control plane rejects the creation of the merge session,
    [runIntegration] raises that error without recording it: the project
    stays in phase [integrating] with [integration.status] [running], as
    the first save wrote it, so that a resumed run integrates again. *)
Theorem runIntegration_session_rejected
  (env : Env) (fuel : nat) (p : ProjectState) (w : World)
  (first second : TaskExecution) (others : list TaskExecution)
  (pl : Plan) (msg : string) :
  completedTasksOf p = first :: second :: others -> plan p = Some pl ->
  createSessionR env (S (tick w)) = Err msg ->
  exists p' w',
    runIntegration env fuel (p, w) = (Throw msg, (p', w'))
    /\ phase p' = phase_integrating
    /\ integration_status (integration p') = st_running
    /\ integration_error (integration p') = integration_error (integration p)
    /\ integration_sessionId (integration p') = integration_sessionId (integration p)
    /\ tasks_of p' = tasks_of p
    /\ calls w' = calls w ++ [SaveProject; CreateSession]
    /\ (StoreFacts.wellKeyed p ->
        Store.loadProject (homedir env) (project_id p) (disk w')
        = Some (Store.projectJS p')).
Proof.
  intros Hmany Hplan Hrej.
  unfold runIntegration, begin, bind, modify, onIntegration, getState, ret.
  cbn -[saved]. rewrite !save_eq. cbn -[saved].
  unfold completedTasksOf in *. cbn -[saved]. rewrite Hmany, Hplan. cbn -[saved].
  unfold openSession, createSession, request, bind. cbn -[saved]. rewrite Hrej.
  eexists _, _. split; [reflexivity|]. cbn -[saved].
  rewrite <- app_assoc. repeat split.
  intros Hk. unfold saved.
  match goal with
  | |- Store.loadProject _ _ (snd (Store.saveProject ?h ?t ?q ?fs)) = _ =>
      exact (StoreFacts.loadProject_saveProject h t q fs Hk)
  end.
Qed.

Definition rejectingEnv : Env :=
  {| homedir := "/home/u"; now := fun n => (1000 + Z.of_nat n)%Z;
     createSessionR := fun _ => Err "API POST /sessions failed (503)";
     sendPromptR := fun _ => Ok tt;
     getSessionR := getSessionR (sampleEnv [] []);
     getEventsR := fun _ => Ok [];
     getArtifactsR := fun _ => Ok [] |}.

Lemma runIntegration_session_rejected_witness :
  let p := sampleProject twoDone in
  exists p' w',
    runIntegration rejectingEnv 5 (p, world0)
      = (Throw "API POST /sessions failed (503)", (p', w'))
    /\ phase p' = phase_integrating
    /\ integration_status (integration p') = st_running
    /\ integration_error (integration p') = integration_error (integration p)
    /\ integration_sessionId (integration p') = integration_sessionId (integration p)
    /\ tasks_of p' = tasks_of p
    /\ calls w' = calls world0 ++ [SaveProject; CreateSession]
    /\ (StoreFacts.wellKeyed p ->
        Store.loadProject (homedir rejectingEnv) (project_id p) (disk w')
        = Some (Store.projectJS p')).
Proof.
  intros p.
  apply (runIntegration_session_rejected rejectingEnv 5 p world0
           (sampleExec "t1" completed (Some "oi/t1-a"))
           (sampleExec "t2" completed (Some "oi/t2-b")) [] samplePlan);
    reflexivity.
Defined.

End IntegrationFacts.

(** ** Planning *)

Module PlanningFacts.
Import JS Client Run Run.Notations Planner.

Opaque save.

(** *** Reading a run backwards *)

Lemma bind_Return {A B} (c : M A) (k : A -> M B) s b s' :
  bind c k s = (Return b, s') ->
  exists a s1, c s = (Return a, s1) /\ k a s1 = (Return b, s').
Proof.
  unfold bind. destruct (c s) as [[a| |] s1]; [eauto|discriminate..].
Qed.

Lemma modify_Return f s (u : unit) s' :
  modify f s = (Return u, s') -> s' = (f (fst s), snd s).
Proof. unfold modify. intros [= _ <-]. reflexivity. Qed.

Lemma save_Return env s (u : unit) s' :
  save env s = (Return u, s') ->
  s' = (Store.set_updatedAt (now env (tick (snd s))) (fst s),
        {| tick := S (tick (snd s));
           disk := IntegratorFacts.saved (homedir env) (now env (tick (snd s)))
                     (fst s) (disk (snd s));
           calls := calls (snd s) ++ [SaveProject] |}).
Proof. destruct s as [p w]. rewrite IntegratorFacts.save_eq. intros [= _ <-]. reflexivity. Qed.

(** *** Events delivered again *)

Lemma onEvent_seen st ev :
  event_id ev ∈ seenEventIds st -> onEvent st ev = st.
Proof. intros H. unfold onEvent. rewrite decide_True by exact H. reflexivity. Qed.

Lemma onEvent_records st ev :
  seenEventIds st ⊆ seenEventIds (onEvent st ev)
  /\ event_id ev ∈ seenEventIds (onEvent st ev).
Proof.
  unfold onEvent. destruct (decide (event_id ev ∈ seenEventIds st)) as [H|H].
  - split; [reflexivity|exact H].
  - cbn [seenEventIds]. set_solver.
Qed.

Lemma fold_onEvent_records evs : forall st,
  seenEventIds st ⊆ seenEventIds (fold_left onEvent evs st)
  /\ forall ev, In ev evs -> event_id ev ∈ seenEventIds (fold_left onEvent evs st).
Proof.
  induction evs as [|e evs IH]; intros st; cbn [fold_left].
  - split; [reflexivity|intros ev []].
  - destruct (IH (onEvent st e)) as [Hsub Hall].
    destruct (onEvent_records st e) as [Hs He]. split; [set_solver|].
    intros ev [<-|Hin]; [set_solver|exact (Hall ev Hin)].
Qed.

(** X13.  The polling loops fetch the latest events without a cursor, so a
    batch repeats events of earlier batches.  Events whose ids have been
    seen change nothing: neither the text collected from the tokens nor
    any other variable of the loop. *)
Theorem onEvent_ignores_repeats (st : pollState) (evs again : list AgentEvent) :
  (forall ev, In ev again ->
              event_id ev ∈ seenEventIds st
              \/ exists ev', In ev' evs /\ event_id ev' = event_id ev) ->
  fold_left onEvent (evs ++ again) st = fold_left onEvent evs st.
Proof.
  intros Hrep. rewrite fold_left_app.
  destruct (fold_onEvent_records evs st) as [Hsub Hall].
  set (st1 := fold_left onEvent evs st) in *.
  assert (Hseen : forall ev, In ev again -> event_id ev ∈ seenEventIds st1).
  { intros ev Hin. destruct (Hrep ev Hin) as [H|(ev' & Hin' & <-)];
      [set_solver|exact (Hall ev' Hin')]. }
  clear Hrep Hsub Hall. induction again as [|e again IH]; [reflexivity|].
  cbn [fold_left]. rewrite onEvent_seen by (apply Hseen; left; reflexivity).
  apply IH. intros ev Hin. apply Hseen. right. exact Hin.
Qed.

Definition tokenEvent (i content : string) : AgentEvent :=
  {| event_id := i; event_type := "token";
     event_data := VObj [("content", VStr content)] |}.

Lemma onEvent_ignores_repeats_witness :
  let st := {| seenEventIds := ∅; tokenChunks := []; hasStarted := false;
               executionComplete := false; executionError := None |} in
  let evs := [tokenEvent "e1" "Hello, "; tokenEvent "e2" "world"] in
  fold_left onEvent (evs ++ evs) st = fold_left onEvent evs st.
Proof.
  intros st evs. apply (onEvent_ignores_repeats st evs evs).
  intros ev Hin. right. exists ev. auto.
Defined.

End PlanningFacts.

(** ** Integration: what a return records *)

Module HandoverFacts.
Import JS Client Run Run.Notations Integrator IntegratorFacts.

Opaque save.

Lemma request_Return {A} c (answer : nat -> result A) s a s' :
  request c answer s = (Return a, s') -> fst s' = fst s.
Proof. unfold request. destruct (answer _); intros [= _ <-]; reflexivity. Qed.

Lemma getSession_Return env s a s' :
  getSession env s = (Return a, s') -> fst s' = fst s.
Proof.
  unfold getSession. intros H.
  apply PlanningFacts.bind_Return in H as (raw & s1 & Hreq & Hret).
  injection Hret as _ <-. exact (request_Return _ _ _ _ _ Hreq).
Qed.

(** Polling reads the control plane and leaves the project alone. *)
Lemma pollLoop_project env fuel : forall seen chunks started s text s',
  pollLoop env fuel seen chunks started s = (Return text, s') -> fst s' = fst s.
Proof.
  induction fuel as [|fuel IH]; intros seen chunks started s text s' H; [discriminate|].
  cbn [pollLoop] in H.
  apply PlanningFacts.bind_Return in H as (session & s1 & Hsession & H).
  apply PlanningFacts.bind_Return in H as (events & s2 & Hevents & H).
  apply getSession_Return in Hsession. apply request_Return in Hevents.
  destruct (executionComplete _); [injection H as _ <-; congruence|].
  destruct (_ && _); [injection H as _ <-; congruence|].
  apply IH in H. congruence.
Qed.

Lemma prUrlOf_truthy artifacts u : prUrlOf artifacts = Some u -> u <> EmptyString.
Proof.
  unfold prUrlOf. destruct (List.find isPrArtifact artifacts) as [a|]; [|discriminate].
  destruct (truthyStr (artifact_url a)) eqn:Ht; [|discriminate].
  intros Hu. rewrite Hu in Ht. cbn in Ht. intros ->. discriminate Ht.
Qed.

(** X15.  When [runIntegration] returns, the project is in phase [completed]
    with integration status [completed] and the returned branch recorded
    as merged branch, its tasks and plan are untouched, and that state
    is what the last save wrote.  With one task to integrate the result
    is the branch of that task and the recorded pull-request URL is left
    as it was; with more, the returned URL, which is never empty, is
    recorded, and so is the merge session. *)
Theorem runIntegration_returns_recorded
  (env : Env) (fuel : nat) (p p' : ProjectState) (w w' : World)
  (res : IntegrationResult) :
  runIntegration env fuel (p, w) = (Return res, (p', w')) ->
  phase p' = phase_completed
  /\ integration_status (integration p') = st_completed
  /\ mergedBranch (integration p') = result_branchName res
  /\ tasks_of p' = tasks_of p /\ plan p' = plan p
  /\ (exists first others,
        completedTasksOf p = first :: others
        /\ match others with
           | [] =>
               res = {| result_branchName := branchName first; result_prUrl := None |}
               /\ prUrl (integration p') = prUrl (integration p)
               /\ integration_sessionId (integration p')
                  = integration_sessionId (integration p)
           | _ :: _ =>
               prUrl (integration p') = result_prUrl res
               /\ (forall u, result_prUrl res = Some u -> u <> EmptyString)
               /\ exists sid, integration_sessionId (integration p') = Some sid
           end)
  /\ (StoreFacts.wellKeyed p ->
      Store.loadProject (homedir env) (project_id p) (disk w')
      = Some (Store.projectJS p')).
Proof.
  unfold runIntegration. intros H.
  apply PlanningFacts.bind_Return in H as ([] & s1 & Hbegin & H).
  rewrite begin_eq in Hbegin. injection Hbegin as <-.
  unfold bind at 1, getState in H. cbn [fst snd] in H.
  unfold completedTasksOf in *.
  cbn [tasks_of Store.set_updatedAt set_integration set_phase] in H.
  destruct (List.filter isIntegrable (map snd (tasks_of p))) as [|first others] eqn:Hdone.
  { do 4 (apply PlanningFacts.bind_Return in H as (? & ? & _ & H)). discriminate H. }
  cbn [plan Store.set_updatedAt set_integration set_phase] in H.
  destruct (plan p) as [pl|] eqn:Hplan; [|discriminate H].
  destruct others as [|second others].
  - unfold bind, modify, onIntegration, ret in H. cbn -[saved] in H.
    rewrite save_eq in H. injection H as <- <- <-. cbn -[saved].
    repeat split; [exact Hplan|exists first, []; repeat split|].
    intros Hk. unfold saved.
    match goal with
    | |- Store.loadProject _ _ (snd (Store.saveProject ?h ?t ?q ?fs)) = _ =>
        exact (StoreFacts.loadProject_saveProject h t q fs Hk)
    end.
  - apply PlanningFacts.bind_Return in H as ([] & s2 & Hopen & H).
    apply PlanningFacts.bind_Return in H as (text & s3 & Hpoll & H).
    unfold openSession in Hopen.
    apply PlanningFacts.bind_Return in Hopen as (sid & t1 & Hcreate & Hopen).
    apply PlanningFacts.bind_Return in Hopen as ([] & t2 & Hset & Hopen).
    apply PlanningFacts.bind_Return in Hopen as ([] & t3 & Hsave & Hsend).
    apply request_Return in Hcreate, Hsend.
    apply PlanningFacts.modify_Return in Hset. apply PlanningFacts.save_Return in Hsave.
    apply pollLoop_project in Hpoll.
    unfold collect in H.
    apply PlanningFacts.bind_Return in H as (session & u1 & Hsession & H).
    apply PlanningFacts.bind_Return in H as (artifacts & u2 & Harts & H).
    apply getSession_Return in Hsession. apply request_Return in Harts.
    apply PlanningFacts.bind_Return in H as ([] & u3 & H3 & H).
    apply PlanningFacts.bind_Return in H as ([] & u4 & H4 & H).
    apply PlanningFacts.bind_Return in H as ([] & u5 & H5 & H).
    apply PlanningFacts.bind_Return in H as ([] & u6 & H6 & H).
    apply PlanningFacts.bind_Return in H as ([] & u7 & H7 & H).
    apply PlanningFacts.modify_Return in H3, H4, H5, H6.
    apply PlanningFacts.save_Return in H7. injection H as <- ->.
    destruct s2 as [q2 x2], s3 as [q3 x3], t1 as [r1 y1], t2 as [r2 y2], t3 as [r3 y3],
      u1 as [a1 z1], u2 as [a2 z2], u3 as [a3 z3], u4 as [a4 z4], u5 as [a5 z5],
      u6 as [a6 z6].
    cbn [fst snd] in *. subst.
    repeat match goal with
           | Heq : (_, _) = (_, _) |- _ => injection Heq as -> ->
           end.
    cbn -[saved].
    repeat split; [exact Hplan| |].
    + exists first, (second :: others). repeat split; [|eauto].
      intros u. apply prUrlOf_truthy.
    + intros Hk. unfold saved.
      match goal with
      | |- Store.loadProject _ _ (snd (Store.saveProject ?h ?t ?q ?fs)) = _ =>
          exact (StoreFacts.loadProject_saveProject h t q fs Hk)
      end.
Qed.

Lemma runIntegration_returns_recorded_witness :
  let env := sampleEnv [completeEvent true []] [prArtifact] in
  let p := sampleProject twoDone in
  let run := runIntegration env 5 (p, world0) in
  let res := {| result_branchName := Some "integrate/all";
                result_prUrl := Some "https://git.example/pr/1" |} in
  let p' := fst (snd run) in
  let w' := snd (snd run) in
  phase p' = phase_completed
  /\ integration_status (integration p') = st_completed
  /\ mergedBranch (integration p') = result_branchName res
  /\ tasks_of p' = tasks_of p /\ plan p' = plan p
  /\ (exists first others,
        completedTasksOf p = first :: others
        /\ match others with
           | [] =>
               res = {| result_branchName := branchName first; result_prUrl := None |}
               /\ prUrl (integration p') = prUrl (integration p)
               /\ integration_sessionId (integration p')
                  = integration_sessionId (integration p)
           | _ :: _ =>
               prUrl (integration p') = result_prUrl res
               /\ (forall u, result_prUrl res = Some u -> u <> EmptyString)
               /\ exists sid, integration_sessionId (integration p') = Some sid
           end)
  /\ (StoreFacts.wellKeyed p ->
      Store.loadProject (homedir env) (project_id p) (disk w')
      = Some (Store.projectJS p')).
Proof.
  intros env p run res p' w'.
  apply (runIntegration_returns_recorded env 5 p p' world0 w' res).
  vm_compute. reflexivity.
Defined.

End HandoverFacts.

(** ** Approval *)

Module ApprovalFacts.
Import JS Approver.

Definition accepts (r : round) : bool := isOneOf (choiceOf r) [EmptyString; "y"; "yes"].
Definition declines (r : round) : bool := isOneOf (choiceOf r) ["r"; "reject"].
Definition edits (r : round) : bool := isOneOf (choiceOf r) ["e"; "edit"].

(** What a round that does not end the loop shows. *)
Definition echo (r : round) : list shown :=
  if edits r then
    match editPlan r with
    | Some edited => [PlanUpdated; PlanTable edited]
    | None => [EditCancelled]
    end
  else [InvalidChoice].

Lemma approveLoop_decision plan rounds : forall log r log',
  approveLoop plan rounds log = (Returns r, log') ->
  exists before last after,
    rounds = before ++ last :: after
    /\ Forall (fun u => accepts u = false /\ declines u = false) before
    /\ ((accepts last = true /\ r = approved plan)
        \/ (accepts last = false /\ edits last = false /\ declines last = true
            /\ r = rejected))
    /\ log' = log ++ flat_map echo before.
Proof.
  induction rounds as [|u rest IH]; intros log r log' H; [discriminate|].
  cbn [approveLoop] in H. fold (accepts u) (edits u) (declines u) in H.
  assert (Hnext : forall shownNow,
            accepts u = false -> echo u = shownNow ->
            (edits u = false -> declines u = false) ->
            approveLoop plan rest (log ++ shownNow) = (Returns r, log') ->
            exists before last after,
              u :: rest = before ++ last :: after
              /\ Forall (fun u => accepts u = false /\ declines u = false) before
              /\ ((accepts last = true /\ r = approved plan)
                  \/ (accepts last = false /\ edits last = false
                      /\ declines last = true /\ r = rejected))
              /\ log' = log ++ flat_map echo before).
  { intros shownNow Ha He Hd Hrun.
    destruct (IH _ _ _ Hrun) as (before & last & after & -> & Hall & Hlast & ->).
    exists (u :: before), last, after. split; [reflexivity|].
    split; [|split; [exact Hlast|]].
    - constructor; [|exact Hall]. split; [exact Ha|].
      destruct (edits u) eqn:Hedit; [|exact (Hd eq_refl)].
      unfold edits, declines, isOneOf in *. cbn [existsb] in *.
      rewrite orb_false_r in *. apply orb_true_iff in Hedit.
      destruct Hedit as [Hc|Hc]; apply String.eqb_eq in Hc; rewrite Hc; reflexivity.
    - cbn [flat_map]. rewrite He, app_assoc. reflexivity. }
  destruct (accepts u) eqn:Ha.
  - injection H as <- <-. exists [], u, rest. split; [reflexivity|].
    split; [constructor|]. split; [left; auto|]. cbn. rewrite app_nil_r. reflexivity.
  - destruct (edits u) eqn:He.
    + destruct (editPlan u) as [edited|] eqn:Hedited.
      * destruct (displayPlan edited); [|discriminate].
        refine (Hnext _ eq_refl _ _ H); [|discriminate].
        unfold echo. rewrite He, Hedited. reflexivity.
      * refine (Hnext _ eq_refl _ _ H); [|discriminate].
        unfold echo. rewrite He, Hedited. reflexivity.
    + destruct (declines u) eqn:Hd.
      * injection H as <- <-. exists [], u, rest. split; [reflexivity|].
        split; [constructor|]. split; [right; auto|]. cbn. rewrite app_nil_r. reflexivity.
      * refine (Hnext _ eq_refl _ _ H); [|auto].
        unfold echo. rewrite He. reflexivity.
Qed.

(** X16.  When [approvePlan] returns, the first answer that is a yes or a
    reject decides, the rounds before it only show something, and an
    approval carries the plan that was passed in: a plan that [editPlan]
    returned in an earlier round is shown and then dropped. *)
Theorem approvePlan_returns_given_plan
  (plan : Plan) (rounds : list round) (r : ApprovalResult) (log : list shown) :
  approvePlan plan rounds = (Returns r, log) ->
  exists before last after,
    rounds = before ++ last :: after
    /\ Forall (fun u => accepts u = false /\ declines u = false) before
    /\ ((accepts last = true /\ r = approved plan)
        \/ (accepts last = false /\ edits last = false /\ declines last = true
            /\ r = rejected))
    /\ log = PlanTable plan :: flat_map echo before.
Proof.
  unfold approvePlan. destruct (displayPlan plan); [|discriminate].
  intros H. exact (approveLoop_decision _ _ _ _ _ H).
Qed.

Definition draft : Plan :=
  {| summary := "two steps"; tasks := [Dag.task "a" []; Dag.task "b" ["a"]] |}.

Definition reworked : Plan :=
  {| summary := "one step"; tasks := [Dag.task "a" []] |}.

Definition session : list round :=
  [ {| answer := "maybe"; editPlan := None |};
    {| answer := " E "; editPlan := Some reworked |};
    {| answer := "Yes"; editPlan := None |} ].

Lemma approvePlan_returns_given_plan_witness :
  exists before last after,
    session = before ++ last :: after
    /\ Forall (fun u => accepts u = false /\ declines u = false) before
    /\ ((accepts last = true /\ approved draft = approved draft)
        \/ (accepts last = false /\ edits last = false /\ declines last = true
            /\ approved draft = rejected))
    /\ [PlanTable draft; InvalidChoice; PlanUpdated; PlanTable reworked]
       = PlanTable draft :: flat_map echo before.
Proof.
  apply (approvePlan_returns_given_plan draft session (approved draft)
           [PlanTable draft; InvalidChoice; PlanUpdated; PlanTable reworked]).
  vm_compute. reflexivity.
Defined.

End ApprovalFacts.

(** ** Scheduling *)

Module SchedulerFacts.
Import JS Client Run Run.Notations Executor ExecutorFacts.

Opaque save.

(** *** Counting the running tasks *)

Definition runningCount (ts : list (string * TaskExecution)) : nat :=
  length (List.filter (hasStatus running) (map snd ts)).

Definition runCount (s : ProjectState * World) : nat :=
  runningCount (tasks_of (fst s)).

Lemma runningCount_cons k e ts :
  runningCount ((k, e) :: ts)
  = (if hasStatus running e then 1 else 0) + runningCount ts.
Proof. unfold runningCount. cbn. destruct (hasStatus running e); reflexivity. Qed.

Lemma runningCount_updateTask k f ts :
  runningCount (updateTask k f ts) <= S (runningCount ts)
  /\ ((forall e, status (f e) = running -> status e = running) ->
      runningCount (updateTask k f ts) <= runningCount ts).
Proof.
  induction ts as [|[k' e] ts [IH1 IH2]]; [cbn; auto|].
  cbn [updateTask]. destruct (String.eqb k k').
  - rewrite !runningCount_cons. split.
    + destruct (hasStatus running (f e)), (hasStatus running e); lia.
    + intros Hf. unfold hasStatus.
      destruct (decide (status (f e) = running)) as [Hr|Hr].
      * rewrite (bool_decide_eq_true_2 _ Hr), (bool_decide_eq_true_2 _ (Hf e Hr)). lia.
      * rewrite (bool_decide_eq_false_2 _ Hr). lia.
  - rewrite !runningCount_cons. split; [lia|]. intros Hf. specialize (IH2 Hf). lia.
Qed.

Lemma runningCount_map f ts :
  (forall e, status (f e) = running -> status e = running) ->
  runningCount (map (fun kv => (fst kv, f (snd kv))) ts) <= runningCount ts.
Proof.
  intros Hf. induction ts as [|[k e] ts IH]; [reflexivity|].
  cbn [map fst snd]. rewrite !runningCount_cons. unfold hasStatus.
  destruct (decide (status (f e) = running)) as [Hr|Hr].
  - rewrite (bool_decide_eq_true_2 _ Hr), (bool_decide_eq_true_2 _ (Hf e Hr)). lia.
  - rewrite (bool_decide_eq_false_2 _ Hr). lia.
Qed.

Lemma runningCount_perm ts ts' :
  Permutation ts ts' -> runningCount ts = runningCount ts'.
Proof.
  induction 1 as [|[k e] ts ts' _ IH|[k1 e1] [k2 e2] ts|ts1 ts2 ts3 _ IH1 _ IH2].
  - reflexivity.
  - rewrite !runningCount_cons, IH. reflexivity.
  - rewrite !runningCount_cons. lia.
  - congruence.
Qed.

Lemma insertIndex_perm n kv ts : Permutation (insertIndex n kv ts) (kv :: ts).
Proof.
  induction ts as [|kv' ts IH]; [reflexivity|]. cbn [insertIndex].
  destruct (arrayIndex (fst kv')) as [m|]; [|reflexivity].
  destruct (m <? n)%N; [|reflexivity].
  rewrite IH. apply perm_swap.
Qed.

(** A new key takes a place that depends on its form; which entries
    there are does not. *)
Lemma addTask_perm k e ts : Permutation (addTask k e ts) ((k, e) :: ts).
Proof.
  unfold addTask. destruct (arrayIndex k) as [n|]; [apply insertIndex_perm|].
  symmetry. apply Permutation_cons_append.
Qed.

Lemma runningCount_initTasks planTasks : forall ts,
  runningCount (initTasks planTasks ts) = runningCount ts.
Proof.
  induction planTasks as [|t rest IH]; intros ts; [reflexivity|].
  cbn [initTasks]. destruct (isTracked (id t) ts); [apply IH|].
  rewrite IH, (runningCount_perm _ _ (addTask_perm _ _ _)), runningCount_cons.
  reflexivity.
Qed.

(** *** A bound on the running tasks through a computation *)

(** From a state with at most [n] running tasks, [c] ends, however it
    ends, in a state with at most [m]. *)
Definition within {A} (c : M A) (n m : nat) : Prop :=
  forall s, runCount s <= n -> runCount (snd (c s)) <= m.

Lemma within_weaken {A} (c : M A) n m n' m' :
  within c n m -> n' <= n -> m <= m' -> within c n' m'.
Proof. intros H Hn Hm s Hs. specialize (H s ltac:(lia)). lia. Qed.

Lemma within_ret {A} (a : A) n : within (ret a) n n.
Proof. intros s Hs. exact Hs. Qed.

Lemma within_throw {A} e n : within (@throw A e) n n.
Proof. intros s Hs. exact Hs. Qed.

Lemma within_outOfFuel {A} n : within (@outOfFuel A) n n.
Proof. intros s Hs. exact Hs. Qed.

Lemma within_bind {A B} (c : M A) (k : A -> M B) n m m' :
  within c n m -> (forall a, within (k a) m m') -> m <= m' ->
  within (bind c k) n m'.
Proof.
  intros Hc Hk Hm s Hs. unfold bind. specialize (Hc s Hs).
  destruct (c s) as [[a| |] s1]; cbn [snd] in *; [exact (Hk a s1 Hc)|lia|lia].
Qed.

Lemma within_tryCatch {A} (c : M A) (h : string -> M A) n m m' :
  within c n m -> (forall e, within (h e) m m') -> m <= m' ->
  within (tryCatch c h) n m'.
Proof.
  intros Hc Hh Hm s Hs. unfold tryCatch. specialize (Hc s Hs).
  destruct (c s) as [[a| |] s1]; cbn [snd] in *; [lia|exact (Hh _ s1 Hc)|lia].
Qed.

Lemma within_getState {A} (k : ProjectState -> M A) n m :
  (forall p, within (k p) n m) -> within (bind getState k) n m.
Proof. intros Hk s Hs. unfold bind, getState. exact (Hk (fst s) s Hs). Qed.

Lemma within_modify f n d :
  (forall p, runningCount (tasks_of (f p)) <= runningCount (tasks_of p) + d) ->
  within (modify f) n (n + d).
Proof.
  intros Hf s Hs. unfold modify, runCount in *. cbn [snd fst].
  specialize (Hf (fst s)). lia.
Qed.

Lemma within_save env n : within (save env) n n.
Proof. intros [p w] Hs. rewrite IntegratorFacts.save_eq. exact Hs. Qed.

Lemma within_request {A} c (answer : nat -> result A) n : within (request c answer) n n.
Proof. intros s Hs. unfold request. destruct (answer _); exact Hs. Qed.

Lemma within_dateNow env n : within (dateNow env) n n.
Proof. intros s Hs. exact Hs. Qed.

Lemma within_getSession env n : within (getSession env) n n.
Proof.
  unfold getSession. eapply within_bind; [apply within_request| |reflexivity].
  intros a. apply within_ret.
Qed.

Lemma within_onTask_up k f n : within (onTask k f) n (S n).
Proof.
  unfold onTask. eapply within_weaken; [apply (within_modify _ n 1)|reflexivity|lia].
  intros p. unfold set_tasks. cbn [tasks_of].
  pose proof (proj1 (runningCount_updateTask k f (tasks_of p))). lia.
Qed.

Lemma within_onTask k f n :
  (forall e, status (f e) = running -> status e = running) ->
  within (onTask k f) n n.
Proof.
  intros Hf. unfold onTask.
  eapply within_weaken; [apply (within_modify _ n 0)|reflexivity|lia].
  intros p. unfold set_tasks. cbn [tasks_of].
  pose proof (proj2 (runningCount_updateTask k f (tasks_of p)) Hf). lia.
Qed.

Ltac steady := apply within_onTask; intros e; cbn; (congruence || tauto).

Lemma within_spawnTask env task n : within (spawnTask env task) n (S n).
Proof.
  unfold spawnTask, spawnTaskWith. apply within_getState. intros p.
  destruct (lookupTask (id task) (tasks_of p));
    [|eapply within_weaken; [apply within_throw|reflexivity|lia]].
  eapply within_bind; [apply within_onTask_up| |reflexivity]. intros _.
  eapply within_bind; [apply within_dateNow| |reflexivity]. intros started.
  eapply within_bind; [steady| |reflexivity]. intros _.
  eapply within_tryCatch; [| |reflexivity].
  - eapply within_bind; [apply within_request| |reflexivity]. intros sid.
    eapply within_bind; [steady| |reflexivity]. intros _.
    eapply within_bind; [steady| |reflexivity]. intros _.
    eapply within_bind; [apply within_save| |reflexivity]. intros _.
    apply within_request.
  - intros msg.
    eapply within_bind; [steady| |reflexivity]. intros _.
    eapply within_bind; [steady| |reflexivity]. intros _.
    eapply within_bind; [apply within_dateNow| |reflexivity]. intros finished.
    eapply within_bind; [steady| |reflexivity]. intros _.
    apply within_save.
Qed.

Lemma within_pollTask env k exec n : within (pollTask env k exec) n n.
Proof.
  unfold pollTask. destruct (sessionId exec) as [sid|]; [|apply within_ret].
  destruct (String.eqb sid EmptyString); [apply within_ret|].
  eapply within_tryCatch; [| |reflexivity]; [|intros e; apply within_ret].
  eapply within_bind; [apply within_getSession| |reflexivity]. intros session.
  destruct (_ || _); [apply within_ret|].
  eapply within_bind; [apply within_request| |reflexivity]. intros events.
  destruct (_ && _); [apply within_ret|].
  eapply within_bind; [| |reflexivity].
  { destruct (Integrator.truthyStr _); [steady|apply within_ret]. }
  intros _. eapply within_bind; [steady| |reflexivity]. intros _.
  eapply within_bind; [| |reflexivity].
  { destruct (hasError _); [|steady].
    eapply within_bind; [steady| |reflexivity]. intros _. steady. }
  intros _. eapply within_bind; [apply within_dateNow| |reflexivity]. intros finished.
  eapply within_bind; [steady| |reflexivity]. intros _.
  apply within_save.
Qed.

Lemma within_forEach_up {A} (f : A -> M unit) (xs : list A) :
  (forall x n, within (f x) n (S n)) ->
  forall n, within (forEach f xs) n (n + length xs).
Proof.
  intros Hf. induction xs as [|x xs IH]; intros n; cbn [forEach length].
  - rewrite Nat.add_0_r. apply within_ret.
  - eapply within_bind; [apply Hf| |lia]. intros _.
    eapply within_weaken; [apply (IH (S n))|reflexivity|lia].
Qed.

Lemma within_forEach {A} (f : A -> M unit) (xs : list A) n :
  (forall x, within (f x) n n) -> within (forEach f xs) n n.
Proof.
  intros Hf. induction xs as [|x xs IH]; cbn [forEach]; [apply within_ret|].
  eapply within_bind; [apply Hf| |reflexivity]. intros _. exact IH.
Qed.

(** *** The tasks selected for spawning *)

Lemma length_slice0 {A} (xs : list A) (n : Z) :
  (0 <= n)%Z -> (Z.of_nat (length (slice0 xs n)) <= n)%Z.
Proof.
  intros Hn. unfold slice0. destruct (n <? 0)%Z eqn:Hneg; [apply Z.ltb_lt in Hneg; lia|].
  rewrite length_take. lia.
Qed.

Lemma toSpawnOf_slots_aux tm maxParallel ts toSpawn :
  toSpawnOf tm maxParallel ts = Some toSpawn ->
  (Z.of_nat (runningCount ts) <= maxParallel)%Z ->
  runningCount ts + length toSpawn <= Z.to_nat maxParallel.
Proof.
  unfold toSpawnOf. fold (runningCount ts).
  destruct (readyOf tm ts _) as [ready|]; [|discriminate]. intros [= <-] Hle.
  pose proof (length_slice0 ready (maxParallel - Z.of_nat (runningCount ts)) ltac:(lia)).
  lia.
Qed.

(** X17.  The tasks that one pass selects are pending tasks whose dependencies
    are all completed or skipped, taken from the front of the ready list.
    With room for [maxParallel - running] more tasks, at most that many
    are selected.  When more tasks are running than [maxParallel] allows
    (a project resumed with a smaller limit), the difference is negative
    and [slice] counts it from the end: all but the last
    [running - maxParallel] ready tasks are still selected. *)
Theorem toSpawnOf_slots
  (tm : gmap string TaskNode) (maxParallel : Z) (ts : list (string * TaskExecution))
  (toSpawn : list TaskExecution) :
  toSpawnOf tm maxParallel ts = Some toSpawn ->
  exists ready,
    readyOf tm ts (List.filter (hasStatus pending) (map snd ts)) = Some ready
    /\ (forall e, In e toSpawn ->
          In e ready /\ status e = pending
          /\ exists task,
               tm !! taskId e = Some task
               /\ forall d, In d (dependsOn task) ->
                    exists dep, lookupTask d ts = Some dep
                                /\ (status dep = completed \/ status dep = skipped))
    /\ ((Z.of_nat (runningCount ts) <= maxParallel)%Z ->
        toSpawn = take (Z.to_nat (maxParallel - Z.of_nat (runningCount ts))) ready
        /\ (Z.of_nat (length toSpawn + runningCount ts) <= maxParallel)%Z)
    /\ ((maxParallel < Z.of_nat (runningCount ts))%Z ->
        toSpawn
        = take (length ready - Z.to_nat (Z.of_nat (runningCount ts) - maxParallel)) ready).
Proof.
  unfold toSpawnOf. fold (runningCount ts).
  destruct (readyOf tm ts _) as [ready|] eqn:Hr; [|discriminate].
  intros [= <-]. exists ready. split; [reflexivity|]. split; [|split].
  - intros e He. apply slice0_incl in He.
    destruct (readyOf_sound _ _ _ _ _ Hr He) as [Hp Hready].
    apply filter_In in Hp as [_ Hp]. apply bool_decide_eq_true in Hp.
    split; [exact He|]. split; [exact Hp|].
    unfold isReady in Hready. destruct (tm !! taskId e) as [task|]; [|discriminate].
    exists task. split; [reflexivity|]. intros d Hd.
    injection Hready as Hall. rewrite forallb_forall in Hall.
    apply depSatisfied_iff. exact (Hall d Hd).
  - intros Hle. split.
    + unfold slice0. destruct (_ <? 0)%Z eqn:Hneg; [apply Z.ltb_lt in Hneg; lia|].
      reflexivity.
    + pose proof (length_slice0 ready (maxParallel - Z.of_nat (runningCount ts))
                    ltac:(lia)). lia.
  - intros Hlt. unfold slice0.
    destruct (_ <? 0)%Z eqn:Hneg; [|apply Z.ltb_ge in Hneg; lia].
    f_equal. lia.
Qed.

(** Four tasks are running under a limit of three and two tasks are
    ready: one more is started. *)
Definition overLimit : list (string * TaskExecution) :=
  [("r1", with_status running (freshExecution "r1"));
   ("r2", with_status running (freshExecution "r2"));
   ("r3", with_status running (freshExecution "r3"));
   ("r4", with_status running (freshExecution "r4"));
   ("a", freshExecution "a"); ("b", freshExecution "b")].

Definition overLimitMap : gmap string TaskNode :=
  Dag.taskMap [Dag.task "r1" []; Dag.task "r2" []; Dag.task "r3" []; Dag.task "r4" [];
               Dag.task "a" []; Dag.task "b" []].

Lemma toSpawnOf_slots_witness :
  exists ready,
    readyOf overLimitMap overLimit (List.filter (hasStatus pending) (map snd overLimit))
    = Some ready
    /\ (forall e, In e [freshExecution "a"] ->
          In e ready /\ status e = pending
          /\ exists task,
               overLimitMap !! taskId e = Some task
               /\ forall d, In d (dependsOn task) ->
                    exists dep, lookupTask d overLimit = Some dep
                                /\ (status dep = completed \/ status dep = skipped))
    /\ ((Z.of_nat (runningCount overLimit) <= 3)%Z ->
        [freshExecution "a"]
        = take (Z.to_nat (3 - Z.of_nat (runningCount overLimit))) ready
        /\ (Z.of_nat (length [freshExecution "a"] + runningCount overLimit) <= 3)%Z)
    /\ ((3 < Z.of_nat (runningCount overLimit))%Z ->
        [freshExecution "a"]
        = take (length ready - Z.to_nat (Z.of_nat (runningCount overLimit) - 3)) ready).
Proof.
  apply (toSpawnOf_slots overLimitMap 3 overLimit [freshExecution "a"]).
  vm_compute. reflexivity.
Defined.

(** *** Bounded concurrency *)

Definition bounded (maxParallel : Z) (s : ProjectState * World) : Prop :=
  (Z.of_nat (runCount s) <= maxParallel)%Z.

Lemma bounded_within {A} (c : M A) maxParallel s :
  bounded maxParallel s ->
  within c (runCount s) (Z.to_nat maxParallel) ->
  bounded maxParallel (snd (c s)).
Proof.
  unfold bounded. intros Hb Hw. specialize (Hw s (Nat.le_refl _)). lia.
Qed.

Lemma skipPending_steady e : status (skipPending e) = running -> status e = running.
Proof.
  unfold skipPending, hasStatus. destruct (decide (status e = pending)) as [Hp|Hp].
  - rewrite (bool_decide_eq_true_2 _ Hp). cbn. discriminate.
  - rewrite (bool_decide_eq_false_2 _ Hp). tauto.
Qed.

Lemma iteration_bounded env tm maxParallel s :
  bounded maxParallel s -> bounded maxParallel (snd (iteration env tm maxParallel s)).
Proof.
  intros Hb. unfold iteration, bind at 1, getState. cbn [fst snd].
  destruct (toSpawnOf tm maxParallel (tasks_of (fst s))) as [toSpawn|] eqn:Hsp;
    [|exact Hb].
  pose proof (toSpawnOf_slots_aux tm maxParallel (tasks_of (fst s)) toSpawn Hsp Hb) as Hlen.
  fold (runCount s) in Hlen.
  apply (bounded_within _ _ _ Hb).
  set (N := Z.to_nat maxParallel).
  eapply within_bind; [apply (within_forEach_up _ toSpawn)| |].
  - intros exec n. destruct (tm !! taskId exec); [apply within_spawnTask|].
    eapply within_weaken; [apply within_throw|reflexivity|lia].
  - intros _. eapply (within_weaken _ N N); [|exact Hlen|reflexivity].
    destruct (_ && _).
    + eapply within_bind; [| |reflexivity]; [|intros _; apply within_ret].
      destruct (0 <? _); [|apply within_ret].
      eapply within_bind; [| |reflexivity]; [|intros _; apply within_save].
      eapply within_weaken; [apply (within_modify _ N 0)|reflexivity|lia].
      intros q. unfold set_tasks. cbn [tasks_of].
      pose proof (runningCount_map skipPending (tasks_of q) skipPending_steady). lia.
    + apply within_getState. intros q.
      eapply within_bind; [| |reflexivity].
      * apply within_forEach. intros kv. apply within_pollTask.
      * intros _. eapply within_bind; [apply within_save| |reflexivity].
        intros _. apply within_ret.
  - exact Hlen.
Qed.

Lemma loop_bounded env tm maxParallel fuel : forall s,
  bounded maxParallel s -> bounded maxParallel (snd (loop env tm maxParallel fuel s)).
Proof.
  induction fuel as [|fuel IH]; intros s Hb; [exact Hb|].
  cbn [loop]. unfold bind. pose proof (iteration_bounded env tm maxParallel s Hb) as Hit.
  destruct (iteration env tm maxParallel s) as [[[|]| |] s1]; cbn [snd] in *;
    [apply IH; exact Hit|exact Hit..].
Qed.

(** X18.  The scheduler never has more sessions running than [maxParallel]
    allows: if at most that many tasks are running in the state it is
    started from, then at most that many are running after every pass of
    its loop, and in the state in which [runExecution] ends, however it
    ends. *)
Theorem runExecution_bounded_concurrency
  (env : Env) (maxParallel : option Z) (fuel : nat) (s : ProjectState * World) :
  let limit := default DEFAULT_MAX_PARALLEL maxParallel in
  bounded limit s ->
  (forall tm s1, bounded limit s1 -> bounded limit (snd (iteration env tm limit s1)))
  /\ (forall tm n s1, bounded limit s1 -> bounded limit (snd (loop env tm limit n s1)))
  /\ bounded limit (snd (runExecution env maxParallel fuel s)).
Proof.
  intros limit Hb.
  split; [intros tm s1; apply iteration_bounded|].
  split; [intros tm n s1; apply loop_bounded|].
  unfold runExecution, bind at 1, getState. cbn [fst snd].
  unfold bind at 1, modify. cbn [fst snd].
  destruct s as [p w]. cbn [fst snd] in *. unfold bind at 1.
  rewrite IntegratorFacts.save_eq.
  destruct (plan p) as [pl|]; [|exact Hb].
  unfold bind at 1, modify. cbn [fst snd]. unfold bind at 1.
  rewrite IntegratorFacts.save_eq.
  match goal with
  | |- bounded _ (snd (bind _ _ ?s0)) => assert (Hb0 : bounded limit s0)
  end.
  { unfold bounded, runCount in *.
    cbn [fst tasks_of Store.set_updatedAt set_tasks set_phase] in *.
    rewrite runningCount_initTasks. exact Hb. }
  unfold bind at 1. fold limit.
  pose proof (loop_bounded env (Dag.taskMap (tasks pl)) limit fuel _ Hb0) as Hl.
  destruct (loop env (Dag.taskMap (tasks pl)) limit fuel _) as [[[]| |] s1];
    cbn [snd] in *; [|exact Hl..].
  unfold bind at 1, getState. cbn [fst snd].
  destruct (_ && _); [|exact Hl].
  unfold bind at 1, modify. cbn [fst snd]. unfold bind at 1. destruct s1 as [p1 w1].
  rewrite IntegratorFacts.save_eq. exact Hl.
Qed.

Lemma runExecution_bounded_concurrency_witness :
  let env := IntegratorFacts.sampleEnv [] [] in
  let s := (resumed, IntegratorFacts.world0) in
  (forall tm s1, bounded 3 s1 -> bounded 3 (snd (iteration env tm 3 s1)))
  /\ (forall tm n s1, bounded 3 s1 -> bounded 3 (snd (loop env tm 3 n s1)))
  /\ bounded 3 (snd (runExecution env None 4 s)).
Proof.
  intros env s. apply (runExecution_bounded_concurrency env None 4 s).
  unfold bounded. vm_compute. discriminate.
Defined.

(** *** The state in which the loop ends *)

Definition settled (ts : list (string * TaskExecution)) : Prop :=
  forall k e, In (k, e) ts ->
    status e = completed \/ status e = failed \/ status e = skipped.

Lemma filter_nil_status st (ts : list (string * TaskExecution)) :
  length (List.filter (hasStatus st) (map snd ts)) = 0 ->
  forall k e, In (k, e) ts -> status e <> st.
Proof.
  intros Hlen k e Hin Hst. apply length_zero_iff_nil in Hlen.
  assert (H : In e (List.filter (hasStatus st) (map snd ts))).
  { apply filter_In. split; [apply (in_map snd _ (k, e)); exact Hin|].
    apply bool_decide_eq_true. exact Hst. }
  rewrite Hlen in H. destruct H.
Qed.

Lemma iteration_false env tm maxParallel s s' :
  iteration env tm maxParallel s = (Return false, s') -> settled (tasks_of (fst s')).
Proof.
  unfold iteration, bind at 1, getState. cbn [fst snd].
  destruct (toSpawnOf tm maxParallel (tasks_of (fst s))) as [toSpawn|]; [|discriminate].
  set (execs := map snd (tasks_of (fst s))).
  destruct ((length (List.filter (hasStatus running) execs) =? 0)
            && (length toSpawn =? 0)) eqn:Hquiet.
  - apply andb_true_iff in Hquiet as [Hrun Hnone].
    apply Nat.eqb_eq in Hrun, Hnone. apply length_zero_iff_nil in Hnone. subst toSpawn.
    cbn [forEach]. unfold bind at 1, ret at 1.
    pose proof (filter_nil_status running (tasks_of (fst s)) Hrun) as Hnorun.
    destruct (0 <? length (List.filter (hasStatus pending) execs)) eqn:Hpend.
    + unfold bind, modify, ret. cbn [fst snd]. destruct s as [p w]. cbn [fst snd] in *.
      rewrite IntegratorFacts.save_eq. intros [= <-]. cbn [fst].
      unfold set_tasks. cbn [tasks_of Store.set_updatedAt].
      intros k e Hin. apply in_map_iff in Hin as ([k0 e0] & [= <- <-] & Hin0).
      cbn [fst snd]. pose proof (Hnorun k0 e0 Hin0) as Hnr.
      unfold skipPending, hasStatus.
      destruct (decide (status e0 = pending)) as [Hp|Hp].
      * rewrite (bool_decide_eq_true_2 _ Hp). cbn. auto.
      * rewrite (bool_decide_eq_false_2 _ Hp). destruct (status e0); tauto.
    + unfold bind, ret. intros [= <-]. apply Nat.ltb_ge in Hpend.
      assert (Hp0 : length (List.filter (hasStatus pending) execs) = 0) by lia.
      pose proof (filter_nil_status pending (tasks_of (fst s)) Hp0) as Hnopend.
      intros k e Hin. specialize (Hnorun k e Hin). specialize (Hnopend k e Hin).
      destruct (status e); tauto.
  - intros H. apply PlanningFacts.bind_Return in H as (a & s1 & _ & H).
    unfold bind at 1, getState in H.
    apply PlanningFacts.bind_Return in H as (a1 & s2 & _ & H).
    apply PlanningFacts.bind_Return in H as (a2 & s3 & _ & H).
    discriminate H.
Qed.

Lemma loop_settled env tm maxParallel fuel : forall s s',
  loop env tm maxParallel fuel s = (Return tt, s') -> settled (tasks_of (fst s')).
Proof.
  induction fuel as [|fuel IH]; intros s s' H; [discriminate|].
  cbn [loop] in H. apply PlanningFacts.bind_Return in H as (continue & s1 & Hit & H).
  destruct continue; [exact (IH s1 s' H)|].
  injection H as <-. exact (iteration_false _ _ _ _ _ Hit).
Qed.

(** *** What the scheduler leaves alone *)

Section keeps.
Variable I : ProjectState -> Prop.
Hypothesis I_stamp : forall t p, I p -> I (Store.set_updatedAt t p).
Hypothesis I_tasks : forall ts p,
  I p -> map fst ts = map fst (tasks_of p) -> I (set_tasks ts p).

(** [c] ends, however it ends, in a project that satisfies [I] when it
    starts in one. *)
Definition keeps {A} (c : M A) : Prop :=
  forall s, I (fst s) -> I (fst (snd (c s))).

Lemma keeps_ret {A} (a : A) : keeps (ret a).
Proof. intros s Hs. exact Hs. Qed.

Lemma keeps_throw {A} e : keeps (@throw A e).
Proof. intros s Hs. exact Hs. Qed.

Lemma keeps_bind {A B} (c : M A) (k : A -> M B) :
  keeps c -> (forall a, keeps (k a)) -> keeps (bind c k).
Proof.
  intros Hc Hk s Hs. unfold bind. specialize (Hc s Hs).
  destruct (c s) as [[a| |] s1]; cbn [snd] in *; [exact (Hk a s1 Hc)|exact Hc..].
Qed.

Lemma keeps_tryCatch {A} (c : M A) (h : string -> M A) :
  keeps c -> (forall e, keeps (h e)) -> keeps (tryCatch c h).
Proof.
  intros Hc Hh s Hs. unfold tryCatch. specialize (Hc s Hs).
  destruct (c s) as [[a| |] s1]; cbn [snd] in *; [exact Hc|exact (Hh _ s1 Hc)|exact Hc].
Qed.

Lemma keeps_getState {A} (k : ProjectState -> M A) :
  (forall p, keeps (k p)) -> keeps (bind getState k).
Proof. intros Hk s Hs. unfold bind, getState. exact (Hk (fst s) s Hs). Qed.

Lemma keeps_save env : keeps (save env).
Proof. intros [p w] Hs. rewrite IntegratorFacts.save_eq. apply I_stamp. exact Hs. Qed.

Lemma keeps_request {A} c (answer : nat -> result A) : keeps (request c answer).
Proof. intros s Hs. unfold request. destruct (answer _); exact Hs. Qed.

Lemma keeps_dateNow env : keeps (dateNow env).
Proof. intros s Hs. exact Hs. Qed.

Lemma keeps_getSession env : keeps (getSession env).
Proof.
  unfold getSession. apply keeps_bind; [apply keeps_request|]. intros a. apply keeps_ret.
Qed.

Lemma keys_updateTask k f ts : map fst (updateTask k f ts) = map fst ts.
Proof.
  induction ts as [|[k' e] ts IH]; [reflexivity|]. cbn [updateTask].
  destruct (String.eqb k k'); cbn [map fst]; [reflexivity|]. rewrite IH. reflexivity.
Qed.

Lemma keeps_onTask k f : keeps (onTask k f).
Proof.
  intros s Hs. unfold onTask, modify. cbn [fst snd].
  apply I_tasks; [exact Hs|]. apply keys_updateTask.
Qed.

Lemma keeps_spawnTask env task : keeps (spawnTask env task).
Proof.
  unfold spawnTask, spawnTaskWith. apply keeps_getState. intros p.
  destruct (lookupTask (id task) (tasks_of p)); [|apply keeps_throw].
  repeat first
    [ apply keeps_onTask | apply keeps_dateNow | apply keeps_save | apply keeps_request
    | apply keeps_bind; [|intros ?] | apply keeps_tryCatch; [|intros ?] ].
Qed.

Lemma keeps_pollTask env k exec : keeps (pollTask env k exec).
Proof.
  unfold pollTask. destruct (sessionId exec) as [sid|]; [|apply keeps_ret].
  destruct (String.eqb sid EmptyString); [apply keeps_ret|].
  apply keeps_tryCatch; [|intros e; apply keeps_ret].
  apply keeps_bind; [apply keeps_getSession|]. intros session.
  destruct (_ || _); [apply keeps_ret|].
  apply keeps_bind; [apply keeps_request|]. intros events.
  destruct (_ && _); [apply keeps_ret|].
  apply keeps_bind; [destruct (Integrator.truthyStr _); [apply keeps_onTask|apply keeps_ret]|].
  intros _. apply keeps_bind; [apply keeps_onTask|]. intros _.
  apply keeps_bind.
  { destruct (hasError _); [|apply keeps_onTask].
    apply keeps_bind; [apply keeps_onTask|]. intros _. apply keeps_onTask. }
  intros _. apply keeps_bind; [apply keeps_dateNow|]. intros finished.
  apply keeps_bind; [apply keeps_onTask|]. intros _. apply keeps_save.
Qed.

Lemma keeps_forEach {A} (f : A -> M unit) (xs : list A) :
  (forall x, keeps (f x)) -> keeps (forEach f xs).
Proof.
  intros Hf. induction xs as [|x xs IH]; cbn [forEach]; [apply keeps_ret|].
  apply keeps_bind; [apply Hf|]. intros _. exact IH.
Qed.

Lemma keeps_iteration env tm maxParallel : keeps (iteration env tm maxParallel).
Proof.
  unfold iteration. apply keeps_getState. intros p.
  destruct (toSpawnOf tm maxParallel (tasks_of p)) as [toSpawn|]; [|apply keeps_throw].
  apply keeps_bind.
  { apply keeps_forEach. intros exec.
    destruct (tm !! taskId exec); [apply keeps_spawnTask|apply keeps_throw]. }
  intros _. destruct (_ && _).
  - apply keeps_bind; [|intros _; apply keeps_ret].
    destruct (0 <? _); [|apply keeps_ret].
    apply keeps_bind; [|intros _; apply keeps_save].
    intros s Hs. unfold modify. cbn [fst snd]. apply I_tasks; [exact Hs|].
    rewrite List.map_map. reflexivity.
  - apply keeps_getState. intros q.
    apply keeps_bind; [apply keeps_forEach; intros kv; apply keeps_pollTask|].
    intros _. apply keeps_bind; [apply keeps_save|]. intros _. apply keeps_ret.
Qed.

Lemma keeps_loop env tm maxParallel fuel : keeps (loop env tm maxParallel fuel).
Proof.
  induction fuel as [|fuel IH]; [intros s Hs; exact Hs|].
  cbn [loop]. apply keeps_bind; [apply keeps_iteration|].
  intros [|]; [exact IH|apply keeps_ret].
Qed.

End keeps.

(** *** Tracking the tasks of the plan *)

Lemma lookupTask_In k ts e : lookupTask k ts = Some e -> In (k, e) ts.
Proof.
  induction ts as [|[k' e'] ts IH]; [discriminate|]. cbn [lookupTask].
  destruct (String.eqb k k') eqn:Hk.
  - apply String.eqb_eq in Hk. intros [= ->]. left. congruence.
  - intros H. right. exact (IH H).
Qed.

Lemma lookupTask_None k ts : lookupTask k ts = None <-> ~ In k (map fst ts).
Proof.
  induction ts as [|[k' e'] ts IH]; [cbn; tauto|]. cbn [lookupTask map fst In].
  destruct (String.eqb k k') eqn:Hk.
  - apply String.eqb_eq in Hk. split; [discriminate|]. intros H. contradict H. auto.
  - apply String.eqb_neq in Hk. rewrite IH. split; [intros H [?|?]; [congruence|tauto]|tauto].
Qed.

Lemma lookupTask_NoDup k e ts :
  NoDup (map fst ts) -> In (k, e) ts -> lookupTask k ts = Some e.
Proof.
  induction ts as [|[k' e'] ts IH]; [intros _ []|]. cbn [map fst lookupTask].
  intros Hnd Hin. apply NoDup_cons in Hnd as [Hk' Hnd].
  destruct Hin as [[= -> ->]|Hin]; [rewrite String.eqb_refl; reflexivity|].
  destruct (String.eqb k k') eqn:Hk; [|exact (IH Hnd Hin)].
  apply String.eqb_eq in Hk. subst k'. exfalso. apply Hk'.
  apply list_elem_of_In. exact (in_map fst _ _ Hin).
Qed.

Lemma lookupTask_perm k ts ts' :
  NoDup (map fst ts) -> Permutation ts ts' -> lookupTask k ts' = lookupTask k ts.
Proof.
  intros Hnd Hp.
  assert (Hnd' : NoDup (map fst ts')).
  { rewrite <- (Permutation_map fst Hp). exact Hnd. }
  destruct (lookupTask k ts) as [e|] eqn:He.
  - apply lookupTask_NoDup; [exact Hnd'|].
    eapply Permutation_in; [exact Hp|]. exact (lookupTask_In _ _ _ He).
  - apply lookupTask_None. apply lookupTask_None in He. intros Hin. apply He.
    eapply Permutation_in; [|exact Hin]. symmetry. exact (Permutation_map fst Hp).
Qed.

(** [state.tasks[k']] after [state.tasks[k] = e] for a new key [k]. *)
Lemma lookupTask_addTask k' k e ts :
  lookupTask k ts = None ->
  lookupTask k' (addTask k e ts)
  = if String.eqb k' k then Some e else lookupTask k' ts.
Proof.
  intros Hnew. unfold addTask. destruct (arrayIndex k) as [n|].
  - induction ts as [|[k0 e0] ts IH]; [reflexivity|].
    cbn [lookupTask] in Hnew. destruct (String.eqb k k0) eqn:Hk0; [discriminate|].
    cbn [insertIndex fst]. destruct (arrayIndex k0) as [m|]; [|reflexivity].
    destruct (m <? n)%N; [|reflexivity].
    cbn [lookupTask]. rewrite (IH Hnew).
    destruct (String.eqb k' k) eqn:Hk; [|reflexivity].
    apply String.eqb_eq in Hk. subst k'. rewrite Hk0. reflexivity.
  - induction ts as [|[k0 e0] ts IH]; [reflexivity|].
    cbn [lookupTask] in Hnew. destruct (String.eqb k k0) eqn:Hk0; [discriminate|].
    cbn [app lookupTask]. rewrite (IH Hnew).
    destruct (String.eqb k' k) eqn:Hk; [|reflexivity].
    apply String.eqb_eq in Hk. subst k'. rewrite Hk0. reflexivity.
Qed.

Definition isInherited (k : string) : bool := existsb (String.eqb k) inherited.

Lemma isInherited_In k : isInherited k = true <-> In k inherited.
Proof.
  unfold isInherited. rewrite existsb_exists. split.
  - intros (x & Hx & Hk). apply String.eqb_eq in Hk. subst x. exact Hx.
  - intros Hin. exists k. split; [exact Hin|apply String.eqb_refl].
Qed.

Lemma isTracked_true k ts :
  isTracked k ts = true <-> is_Some (lookupTask k ts) \/ In k inherited.
Proof.
  unfold isTracked. destruct (lookupTask k ts) as [e|].
  - split; [eauto|reflexivity].
  - fold (isInherited k). rewrite isInherited_In. split; [auto|].
    intros [[e He]|Hin]; [discriminate|exact Hin].
Qed.

Lemma initTasks_keeps planTasks : forall ts k e,
  lookupTask k ts = Some e -> lookupTask k (initTasks planTasks ts) = Some e.
Proof.
  induction planTasks as [|t rest IH]; intros ts k e H; [exact H|].
  cbn [initTasks]. destruct (isTracked (id t) ts) eqn:Ht; [exact (IH _ _ _ H)|].
  apply IH. rewrite lookupTask_addTask.
  - destruct (String.eqb k (id t)) eqn:Hk; [|exact H].
    apply String.eqb_eq in Hk. subst k. unfold isTracked in Ht. rewrite H in Ht.
    discriminate.
  - unfold isTracked in Ht. destruct (lookupTask (id t) ts); [discriminate|reflexivity].
Qed.

Lemma initTasks_fresh planTasks : forall ts k,
  lookupTask k ts = None ->
  (In k (map id planTasks) -> ~ In k inherited ->
   lookupTask k (initTasks planTasks ts) = Some (freshExecution k))
  /\ (~ In k (map id planTasks) \/ In k inherited ->
      lookupTask k (initTasks planTasks ts) = None).
Proof.
  induction planTasks as [|t rest IH]; intros ts k H.
  - cbn [initTasks map]. split; [intros []|intros _; exact H].
  - cbn [initTasks map In].
    assert (Hstep : forall us, lookupTask k us = None -> k <> id t \/ In k inherited ->
                (id t = k \/ In k (map id rest) -> ~ In k inherited ->
                 lookupTask k (initTasks rest us) = Some (freshExecution k))
                /\ (~ (id t = k \/ In k (map id rest)) \/ In k inherited ->
                    lookupTask k (initTasks rest us) = None)).
    { intros us Hus Hk. destruct (IH us k Hus) as [IH1 IH2]. split.
      - intros [?|Hin] Hni; [|exact (IH1 Hin Hni)]. destruct Hk; [congruence|tauto].
      - intros Hn. apply IH2. tauto. }
    destruct (isTracked (id t) ts) eqn:Ht.
    + apply Hstep; [exact H|]. apply isTracked_true in Ht as [[e He]|Hin].
      * left. intros ->. congruence.
      * destruct (decide (k = id t)) as [->|Hne]; auto.
    + assert (Hnone : lookupTask (id t) ts = None).
      { unfold isTracked in Ht. destruct (lookupTask (id t) ts); [discriminate|reflexivity]. }
      assert (Hni : ~ In (id t) inherited).
      { intros Hin. assert (isTracked (id t) ts = true) by (apply isTracked_true; auto).
        congruence. }
      destruct (decide (k = id t)) as [->|Hne].
      * split; [|intros [Hn|Hin]; [contradict Hn; left; reflexivity|contradiction]].
        intros _ _. apply initTasks_keeps. rewrite lookupTask_addTask by exact Hnone.
        rewrite String.eqb_refl. reflexivity.
      * apply Hstep; [|left; exact Hne]. rewrite lookupTask_addTask by exact Hnone.
        apply String.eqb_neq in Hne. rewrite Hne. exact H.
Qed.

Lemma initTasks_covers planTasks ts t :
  In t planTasks -> ~ In (id t) inherited ->
  exists e, lookupTask (id t) (initTasks planTasks ts) = Some e.
Proof.
  intros Ht Hni. destruct (lookupTask (id t) ts) as [e|] eqn:He.
  - exists e. exact (initTasks_keeps _ _ _ _ He).
  - destruct (initTasks_fresh planTasks _ _ He) as [Hin _].
    rewrite Hin by (apply in_map; exact Ht) || exact Hni; eauto.
Qed.

(** Every task of the plan passes the test [state.tasks[task.id]] once
    the executions are initialised. *)
Lemma initTasks_tracked planTasks ts t :
  In t planTasks -> isTracked (id t) (initTasks planTasks ts) = true.
Proof.
  intros Ht. apply isTracked_true.
  destruct (in_dec string_dec (id t) inherited) as [Hin|Hni]; [auto|].
  left. destruct (initTasks_covers planTasks ts t Ht Hni) as [e He]. eauto.
Qed.

Lemma initTasks_same planTasks : forall ts,
  (forall t, In t planTasks -> isTracked (id t) ts = true) ->
  initTasks planTasks ts = ts.
Proof.
  induction planTasks as [|t rest IH]; intros ts H; [reflexivity|]. cbn [initTasks].
  rewrite (H t (or_introl eq_refl)). apply IH.
  intros t' Ht'. apply H. right. exact Ht'.
Qed.

(** The order in which an object enumerates two of its keys: array
    indices in ascending order, and ahead of every other key. *)
Definition keyOrder (k k' : string) : Prop :=
  match arrayIndex k, arrayIndex k' with
  | Some a, Some b => (a <= b)%N
  | None, Some _ => False
  | _, None => True
  end.

(** The table lists its keys as an object enumerates them. *)
Definition enumerated (ts : list (string * TaskExecution)) : Prop :=
  StronglySorted keyOrder (map fst ts).

Lemma keyOrder_trans k1 k2 k3 : keyOrder k1 k2 -> keyOrder k2 k3 -> keyOrder k1 k3.
Proof.
  unfold keyOrder. destruct (arrayIndex k1), (arrayIndex k2), (arrayIndex k3);
    try tauto; lia.
Qed.

Lemma insertIndex_sublist n kv ts : sublist ts (insertIndex n kv ts).
Proof.
  induction ts as [|kv' ts IH]; [apply sublist_cons; constructor|].
  cbn [insertIndex]. destruct (arrayIndex (fst kv')) as [m|];
    [|apply sublist_cons; reflexivity].
  destruct (m <? n)%N; [apply sublist_skip; exact IH|apply sublist_cons; reflexivity].
Qed.

Lemma addTask_sublist k e ts : sublist ts (addTask k e ts).
Proof.
  unfold addTask. destruct (arrayIndex k); [apply insertIndex_sublist|].
  apply sublist_inserts_r. reflexivity.
Qed.

Lemma initTasks_sublist planTasks : forall ts, sublist ts (initTasks planTasks ts).
Proof.
  induction planTasks as [|t rest IH]; intros ts; [reflexivity|].
  cbn [initTasks]. destruct (isTracked (id t) ts); [apply IH|].
  etransitivity; [apply addTask_sublist|apply IH].
Qed.

Lemma insertIndex_enumerated n k e ts :
  arrayIndex k = Some n -> enumerated ts -> enumerated (insertIndex n (k, e) ts).
Proof.
  intros Hk. unfold enumerated. induction ts as [|[k' e'] ts IH]; intros Hs.
  - cbn. constructor; constructor.
  - cbn [insertIndex fst]. cbn [map fst] in Hs.
    apply StronglySorted_inv in Hs as [Hs Hall].
    assert (Hfront : forall m, arrayIndex k' = Some m -> (n <= m)%N ->
              StronglySorted keyOrder (map fst ((k, e) :: (k', e') :: ts))).
    { intros m Hm Hle. cbn [map fst]. constructor; [constructor; assumption|].
      assert (Hkk' : keyOrder k k') by (unfold keyOrder; rewrite Hk, Hm; exact Hle).
      constructor; [exact Hkk'|].
      apply List.Forall_forall. intros k3 Hin. rewrite List.Forall_forall in Hall.
      exact (keyOrder_trans _ _ _ Hkk' (Hall k3 Hin)). }
    destruct (arrayIndex k') as [m|] eqn:Hm.
    + destruct (m <? n)%N eqn:Hlt.
      * apply N.ltb_lt in Hlt. cbn [map fst]. constructor; [exact (IH Hs)|].
        apply List.Forall_forall. intros k3 Hin.
        apply (Permutation_in _ (Permutation_map fst (insertIndex_perm n (k, e) ts)))
          in Hin.
        destruct Hin as [<-|Hin].
        -- unfold keyOrder. cbn [fst]. rewrite Hm, Hk. lia.
        -- rewrite List.Forall_forall in Hall. exact (Hall k3 Hin).
      * apply N.ltb_ge in Hlt. exact (Hfront m eq_refl Hlt).
    + cbn [map fst]. constructor; [constructor; assumption|].
      assert (Hkk' : keyOrder k k') by (unfold keyOrder; rewrite Hk, Hm; exact I).
      constructor; [exact Hkk'|].
      apply List.Forall_forall. intros k3 Hin. rewrite List.Forall_forall in Hall.
      exact (keyOrder_trans _ _ _ Hkk' (Hall k3 Hin)).
Qed.

Lemma append_enumerated k e ts :
  arrayIndex k = None -> enumerated ts -> enumerated (ts ++ [(k, e)]).
Proof.
  intros Hk. unfold enumerated. rewrite map_app. cbn [map fst].
  induction (map fst ts) as [|k' ks IH]; intros Hs.
  - cbn. constructor; constructor.
  - cbn [app]. apply StronglySorted_inv in Hs as [Hs Hall].
    constructor; [exact (IH Hs)|]. apply List.Forall_app. split; [exact Hall|].
    constructor; [|constructor]. unfold keyOrder. rewrite Hk.
    destruct (arrayIndex k'); exact I.
Qed.

Lemma addTask_enumerated k e ts : enumerated ts -> enumerated (addTask k e ts).
Proof.
  unfold addTask. destruct (arrayIndex k) as [n|] eqn:Hk.
  - apply insertIndex_enumerated. exact Hk.
  - apply append_enumerated. exact Hk.
Qed.

Lemma initTasks_enumerated planTasks : forall ts,
  enumerated ts -> enumerated (initTasks planTasks ts).
Proof.
  induction planTasks as [|t rest IH]; intros ts Hs; [exact Hs|].
  cbn [initTasks]. destruct (isTracked (id t) ts); [exact (IH ts Hs)|].
  apply IH. apply addTask_enumerated. exact Hs.
Qed.

(** X19.  The initialisation of [runExecution] keeps every execution already
    recorded (so a resumed project keeps its progress); it adds a fresh
    pending execution for each plan task that has none, unless the id of
    the task names a property that [state.tasks] inherits from
    [Object.prototype], for which [state.tasks[id]] is truthy; it adds
    nothing else; it is idempotent; and it keeps the old entries in
    their order and the table in the order in which an object
    enumerates its keys. *)
Theorem initTasks_tracks (planTasks : list TaskNode) (ts : list (string * TaskExecution)) :
  (forall k e, lookupTask k ts = Some e ->
     lookupTask k (initTasks planTasks ts) = Some e)
  /\ (forall k, lookupTask k ts = None ->
        (In k (map id planTasks) -> ~ In k inherited ->
         lookupTask k (initTasks planTasks ts) = Some (freshExecution k))
        /\ (~ In k (map id planTasks) \/ In k inherited ->
            lookupTask k (initTasks planTasks ts) = None))
  /\ (forall t, In t planTasks -> ~ In (id t) inherited ->
        exists e, lookupTask (id t) (initTasks planTasks ts) = Some e)
  /\ initTasks planTasks (initTasks planTasks ts) = initTasks planTasks ts
  /\ sublist ts (initTasks planTasks ts)
  /\ (enumerated ts -> enumerated (initTasks planTasks ts)).
Proof.
  split; [apply initTasks_keeps|]. split; [apply initTasks_fresh|].
  split; [intros t; apply initTasks_covers|].
  split; [|split; [apply initTasks_sublist|apply initTasks_enumerated]].
  apply initTasks_same. intros t. apply initTasks_tracked.
Qed.

(** Keys that are array indices come first whatever the order of the
    plan; the other new keys follow the old ones in the order of the
    plan; an id that names an inherited property gets no execution. *)
Example initTasks_order :
  map fst (initTasks [Dag.task "b" []; Dag.task "10" []; Dag.task "toString" [];
                      Dag.task "9" []; Dag.task "a" []; Dag.task "07" []]
             [("z", freshExecution "z")])
  = ["9"; "10"; "z"; "b"; "a"; "07"].
Proof. vm_compute. reflexivity. Qed.

(** *** A run that returns *)

Definition tracked (ks : list string) (pl : option Plan) (p : ProjectState) : Prop :=
  map fst (tasks_of p) = ks /\ phase p = phase_executing /\ plan p = pl.

Lemma tracked_loop env tm maxParallel fuel ks pl s :
  tracked ks pl (fst s) -> tracked ks pl (fst (snd (loop env tm maxParallel fuel s))).
Proof.
  apply (keeps_loop (tracked ks pl)).
  - intros t p H. exact H.
  - intros ts p (Hk & Hph & Hpl) Hts. repeat split; [|exact Hph|exact Hpl].
    cbn [set_tasks tasks_of]. congruence.
Qed.

(** X20.  When [runExecution] returns normally, the project is still in phase
    [executing]; the keys of [state.tasks] are those that the
    initialisation leaves, in the same order: the executions recorded
    before and one for each task of the plan that was not yet tracked (a
    task whose id names a property inherited from [Object.prototype]
    counts as tracked and gets none); every execution is completed,
    failed or skipped, in particular that of every plan task whose id is
    no inherited name; and either no task failed or at least one
    completed. *)
Theorem runExecution_returns_settled
  (env : Env) (maxParallel : option Z) (fuel : nat)
  (p p' : ProjectState) (w w' : World) :
  runExecution env maxParallel fuel (p, w) = (Return tt, (p', w')) ->
  exists pl,
    plan p = Some pl /\ plan p' = Some pl
    /\ phase p' = phase_executing
    /\ map fst (tasks_of p') = map fst (initTasks (tasks pl) (tasks_of p))
    /\ (forall t, In t (tasks pl) -> ~ In (id t) inherited ->
          exists e, lookupTask (id t) (tasks_of p') = Some e
                    /\ (status e = completed \/ status e = failed \/ status e = skipped))
    /\ (forall k, In k inherited -> lookupTask k (tasks_of p) = None ->
          lookupTask k (tasks_of p') = None)
    /\ settled (tasks_of p')
    /\ ((forall k e, In (k, e) (tasks_of p') -> status e <> failed)
        \/ exists k e, In (k, e) (tasks_of p') /\ status e = completed).
Proof.
  unfold runExecution, bind at 1, getState. cbn [fst snd].
  unfold bind at 1, modify. cbn [fst snd]. unfold bind at 1.
  rewrite IntegratorFacts.save_eq.
  destruct (plan p) as [pl|] eqn:Hplan; [|discriminate].
  unfold bind at 1, modify. cbn [fst snd]. unfold bind at 1.
  rewrite IntegratorFacts.save_eq.
  match goal with
  | |- bind _ _ ?s0 = _ -> _ => set (start := s0)
  end.
  intros H. apply PlanningFacts.bind_Return in H as ([] & s1 & Hloop & H).
  assert (Htr : tracked (map fst (initTasks (tasks pl) (tasks_of p))) (Some pl) (fst start)).
  { subst start. repeat split. exact Hplan. }
  pose proof (tracked_loop env (Dag.taskMap (tasks pl))
                (default DEFAULT_MAX_PARALLEL maxParallel) fuel _ _ _ Htr) as Hend.
  rewrite Hloop in Hend. cbn [snd] in Hend.
  pose proof (loop_settled _ _ _ _ _ _ Hloop) as Hset.
  unfold bind at 1, getState in H. cbn [fst snd] in H.
  destruct ((0 <? length (List.filter (hasStatus failed) (map snd (tasks_of (fst s1)))))
            && (length (List.filter (hasStatus completed) (map snd (tasks_of (fst s1))))
                =? 0)) eqn:Hall.
  { apply PlanningFacts.bind_Return in H as (a & s2 & _ & H).
    apply PlanningFacts.bind_Return in H as (a' & s3 & _ & H). discriminate H. }
  injection H as ->. cbn [fst] in *. destruct Hend as (Hkeys & Hphase & Hpl).
  exists pl. split; [reflexivity|]. split; [exact Hpl|]. split; [exact Hphase|].
  split; [exact Hkeys|]. split; [|split; [|split; [exact Hset|]]].
  - intros t Ht Hni. destruct (lookupTask (id t) (tasks_of p')) as [e|] eqn:He.
    + exists e. split; [reflexivity|]. exact (Hset _ _ (lookupTask_In _ _ _ He)).
    + exfalso. apply lookupTask_None in He. apply He. rewrite Hkeys.
      destruct (initTasks_covers (tasks pl) (tasks_of p) t Ht Hni) as [e' He'].
      apply lookupTask_In in He'. exact (in_map fst _ _ He').
  - intros k Hk Hnone. apply lookupTask_None. rewrite Hkeys. apply lookupTask_None.
    apply (initTasks_fresh (tasks pl) (tasks_of p) k Hnone). right. exact Hk.
  - apply andb_false_iff in Hall as [Hnf|Hc].
    + left. apply Nat.ltb_ge in Hnf. apply filter_nil_status. lia.
    + right. apply Nat.eqb_neq in Hc.
      destruct (List.filter (hasStatus completed) (map snd (tasks_of p'))) as [|e l] eqn:Hf;
        [contradiction|].
      assert (Hin : In e (List.filter (hasStatus completed) (map snd (tasks_of p'))))
        by (rewrite Hf; left; reflexivity).
      apply filter_In in Hin as [Hin Hst]. apply bool_decide_eq_true in Hst.
      apply in_map_iff in Hin as ([k e0] & <- & Hin). eauto.
Qed.

Lemma runExecution_returns_settled_witness :
  let env := IntegratorFacts.sampleEnv [IntegratorFacts.completeEvent true []] [] in
  let run := runExecution env None 3 (resumed, IntegratorFacts.world0) in
  fst run = Return tt
  /\ exists pl,
       plan resumed = Some pl /\ plan (fst (snd run)) = Some pl
       /\ phase (fst (snd run)) = phase_executing
       /\ map fst (tasks_of (fst (snd run)))
          = map fst (initTasks (tasks pl) (tasks_of resumed))
       /\ (forall t, In t (tasks pl) -> ~ In (id t) inherited ->
             exists e, lookupTask (id t) (tasks_of (fst (snd run))) = Some e
                       /\ (status e = completed \/ status e = failed \/ status e = skipped))
       /\ (forall k, In k inherited -> lookupTask k (tasks_of resumed) = None ->
             lookupTask k (tasks_of (fst (snd run))) = None)
       /\ settled (tasks_of (fst (snd run)))
       /\ ((forall k e, In (k, e) (tasks_of (fst (snd run))) -> status e <> failed)
           \/ exists k e, In (k, e) (tasks_of (fst (snd run))) /\ status e = completed).
Proof.
  intros env run. split; [vm_compute; reflexivity|].
  apply (runExecution_returns_settled env None 3 resumed (fst (snd run))
           IntegratorFacts.world0 (snd (snd run))).
  vm_compute. reflexivity.
Defined.

End SchedulerFacts.

(** ** Spawning and polling *)

Module SessionFacts.
Import JS Client Run Run.Notations Executor ExecutorFacts SchedulerFacts.

Opaque save.

Lemma lookupTask_updateTask k f ts k' :
  lookupTask k' (updateTask k f ts)
  = if String.eqb k' k then option_map f (lookupTask k ts) else lookupTask k' ts.
Proof.
  induction ts as [|[k0 e0] ts IH]; [cbn; destruct (String.eqb k' k); reflexivity|].
  cbn [updateTask lookupTask]. destruct (String.eqb k k0) eqn:Hk.
  - apply String.eqb_eq in Hk. subst k0. cbn [lookupTask].
    destruct (String.eqb k' k); reflexivity.
  - cbn [lookupTask]. rewrite IH. destruct (String.eqb k' k) eqn:Hk'.
    + apply String.eqb_eq in Hk'. subst k'. rewrite Hk. reflexivity.
    + reflexivity.
Qed.

Lemma updateTask_updateTask k f g ts :
  updateTask k g (updateTask k f ts) = updateTask k (fun e => g (f e)) ts.
Proof.
  induction ts as [|[k0 e0] ts IH]; [reflexivity|]. cbn [updateTask].
  destruct (String.eqb k k0) eqn:Hk; cbn [updateTask]; rewrite Hk; [reflexivity|].
  rewrite IH. reflexivity.
Qed.

Ltac tidy :=
  cbn [fst snd advance tick calls disk tasks_of set_tasks Store.set_updatedAt Nat.add].

(** What [spawnTask] leaves in the execution [e] of its task. *)
Definition started (t : Z) (e : TaskExecution) : TaskExecution :=
  with_startedAt t (with_status running e).

Definition assigned (sid : string) (task : TaskNode) (e : TaskExecution) : TaskExecution :=
  with_branch (Worker.expectedBranchName task) (with_session sid e).

Definition rejected (msg : string) (t : Z) (e : TaskExecution) : TaskExecution :=
  with_completedAt t (with_error msg (with_status failed e)).

(** X21.  [spawnTask] records in the task what became of its session, and a
    request that the control plane rejects never escapes it.  Whatever
    [saveProject] does, provided it leaves [state.tasks] alone: no other
    task is touched; the task ends [running], with a session and the
    expected branch name, and then nothing was thrown, or it ends
    [failed] with an error message and a completion time; and what
    [spawnTask] throws is what the [saveProject] of its handler threw.
    On a disk that takes every write [spawnTask] returns normally: the
    task is left [running] when both requests succeed, and [failed]
    with the message of the rejected request otherwise. *)
Theorem spawnTask_records_outcome
  (env : Env) (saveProject : M unit) (task : TaskNode)
  (p : ProjectState) (w : World) (e : TaskExecution) :
  (forall s, tasks_of (fst (snd (saveProject s))) = tasks_of (fst s)) ->
  lookupTask (id task) (tasks_of p) = Some e ->
  (let run := spawnTaskWith env saveProject task (p, w) in
   let p' := fst (snd run) in
   (forall k, k <> id task -> lookupTask k (tasks_of p') = lookupTask k (tasks_of p))
   /\ (exists e',
         lookupTask (id task) (tasks_of p') = Some e'
         /\ ((status e' = running
              /\ (exists sid t0, e' = assigned sid task (started t0 e))
              /\ forall m, fst run <> Throw m)
             \/ (status e' = failed
                 /\ exists msg t0 t1,
                      e' = rejected msg t1 (started t0 e)
                      \/ exists sid, e' = rejected msg t1 (assigned sid task (started t0 e)))))
   /\ (forall m, fst run = Throw m -> exists s, fst (saveProject s) = Throw m))
  /\ (let t0 := tick w in
      exists p' w',
        spawnTask env task (p, w) = (Return tt, (p', w'))
        /\ (forall k, k <> id task ->
              lookupTask k (tasks_of p') = lookupTask k (tasks_of p))
        /\ match createSessionR env (1 + t0) with
           | Err msg =>
               lookupTask (id task) (tasks_of p')
               = Some (rejected msg (now env (2 + t0)) (started (now env t0) e))
               /\ calls w' = calls w ++ [DateNow; CreateSession; DateNow; SaveProject]
           | Ok sid =>
               match sendPromptR env (3 + t0) with
               | Ok _ =>
                   lookupTask (id task) (tasks_of p')
                   = Some (assigned sid task (started (now env t0) e))
                   /\ calls w' = calls w ++ [DateNow; CreateSession; SaveProject; SendPrompt]
               | Err msg =>
                   lookupTask (id task) (tasks_of p')
                   = Some (rejected msg (now env (4 + t0))
                             (assigned sid task (started (now env t0) e)))
                   /\ calls w'
                      = calls w ++ [DateNow; CreateSession; SaveProject; SendPrompt;
                                    DateNow; SaveProject]
               end
           end).
Proof.
  intros Hsv Hlook.
  assert (Hother : forall f k ts, k <> id task ->
            lookupTask k (updateTask (id task) f ts) = lookupTask k ts).
  { intros f k ts Hk. rewrite lookupTask_updateTask.
    apply String.eqb_neq in Hk. rewrite Hk. reflexivity. }
  assert (Hself : forall f,
            lookupTask (id task) (updateTask (id task) f (tasks_of p)) = Some (f e)).
  { intros f. rewrite lookupTask_updateTask, String.eqb_refl, Hlook. reflexivity. }
  split.
  - cbv zeta.
    set (Q := fun (r : outcome unit) (p' : ProjectState) =>
      (forall k, k <> id task -> lookupTask k (tasks_of p') = lookupTask k (tasks_of p))
      /\ (exists e',
            lookupTask (id task) (tasks_of p') = Some e'
            /\ ((status e' = running
                 /\ (exists sid t0, e' = assigned sid task (started t0 e))
                 /\ forall m, r <> Throw m)
                \/ (status e' = failed
                    /\ exists msg t0 t1,
                         e' = rejected msg t1 (started t0 e)
                         \/ exists sid,
                              e' = rejected msg t1 (assigned sid task (started t0 e)))))
      /\ (forall m, r = Throw m -> exists s, fst (saveProject s) = Throw m)).
    enough (Hgen : exists r s', spawnTaskWith env saveProject task (p, w) = (r, s')
                                /\ Q r (fst s')).
    { destruct Hgen as (r & s' & -> & HQ). exact HQ. }
    (* the handler, run from a state whose task entry is [x] *)
    assert (Hhandler : forall msg (q : ProjectState) (v : World) x,
              (forall k, k <> id task ->
                 lookupTask k (tasks_of q) = lookupTask k (tasks_of p)) ->
              lookupTask (id task) (tasks_of q) = Some x ->
              exists r s' t1,
                (onTask (id task) (with_status failed) ;;;
                 onTask (id task) (with_error msg) ;;;
                 finished <- dateNow env ;;
                 onTask (id task) (with_completedAt finished) ;;;
                 saveProject) (q, v) = (r, s')
                /\ (forall k, k <> id task ->
                      lookupTask k (tasks_of (fst s')) = lookupTask k (tasks_of p))
                /\ lookupTask (id task) (tasks_of (fst s')) = Some (rejected msg t1 x)
                /\ (forall m, r = Throw m -> exists s, fst (saveProject s) = Throw m)).
    { intros msg q v x Hq Hx.
      unfold onTask, bind, modify, dateNow. cbn [fst snd].
      match goal with
      | |- context [saveProject ?s0] =>
          pose proof (Hsv s0) as Hs; destruct (saveProject s0) as [r s1] eqn:Hr
      end.
      cbn [fst snd set_tasks tasks_of] in Hs.
      exists r, s1, (now env (tick v)).
      split; [destruct r as [[]| |]; reflexivity|]. rewrite Hs. split; [|split].
      - intros k Hk. rewrite !Hother by exact Hk. exact (Hq k Hk).
      - rewrite !updateTask_updateTask.
        rewrite lookupTask_updateTask, String.eqb_refl, Hx. reflexivity.
      - intros m ->. eexists. rewrite Hr. reflexivity. }
    set (ts2 := updateTask (id task) (with_startedAt (now env (tick w)))
                  (updateTask (id task) (with_status running) (tasks_of p))).
    assert (Hts2 : lookupTask (id task) ts2 = Some (started (now env (tick w)) e)).
    { unfold ts2. rewrite updateTask_updateTask. apply Hself. }
    assert (Hts2o : forall k, k <> id task -> lookupTask k ts2 = lookupTask k (tasks_of p)).
    { intros k Hk. unfold ts2. rewrite !Hother by exact Hk. reflexivity. }
    unfold spawnTaskWith, bind at 1, getState. cbn [fst snd]. rewrite Hlook.
    unfold onTask, bind at 1, modify. cbn [fst snd].
    unfold bind at 1, dateNow. cbn [fst snd].
    unfold bind at 1. cbn [fst snd set_tasks tasks_of]. fold ts2.
    unfold tryCatch, bind at 1, createSession, request. cbn [fst snd advance tick].
    destruct (createSessionR env (S (tick w))) as [sid|msg].
    + (* the session exists *)
      unfold bind at 1. cbn [fst snd set_tasks tasks_of].
      unfold bind at 1. cbn [fst snd set_tasks tasks_of].
      unfold bind at 1.
      set (ts4 := updateTask (id task) (with_branch (Worker.expectedBranchName task))
                    (updateTask (id task) (with_session sid) ts2)).
      assert (Hts4 : lookupTask (id task) ts4
                     = Some (assigned sid task (started (now env (tick w)) e))).
      { unfold ts4. rewrite updateTask_updateTask, lookupTask_updateTask,
          String.eqb_refl, Hts2. reflexivity. }
      assert (Hts4o : forall k, k <> id task -> lookupTask k ts4 = lookupTask k (tasks_of p)).
      { intros k Hk. unfold ts4. rewrite !Hother by exact Hk. exact (Hts2o k Hk). }
      match goal with
      | |- context [saveProject ?s0] =>
          pose proof (Hsv s0) as Hs; destruct (saveProject s0) as [r s1] eqn:Hr
      end.
      cbn [fst snd set_tasks tasks_of] in Hs.
      destruct s1 as [p1 w1]. cbn [fst snd] in Hs.
      destruct r as [[]|m|].
      * unfold sendPrompt, request. cbn [fst snd].
        destruct (sendPromptR env (tick w1)) as [u|msg].
        -- eexists _, _. split; [reflexivity|]. cbn [fst snd]. unfold Q. rewrite Hs.
           split; [exact Hts4o|]. split.
           ++ eexists. split; [exact Hts4|]. left. split; [reflexivity|].
              split; [eauto|]. intros m [=].
           ++ intros m [=].
        -- destruct (Hhandler msg p1 (advance SendPrompt w1) _
                       ltac:(rewrite Hs; exact Hts4o) ltac:(rewrite Hs; exact Hts4))
             as (r & s' & t1 & Hrun & H1 & H2 & H3).
           exists r, s'. split; [exact Hrun|]. unfold Q.
           split; [exact H1|]. split; [|exact H3].
           eexists. split; [exact H2|]. right. split; [reflexivity|].
           exists msg, (now env (tick w)), t1. right. eauto.
      * destruct (Hhandler m p1 w1 _
                    ltac:(rewrite Hs; exact Hts4o) ltac:(rewrite Hs; exact Hts4))
          as (r & s' & t1 & Hrun & H1 & H2 & H3).
        exists r, s'. split; [exact Hrun|]. unfold Q.
        split; [exact H1|]. split; [|exact H3].
        eexists. split; [exact H2|]. right. split; [reflexivity|].
        exists m, (now env (tick w)), t1. right. eauto.
      * eexists _, _. split; [reflexivity|]. cbn [fst snd]. unfold Q. rewrite Hs.
        split; [exact Hts4o|]. split.
        -- eexists. split; [exact Hts4|]. left. split; [reflexivity|].
           split; [eauto|]. intros m [=].
        -- intros m [=].
    + (* the session was refused *)
      match goal with
      | |- context [(set_tasks ts2 ?q, ?v)] =>
          destruct (Hhandler msg (set_tasks ts2 q) v _ Hts2o Hts2)
            as (r & s' & t1 & Hrun & H1 & H2 & H3)
      end.
      exists r, s'. split; [exact Hrun|]. unfold Q.
      split; [exact H1|]. split; [|exact H3].
      eexists. split; [exact H2|]. right. split; [reflexivity|].
      exists msg, (now env (tick w)), t1. left. reflexivity.
  - cbv zeta.
    unfold spawnTask, spawnTaskWith, bind at 1, getState. cbn [fst snd]. rewrite Hlook.
    unfold onTask, bind, modify, dateNow, tryCatch, createSession, sendPrompt, request.
    cbn [fst snd advance tick calls Nat.add].
    destruct (createSessionR env (S (tick w))) as [sid|msg].
    + rewrite IntegratorFacts.save_eq. tidy.
      destruct (sendPromptR env (S (S (S (tick w))))) as [u|msg]; [destruct u|].
      * eexists _, _. split; [reflexivity|]. tidy.
        rewrite !updateTask_updateTask. split; [intros k; apply Hother|].
        split; [apply Hself|].
        rewrite <- !app_assoc. reflexivity.
      * tidy. rewrite IntegratorFacts.save_eq. tidy.
        eexists _, _. split; [reflexivity|]. tidy.
        rewrite !updateTask_updateTask. split; [intros k; apply Hother|].
        split; [apply Hself|].
        rewrite <- !app_assoc. reflexivity.
    + tidy. rewrite IntegratorFacts.save_eq. tidy.
      eexists _, _. split; [reflexivity|]. tidy.
      rewrite !updateTask_updateTask. split; [intros k; apply Hother|].
      split; [apply Hself|].
      rewrite <- !app_assoc. reflexivity.
Qed.

Definition promptRejected : Env :=
  {| homedir := "/home/u";
     now := fun n => (1000 + Z.of_nat n)%Z;
     createSessionR := fun _ => Ok "s-b";
     sendPromptR := fun _ => Err "HTTP 429";
     getSessionR := fun _ => Err "HTTP 404";
     getEventsR := fun _ => Ok [];
     getArtifactsR := fun _ => Ok [] |}.

(** A disk that is full: every write is rejected. *)
Definition diskFull : M unit := fun s => (Throw "ENOSPC: no space left on device", s).

Lemma spawnTask_records_outcome_witness :
  let task := Dag.task "b" ["a"] in
  let run := spawnTaskWith promptRejected diskFull task (resumed, IntegratorFacts.world0) in
  let p' := fst (snd run) in
  (forall k, k <> "b" -> lookupTask k (tasks_of p') = lookupTask k (tasks_of resumed))
  /\ (exists e',
        lookupTask "b" (tasks_of p') = Some e'
        /\ ((status e' = running
             /\ (exists sid t0, e' = assigned sid task (started t0 (freshExecution "b")))
             /\ forall m, fst run <> Throw m)
            \/ (status e' = failed
                /\ exists msg t0 t1,
                     e' = rejected msg t1 (started t0 (freshExecution "b"))
                     \/ exists sid,
                          e' = rejected msg t1
                                 (assigned sid task (started t0 (freshExecution "b"))))))
  /\ (forall m, fst run = Throw m -> exists s, fst (diskFull s) = Throw m).
Proof.
  intros task.
  apply (proj1 (spawnTask_records_outcome promptRejected diskFull task resumed
                  IntegratorFacts.world0 (freshExecution "b")
                  (fun s => eq_refl) eq_refl)).
Defined.

(** With the disk full, the task for which the session was created ends
    [failed] with the message of the rejected write, and that rejection
    leaves [spawnTask] from the save of the handler. *)
Example spawnTask_disk_full :
  let run := spawnTaskWith promptRejected diskFull (Dag.task "b" ["a"])
               (resumed, IntegratorFacts.world0) in
  fst run = Throw "ENOSPC: no space left on device"
  /\ option_map status (lookupTask "b" (tasks_of (fst (snd run)))) = Some failed
  /\ option_map error (lookupTask "b" (tasks_of (fst (snd run))))
     = Some (Some "ENOSPC: no space left on device").
Proof. vm_compute. auto. Qed.

(** *** Polling *)

Definition completes (ev : AgentEvent) : bool :=
  String.eqb (event_type ev) "execution_complete".

Definition reportsFailure (ev : AgentEvent) : bool :=
  (completes ev && isFalse (get (event_data ev) "success"))
  || String.eqb (event_type ev) "error".

Definition startingUp (session : SessionState) : bool :=
  String.eqb (sandboxStatus session) "pending"
  || String.eqb (sandboxStatus session) "warming"
  || String.eqb (sandboxStatus session) "syncing".

Definition scan0 : scan :=
  {| executionComplete := false; hasError := false; errorMsg := None; tokens := [] |}.

Lemma scan_flags events : forall st,
  executionComplete (fold_left onEvent events st)
  = executionComplete st || existsb completes events
  /\ hasError (fold_left onEvent events st)
     = hasError st || existsb reportsFailure events.
Proof.
  induction events as [|ev events IH]; intros st; cbn [fold_left existsb].
  - rewrite !orb_false_r. auto.
  - destruct (IH (onEvent st ev)) as [-> ->]. unfold onEvent, reportsFailure, completes.
    cbn [executionComplete hasError]. rewrite <- !orb_assoc. auto.
Qed.

(** X22.  [pollTask] never throws.  It changes the project only when the
    session answers, its sandbox is past start-up, and either the events
    contain an [execution_complete] or the sandbox is stopped; then the
    polled task, and no other, is marked [failed] if some event is an
    [error] or an unsuccessful [execution_complete], and [completed]
    otherwise, with a summary and a completion time.  A rejected request
    leaves the task as it is. *)
Theorem pollTask_fails_open
  (env : Env) (k : string) (exec : TaskExecution) (p : ProjectState) (w : World) :
  exists p' w',
    pollTask env k exec (p, w) = (Return tt, (p', w'))
    /\ (forall k', k' <> k -> lookupTask k' (tasks_of p') = lookupTask k' (tasks_of p))
    /\ (p' = p
        \/ exists sid raw events,
             sessionId exec = Some sid /\ sid <> EmptyString
             /\ getSessionR env (tick w) = Ok raw
             /\ startingUp (normalise raw) = false
             /\ getEventsR env (1 + tick w) = Ok events
             /\ (existsb completes events = true
                 \/ sandboxStatus (normalise raw) = "stopped"))
    /\ (forall sid raw events e,
          sessionId exec = Some sid -> sid <> EmptyString ->
          getSessionR env (tick w) = Ok raw ->
          startingUp (normalise raw) = false ->
          getEventsR env (1 + tick w) = Ok events ->
          existsb completes events = true \/ sandboxStatus (normalise raw) = "stopped" ->
          lookupTask k (tasks_of p) = Some e ->
          exists e',
            lookupTask k (tasks_of p') = Some e'
            /\ status e' = (if existsb reportsFailure events then failed else completed)
            /\ (existsb reportsFailure events = true ->
                exists msg, error e' = Some msg /\ msg <> EmptyString)
            /\ (existsb reportsFailure events = false -> error e' = error e)
            /\ completedAt e' = Some (now env (2 + tick w))
            /\ (exists text, exec_summary e' = Some text)
            /\ branchName e'
               = (if Integrator.truthyStr (raw_branchName raw)
                  then raw_branchName raw else branchName e)
            /\ sessionId e' = sessionId e /\ startedAt e' = startedAt e).
Proof.
  unfold pollTask. destruct (sessionId exec) as [sid|] eqn:Hsid.
  2:{ eexists _, _. split; [reflexivity|]. split; [reflexivity|]. split; [auto|].
      intros; discriminate. }
  destruct (String.eqb sid EmptyString) eqn:Hempty.
  { apply String.eqb_eq in Hempty. subst sid.
    eexists _, _. split; [reflexivity|]. split; [reflexivity|]. split; [auto|].
    intros sid ? ? ? [= <-] Hne. contradiction. }
  apply String.eqb_neq in Hempty.
  unfold tryCatch, getSession, bind at 1, bind at 1, request. cbn [fst snd].
  destruct (getSessionR env (tick w)) as [raw|msg] eqn:Hsession.
  2:{ eexists _, _. split; [reflexivity|]. split; [reflexivity|]. split; [auto|].
      intros; discriminate. }
  unfold ret at 1. cbv beta iota. fold (startingUp (normalise raw)).
  destruct (startingUp (normalise raw)) eqn:Hstart.
  { eexists _, _. split; [reflexivity|]. split; [reflexivity|]. split; [auto|].
    intros ? ? ? ? _ _ [= <-]. congruence. }
  unfold bind at 1, getEvents, request. tidy.
  destruct (getEventsR env (S (tick w))) as [events|msg] eqn:Hevents.
  2:{ eexists _, _. split; [reflexivity|]. split; [reflexivity|]. split; [auto|].
      intros; discriminate. }
  fold scan0. destruct (scan_flags events scan0) as [Hcomplete Herror].
  cbn [scan0 executionComplete hasError orb] in Hcomplete, Herror.
  set (sc := fold_left onEvent events scan0) in *.
  destruct (negb (executionComplete sc)
            && negb (String.eqb (sandboxStatus (normalise raw)) "stopped")) eqn:Hwait.
  { eexists _, _. split; [reflexivity|]. split; [reflexivity|]. split; [auto|].
    intros ? raw' events' ? _ _ [= <-] _ [= <-] Hdone.
    apply andb_true_iff in Hwait as [Hc Hs]. apply negb_true_iff in Hc, Hs.
    apply String.eqb_neq in Hs. destruct Hdone; congruence. }
  assert (Hdone : existsb completes events = true
                  \/ sandboxStatus (normalise raw) = "stopped").
  { apply andb_false_iff in Hwait as [Hc|Hs]; apply negb_false_iff in Hc || apply negb_false_iff in Hs.
    - left. congruence.
    - right. apply String.eqb_eq. exact Hs. }
  assert (Hother : forall f k', k' <> k ->
            lookupTask k' (updateTask k f (tasks_of p)) = lookupTask k' (tasks_of p)).
  { intros f k' Hk. rewrite lookupTask_updateTask.
    apply String.eqb_neq in Hk. rewrite Hk. reflexivity. }
  assert (Hmsg : exists msg,
            match errorMsg sc with
            | Some m => if String.eqb m EmptyString
                        then "Session completed with errors" else m
            | None => "Session completed with errors"
            end = msg /\ msg <> EmptyString).
  { eexists. split; [reflexivity|]. destruct (errorMsg sc) as [m|]; [|discriminate].
    destruct (String.eqb m EmptyString) eqn:Hm; [discriminate|].
    apply String.eqb_neq. exact Hm. }
  destruct Hmsg as (msg & -> & Hmsg).
  unfold onTask, bind, modify, dateNow, ret. tidy.
  cbn [normalise session_branchName].
  destruct (Integrator.truthyStr (raw_branchName raw)) eqn:Hbranch;
    rewrite Herror; destruct (existsb reportsFailure events) eqn:Hfail; tidy;
    rewrite IntegratorFacts.save_eq; tidy;
    (eexists _, _; split; [reflexivity|]); tidy; rewrite !updateTask_updateTask;
    (split; [apply Hother|]);
    (split; [right; exists sid, raw, events; auto 10|]);
    intros sid' raw' events' e [= <-] _ [= <-] _ [= <-] _ He;
    rewrite lookupTask_updateTask, String.eqb_refl, He; cbn [option_map];
    (eexists; split; [reflexivity|]); cbn;
    rewrite ?Hbranch, ?Hfail;
    repeat split; eauto; try discriminate.
  all: destruct (raw_branchName raw); [reflexivity|discriminate Hbranch].
Qed.

Lemma pollTask_fails_open_example :
  let env := IntegratorFacts.sampleEnv [IntegratorFacts.errorEvent] [] in
  let exec := with_session "s-b" (with_status running (freshExecution "b")) in
  let p := set_tasks [("a", skippedA); ("b", exec)] resumed in
  option_map status
    (lookupTask "b" (tasks_of (fst (snd (pollTask env "b" exec (p, IntegratorFacts.world0))))))
  = Some running
  /\ option_map status
       (lookupTask "b"
          (tasks_of (fst (snd (pollTask (IntegratorFacts.sampleEnv
                                           [IntegratorFacts.errorEvent;
                                            IntegratorFacts.completeEvent true []] [])
                                 "b" exec (p, IntegratorFacts.world0))))))
     = Some failed.
Proof. vm_compute. split; reflexivity. Qed.

End SessionFacts.

(** ** The states of the scheduler and the tasks it starts *)

Module ReadinessFacts.
Import JS Client Run Run.Notations Executor ExecutorFacts SchedulerFacts SessionFacts.

Opaque save.

(** *** The task tables that the scheduler reaches *)

(** The callback of [toSpawn]'s loop in [runExecution]:
    [const task = taskMap.get(exec.taskId)!; await spawnTask(state, task, ...)]. *)
Definition spawnOf (env : Env) (tm : gmap string TaskNode) (exec : TaskExecution)
  : M unit :=
  match tm !! taskId exec with
  | Some task => spawnTask env task
  | None => typeError
  end.

(** [state.tasks] as the scheduler finds and leaves it, for a project
    whose plan is [pl].  A project is created with no executions;
    [runExecution] enters its loop after the initialisation of the
    executions; each pass of the loop, however it ends, leaves the next
    state; and the state in which a run is left is the one from which a
    later run of [runExecution] resumes.  The flag tells whether the
    state is one inside the loop. *)
Inductive reachable (pl : Plan) : bool -> list (string * TaskExecution) -> Prop :=
  | reach_fresh : reachable pl false []
  | reach_enter ts :
      reachable pl false ts -> reachable pl true (initTasks (tasks pl) ts)
  | reach_pass env maxParallel p w :
      reachable pl true (tasks_of p) ->
      reachable pl true
        (tasks_of (fst (snd (iteration env (Dag.taskMap (tasks pl)) maxParallel (p, w)))))
  | reach_leave ts : reachable pl true ts -> reachable pl false ts.

(** *** The invariant *)

(** Once a task is skipped no task is pending: tasks are skipped by the
    pass that ends the loop, all pending tasks at once. *)
Definition quiet (ts : list (string * TaskExecution)) : Prop :=
  forall k e, In (k, e) ts -> status e = skipped ->
  forall k' e', In (k', e') ts -> status e' <> pending.

(** Every execution is stored under the id of its task. *)
Definition keyed (ts : list (string * TaskExecution)) : Prop :=
  forall k e, In (k, e) ts -> taskId e = k.

Definition orderly (ts : list (string * TaskExecution)) : Prop :=
  NoDup (map fst ts) /\ keyed ts /\ quiet ts.

(** Every task of the plan passes the test of the initialisation. *)
Definition covered (planTasks : list TaskNode) (ts : list (string * TaskExecution))
  : Prop :=
  forall t, In t planTasks -> isTracked (id t) ts = true.

Definition hasSkipped (ts : list (string * TaskExecution)) : Prop :=
  exists k e, In (k, e) ts /\ status e = skipped.

(** The updates of one execution that [spawnTask] and [pollTask] make:
    the task id stays, and the status stays or becomes [running],
    [failed] or [completed]. *)
Definition gentle (f : TaskExecution -> TaskExecution) : Prop :=
  forall e, taskId (f e) = taskId e
            /\ (status (f e) = status e \/ status (f e) = running
                \/ status (f e) = failed \/ status (f e) = completed).

(** The updates that [pollTask] makes start no task. *)
Definition calm (f : TaskExecution -> TaskExecution) : Prop :=
  forall e, taskId (f e) = taskId e
            /\ (status (f e) = status e
                \/ status (f e) = failed \/ status (f e) = completed).

Lemma calm_gentle f : calm f -> gentle f.
Proof. intros H e. destruct (H e) as [Hid Hst]. split; [exact Hid|tauto]. Qed.

Lemma In_updateTask k f ts k1 e1 :
  In (k1, e1) (updateTask k f ts) ->
  exists e0, In (k1, e0) ts /\ (e1 = e0 \/ e1 = f e0).
Proof.
  induction ts as [|[k0 e0] ts IH]; [intros []|]. cbn [updateTask].
  destruct (String.eqb k k0).
  - intros [[= <- <-]|Hin].
    + exists e0. split; [left; reflexivity|auto].
    + exists e1. split; [right; exact Hin|auto].
  - intros [[= <- <-]|Hin].
    + exists e0. split; [left; reflexivity|auto].
    + destruct (IH Hin) as (e' & Hin' & He'). exists e'. split; [right; exact Hin'|exact He'].
Qed.

Lemma isTracked_updateTask k f ts k' :
  isTracked k' (updateTask k f ts) = isTracked k' ts.
Proof.
  unfold isTracked. rewrite lookupTask_updateTask.
  destruct (String.eqb k' k) eqn:Hk; [|reflexivity].
  apply String.eqb_eq in Hk. subst k'. destruct (lookupTask k ts); reflexivity.
Qed.

Lemma lookupTask_map g ts k :
  lookupTask k (map (fun kv => (fst kv, g (snd kv))) ts) = option_map g (lookupTask k ts).
Proof.
  induction ts as [|[k0 e0] ts IH]; [reflexivity|]. cbn [map fst snd lookupTask].
  destruct (String.eqb k k0); [reflexivity|exact IH].
Qed.

Lemma isTracked_map g ts k :
  isTracked k (map (fun kv => (fst kv, g (snd kv))) ts) = isTracked k ts.
Proof.
  unfold isTracked. rewrite lookupTask_map. destruct (lookupTask k ts); reflexivity.
Qed.

Lemma orderly_updateTask k f ts :
  gentle f -> orderly ts -> orderly (updateTask k f ts).
Proof.
  intros Hf (Hnd & Hkey & Hq). split; [|split].
  - rewrite keys_updateTask. exact Hnd.
  - intros k1 e1 Hin. apply In_updateTask in Hin as (e0 & Hin & [->| ->]).
    + exact (Hkey _ _ Hin).
    + rewrite (proj1 (Hf e0)). exact (Hkey _ _ Hin).
  - intros k1 e1 Hin1 Hsk k2 e2 Hin2 Hpe.
    apply In_updateTask in Hin1 as (a & Ha & Hea).
    apply In_updateTask in Hin2 as (b & Hb & Heb).
    assert (Hsa : status a = skipped).
    { destruct Hea as [->| ->]; [exact Hsk|].
      destruct (proj2 (Hf a)) as [H|[H|[H|H]]]; congruence. }
    assert (Hpb : status b = pending).
    { destruct Heb as [->| ->]; [exact Hpe|].
      destruct (proj2 (Hf b)) as [H|[H|[H|H]]]; congruence. }
    exact (Hq _ _ Ha Hsa _ _ Hb Hpb).
Qed.

Lemma skipPending_taskId e : taskId (skipPending e) = taskId e.
Proof. unfold skipPending. destruct (hasStatus pending e); reflexivity. Qed.

Lemma skipPending_not_pending e : status (skipPending e) <> pending.
Proof.
  unfold skipPending, hasStatus. destruct (decide (status e = pending)) as [Hp|Hp].
  - rewrite (bool_decide_eq_true_2 _ Hp). cbn. discriminate.
  - rewrite (bool_decide_eq_false_2 _ Hp). exact Hp.
Qed.

Lemma orderly_skip ts :
  orderly ts -> orderly (map (fun kv => (fst kv, skipPending (snd kv))) ts).
Proof.
  intros (Hnd & Hkey & _). split; [|split].
  - rewrite List.map_map. cbn [fst]. exact Hnd.
  - intros k e Hin. apply in_map_iff in Hin as ([k0 e0] & [= <- <-] & Hin).
    cbn [fst snd]. rewrite skipPending_taskId. exact (Hkey _ _ Hin).
  - intros k e _ _ k' e' Hin. apply in_map_iff in Hin as ([k0 e0] & [= <- <-] & Hin).
    cbn [snd]. apply skipPending_not_pending.
Qed.

Lemma In_addTask kv k e ts : In kv (addTask k e ts) <-> kv = (k, e) \/ In kv ts.
Proof.
  split.
  - intros H. apply (Permutation_in _ (addTask_perm k e ts)) in H as [H|H]; auto.
  - intros H. apply (Permutation_in _ (Permutation_sym (addTask_perm k e ts))).
    destruct H as [->|H]; [left; reflexivity|right; exact H].
Qed.

Lemma classic_skipped ts : hasSkipped ts \/ ~ hasSkipped ts.
Proof.
  induction ts as [|[k e] ts [IH|IH]].
  - right. intros (k & e & [] & _).
  - left. destruct IH as (k' & e' & Hin & Hs). exists k', e'. split; [right|]; assumption.
  - destruct (decide (status e = skipped)) as [Hs|Hs].
    + left. exists k, e. split; [left; reflexivity|exact Hs].
    + right. intros (k' & e' & [[= <- <-]|Hin] & Hs'); [contradiction|].
      apply IH. exists k', e'. auto.
Qed.

(** The initialisation keeps an orderly table orderly, unless it adds a
    pending task to a table in which tasks were skipped. *)
Lemma orderly_initTasks planTasks : forall ts,
  orderly ts -> ~ hasSkipped ts -> orderly (initTasks planTasks ts).
Proof.
  induction planTasks as [|t rest IH]; intros ts Ho Hns; [exact Ho|].
  cbn [initTasks]. destruct (isTracked (id t) ts) eqn:Ht; [exact (IH ts Ho Hns)|].
  assert (Hnone : lookupTask (id t) ts = None).
  { unfold isTracked in Ht. destruct (lookupTask (id t) ts); [discriminate|reflexivity]. }
  destruct Ho as (Hnd & Hkey & Hq). apply IH.
  - split; [|split].
    + rewrite (Permutation_map fst (addTask_perm _ _ _)). cbn [map fst].
      apply NoDup_cons. split; [|exact Hnd].
      rewrite list_elem_of_In. apply lookupTask_None. exact Hnone.
    + intros k e Hin. apply In_addTask in Hin as [[= -> ->]|Hin]; [reflexivity|].
      exact (Hkey _ _ Hin).
    + intros k e Hin Hsk. exfalso.
      apply In_addTask in Hin as [[= -> ->]|Hin]; [discriminate Hsk|].
      apply Hns. exists k, e. auto.
  - intros (k & e & Hin & Hsk).
    apply In_addTask in Hin as [[= -> ->]|Hin]; [discriminate Hsk|].
    apply Hns. exists k, e. auto.
Qed.

(** *** The invariant through the scheduler *)

Section gently.
Variable I : ProjectState -> Prop.
Variable ok : string -> (TaskExecution -> TaskExecution) -> Prop.
Hypothesis I_stamp : forall t p, I p -> I (Store.set_updatedAt t p).
Hypothesis I_update : forall k f p,
  ok k f -> I p -> I (set_tasks (updateTask k f (tasks_of p)) p).

Lemma gently_onTask k f : ok k f -> keeps I (onTask k f).
Proof.
  intros Hok s Hs. unfold onTask, modify. cbn [fst snd]. apply I_update; assumption.
Qed.

Ltac mild H :=
  apply gently_onTask; apply H; intros ?; cbn; intuition congruence.

Lemma gently_spawnTask env task :
  (forall f, gentle f -> ok (id task) f) -> keeps I (spawnTask env task).
Proof.
  intros Hok. unfold spawnTask, spawnTaskWith. apply keeps_getState. intros p.
  destruct (lookupTask (id task) (tasks_of p)); [|apply keeps_throw].
  repeat first
    [ mild Hok | apply keeps_dateNow | apply (keeps_save I I_stamp) | apply keeps_request
    | apply keeps_bind; [|intros ?] | apply keeps_tryCatch; [|intros ?] ].
Qed.

Lemma gently_pollTask env k exec :
  (forall f, calm f -> ok k f) -> keeps I (pollTask env k exec).
Proof.
  intros Hok. unfold pollTask. destruct (sessionId exec) as [sid|]; [|apply keeps_ret].
  destruct (String.eqb sid EmptyString); [apply keeps_ret|].
  apply keeps_tryCatch; [|intros e; apply keeps_ret].
  apply keeps_bind; [apply keeps_getSession|]. intros session.
  destruct (_ || _); [apply keeps_ret|].
  apply keeps_bind; [apply keeps_request|]. intros events.
  destruct (_ && _); [apply keeps_ret|].
  apply keeps_bind; [destruct (Integrator.truthyStr _); [mild Hok|apply keeps_ret]|].
  intros _. apply keeps_bind; [mild Hok|]. intros _.
  apply keeps_bind.
  { destruct (hasError _); [|mild Hok].
    apply keeps_bind; [mild Hok|]. intros _. mild Hok. }
  intros _. apply keeps_bind; [apply keeps_dateNow|]. intros finished.
  apply keeps_bind; [mild Hok|]. intros _. apply (keeps_save I I_stamp).
Qed.

Hypothesis ok_gentle : forall k f, gentle f -> ok k f.
Hypothesis I_skip : forall p,
  I p -> I (set_tasks (map (fun kv => (fst kv, skipPending (snd kv))) (tasks_of p)) p).

Lemma gently_iteration env tm maxParallel : keeps I (iteration env tm maxParallel).
Proof.
  unfold iteration. apply keeps_getState. intros p.
  destruct (toSpawnOf tm maxParallel (tasks_of p)) as [toSpawn|]; [|apply keeps_throw].
  apply keeps_bind.
  { apply keeps_forEach. intros exec.
    destruct (tm !! taskId exec); [|apply keeps_throw].
    apply gently_spawnTask. intros f. apply ok_gentle. }
  intros _. destruct (_ && _).
  - apply keeps_bind; [|intros _; apply keeps_ret].
    destruct (0 <? _); [|apply keeps_ret].
    apply keeps_bind; [|intros _; apply (keeps_save I I_stamp)].
    intros s Hs. unfold modify. cbn [fst snd]. apply I_skip. exact Hs.
  - apply keeps_getState. intros q.
    apply keeps_bind.
    { apply keeps_forEach. intros kv. apply gently_pollTask.
      intros f Hf. apply ok_gentle. apply calm_gentle. exact Hf. }
    intros _. apply keeps_bind; [apply (keeps_save I I_stamp)|]. intros _. apply keeps_ret.
Qed.

End gently.

(** Inside the loop the table is orderly and covers the plan. *)
Definition inLoop (pl : Plan) (ts : list (string * TaskExecution)) : Prop :=
  orderly ts /\ covered (tasks pl) ts.

Lemma inLoop_iteration pl env tm maxParallel :
  keeps (fun p => inLoop pl (tasks_of p)) (iteration env tm maxParallel).
Proof.
  apply (gently_iteration _ (fun _ f => gentle f)).
  - intros t p H. exact H.
  - intros k f p Hf [Ho Hc]. cbn [set_tasks tasks_of]. split.
    + apply orderly_updateTask; assumption.
    + intros t Ht. rewrite isTracked_updateTask. exact (Hc t Ht).
  - intros k f Hf. exact Hf.
  - intros p [Ho Hc]. cbn [set_tasks tasks_of]. split.
    + apply orderly_skip. exact Ho.
    + intros t Ht. rewrite isTracked_map. exact (Hc t Ht).
Qed.

(** Every reachable table is orderly; inside the loop it covers the
    plan, and so does, outside, a table in which a task was skipped. *)
Lemma reachable_orderly pl b ts :
  reachable pl b ts ->
  orderly ts /\ (b = true \/ hasSkipped ts -> covered (tasks pl) ts).
Proof.
  induction 1 as [|ts _ [Ho Hc]|env maxParallel p w _ [Ho Hc]|ts _ [Ho Hc]].
  - split.
    + split; [apply NoDup_nil; exact I|]. split; intros k e [].
    + intros [Hb|(k & e & [] & _)]. discriminate Hb.
  - assert (Hcov : covered (tasks pl) (initTasks (tasks pl) ts))
      by (intros t Ht; apply initTasks_tracked; exact Ht).
    split; [|intros _; exact Hcov].
    destruct (classic_skipped ts) as [Hs|Hns].
    + rewrite (initTasks_same _ _ (Hc (or_intror Hs))). exact Ho.
    + apply orderly_initTasks; assumption.
  - pose proof (inLoop_iteration pl env (Dag.taskMap (tasks pl)) maxParallel (p, w)
                  (conj Ho (Hc (or_introl eq_refl)))) as [Ho' Hc'].
    split; [exact Ho'|intros _; exact Hc'].
  - split; [exact Ho|]. intros _. apply Hc. left. reflexivity.
Qed.

(** *** The tasks that a pass selects *)

(** The execution [exec] can be started in [ts]: it is the pending entry
    of its task, and every dependency of the task is completed. *)
Definition startable (tm : gmap string TaskNode) (ts : list (string * TaskExecution))
  (exec : TaskExecution) : Prop :=
  exists task e,
    tm !! taskId exec = Some task
    /\ lookupTask (taskId exec) ts = Some e /\ status e = pending
    /\ forall d, In d (dependsOn task) ->
         exists dep, lookupTask d ts = Some dep /\ status dep = completed.

Lemma filter_sublist {A} (f : A -> bool) (l : list A) : sublist (List.filter f l) l.
Proof.
  induction l as [|x l IH]; [constructor|]. cbn [List.filter].
  destruct (f x); [apply sublist_skip|apply sublist_cons]; exact IH.
Qed.

Lemma readyOf_sublist tm ts : forall pendingTasks ready,
  readyOf tm ts pendingTasks = Some ready -> sublist ready pendingTasks.
Proof.
  induction pendingTasks as [|t rest IH]; cbn [readyOf]; intros ready.
  - intros [= <-]. constructor.
  - destruct (isReady tm ts t) as [b|]; [|discriminate].
    destruct (readyOf tm ts rest) as [r|]; [|discriminate].
    intros [= <-]. destruct b; [apply sublist_skip|apply sublist_cons]; exact (IH r eq_refl).
Qed.

Lemma slice0_sublist {A} (xs : list A) n : sublist (slice0 xs n) xs.
Proof. unfold slice0. destruct (n <? 0)%Z; apply sublist_take. Qed.

Lemma map_sublist {A B} (f : A -> B) (l1 l2 : list A) :
  sublist l1 l2 -> sublist (map f l1) (map f l2).
Proof.
  induction 1; cbn [map]; [constructor|apply sublist_skip|apply sublist_cons]; assumption.
Qed.

Lemma keyed_ids ts : keyed ts -> map taskId (map snd ts) = map fst ts.
Proof.
  induction ts as [|[k e] ts IH]; [reflexivity|]. intros Hk. cbn [map fst snd].
  rewrite (Hk k e (or_introl eq_refl)), IH; [reflexivity|].
  intros k' e' Hin. apply Hk. right. exact Hin.
Qed.

(** In an orderly table the tasks that a pass selects are distinct and
    each of them can be started. *)
Lemma toSpawnOf_startable tm maxParallel ts toSpawn :
  orderly ts -> toSpawnOf tm maxParallel ts = Some toSpawn ->
  NoDup (map taskId toSpawn)
  /\ forall exec, In exec toSpawn -> startable tm ts exec.
Proof.
  intros (Hnd & Hkey & Hq) Hsp. unfold toSpawnOf in Hsp.
  destruct (readyOf tm ts _) as [ready|] eqn:Hr; [|discriminate].
  injection Hsp as <-. split.
  - apply (sublist_NoDup _ (map taskId (map snd ts))).
    + rewrite (keyed_ids ts Hkey). exact Hnd.
    + apply map_sublist. etransitivity; [apply slice0_sublist|].
      etransitivity; [exact (readyOf_sublist _ _ _ _ Hr)|]. apply filter_sublist.
  - intros exec Hin. apply slice0_incl in Hin.
    destruct (readyOf_sound _ _ _ _ _ Hr Hin) as [Hp Hready].
    apply filter_In in Hp as [Hexec Hp]. unfold hasStatus in Hp.
    apply bool_decide_eq_true in Hp.
    apply in_map_iff in Hexec as ([k e] & Hsnd & Hexec). cbn [snd] in Hsnd. subst e.
    pose proof (Hkey _ _ Hexec) as Hk. subst k.
    unfold isReady in Hready. destruct (tm !! taskId exec) as [task|] eqn:Htask;
      [|discriminate].
    injection Hready as Hall. rewrite forallb_forall in Hall.
    exists task, exec. split; [exact Htask|].
    split; [exact (lookupTask_NoDup _ _ _ Hnd Hexec)|]. split; [exact Hp|].
    intros d Hd. pose proof (Hall d Hd) as Hsat.
    apply depSatisfied_iff in Hsat as (dep & Hl & [Hc|Hs]).
    + exists dep. auto.
    + exfalso. exact (Hq _ _ (lookupTask_In _ _ _ Hl) Hs _ _ Hexec Hp).
Qed.

(** [spawnTask] touches the execution of its task only. *)
Lemma spawnTask_frame env task k s :
  k <> id task ->
  lookupTask k (tasks_of (fst (snd (spawnTask env task s))))
  = lookupTask k (tasks_of (fst s)).
Proof.
  intros Hk.
  apply (gently_spawnTask
           (fun p => lookupTask k (tasks_of p) = lookupTask k (tasks_of (fst s)))
           (fun k' _ => k <> k')).
  - intros t p H. exact H.
  - intros k' f p Hk' H. cbn [set_tasks tasks_of]. rewrite lookupTask_updateTask.
    apply String.eqb_neq in Hk'. rewrite Hk'. exact H.
  - intros f _. exact Hk.
  - reflexivity.
Qed.

(** The execution stored under [k] satisfies [P]. *)
Definition holdsAt (k : string) (P : TaskExecution -> Prop) (p : ProjectState) : Prop :=
  exists e, lookupTask k (tasks_of p) = Some e /\ P e.

Lemma holdsAt_onTask k f (P Q : TaskExecution -> Prop) s :
  (forall x, P x -> Q (f x)) ->
  holdsAt k P (fst s) -> holdsAt k Q (fst (snd (onTask k f s))).
Proof.
  intros HPQ (x & Hx & HP). unfold holdsAt, onTask, modify.
  cbn [fst snd set_tasks tasks_of].
  exists (f x). rewrite lookupTask_updateTask, String.eqb_refl, Hx. auto.
Qed.

Lemma holdsAt_save env k P s :
  holdsAt k P (fst s) -> holdsAt k P (fst (snd (save env s))).
Proof. destruct s as [p w]. rewrite IntegratorFacts.save_eq. auto. Qed.

Lemma holdsAt_request {A} c (answer : nat -> result A) k P s :
  holdsAt k P (fst s) -> holdsAt k P (fst (snd (request c answer s))).
Proof. unfold request. destruct (answer _); auto. Qed.

Lemma holdsAt_weaken k (P Q : TaskExecution -> Prop) p :
  (forall x, P x -> Q x) -> holdsAt k P p -> holdsAt k Q p.
Proof. intros HPQ (x & Hx & HP). exists x. auto. Qed.

(** The task that [spawnTask] is called for ends up running or failed. *)
Lemma spawnTask_starts env task s e :
  lookupTask (id task) (tasks_of (fst s)) = Some e ->
  exists e', lookupTask (id task) (tasks_of (fst (snd (spawnTask env task s)))) = Some e'
             /\ taskId e' = taskId e
             /\ (status e' = running \/ status e' = failed).
Proof.
  intros He.
  set (isRunning := fun x : TaskExecution => taskId x = taskId e /\ status x = running).
  set (isFailed := fun x : TaskExecution => taskId x = taskId e /\ status x = failed).
  set (begun := fun x : TaskExecution => isRunning x \/ isFailed x).
  assert (Hend : forall s0 : ProjectState * World,
            holdsAt (id task) begun (fst s0) ->
            exists e', lookupTask (id task) (tasks_of (fst s0)) = Some e'
                       /\ taskId e' = taskId e
                       /\ (status e' = running \/ status e' = failed)).
  { intros s0 (x & Hx & [[Hid Hst]|[Hid Hst]]); exists x; auto. }
  apply Hend.
  assert (Hrun : forall p, holdsAt (id task) isRunning p -> holdsAt (id task) begun p).
  { intros p. apply holdsAt_weaken. intros x Hx. left. exact Hx. }
  assert (Hfail : forall p, holdsAt (id task) isFailed p -> holdsAt (id task) begun p).
  { intros p. apply holdsAt_weaken. intros x Hx. right. exact Hx. }
  unfold spawnTask, spawnTaskWith, bind at 1, getState. cbn [fst snd]. rewrite He.
  assert (H0 : holdsAt (id task) (fun x => taskId x = taskId e) (fst s))
    by (exists e; auto).
  unfold bind at 1.
  pose proof (holdsAt_onTask (id task) (with_status running) _ isRunning s
                (fun x Hx => conj (Hx : taskId (with_status running x) = taskId e) eq_refl)
                H0) as H1.
  destruct (onTask (id task) (with_status running) s) as [[[]| |] s1] eqn:E1;
    cbn [snd] in H1; [|apply Hrun; exact H1..].
  unfold bind at 1, dateNow at 1. cbn [fst snd].
  unfold bind at 1.
  pose proof (holdsAt_onTask (id task) (with_startedAt (now env (tick (snd s1))))
                isRunning isRunning (fst s1, advance DateNow (snd s1))
                (fun x Hx => Hx) H1) as H2.
  destruct (onTask (id task) (with_startedAt _) _) as [[[]| |] s2] eqn:E2;
    cbn [snd] in H2; [|apply Hrun; exact H2..].
  (* the handler *)
  assert (Hhandler : forall msg (s0 : ProjectState * World), holdsAt (id task) isRunning (fst s0) ->
            holdsAt (id task) isFailed
              (fst (snd ((onTask (id task) (with_status failed) ;;;
                          onTask (id task) (with_error msg) ;;;
                          finished <- dateNow env ;;
                          onTask (id task) (with_completedAt finished) ;;;
                          save env) s0)))).
  { intros msg s0 Hs0. unfold bind at 1.
    pose proof (holdsAt_onTask (id task) (with_status failed) isRunning isFailed s0
                  (fun x Hx => conj (proj1 Hx : taskId (with_status failed x) = taskId e)
                                    eq_refl) Hs0) as Ha.
    destruct (onTask (id task) (with_status failed) s0) as [[[]| |] sa]; cbn [snd] in Ha;
      [|exact Ha..].
    unfold bind at 1.
    pose proof (holdsAt_onTask (id task) (with_error msg) isFailed isFailed sa
                  (fun x Hx => Hx) Ha) as Hb.
    destruct (onTask (id task) (with_error msg) sa) as [[[]| |] sb]; cbn [snd] in Hb;
      [|exact Hb..].
    unfold bind at 1, dateNow at 1. cbn [fst snd]. unfold bind at 1.
    pose proof (holdsAt_onTask (id task) (with_completedAt (now env (tick (snd sb))))
                  isFailed isFailed (fst sb, advance DateNow (snd sb))
                  (fun x Hx => Hx) Hb) as Hc.
    destruct (onTask (id task) (with_completedAt _) _) as [[[]| |] sc]; cbn [snd] in Hc;
      [|exact Hc..].
    apply holdsAt_save. exact Hc. }
  (* the body of [try] *)
  assert (Hbody : holdsAt (id task) isRunning
            (fst (snd ((sid <- createSession env ;;
                        onTask (id task) (with_session sid) ;;;
                        onTask (id task) (with_branch (Worker.expectedBranchName task)) ;;;
                        save env ;;;
                        sendPrompt env) s2)))).
  { unfold bind at 1.
    pose proof (holdsAt_request CreateSession (createSessionR env) _ isRunning s2 H2) as Ha.
    fold (createSession env) in Ha.
    destruct (createSession env s2) as [[sid| |] sa]; cbn [snd] in Ha; [|exact Ha..].
    unfold bind at 1.
    pose proof (holdsAt_onTask (id task) (with_session sid) isRunning isRunning sa
                  (fun x Hx => Hx) Ha) as Hb.
    destruct (onTask (id task) (with_session sid) sa) as [[[]| |] sb]; cbn [snd] in Hb;
      [|exact Hb..].
    unfold bind at 1.
    pose proof (holdsAt_onTask (id task) (with_branch (Worker.expectedBranchName task))
                  isRunning isRunning sb (fun x Hx => Hx) Hb) as Hc.
    destruct (onTask (id task) (with_branch _) sb) as [[[]| |] sc]; cbn [snd] in Hc;
      [|exact Hc..].
    unfold bind at 1. pose proof (holdsAt_save env _ isRunning sc Hc) as Hd.
    destruct (save env sc) as [[[]| |] sd]; cbn [snd] in Hd; [|exact Hd..].
    apply (holdsAt_request SendPrompt (sendPromptR env)). exact Hd. }
  unfold tryCatch.
  match goal with
  | |- context [match ?c s2 with _ => _ end] => destruct (c s2) as [[u|msg|] s3] eqn:E3
  end; cbn [snd] in Hbody.
  - apply Hrun. exact Hbody.
  - apply Hfail. exact (Hhandler msg s3 Hbody).
  - apply Hrun. exact Hbody.
Qed.

(** Through the spawns of a pass, a selected task that is not yet
    spawned stays startable. *)
Lemma forEach_spawn_startable env tm :
  (forall k task, tm !! k = Some task -> id task = k) ->
  forall before exec after s s1,
    NoDup (map taskId (before ++ exec :: after)) ->
    (forall x, In x (before ++ exec :: after) -> startable tm (tasks_of (fst s)) x) ->
    forEach (spawnOf env tm) before s = (Return tt, s1) ->
    startable tm (tasks_of (fst s1)) exec.
Proof.
  intros Htm. induction before as [|x before IH]; intros exec after s s1 Hnd Hall Hrun.
  - injection Hrun as <-. apply Hall. left. reflexivity.
  - cbn [forEach] in Hrun.
    apply PlanningFacts.bind_Return in Hrun as ([] & s' & Hx & Hrest).
    cbn [app map] in Hnd. apply NoDup_cons in Hnd as [Hxnew Hnd].
    apply (IH exec after s' s1 Hnd); [|exact Hrest].
    intros y Hy.
    destruct (Hall x (or_introl eq_refl)) as (tx & ex & Htx & Hlx & Hpx & _).
    unfold spawnOf in Hx. rewrite Htx in Hx.
    pose proof (Htm _ _ Htx) as Hidx.
    assert (Hframe : forall k, k <> taskId x ->
              lookupTask k (tasks_of (fst s')) = lookupTask k (tasks_of (fst s))).
    { intros k Hk. pose proof (spawnTask_frame env tx k s) as H.
      rewrite Hx in H. apply H. congruence. }
    destruct (Hall y (or_intror Hy)) as (ty & ey & Hty & Hly & Hpy & Hdeps).
    exists ty, ey. split; [exact Hty|].
    assert (Hyx : taskId y <> taskId x).
    { intros Heq. apply Hxnew. rewrite list_elem_of_In, <- Heq. apply in_map. exact Hy. }
    split; [rewrite (Hframe _ Hyx); exact Hly|]. split; [exact Hpy|].
    intros d Hd. destruct (Hdeps d Hd) as (dep & Hl & Hc). exists dep.
    split; [|exact Hc]. rewrite Hframe; [exact Hl|].
    intros ->. rewrite Hlx in Hl. injection Hl as ->. congruence.
Qed.

(** [pollTask] starts no task. *)
Lemma pollTask_starts_nothing env k exec k' s :
  (forall e, lookupTask k' (tasks_of (fst s)) = Some e -> status e <> running) ->
  forall e, lookupTask k' (tasks_of (fst (snd (pollTask env k exec s)))) = Some e ->
            status e <> running.
Proof.
  apply (gently_pollTask
           (fun p => forall e, lookupTask k' (tasks_of p) = Some e -> status e <> running)
           (fun _ f => calm f)).
  - intros t p H. exact H.
  - intros k0 f p Hf H e. cbn [set_tasks tasks_of]. rewrite lookupTask_updateTask.
    destruct (String.eqb k' k0) eqn:Hk; [|apply H].
    apply String.eqb_eq in Hk. subst k0.
    destruct (lookupTask k' (tasks_of p)) as [e0|] eqn:He0; [|discriminate].
    intros [= <-]. specialize (H e0 eq_refl).
    destruct (proj2 (Hf e0)) as [Hs|[Hs|Hs]]; congruence.
  - intros f Hf. exact Hf.
Qed.

(** *** Runs of [runExecution] *)

Lemma loop_reachable pl env maxParallel fuel : forall s,
  reachable pl true (tasks_of (fst s)) ->
  reachable pl true
    (tasks_of (fst (snd (loop env (Dag.taskMap (tasks pl)) maxParallel fuel s)))).
Proof.
  induction fuel as [|fuel IH]; intros s Hs; [exact Hs|].
  cbn [loop]. unfold bind.
  pose proof (reach_pass pl env maxParallel (fst s) (snd s) Hs) as Hit.
  rewrite <- surjective_pairing in Hit.
  destruct (iteration env (Dag.taskMap (tasks pl)) maxParallel s) as [[[|]| |] s1];
    cbn [snd] in *; [apply IH; exact Hit|exact Hit..].
Qed.

Lemma runExecution_reachable pl env maxParallel fuel p w :
  plan p = Some pl -> reachable pl false (tasks_of p) ->
  reachable pl false (tasks_of (fst (snd (runExecution env maxParallel fuel (p, w))))).
Proof.
  intros Hplan Hp.
  unfold runExecution, bind at 1, getState. cbn [fst snd].
  unfold bind at 1, modify. cbn [fst snd]. unfold bind at 1.
  rewrite IntegratorFacts.save_eq, Hplan.
  unfold bind at 1, modify. cbn [fst snd]. unfold bind at 1.
  rewrite IntegratorFacts.save_eq.
  match goal with
  | |- reachable _ _ (tasks_of (fst (snd (bind _ _ ?s0)))) =>
      assert (H0 : reachable pl true (tasks_of (fst s0)))
  end.
  { cbn [fst tasks_of Store.set_updatedAt set_tasks set_phase].
    apply reach_enter. exact Hp. }
  unfold bind at 1.
  pose proof (loop_reachable pl env (default DEFAULT_MAX_PARALLEL maxParallel) fuel _ H0)
    as Hl.
  apply reach_leave in Hl.
  destruct (loop env (Dag.taskMap (tasks pl)) _ fuel _) as [[[]| |] s1];
    cbn [snd] in *; [|exact Hl..].
  unfold bind at 1, getState. cbn [fst snd].
  destruct (_ && _); [|exact Hl].
  unfold bind at 1, modify. cbn [fst snd]. unfold bind at 1. destruct s1 as [p1 w1].
  rewrite IntegratorFacts.save_eq. exact Hl.
Qed.

(** A loop over a list runs the loop over its front part first. *)
Lemma forEach_app {A} (f : A -> M unit) (l1 l2 : list A) s :
  forEach f (l1 ++ l2) s = (forEach f l1 ;;; forEach f l2) s.
Proof.
  revert s. induction l1 as [|x l1 IH]; intros s; [reflexivity|].
  cbn [app forEach]. unfold bind. destruct (f x s) as [[[]| |] s1]; [|reflexivity..].
  rewrite IH. reflexivity.
Qed.


(** The first run on the plan [b after a]: the table that the loop is
    entered with is reachable, and the first pass selects [a] alone. *)
Example first_pass_selects_root :
  let ts := initTasks (tasks chainPlan) [] in
  reachable chainPlan true ts
  /\ option_map (map taskId) (toSpawnOf (Dag.taskMap (tasks chainPlan)) 3 ts)
     = Some ["a"].
Proof.
  split; [apply reach_enter, reach_fresh|]. vm_compute. reflexivity.
Qed.

(** The run goes on: with a session that is complete at its first poll,
    the first pass leaves [a] completed; the table it leaves is
    reachable, and the second pass selects [b], whose dependency is
    completed by then. *)
Example second_pass_selects_dependent :
  let env := IntegratorFacts.sampleEnv [IntegratorFacts.completeEvent true []] [] in
  let tm := Dag.taskMap (tasks chainPlan) in
  let p0 := set_tasks (initTasks (tasks chainPlan) []) resumed in
  let ts1 := tasks_of (fst (snd (iteration env tm 3 (p0, IntegratorFacts.world0)))) in
  reachable chainPlan true ts1
  /\ option_map status (lookupTask "a" ts1) = Some completed
  /\ option_map (map taskId) (toSpawnOf tm 3 ts1) = Some ["b"].
Proof.
  intros env tm p0 ts1. split.
  - apply (reach_pass chainPlan env 3 p0 IntegratorFacts.world0).
    exact (reach_enter chainPlan [] (reach_fresh chainPlan)).
  - vm_compute. auto.
Qed.

End ReadinessFacts.

(** ** Extraction *)

Module ExtractionFacts.
Import JS JSON Extractor JSONFacts.

#[local] Arguments String.append : simpl nomatch.

(** [has c s]: the character [c] occurs in [s]. *)
Fixpoint has (c : ascii) (s : string) : bool :=
  match s with
  | EmptyString => false
  | String ch r => (ch =? c)%char || has c r
  end.

Definition backtick : ascii := "`"%char.

Lemma has_app c a b : has c (a +:+ b) = has c a || has c b.
Proof. induction a as [|x a IH]; simpl; [reflexivity|]. rewrite IH, orb_assoc. reflexivity. Qed.

Lemma prefix_fence_head c r : (c =? backtick)%char = false -> String.prefix fence (String c r) = false.
Proof.
  intros Hc. unfold fence. cbn [String.prefix].
  destruct (ascii_dec "`" c) as [<-|_]; [discriminate Hc|reflexivity].
Qed.

Lemma fromFirst_none c s : has c s = false -> fromFirst c s = None.
Proof.
  induction s as [|ch r IH]; [reflexivity|]. cbn [has fromFirst].
  intros H. apply orb_false_iff in H as [-> H]. exact (IH H).
Qed.

Lemma matchHere_head c r : (c =? backtick)%char = false -> matchHere (String c r) = None.
Proof. intros Hc. unfold matchHere. rewrite (prefix_fence_head c r Hc). reflexivity. Qed.

Lemma fenceMatch_none s : has backtick s = false -> fenceMatch s = None.
Proof.
  induction s as [|c r IH]; [reflexivity|]. cbn [has]. intros H.
  apply orb_false_iff in H as [Hc H]. cbn [fenceMatch].
  rewrite (matchHere_head c r Hc). exact (IH H).
Qed.

Lemma fenceMatch_skip p s : has backtick p = false -> fenceMatch (p +:+ s) = fenceMatch s.
Proof.
  induction p as [|c r IH]; [reflexivity|]. cbn [has]. intros H.
  apply orb_false_iff in H as [Hc H]. cbn [String.append fenceMatch].
  rewrite (matchHere_head c _ Hc). exact (IH H).
Qed.

(** X23.  A text without a backtick, an opening brace or an opening bracket,
    the empty text among them, holds no candidate: [extractJson] returns
    [null]. *)
Theorem extractJson_plain_text (text : string) :
  has backtick text = false -> has "{" text = false -> has "[" text = false ->
  extractJson text = VNull.
Proof.
  intros Hf Ho Ha. unfold extractJson, extractBalanced.
  rewrite (fenceMatch_none text Hf), (fromFirst_none _ _ Ho), (fromFirst_none _ _ Ha).
  reflexivity.
Qed.

Lemma extractJson_plain_text_witness :
  extractJson "I could not produce a plan." = VNull.
Proof. apply extractJson_plain_text; reflexivity. Defined.

(** *** The balanced slice *)

Lemma string_of_rev_cons ch taken rest :
  string_of_list_ascii (rev (ch :: taken)) +:+ rest
  = string_of_list_ascii (rev taken) +:+ String ch rest.
Proof.
  cbn [rev]. generalize (rev taken). intros l.
  induction l as [|a l IH]; simpl; [reflexivity|]. rewrite IH. reflexivity.
Qed.

Lemma balancedLoop_slice opening closing s : forall depth inString escape taken r,
  balancedLoop opening closing s depth inString escape taken = Some r ->
  exists inner after,
    s = inner +:+ String closing after
    /\ r = string_of_list_ascii (rev taken) +:+ inner +:+ String closing EmptyString.
Proof.
  induction s as [|ch s IH]; intros depth inString escape taken r H; [discriminate|].
  cbn [balancedLoop] in H.
  assert (Hrec : forall d i e,
            balancedLoop opening closing s d i e (ch :: taken) = Some r ->
            exists inner after,
              String ch s = inner +:+ String closing after
              /\ r = string_of_list_ascii (rev taken) +:+ inner
                     +:+ String closing EmptyString).
  { intros d i e Hr. destruct (IH _ _ _ _ _ Hr) as (inner & after & -> & ->).
    exists (String ch inner), after. split; [reflexivity|].
    rewrite string_of_rev_cons. reflexivity. }
  destruct escape; [exact (Hrec _ _ _ H)|].
  destruct (ch =? "092")%char; [exact (Hrec _ _ _ H)|].
  destruct (ch =? "034")%char; [exact (Hrec _ _ _ H)|].
  destruct inString; [exact (Hrec _ _ _ H)|].
  destruct (ch =? opening)%char; [exact (Hrec _ _ _ H)|].
  destruct (ch =? closing)%char eqn:Hclose; [|exact (Hrec _ _ _ H)].
  destruct (depth - 1 =? 0)%Z; [|exact (Hrec _ _ _ H)].
  apply Ascii.eqb_eq in Hclose. subst ch. injection H as <-.
  exists EmptyString, s. split; [reflexivity|].
  change (EmptyString +:+ String closing EmptyString) with (String closing EmptyString).
  rewrite <- string_of_rev_cons, app_nil_r. reflexivity.
Qed.

Lemma fromFirst_split c s suffix :
  fromFirst c s = Some suffix ->
  exists before rest,
    s = before +:+ suffix /\ suffix = String c rest /\ has c before = false.
Proof.
  revert suffix. induction s as [|ch r IH]; intros suffix H; [discriminate|].
  cbn [fromFirst] in H. destruct (ch =? c)%char eqn:Hc.
  - apply Ascii.eqb_eq in Hc. subst ch. injection H as <-.
    exists EmptyString, r. auto.
  - destruct (IH _ H) as (before & rest & -> & -> & Hb).
    exists (String ch before), rest. split; [reflexivity|]. split; [reflexivity|].
    cbn [has]. rewrite Hc. exact Hb.
Qed.

(** X24.  The candidate that [extractBalanced] returns is a slice of the text:
    it starts at the first opening character of the text and ends with a
    closing character.  In particular it is never empty. *)
Theorem extractBalanced_slice (text : string) (opening closing : ascii) (r : string) :
  extractBalanced text opening closing = Some r ->
  exists before inner after,
    text = before +:+ r +:+ after
    /\ has opening before = false
    /\ r = String opening inner +:+ String closing EmptyString
    /\ nonEmpty (Some r) = Some r.
Proof.
  unfold extractBalanced. destruct (fromFirst opening text) as [suffix|] eqn:Hf; [|discriminate].
  destruct (fromFirst_split _ _ _ Hf) as (before & rest & -> & -> & Hb).
  intros H.
  assert (Hfirst : balancedLoop opening closing (String opening rest) 0 false false []
                   = balancedLoop opening closing rest
                       (if (opening =? "092")%char || (opening =? "034")%char
                        then 0 else 1)
                       ((opening =? "034")%char && negb (opening =? "092")%char)
                       (opening =? "092")%char [opening]).
  { cbn [balancedLoop]. rewrite Ascii.eqb_refl.
    destruct (opening =? "092")%char, (opening =? "034")%char; reflexivity. }
  rewrite Hfirst in H.
  destruct (balancedLoop_slice _ _ _ _ _ _ _ _ H) as (inner & after & -> & ->).
  exists before, inner, after. split; [|split; [exact Hb|split; reflexivity]].
  cbn [rev app string_of_list_ascii String.append]. rewrite !app_assoc. reflexivity.
Qed.

Lemma extractBalanced_slice_witness :
  exists before inner after,
    "see {a{b}} and {c}" = before +:+ "{a{b}}" +:+ after
    /\ has "{" before = false
    /\ "{a{b}}" = String "{" inner +:+ "}"
    /\ nonEmpty (Some "{a{b}}") = Some "{a{b}}".
Proof.
  apply (extractBalanced_slice "see {a{b}} and {c}" "{" "}" "{a{b}}"). reflexivity.
Defined.

(** *** A fenced value *)

Lemma digit_not_space c : isDigit c = true -> isSpace c = false.
Proof.
  destruct c as [b0 b1 b2 b3 b4 b5 b6 b7].
  destruct b0, b1, b2, b3, b4, b5, b6, b7; intros H; try discriminate H; reflexivity.
Qed.

Lemma ser_first indent v :
  storable v -> exists c r, ser indent v = String c r /\ isSpace c = false.
Proof.
  unfold ser. destruct v as [| |[]|n| |s|items|fields]; simpl; intros H;
    try destruct H; try (eexists _, _; split; [reflexivity|reflexivity]).
  - destruct (showZ_head n) as (c & r & -> & Hc). exists c, r.
    split; [reflexivity|]. destruct Hc as [->|Hc]; [reflexivity|].
    exact (digit_not_space c Hc).
  - unfold wrap. destruct (map _ items); eexists _, _; (split; reflexivity).
  - unfold wrap. destruct (flat_map _ fields); eexists _, _; (split; reflexivity).
Qed.

Lemma uint_last d :
  d <> Decimal.Nil ->
  exists r c, NilEmpty.string_of_uint d = r +:+ String c EmptyString /\ isDigit c = true.
Proof.
  induction d as [|d IH|d IH|d IH|d IH|d IH|d IH|d IH|d IH|d IH|d IH]; intros Hd;
    [contradiction|..];
    (destruct d as [|d'|d'|d'|d'|d'|d'|d'|d'|d'|d'];
     [eexists EmptyString, _; split; [reflexivity|reflexivity]
     |destruct IH as (r & c & Hr & Hc); [discriminate|];
      cbn [NilEmpty.string_of_uint] in *; rewrite Hr;
      eexists (String _ r), c; split; [reflexivity|exact Hc]..]).
Qed.

Lemma showZ_last n :
  exists r c, showZ n = r +:+ String c EmptyString /\ isDigit c = true.
Proof.
  assert (Hpos : forall p, exists r c,
            NilZero.string_of_uint (Pos.to_uint p) = r +:+ String c EmptyString
            /\ isDigit c = true).
  { intros p. pose proof (DecimalPos.Unsigned.to_uint_nonnil p) as Hn.
    destruct (uint_last _ Hn) as (r & c & Hr & Hc). exists r, c. split; [|exact Hc].
    unfold NilZero.string_of_uint. destruct (Pos.to_uint p); [contradiction|exact Hr..]. }
  unfold showZ. destruct n as [|p|p].
  - exists EmptyString, "0"%char. split; reflexivity.
  - exact (Hpos p).
  - destruct (Hpos p) as (r & c & Hr & Hc). exists (String "-" r), c.
    split; [|exact Hc]. change (Z.to_int (Z.neg p)) with (Decimal.Neg (Pos.to_uint p)).
    cbn [NilZero.string_of_int]. rewrite Hr. reflexivity.
Qed.

Lemma quoteBody_last s : exists r, quoteBody s = r +:+ String dq EmptyString.
Proof.
  induction s as [|c s [r IH]]; [exists EmptyString; reflexivity|].
  cbn [quoteBody]. rewrite IH. exists (escapeChar c +:+ r). rewrite app_assoc. reflexivity.
Qed.

Lemma wrap_last o c stepback indent parts :
  exists r, wrap o c stepback indent parts = r +:+ String c EmptyString.
Proof.
  unfold wrap. destruct parts as [|p ps].
  - exists (String o EmptyString). reflexivity.
  - exists (String o (newline indent +:+ join (String "," (newline indent)) (p :: ps)
                      +:+ newline stepback)).
    change (String o ?x +:+ ?y) with (String o (x +:+ y)).
    rewrite !app_assoc. reflexivity.
Qed.

Lemma ser_last indent v :
  storable v ->
  exists r c, ser indent v = r +:+ String c EmptyString /\ isSpace c = false.
Proof.
  unfold ser. destruct v as [| |[]|n| |s|items|fields]; simpl; intros H; try destruct H.
  - exists "nul", "l"%char. split; reflexivity.
  - exists "tru", "e"%char. split; reflexivity.
  - exists "fals", "e"%char. split; reflexivity.
  - destruct (showZ_last n) as (r & c & -> & Hc). exists r, c.
    split; [reflexivity|exact (digit_not_space c Hc)].
  - destruct (quoteBody_last s) as [r Hr]. unfold quoteJSONString. rewrite Hr.
    exists (String dq r), dq. split; reflexivity.
  - destruct (wrap_last "[" "]" indent (indent +:+ "  ")
                (map (fun x => default "null" (serialize (indent +:+ "  ") x)) items))
      as [r ->].
    exists r, "]"%char. split; reflexivity.
  - match goal with
    | |- exists r c, wrap ?o ?c0 ?sb ?ind ?parts = _ /\ _ =>
        destruct (wrap_last o c0 sb ind parts) as [r ->]
    end.
    exists r, "}"%char. split; reflexivity.
Qed.

Lemma trimStart_head c r : isSpace c = false -> trimStart (String c r) = String c r.
Proof. intros H. cbn [trimStart]. rewrite H. reflexivity. Qed.

(** [trim] removes the line feed after a text that neither starts nor
    ends with white space. *)
Lemma trim_line c r r' c' :
  String c r = r' +:+ String c' EmptyString ->
  isSpace c = false -> isSpace c' = false ->
  trim (String c r +:+ String nl EmptyString) = String c r.
Proof.
  intros Hs Hc Hc'. unfold trim.
  change (String c r +:+ String nl EmptyString) with (String c (r +:+ String nl EmptyString)).
  rewrite (trimStart_head c _ Hc).
  change (String c (r +:+ String nl EmptyString)) with (WorkerFacts.snoc (String c r) nl).
  rewrite WorkerFacts.rev_string_snoc. cbn [trimStart].
  change (isSpace nl) with true. cbv iota. rewrite Hs.
  change (r' +:+ String c' EmptyString) with (WorkerFacts.snoc r' c').
  rewrite WorkerFacts.rev_string_snoc, (trimStart_head c' _ Hc').
  rewrite <- WorkerFacts.rev_string_snoc. apply WorkerFacts.rev_string_involutive.
Qed.

Lemma dropN_app (p rest : string) : dropN (String.length p) (p +:+ rest) = rest.
Proof.
  unfold dropN. rewrite substring_skip, length_app.
  replace (String.length p + String.length rest - String.length p)
    with (String.length rest) by lia.
  apply substring_all.
Qed.

Lemma lazyBody_app body rest :
  has backtick body = false -> lazyBody (body +:+ fence +:+ rest) = Some body.
Proof.
  induction body as [|c r IH]; intros H.
  - change (EmptyString +:+ fence +:+ rest) with (fence +:+ rest).
    destruct (fence +:+ rest) eqn:E; [discriminate E|]. rewrite <- E.
    assert (Hstep : forall s, lazyBody s
              = if String.prefix fence s then Some EmptyString
                else match s with
                     | EmptyString => None
                     | String c r => match lazyBody r with
                                     | Some body => Some (String c body)
                                     | None => None
                                     end
                     end) by (intros []; reflexivity).
    rewrite Hstep, prefix_app. reflexivity.
  - cbn [has] in H. apply orb_false_iff in H as [Hc H].
    change (String c r +:+ fence +:+ rest) with (String c (r +:+ fence +:+ rest)).
    cbn [lazyBody]. rewrite (prefix_fence_head c _ Hc), (IH H). reflexivity.
Qed.

Lemma spaces_head c r : isSpace c = false -> spaces (String c r) = [String c r].
Proof.
  intros Hc. cbn [spaces optNewline]. rewrite Hc.
  destruct (c =? "010")%char eqn:Hnl; [|reflexivity].
  apply Ascii.eqb_eq in Hnl. subst c. discriminate Hc.
Qed.

Lemma parse_ser v : storable v -> parse (ser EmptyString v) = Some v.
Proof.
  intros Hst. unfold parse.
  pose proof (parseValue_ser (S (2 * String.length (ser EmptyString v)))
                v EmptyString EmptyString Hst eq_refl eq_refl) as H.
  rewrite app_nil_r in H. rewrite H by lia. reflexivity.
Qed.

Definition lf : string := String nl EmptyString.

(** X25.  A value that [JSON.stringify] printed, put on lines of its own inside
    a code fence (tagged [json] or not), is what [extractJson] returns,
    whatever follows the fence, provided no backtick occurs before the
    fence or in the printed value. *)
Theorem extractJson_fenced
  (v : value) (before after : string) (tagged : bool) :
  storable v ->
  has backtick before = false ->
  has backtick (stringify v) = false ->
  extractJson (before +:+ fence +:+ (if tagged then "json" else EmptyString) +:+ lf
               +:+ stringify v +:+ lf +:+ fence +:+ after)
  = v.
Proof.
  intros Hst Hbefore Hprinted. unfold stringify in *.
  rewrite (serialize_ser EmptyString v Hst) in *.
  cbv [default from_option Datatypes.id] in *.
  destruct (ser_first EmptyString v Hst) as (c & r & Hser & Hc).
  destruct (ser_last EmptyString v Hst) as (r' & c' & Hlast & Hc').
  assert (Hbody : forall tail,
            firstSome lazyBody
              (spaces (lf +:+ ser EmptyString v +:+ lf +:+ fence +:+ after) ++ tail)
            = Some (ser EmptyString v +:+ lf)).
  { intros tail. unfold lf at 1. cbn [String.append spaces].
    change (isSpace nl) with true. cbv iota. rewrite Hser.
    change (String c r +:+ lf +:+ fence +:+ after)
      with (String c (r +:+ lf +:+ fence +:+ after)).
    rewrite (spaces_head c _ Hc). cbn [app firstSome].
    change (String c (r +:+ lf +:+ fence +:+ after))
      with (String c r +:+ lf +:+ fence +:+ after).
    rewrite <- (app_assoc (String c r) lf). rewrite lazyBody_app; [reflexivity|].
    rewrite has_app, <- Hser, Hprinted. reflexivity. }
  assert (Hmatch : fenceMatch
            (before +:+ fence +:+ (if tagged then "json" else EmptyString) +:+ lf
             +:+ ser EmptyString v +:+ lf +:+ fence +:+ after)
            = Some (ser EmptyString v +:+ lf)).
  { rewrite (fenceMatch_skip before _ Hbefore).
    assert (Hstep : forall s, fenceMatch s
              = match matchHere s with
                | Some body => Some body
                | None => match s with
                          | EmptyString => None
                          | String _ r => fenceMatch r
                          end
                end) by (intros []; reflexivity).
    rewrite Hstep. unfold matchHere. rewrite prefix_app.
    change 3 with (String.length fence). rewrite dropN_app.
    unfold afterOpening. destruct tagged.
    - rewrite prefix_app. change 4 with (String.length "json"). rewrite dropN_app.
      rewrite Hbody. reflexivity.
    - change (EmptyString +:+ ?x) with x.
      assert (Hno : String.prefix "json"
                      (lf +:+ ser EmptyString v +:+ lf +:+ fence +:+ after) = false).
      { unfold lf at 1. cbn [String.append String.prefix].
        destruct (ascii_dec "j" nl) as [Hj|_]; [discriminate Hj|reflexivity]. }
      rewrite Hno, <- (List.app_nil_r (spaces _)), Hbody. reflexivity. }
  unfold extractJson. rewrite Hmatch. cbn [option_map tryParse].
  rewrite Hser. unfold lf. rewrite (trim_line c r r' c'); [|congruence|exact Hc|exact Hc'].
  rewrite <- Hser, (parse_ser v Hst). reflexivity.
Qed.

Lemma extractJson_fenced_witness :
  extractJson ("Here is the plan:" +:+ lf +:+ "```json" +:+ lf
               +:+ stringify (VObj [("summary", VStr "one task"); ("tasks", VArr [])])
               +:+ lf +:+ "```" +:+ lf +:+ "Run `oi status` next.")
  = VObj [("summary", VStr "one task"); ("tasks", VArr [])].
Proof.
  apply (extractJson_fenced
           (VObj [("summary", VStr "one task"); ("tasks", VArr [])])
           ("Here is the plan:" +:+ lf) (lf +:+ "Run `oi status` next.") true).
  - split; [|cbn; auto].
    apply (bool_decide_unpack (NoDup ["summary"; "tasks"])). reflexivity.
  - reflexivity.
  - vm_compute. reflexivity.
Defined.

End ExtractionFacts.

(** ** Extraction without a fence *)

Module BalancedFacts.
Import JS JSON Extractor JSONFacts ExtractionFacts.

#[local] Arguments String.append : simpl nomatch.

(** *** Scanning a text that does not end the scan *)

(** The state in which the loop of [extractBalanced] leaves the text [w],
    or [None] when it returns inside [w]. *)
Fixpoint passes (opening closing : ascii) (w : string)
  (depth : Z) (inString escape : bool) : option (Z * bool * bool) :=
  match w with
  | EmptyString => Some (depth, inString, escape)
  | String ch r =>
      if escape then passes opening closing r depth inString false
      else if (ch =? "092")%char then passes opening closing r depth inString true
      else if (ch =? "034")%char then passes opening closing r depth (negb inString) false
      else if inString then passes opening closing r depth inString false
      else if (ch =? opening)%char then passes opening closing r (depth + 1) inString false
      else if (ch =? closing)%char
      then if (depth - 1 =? 0)%Z then None
           else passes opening closing r (depth - 1) inString false
      else passes opening closing r depth inString false
  end.

Definition revapp (w : string) (taken : list ascii) : list ascii :=
  rev (list_ascii_of_string w) ++ taken.

Lemma balancedLoop_passes o c w rest : forall d i e taken d' i' e',
  passes o c w d i e = Some (d', i', e') ->
  balancedLoop o c (w +:+ rest) d i e taken
  = balancedLoop o c rest d' i' e' (revapp w taken).
Proof.
  induction w as [|ch w IH]; intros d i e taken d' i' e' H.
  - injection H as <- <- <-. reflexivity.
  - assert (Hrev : revapp (String ch w) taken = revapp w (ch :: taken)).
    { unfold revapp. cbn [list_ascii_of_string rev].
      rewrite <- List.app_assoc. reflexivity. }
    rewrite Hrev. cbn [passes] in H.
    change (String ch w +:+ rest) with (String ch (w +:+ rest)). cbn [balancedLoop].
    destruct e; [exact (IH _ _ _ _ _ _ _ H)|].
    destruct (ch =? "092")%char; [exact (IH _ _ _ _ _ _ _ H)|].
    destruct (ch =? "034")%char; [exact (IH _ _ _ _ _ _ _ H)|].
    destruct i; [exact (IH _ _ _ _ _ _ _ H)|].
    destruct (ch =? o)%char; [exact (IH _ _ _ _ _ _ _ H)|].
    destruct (ch =? c)%char; [|exact (IH _ _ _ _ _ _ _ H)].
    destruct (d - 1 =? 0)%Z; [discriminate H|exact (IH _ _ _ _ _ _ _ H)].
Qed.

Lemma passes_app o c a b : forall d i e,
  passes o c (a +:+ b) d i e
  = match passes o c a d i e with
    | Some (d', i', e') => passes o c b d' i' e'
    | None => None
    end.
Proof.
  induction a as [|ch a IH]; intros d i e; [reflexivity|].
  change (String ch a +:+ b) with (String ch (a +:+ b)). cbn [passes].
  destruct e; [apply IH|].
  destruct (ch =? "092")%char; [apply IH|].
  destruct (ch =? "034")%char; [apply IH|].
  destruct i; [apply IH|].
  destruct (ch =? o)%char; [apply IH|].
  destruct (ch =? c)%char; [|apply IH].
  destruct (d - 1 =? 0)%Z; [reflexivity|apply IH].
Qed.

(** The two scans of [extractJson]: for an object and for an array. *)
Inductive brackets := braces | squares.

Definition opening (k : brackets) : ascii :=
  match k with braces => "{"%char | squares => "["%char end.

Definition closing (k : brackets) : ascii :=
  match k with braces => "}"%char | squares => "]"%char end.

(** [through k w]: outside a string and at depth 1 or more, the scan
    passes [w] and is then in the state in which it entered. *)
Definition through (k : brackets) (w : string) : Prop :=
  forall d, (1 <= d)%Z ->
    passes (opening k) (closing k) w d false false = Some (d, false, false).

Lemma through_nil k : through k EmptyString.
Proof. intros d _. reflexivity. Qed.

Lemma through_app k a b : through k a -> through k b -> through k (a +:+ b).
Proof. intros Ha Hb d Hd. rewrite passes_app, (Ha d Hd). exact (Hb d Hd). Qed.

(** A character that the scan steps over. *)
Definition plain (k : brackets) (ch : ascii) : bool :=
  negb (ch =? "092")%char && negb (ch =? "034")%char
  && negb (ch =? opening k)%char && negb (ch =? closing k)%char.

Lemma through_plain k ch w : plain k ch = true -> through k w -> through k (String ch w).
Proof.
  unfold plain. intros H Hw d Hd. cbn [passes].
  apply andb_true_iff in H as [H H4]. apply andb_true_iff in H as [H H3].
  apply andb_true_iff in H as [H1 H2].
  apply negb_true_iff in H1, H2, H3, H4. rewrite H1, H2, H3, H4. exact (Hw d Hd).
Qed.

Lemma through_blank k w : blank w = true -> through k w.
Proof.
  induction w as [|ch w IH]; [intros _; apply through_nil|]. cbn [blank]. intros H.
  apply andb_true_iff in H as [Hc Hw]. apply Ascii.eqb_eq in Hc. subst ch.
  apply through_plain; [destruct k; reflexivity|exact (IH Hw)].
Qed.

Lemma through_newline k indent : blank indent = true -> through k (newline indent).
Proof.
  intros H. apply through_plain; [destruct k; reflexivity|exact (through_blank k _ H)].
Qed.

Lemma through_uint k u : through k (NilEmpty.string_of_uint u).
Proof.
  induction u; cbn [NilEmpty.string_of_uint];
    [apply through_nil|apply through_plain; [destruct k; reflexivity|assumption]..].
Qed.

Lemma through_showZ k n : through k (showZ n).
Proof.
  assert (Hu : forall u, through k (NilZero.string_of_uint u)).
  { intros u. unfold NilZero.string_of_uint. destruct u;
      try exact (through_uint k _).
    apply through_plain; [destruct k; reflexivity|apply through_nil]. }
  unfold showZ. destruct (Z.to_int n) as [u|u]; cbn [NilZero.string_of_int].
  - apply Hu.
  - apply through_plain; [destruct k; reflexivity|apply Hu].
Qed.

(** Inside a string literal the scan follows the escapes that
    [JSON.stringify] writes and leaves the literal at its closing quote. *)
Lemma passes_quoteBody o c s : forall d,
  passes o c (quoteBody s) d true false = Some (d, false, false).
Proof.
  induction s as [|ch s IH]; intros d; [reflexivity|].
  cbn [quoteBody]. rewrite passes_app.
  assert (H : passes o c (escapeChar ch) d true false = Some (d, true, false)).
  { destruct ch as [b0 b1 b2 b3 b4 b5 b6 b7].
    destruct b0, b1, b2, b3, b4, b5, b6, b7; reflexivity. }
  rewrite H. apply IH.
Qed.

Lemma through_quoted k s : through k (quoteJSONString s).
Proof. intros d _. unfold quoteJSONString. cbn [passes]. apply passes_quoteBody. Qed.

Lemma through_tailOf k sep parts :
  through k sep -> Forall (through k) parts -> through k (tailOf sep parts).
Proof.
  intros Hsep. induction 1 as [|p ps Hp _ IH]; [apply through_nil|].
  cbn [tailOf fold_right]. fold (tailOf sep ps).
  apply through_app; [exact Hsep|]. apply through_app; [exact Hp|exact IH].
Qed.

(** What stands between the brackets of a printed object or array. *)
Definition between (indent inner : string) (parts : list string) : string :=
  match parts with
  | [] => EmptyString
  | p :: ps =>
      newline inner +:+ p +:+ tailOf (String "," (newline inner)) ps +:+ newline indent
  end.

Lemma wrap_between o c indent inner parts :
  wrap o c indent inner parts
  = String o (between indent inner parts +:+ String c EmptyString).
Proof.
  destruct parts as [|p ps]; [reflexivity|].
  rewrite wrap_cons. unfold between. rewrite !app_assoc. reflexivity.
Qed.

Lemma through_between k indent inner parts :
  blank indent = true -> blank inner = true -> Forall (through k) parts ->
  through k (between indent inner parts).
Proof.
  intros Hind Hinner Hparts. destruct parts as [|p ps]; [apply through_nil|].
  apply Forall_cons in Hparts as [Hp Hps]. unfold between.
  apply through_app; [exact (through_newline k _ Hinner)|].
  apply through_app; [exact Hp|].
  apply through_app; [|exact (through_newline k _ Hind)].
  apply through_tailOf; [|exact Hps].
  apply through_plain; [destruct k; reflexivity|exact (through_newline k _ Hinner)].
Qed.

(** Brackets of the kind scanned for: one level down and up again. *)
Lemma through_nested k w :
  through k w -> through k (String (opening k) (w +:+ String (closing k) EmptyString)).
Proof.
  intros Hw d Hd. cbn [passes].
  assert (Ho : ((opening k =? "092")%char = false) /\ ((opening k =? "034")%char = false)
               /\ ((closing k =? "092")%char = false)
               /\ ((closing k =? "034")%char = false)
               /\ ((closing k =? opening k)%char = false))
    by (destruct k; repeat split; reflexivity).
  destruct Ho as (H1 & H2 & H3 & H4 & H5).
  rewrite H1, H2, Ascii.eqb_refl. rewrite passes_app, (Hw (d + 1)%Z) by lia.
  cbn [passes]. rewrite H3, H4, H5, Ascii.eqb_refl.
  replace (d + 1 - 1)%Z with d by lia.
  destruct (d =? 0)%Z eqn:Hz; [apply Z.eqb_eq in Hz; lia|reflexivity].
Qed.

(** Brackets of either kind around parts that the scan passes. *)
Lemma through_wrap k k' indent inner parts :
  blank indent = true -> blank inner = true -> Forall (through k) parts ->
  through k (wrap (opening k') (closing k') indent inner parts).
Proof.
  intros Hind Hinner Hparts. rewrite wrap_between.
  pose proof (through_between k indent inner parts Hind Hinner Hparts) as Hmid.
  destruct k, k'; try exact (through_nested _ _ Hmid);
    (apply through_plain; [reflexivity|]);
    (apply through_app; [exact Hmid|]);
    (apply through_plain; [reflexivity|apply through_nil]).
Qed.

Lemma in_list_sum (x : string) (parts : list string) :
  In x parts -> S (String.length x) <= list_sum (map (fun q => S (String.length q)) parts).
Proof.
  induction parts as [|p ps IH]; [intros []|].
  cbn [map list_sum In]. unfold list_sum in *. cbn [fold_right].
  intros [->|H]; [lia|]. specialize (IH H). lia.
Qed.

Lemma length_part o c indent inner parts x :
  In x parts -> String.length x < String.length (wrap o c indent inner parts).
Proof.
  intros Hin. destruct parts as [|p ps]; [destruct Hin|].
  pose proof (length_wrap_cons o c indent inner p ps).
  pose proof (in_list_sum x (p :: ps) Hin). lia.
Qed.

Lemma ser_object indent fields :
  Forall (fun kv => storable (snd kv)) fields ->
  ser indent (VObj fields)
  = wrap "{" "}" indent (indent +:+ "  ") (map (member (indent +:+ "  ")) fields).
Proof.
  intros Hst. unfold ser. cbn [serialize default]. rewrite (members_of_fields _ _ Hst).
  reflexivity.
Qed.

Lemma through_member k inner key x :
  through k (ser inner x) -> through k (member inner (key, x)).
Proof.
  intros Hx. unfold member. cbn [fst snd].
  apply through_app; [apply through_quoted|].
  apply through_app; [|exact Hx].
  repeat (apply through_plain; [destruct k; reflexivity|]). apply through_nil.
Qed.

(** The scan passes every printed value. *)
Lemma through_ser k : forall n v indent,
  storable v -> blank indent = true -> String.length (ser indent v) <= n ->
  through k (ser indent v).
Proof.
  induction n as [n IH] using lt_wf_ind. intros v indent Hst Hind Hlen.
  assert (Hinner : blank (indent +:+ "  ") = true) by (apply blank_app; auto).
  destruct v as [| |[]|z| |s|items|fields]; try (destruct Hst; fail).
  - repeat (apply through_plain; [destruct k; reflexivity|]). apply through_nil.
  - repeat (apply through_plain; [destruct k; reflexivity|]). apply through_nil.
  - repeat (apply through_plain; [destruct k; reflexivity|]). apply through_nil.
  - apply through_showZ.
  - apply through_quoted.
  - apply storable_arr in Hst.
    change (ser indent (VArr items))
      with (wrap "[" "]" indent (indent +:+ "  ") (map (ser (indent +:+ "  ")) items)) in *.
    apply (through_wrap k squares); [exact Hind|exact Hinner|].
    apply List.Forall_forall. intros part Hpart.
    pose proof (length_part "[" "]" indent (indent +:+ "  ") _ _ Hpart) as Hshort.
    apply in_map_iff in Hpart as (x & <- & Hx).
    apply (IH (String.length (ser (indent +:+ "  ") x))); [lia| |exact Hinner|lia].
    rewrite List.Forall_forall in Hst. exact (Hst x Hx).
  - apply storable_obj in Hst as [_ Hst]. rewrite (ser_object indent fields Hst) in *.
    apply (through_wrap k braces); [exact Hind|exact Hinner|].
    apply List.Forall_forall. intros part Hpart.
    pose proof (length_part "{" "}" indent (indent +:+ "  ") _ _ Hpart) as Hshort.
    apply in_map_iff in Hpart as ([key x] & <- & Hx).
    pose proof (length_member (indent +:+ "  ") (key, x)) as Hm. cbn [snd] in Hm.
    apply through_member.
    apply (IH (String.length (ser (indent +:+ "  ") x))); [lia| |exact Hinner|lia].
    rewrite List.Forall_forall in Hst. exact (Hst (key, x) Hx).
Qed.

(** *** A printed object or array in running text *)

Lemma fromFirst_skip c before r :
  has c before = false -> fromFirst c (before +:+ String c r) = Some (String c r).
Proof.
  induction before as [|ch w IH]; intros H.
  - cbn [String.append fromFirst]. rewrite Ascii.eqb_refl. reflexivity.
  - cbn [has] in H. apply orb_false_iff in H as [Hc H].
    change (String ch w +:+ String c r) with (String ch (w +:+ String c r)).
    cbn [fromFirst]. rewrite Hc. exact (IH H).
Qed.

Lemma string_of_revapp w o c :
  string_of_list_ascii (rev (c :: revapp w [o])) = String o (w +:+ String c EmptyString).
Proof.
  unfold revapp. cbn [rev]. rewrite rev_app_distr, rev_involutive.
  cbn [rev app string_of_list_ascii]. f_equal.
  induction w as [|x w IH]; [reflexivity|].
  cbn [list_ascii_of_string app string_of_list_ascii]. rewrite IH. reflexivity.
Qed.

(** The scan started at the opening bracket of [mid] in brackets returns
    at the closing one. *)
Lemma extractBalanced_nested k before mid after :
  has (opening k) before = false -> through k mid ->
  extractBalanced
    (before +:+ String (opening k) (mid +:+ String (closing k) EmptyString) +:+ after)
    (opening k) (closing k)
  = Some (String (opening k) (mid +:+ String (closing k) EmptyString)).
Proof.
  intros Hbefore Hmid. unfold extractBalanced.
  change (String (opening k) (mid +:+ String (closing k) EmptyString) +:+ after)
    with (String (opening k) ((mid +:+ String (closing k) EmptyString) +:+ after)).
  rewrite (fromFirst_skip (opening k) before _ Hbefore). rewrite app_assoc.
  assert (Ho : ((opening k =? "092")%char = false) /\ ((opening k =? "034")%char = false)
               /\ ((closing k =? "092")%char = false)
               /\ ((closing k =? "034")%char = false)
               /\ ((closing k =? opening k)%char = false))
    by (destruct k; repeat split; reflexivity).
  destruct Ho as (H1 & H2 & H3 & H4 & H5).
  cbn [balancedLoop]. rewrite H1, H2, Ascii.eqb_refl.
  rewrite (balancedLoop_passes _ _ mid _ _ _ _ _ _ _ _ (Hmid 1%Z ltac:(lia))).
  change (String (closing k) EmptyString +:+ after) with (String (closing k) after).
  cbn [balancedLoop]. rewrite H3, H4, H5, Ascii.eqb_refl.
  change (1 - 1 =? 0)%Z with true. cbv iota.
  rewrite string_of_revapp. reflexivity.
Qed.

Lemma extractBalanced_object (fields : list (string * value)) (indent before after : string) :
  storable (VObj fields) -> blank indent = true -> has "{" before = false ->
  extractBalanced (before +:+ ser indent (VObj fields) +:+ after) "{" "}"
  = Some (ser indent (VObj fields)).
Proof.
  intros Hst Hind Hbefore.
  assert (Hinner : blank (indent +:+ "  ") = true) by (apply blank_app; auto).
  apply storable_obj in Hst as [_ Hst].
  rewrite (ser_object indent fields Hst), wrap_between.
  apply (extractBalanced_nested braces); [exact Hbefore|].
  apply through_between; [exact Hind|exact Hinner|].
  apply List.Forall_forall. intros part Hpart.
  apply in_map_iff in Hpart as ([key x] & <- & Hx). apply through_member.
  apply (through_ser braces (String.length (ser (indent +:+ "  ") x)));
    [|exact Hinner|apply Nat.le_refl].
  rewrite List.Forall_forall in Hst. exact (Hst (key, x) Hx).
Qed.

Lemma extractBalanced_array (items : list value) (before after : string) :
  storable (VArr items) -> has "[" before = false ->
  extractBalanced (before +:+ ser EmptyString (VArr items) +:+ after) "[" "]"
  = Some (ser EmptyString (VArr items)).
Proof.
  intros Hst Hbefore. apply storable_arr in Hst.
  change (ser EmptyString (VArr items))
    with (wrap "[" "]" EmptyString "  " (map (ser "  ") items)).
  rewrite wrap_between.
  apply (extractBalanced_nested squares); [exact Hbefore|].
  apply through_between; [reflexivity|reflexivity|].
  apply List.Forall_forall. intros part Hpart.
  apply in_map_iff in Hpart as (x & <- & Hx).
  apply (through_ser squares (String.length (ser "  " x)));
    [|reflexivity|apply Nat.le_refl].
  rewrite List.Forall_forall in Hst. exact (Hst x Hx).
Qed.

Lemma parse_printed v indent :
  storable v -> blank indent = true -> parse (ser indent v) = Some v.
Proof.
  intros Hst Hind. unfold parse.
  pose proof (parseValue_ser (S (2 * String.length (ser indent v)))
                v indent EmptyString Hst Hind eq_refl) as H.
  rewrite app_nil_r in H. rewrite H by lia. reflexivity.
Qed.

Lemma nonEmpty_ser indent v :
  storable v -> nonEmpty (Some (ser indent v)) = Some (ser indent v).
Proof.
  intros Hst. destruct (ser_first indent v Hst) as (c & r & -> & _). reflexivity.
Qed.

Lemma extractJson_printed (fields : list (string * value)) (indent before after : string) :
  storable (VObj fields) -> blank indent = true ->
  has backtick (before +:+ ser indent (VObj fields) +:+ after) = false ->
  has "{" before = false ->
  extractJson (before +:+ ser indent (VObj fields) +:+ after) = VObj fields.
Proof.
  intros Hst Hind Hfence Hbefore. unfold extractJson.
  rewrite (fenceMatch_none _ Hfence). cbn [option_map tryParse].
  rewrite (extractBalanced_object fields indent before after Hst Hind Hbefore).
  rewrite (nonEmpty_ser indent _ Hst). cbn [tryParse].
  rewrite (parse_printed _ indent Hst Hind). reflexivity.
Qed.

(** X26.  An object that [JSON.stringify] printed is recovered from running
    text without a code fence: when no opening brace stands before it
    and the text holds no backtick, [extractJson] returns the object,
    whatever braces, brackets and quotes its strings, or the text after
    it, contain. *)
Theorem extractJson_raw_object
  (fields : list (string * value)) (before after : string) :
  storable (VObj fields) ->
  has backtick (before +:+ stringify (VObj fields) +:+ after) = false ->
  has "{" before = false ->
  extractJson (before +:+ stringify (VObj fields) +:+ after) = VObj fields.
Proof.
  intros Hst. unfold stringify. rewrite (serialize_ser EmptyString _ Hst).
  cbv [default from_option Datatypes.id]. apply extractJson_printed; [exact Hst|reflexivity].
Qed.

Lemma extractJson_raw_object_witness :
  extractJson ("The plan: "
               +:+ stringify (VObj [("summary", VStr "close } then open {");
                                    ("tasks", VArr [VStr "[x]"])])
               +:+ " (see {notes}).")
  = VObj [("summary", VStr "close } then open {"); ("tasks", VArr [VStr "[x]"])].
Proof.
  apply (extractJson_raw_object
           [("summary", VStr "close } then open {"); ("tasks", VArr [VStr "[x]"])]
           "The plan: " " (see {notes}).").
  - split; [|cbn; auto].
    apply (bool_decide_unpack (NoDup ["summary"; "tasks"])). reflexivity.
  - vm_compute. reflexivity.
  - reflexivity.
Defined.

(** X27.  A printed array is recovered from running text without a code fence
    when the text holds no opening brace at all, besides no backtick,
    and no opening bracket stands before the array. *)
Theorem extractJson_raw_array
  (items : list value) (before after : string) :
  storable (VArr items) ->
  has backtick (before +:+ stringify (VArr items) +:+ after) = false ->
  has "{" (before +:+ stringify (VArr items) +:+ after) = false ->
  has "[" before = false ->
  extractJson (before +:+ stringify (VArr items) +:+ after) = VArr items.
Proof.
  intros Hst. unfold stringify. rewrite (serialize_ser EmptyString _ Hst).
  cbv [default from_option Datatypes.id]. intros Hfence Hbrace Hbefore.
  unfold extractJson. rewrite (fenceMatch_none _ Hfence). cbn [option_map tryParse].
  assert (Hnone : extractBalanced (before +:+ ser EmptyString (VArr items) +:+ after) "{" "}"
                  = None).
  { unfold extractBalanced. rewrite (fromFirst_none _ _ Hbrace). reflexivity. }
  rewrite Hnone. cbn [nonEmpty tryParse].
  rewrite (extractBalanced_array items before after Hst Hbefore).
  rewrite (nonEmpty_ser EmptyString _ Hst). cbn [tryParse].
  rewrite (parse_printed _ EmptyString Hst eq_refl). reflexivity.
Qed.

Lemma extractJson_raw_array_witness :
  extractJson ("Ids: " +:+ stringify (VArr [VStr "a]"; VArr [VNum 1; VNull]]) +:+ " [done]")
  = VArr [VStr "a]"; VArr [VNum 1; VNull]].
Proof.
  apply (extractJson_raw_array [VStr "a]"; VArr [VNum 1; VNull]] "Ids: " " [done]").
  - cbn. auto.
  - vm_compute. reflexivity.
  - vm_compute. reflexivity.
  - reflexivity.
Defined.

(** X28.  A printed array whose first element is an object is not recovered
    from text without a code fence: the scan for an object comes first
    and stops at the end of that first element, which is what
    [extractJson] returns. *)
Theorem extractJson_raw_array_first_object
  (fields : list (string * value)) (others : list value) (before after : string) :
  storable (VArr (VObj fields :: others)) ->
  has backtick (before +:+ stringify (VArr (VObj fields :: others)) +:+ after) = false ->
  has "{" before = false ->
  extractJson (before +:+ stringify (VArr (VObj fields :: others)) +:+ after)
  = VObj fields.
Proof.
  intros Hst. unfold stringify. rewrite (serialize_ser EmptyString _ Hst).
  cbv [default from_option Datatypes.id].
  assert (Hobj : storable (VObj fields)).
  { apply storable_arr in Hst. exact (Forall_inv Hst). }
  change (ser EmptyString (VArr (VObj fields :: others)))
    with (wrap "[" "]" EmptyString "  " (map (ser "  ") (VObj fields :: others))).
  cbn [map]. rewrite wrap_cons.
  set (tail := tailOf _ _ +:+ newline EmptyString +:+ String "]" EmptyString).
  intros Hfence Hbefore.
  assert (E : before +:+ String "[" (newline "  " +:+ ser "  " (VObj fields) +:+ tail) +:+ after
              = (before +:+ String "[" (newline "  "))
                +:+ ser "  " (VObj fields) +:+ (tail +:+ after)).
  { change (String "[" (newline "  " +:+ ser "  " (VObj fields) +:+ tail))
      with (String "[" (newline "  ") +:+ ser "  " (VObj fields) +:+ tail).
    rewrite !app_assoc. reflexivity. }
  rewrite E in *. apply extractJson_printed; [exact Hobj|reflexivity|exact Hfence|].
  rewrite has_app, Hbefore. reflexivity.
Qed.

Lemma extractJson_raw_array_first_object_witness :
  extractJson (stringify (VArr [VObj [("id", VStr "a")]; VObj [("id", VStr "b")]]))
  = VObj [("id", VStr "a")].
Proof.
  apply (extractJson_raw_array_first_object
           [("id", VStr "a")] [VObj [("id", VStr "b")]] EmptyString EmptyString).
  - cbn. repeat split; apply (bool_decide_unpack (NoDup ["id"])); reflexivity.
  - vm_compute. reflexivity.
  - reflexivity.
Defined.

End BalancedFacts.
